(** * OpenTUI text engine: UTF-8 scanner, grapheme width engine, text-buffer view

    A shallow embedding of [packages/core/src/zig/utf8.zig] and of
    [packages/core/src/text-buffer-view.ts], with the properties the
    specification states about them.

    Conventions of the embedding.
    - A byte slice [[]const u8] is a [list byte]; [text[i]] is [byte_at text i]
      and is read only under the bounds checks the source performs.
    - [usize] and [u32] values (positions, counts, columns) are [nat]; Zig
      traps on overflow of these types, the embedding has no overflow, so
      it describes every run that does not trap.
    - [tab_width] is a [u8] in the source and a [nat] here: the theorems
      hold for every tab width, those of the source included.
    - The [u8] fields of [GraphemeInfo] are filled with [@intCast] from
      wider values, which is illegal behaviour when the value is above 255
      (a panic in the safe build modes).  The cast is [intCast_u8]; a scan
      in which a cast has failed has no result list, it ends with [None].
    - Bytes read from the slice and codepoints ([u21]) are [Z], so the bit
      operations of the decoder are [Z.land], [Z.lor] and [Z.shiftl].
    - A [while] loop becomes a [Fixpoint] over a fuel argument; the entry
      points pass the slice length, which bounds the number of iterations,
      and every theorem is stated about the entry points. *)

From Stdlib Require Import ZArith List Bool Lia Arith.
From Stdlib.Strings Require Import Byte.
Import ListNotations.

Set Implicit Arguments.

(** ** Byte slices *)

Definition u8 (b : byte) : Z := Z.of_N (Byte.to_N b).

Definition byte_at (text : list byte) (i : nat) : Z := u8 (nth i text x00).

(** [vector_len] of the source: the scans work on 16-byte lanes. *)
Definition vector_len : nat := 16.

(** [@reduce(.Or, p(chunk))] for the chunk [text[pos .. pos+n)]. *)
Fixpoint chunk_any (p : Z -> bool) (text : list byte) (pos n : nat) : bool :=
  match n with
  | O => false
  | S n' => p (byte_at text pos) || chunk_any p text (S pos) n'
  end.

(** The width policy. *)
Inductive WidthMethod := wcwidth | unicode | no_zwj.

(** ** isAsciiOnly *)

Module AsciiOnly.

(** First loop: full 16-byte vectors.  [None] is the early [return false],
    [Some pos] the position at which the scalar loop takes over. *)
Fixpoint vec_loop (fuel : nat) (text : list byte) (pos : nat) : option nat :=
  match fuel with
  | O => Some pos
  | S fuel' =>
      if pos + vector_len <=? length text then
        let too_low := chunk_any (fun b => (b <? 32)%Z) text pos vector_len in
        let too_high := chunk_any (fun b => (b >? 126)%Z) text pos vector_len in
        if too_low || too_high then None
        else vec_loop fuel' text (pos + vector_len)
      else Some pos
  end.

(** Second loop: the remaining bytes, one at a time. *)
Fixpoint tail_loop (fuel : nat) (text : list byte) (pos : nat) : bool :=
  match fuel with
  | O => true
  | S fuel' =>
      if pos <? length text then
        let b := byte_at text pos in
        if (b <? 32)%Z || (b >? 126)%Z then false
        else tail_loop fuel' text (pos + 1)
      else true
  end.

End AsciiOnly.

Definition isAsciiOnly (text : list byte) : bool :=
  if length text =? 0 then false
  else match AsciiOnly.vec_loop (length text) text 0 with
       | None => false
       | Some pos => AsciiOnly.tail_loop (length text) text pos
       end.

(** ** findLineBreaks *)

Inductive LineBreakKind := LF | CR | CRLF.

(** [LineBreak] of the source, fields [pos] and [kind]. *)
Record LineBreak := mkLineBreak { lb_pos : nat; lb_kind : LineBreakKind }.

Module LineBreaks.

Definition is_nl (b : Z) : bool := (b =? 10)%Z.
Definition is_cr (b : Z) : bool := (b =? 13)%Z.

(** The inner [while (i < vector_len) : (i += 1)] of a chunk that contains
    a line terminator.  The state is [i], [prev_was_cr] and the result
    list; [result.breaks.append] adds at the end. *)
Fixpoint chunk_loop (fuel : nat) (text : list byte) (pos i : nat)
    (prev_was_cr : bool) (breaks : list LineBreak) : bool * list LineBreak :=
  match fuel with
  | O => (prev_was_cr, breaks)
  | S fuel' =>
      if i <? vector_len then
        let absolute_index := pos + i in
        let b := byte_at text absolute_index in
        if is_nl b then
          if (i =? 0) && prev_was_cr then
            chunk_loop fuel' text pos (i + 1) false breaks
          else
            let kind :=
              if (0 <? absolute_index) && is_cr (byte_at text (absolute_index - 1))
              then CRLF else LF in
            chunk_loop fuel' text pos (i + 1) prev_was_cr
              (breaks ++ [mkLineBreak absolute_index kind])
        else if is_cr b then
          if (absolute_index + 1 <? length text)
             && is_nl (byte_at text (absolute_index + 1)) then
            chunk_loop fuel' text pos (i + 1 + 1) prev_was_cr
              (breaks ++ [mkLineBreak (absolute_index + 1) CRLF])
          else
            chunk_loop fuel' text pos (i + 1) prev_was_cr
              (breaks ++ [mkLineBreak absolute_index CR])
        else chunk_loop fuel' text pos (i + 1) prev_was_cr breaks
      else (prev_was_cr, breaks)
  end.

(** The loop over full vectors; returns the position, [prev_was_cr] and the
    breaks found when it is left. *)
Fixpoint vec_loop (fuel : nat) (text : list byte) (pos : nat)
    (prev_was_cr : bool) (breaks : list LineBreak) : nat * bool * list LineBreak :=
  match fuel with
  | O => (pos, prev_was_cr, breaks)
  | S fuel' =>
      if pos + vector_len <=? length text then
        if chunk_any is_nl text pos vector_len || chunk_any is_cr text pos vector_len then
          let breaks' := snd (chunk_loop (S vector_len) text pos 0 prev_was_cr breaks) in
          vec_loop fuel' text (pos + vector_len)
            (is_cr (byte_at text (pos + vector_len - 1))) breaks'
        else vec_loop fuel' text (pos + vector_len) false breaks
      else (pos, prev_was_cr, breaks)
  end.

(** The scalar loop over the remaining bytes. *)
Fixpoint tail_loop (fuel : nat) (text : list byte) (pos : nat)
    (prev_was_cr : bool) (breaks : list LineBreak) : list LineBreak :=
  match fuel with
  | O => breaks
  | S fuel' =>
      if pos <? length text then
        let b := byte_at text pos in
        if is_nl b then
          if (0 <? pos) && is_cr (byte_at text (pos - 1)) && prev_was_cr then
            tail_loop fuel' text (pos + 1) false breaks
          else
            let kind :=
              if (0 <? pos) && is_cr (byte_at text (pos - 1)) then CRLF else LF in
            tail_loop fuel' text (pos + 1) false (breaks ++ [mkLineBreak pos kind])
        else if is_cr b then
          if (pos + 1 <? length text) && is_nl (byte_at text (pos + 1)) then
            tail_loop fuel' text (pos + 1 + 1) false
              (breaks ++ [mkLineBreak (pos + 1) CRLF])
          else
            tail_loop fuel' text (pos + 1) false (breaks ++ [mkLineBreak pos CR])
        else tail_loop fuel' text (pos + 1) false breaks
      else breaks
  end.

End LineBreaks.

Definition findLineBreaks (text : list byte) : list LineBreak :=
  let '(pos, prev_was_cr, breaks) :=
    LineBreaks.vec_loop (length text) text 0 false [] in
  LineBreaks.tail_loop (length text) text pos prev_was_cr breaks.

(** ** decodeUtf8Unchecked *)

(** The anonymous result struct [{ cp: u21, len: u3 }]. *)
Record Decoded := mkDecoded { dec_cp : Z; dec_len : nat }.

Definition decodeUtf8Unchecked (text : list byte) (pos : nat) : Decoded :=
  let b0 := byte_at text pos in
  if (b0 <? 0x80)%Z then mkDecoded b0 1
  else if length text <=? pos + 1 then mkDecoded 0xFFFD%Z 1
  else
    let b1 := byte_at text (pos + 1) in
    if (Z.land b0 0xE0 =? 0xC0)%Z then
      mkDecoded (Z.lor (Z.shiftl (Z.land b0 0x1F) 6) (Z.land b1 0x3F)) 2
    else if length text <=? pos + 2 then mkDecoded 0xFFFD%Z 1
    else
      let b2 := byte_at text (pos + 2) in
      if (Z.land b0 0xF0 =? 0xE0)%Z then
        mkDecoded (Z.lor (Z.lor (Z.shiftl (Z.land b0 0x0F) 12)
                                (Z.shiftl (Z.land b1 0x3F) 6))
                         (Z.land b2 0x3F)) 3
      else if length text <=? pos + 3 then mkDecoded 0xFFFD%Z 1
      else
        let b3 := byte_at text (pos + 3) in
        mkDecoded (Z.lor (Z.lor (Z.lor (Z.shiftl (Z.land b0 0x07) 18)
                                       (Z.shiftl (Z.land b1 0x3F) 12))
                                (Z.shiftl (Z.land b2 0x3F) 6))
                         (Z.land b3 0x3F)) 4.

(** ** Unicode data

    The tables come from the package [uucode], which is not part of the
    repository.  The engine reads two properties of a codepoint and calls
    [uucode.grapheme.isBreak], which keeps a [BreakState] between calls;
    these are the fields of [Uucode].  Of the general categories only the
    three mark categories are told apart by the engine, and of the East
    Asian widths only [fullwidth] and [wide]. *)

Inductive GeneralCategory :=
  | mark_nonspacing | mark_spacing_combining | mark_enclosing | other_category.

Inductive EastAsianWidth :=
  | neutral | fullwidth | halfwidth | wide | narrow | ambiguous.

Class Uucode : Type := {
  BreakState : Type;
  break_default : BreakState;
  general_category : Z -> GeneralCategory;
  east_asian_width : Z -> EastAsianWidth;
  grapheme_isBreak : Z -> Z -> BreakState -> bool * BreakState
}.

(** [WrapByWidthResult]; [PosByWidthResult] is the same struct. *)
Record WrapByWidthResult := mkResult {
  byte_offset : nat;
  grapheme_count : nat;
  columns_used : nat
}.

Definition PosByWidthResult := WrapByWidthResult.

Section WidthEngine.

Context {U : Uucode}.

Local Open Scope Z_scope.

Definition in_range (lo hi cp : Z) : bool := (lo <=? cp) && (cp <=? hi).

(** The enumerated emoji and pictograph ranges of [eawToWidth], in the
    order of the source. *)
Definition wide_ranges : list (Z * Z) :=
  [ (0x1F000, 0x1F02B); (0x1F030, 0x1F093); (0x1F0A0, 0x1F0AE);
    (0x1F0B1, 0x1F0BF); (0x1F0C1, 0x1F0CF); (0x1F0D1, 0x1F0F5);
    (0x231A, 0x231B); (0x2329, 0x232A); (0x23E9, 0x23EC);
    (0x23F0, 0x23F0); (0x23F3, 0x23F3); (0x25FD, 0x25FE);
    (0x2614, 0x2615); (0x2622, 0x2623); (0x2630, 0x2637);
    (0x2648, 0x2653); (0x267F, 0x267F); (0x2693, 0x2693);
    (0x269B, 0x269B); (0x26A0, 0x26A1); (0x26AA, 0x26AB);
    (0x26BD, 0x26BE); (0x26C4, 0x26C5); (0x26CE, 0x26CE);
    (0x26D1, 0x26D1); (0x26D4, 0x26D4); (0x26EA, 0x26EA);
    (0x26F2, 0x26F3); (0x26F5, 0x26F5); (0x26FA, 0x26FA);
    (0x26FD, 0x26FD);
    (0x203C, 0x203C); (0x2049, 0x2049); (0x2705, 0x2705);
    (0x270A, 0x270B); (0x2728, 0x2728); (0x274C, 0x274C);
    (0x274E, 0x274E); (0x2753, 0x2755); (0x2757, 0x2757);
    (0x2760, 0x2767); (0x2795, 0x2797); (0x27B0, 0x27B0);
    (0x27BF, 0x27BF); (0x2B1B, 0x2B1C); (0x2B50, 0x2B50);
    (0x2B55, 0x2B55);
    (0x1F300, 0x1F320); (0x1F32D, 0x1F335); (0x1F337, 0x1F37C);
    (0x1F37E, 0x1F393); (0x1F3A0, 0x1F3CA); (0x1F3CF, 0x1F3D3);
    (0x1F3E0, 0x1F3F0); (0x1F3F4, 0x1F3F4); (0x1F3F8, 0x1F3FF);
    (0x1F400, 0x1F43E); (0x1F440, 0x1F440); (0x1F442, 0x1F4FC);
    (0x1F4FF, 0x1F6C5); (0x1F6CC, 0x1F6CC); (0x1F6D0, 0x1F6D2);
    (0x1F6D5, 0x1F6D7); (0x1F6DC, 0x1F6DF); (0x1F6EB, 0x1F6EC);
    (0x1F6F4, 0x1F6FC); (0x1F700, 0x1F773); (0x1F780, 0x1F7D8);
    (0x1F7E0, 0x1F7EB); (0x1F800, 0x1F80B); (0x1F810, 0x1F847);
    (0x1F850, 0x1F859); (0x1F860, 0x1F887); (0x1F890, 0x1F8AD);
    (0x1F8B0, 0x1F8B1); (0x1F90C, 0x1F93A); (0x1F93C, 0x1F945);
    (0x1F947, 0x1FA53); (0x1FA60, 0x1FA6D); (0x1FA70, 0x1FA74);
    (0x1FA78, 0x1FA7C); (0x1FA80, 0x1FA86); (0x1FA90, 0x1FAAC);
    (0x1FAB0, 0x1FABA); (0x1FAC0, 0x1FAC5); (0x1FAD0, 0x1FAD9);
    (0x1FAE0, 0x1FAE7); (0x1FAF0, 0x1FAF8) ].

(** The default-ignorable codepoints [eawToWidth] gives width 0. *)
Definition zero_width_ranges : list (Z * Z) :=
  [ (0x200B, 0x200B); (0x200C, 0x200C); (0x200D, 0x200D); (0x2060, 0x2060);
    (0x034F, 0x034F); (0xFEFF, 0xFEFF); (0x180B, 0x180D); (0xFE00, 0xFE0F);
    (0xE0100, 0xE01EF) ].

Definition in_ranges (rs : list (Z * Z)) (cp : Z) : bool :=
  existsb (fun r => in_range (fst r) (snd r) cp) rs.

Definition eawToWidth (cp : Z) (eaw : EastAsianWidth) : Z :=
  if cp =? 0 then 0
  else if (cp <? 32) || ((0x7F <=? cp) && (cp <? 0xA0)) then -1
  else
    match general_category cp with
    | mark_nonspacing | mark_spacing_combining | mark_enclosing => 0
    | other_category =>
        if in_ranges zero_width_ranges cp then 0
        else
          match eaw with
          | fullwidth | wide => 2
          | _ => if in_ranges wide_ranges cp then 2 else 1
          end
    end.

Definition eastAsianWidth (cp : Z) : nat :=
  if 0x10FFFF <? cp then 0%nat
  else
    let width := eawToWidth cp (east_asian_width cp) in
    if 0 <? width then Z.to_nat width else 0%nat.

Definition asciiCharWidth (byte : Z) (tab_width : nat) : nat :=
  if byte =? 9 then tab_width
  else if (32 <=? byte) && (byte <=? 126) then 1%nat
  else 0%nat.

Definition charWidth (byte codepoint : Z) (tab_width : nat) : nat :=
  if byte =? 9 then tab_width
  else if (byte <? 0x80) && (32 <=? byte) && (byte <=? 126) then 1%nat
  else if 0x80 <=? byte then
    let w := eawToWidth codepoint (east_asian_width codepoint) in
    if 0 <? w then Z.to_nat w else 0%nat
  else 0%nat.

Definition isValidCodepoint (cp : Z) : bool :=
  negb (cp =? 0xFFFD) && (cp <=? 0x10FFFF).

(** [isGraphemeBreak]: the [*BreakState] argument is passed and returned. *)
Definition isGraphemeBreak (prev_cp : option Z) (curr_cp : Z)
    (break_state : BreakState) (width_method : WidthMethod) : bool * BreakState :=
  match width_method with
  | wcwidth =>
      match prev_cp with
      | None => (true, break_state)
      | Some p =>
          if negb (isValidCodepoint curr_cp) then (true, break_state)
          else if negb (isValidCodepoint p) then (true, break_state)
          else grapheme_isBreak p curr_cp break_state
      end
  | _ =>
      if negb (isValidCodepoint curr_cp) then (true, break_state)
      else
        let forced :=
          match width_method, prev_cp with
          | no_zwj, Some p => p =? 0x200D
          | _, _ => false
          end in
        if forced then (true, break_default)
        else
          match prev_cp with
          | Some p =>
              if negb (isValidCodepoint p) then (true, break_state)
              else grapheme_isBreak p curr_cp break_state
          | None => (true, break_state)
          end
  end.

(** [GraphemeWidthState] *)
Record GraphemeWidthState := mkWidthState {
  width : nat;
  has_width : bool;
  is_regional_indicator_pair : bool;
  has_vs16 : bool;
  has_indic_virama : bool;
  gw_width_method : WidthMethod
}.

Definition GraphemeWidthState_init (first_cp : Z) (first_width : nat) (width_method : WidthMethod)
  : GraphemeWidthState :=
  mkWidthState first_width (0 <? first_width)%nat
    (in_range 0x1F1E6 0x1F1FF first_cp) false false width_method.

Definition GraphemeWidthState_addCodepoint (self : GraphemeWidthState) (cp : Z) (cp_width : nat)
  : GraphemeWidthState :=
  match gw_width_method self with
  | wcwidth =>
      let w := eawToWidth cp (east_asian_width cp) in
      if 0 <? w then
        mkWidthState (width self + Z.to_nat w) true
          (is_regional_indicator_pair self) (has_vs16 self)
          (has_indic_virama self) (gw_width_method self)
      else self
  | _ =>
      let is_ri := in_range 0x1F1E6 0x1F1FF cp in
      let is_vs16 := cp =? 0xFE0F in
      let is_virama :=
        match general_category cp with mark_nonspacing => true | _ => false end in
      let is_devanagari_ra := cp =? 0x0930 in
      let is_devanagari_base := in_range 0x0915 0x0939 cp || in_range 0x0958 0x095F cp in
      if is_vs16 then
        mkWidthState
          (if has_width self && (width self =? 1)%nat then 2%nat else width self)
          (has_width self) (is_regional_indicator_pair self) true
          (has_indic_virama self) (gw_width_method self)
      else if is_virama then
        mkWidthState (width self) (has_width self)
          (is_regional_indicator_pair self) (has_vs16 self) true
          (gw_width_method self)
      else if is_regional_indicator_pair self && is_ri then
        mkWidthState (width self + cp_width) true
          (is_regional_indicator_pair self) (has_vs16 self)
          (has_indic_virama self) (gw_width_method self)
      else if negb (has_width self) && (0 <? cp_width)%nat then
        mkWidthState cp_width true
          (is_regional_indicator_pair self) (has_vs16 self)
          (has_indic_virama self) (gw_width_method self)
      else if has_width self && has_indic_virama self && is_devanagari_base
              && (0 <? cp_width)%nat then
        mkWidthState
          (if negb is_devanagari_ra then (width self + cp_width)%nat else width self)
          (has_width self) (is_regional_indicator_pair self) (has_vs16 self)
          false (gw_width_method self)
      else self
  end.

(** [ClusterState] *)
Record ClusterState := mkClusterState {
  cs_columns_used : nat;
  cs_grapheme_count : nat;
  cs_cluster_width : nat;
  cs_cluster_start : nat;
  cs_prev_cp : option Z;
  cs_break_state : BreakState;
  cs_width_state : GraphemeWidthState;
  cs_width_method : WidthMethod;
  cs_cluster_started : bool
}.

Definition ClusterState_init (width_method : WidthMethod) : ClusterState :=
  mkClusterState 0 0 0 0 None break_default
    (GraphemeWidthState_init 0 0 width_method) width_method false.

Local Close Scope Z_scope.

(** The tail both handlers share once a boundary is accepted:
    [cluster_width = 0], [cluster_start = new_cluster_start],
    [cluster_started = false]. *)
Definition open_cluster (state : ClusterState) (columns graphemes new_cluster_start : nat)
  : ClusterState :=
  mkClusterState columns graphemes 0 new_cluster_start
    (cs_prev_cp state) (cs_break_state state) (cs_width_state state)
    (cs_width_method state) false.

(** [handleClusterForWrap]: the boolean is the "stop" signal. *)
Definition handleClusterForWrap (state : ClusterState) (is_break : bool)
    (new_cluster_start max_columns : nat) : bool * ClusterState :=
  if is_break then
    match cs_prev_cp state with
    | Some _ =>
        if max_columns <? cs_columns_used state + cs_cluster_width state
        then (true, state)
        else (false,
              open_cluster state
                (cs_columns_used state + cs_cluster_width state)
                (cs_grapheme_count state + 1) new_cluster_start)
    | None =>
        (false,
         open_cluster state (cs_columns_used state) (cs_grapheme_count state)
           new_cluster_start)
    end
  else (false, state).

(** [handleClusterForPos] *)
Definition handleClusterForPos (state : ClusterState) (is_break : bool)
    (new_cluster_start max_columns : nat) (include_start_before : bool)
  : bool * ClusterState :=
  if is_break then
    match cs_prev_cp state with
    | Some _ =>
        let cluster_start_col := cs_columns_used state in
        let cluster_end_col := cs_columns_used state + cs_cluster_width state in
        if include_start_before then
          if max_columns <=? cluster_start_col then (true, state)
          else (false,
                open_cluster state cluster_end_col (cs_grapheme_count state + 1)
                  new_cluster_start)
        else
          if max_columns <? cluster_end_col then (true, state)
          else (false,
                open_cluster state cluster_end_col (cs_grapheme_count state)
                  new_cluster_start)
    | None =>
        (false,
         open_cluster state (cs_columns_used state) (cs_grapheme_count state)
           new_cluster_start)
    end
  else (false, state).

(** The two ways the loops read the codepoint at [pos]: the scanning loops
    take [decodeUtf8Unchecked(text, pos).cp] as it is; the width sums put
    U+FFFD when the decoded length overruns the slice. *)
Definition curr_cp_at (text : list byte) (pos : nat) : Z :=
  let b0 := byte_at text pos in
  if (b0 <? 0x80)%Z then b0 else dec_cp (decodeUtf8Unchecked text pos).

Definition curr_cp_checked (text : list byte) (pos : nat) : Z :=
  let b0 := byte_at text pos in
  if (b0 <? 0x80)%Z then b0
  else
    let dec := decodeUtf8Unchecked text pos in
    if length text <? pos + dec_len dec then 0xFFFD%Z else dec_cp dec.

Definition cp_len_at (text : list byte) (pos : nat) : nat :=
  let b0 := byte_at text pos in
  if (b0 <? 0x80)%Z then 1 else dec_len (decodeUtf8Unchecked text pos).

(** *** The scan shared by [findWrapPosByWidthUnicode] and
    [findPosByWidthUnicode]

    The two functions have the same three loops and differ in the handler
    they call at a boundary and in the treatment of the final cluster. *)

Section ClusterScan.

Variable handle : ClusterState -> bool -> nat -> bool * ClusterState.
Variable tab_width : nat.
Variable width_method : WidthMethod.

Definition result_of (state : ClusterState) : WrapByWidthResult :=
  mkResult (cs_cluster_start state) (cs_grapheme_count state) (cs_columns_used state).

(** The statements after the handler: start or extend the width state of
    the current cluster and remember the codepoint. *)
Definition accumulate (state : ClusterState) (curr_cp : Z) (cp_width : nat)
  : ClusterState :=
  let width_state :=
    if negb (cs_cluster_started state)
    then GraphemeWidthState_init curr_cp cp_width width_method
    else GraphemeWidthState_addCodepoint (cs_width_state state) curr_cp cp_width in
  let cluster_width :=
    if negb (cs_cluster_started state) then cp_width else width width_state in
  mkClusterState (cs_columns_used state) (cs_grapheme_count state) cluster_width
    (cs_cluster_start state) (Some curr_cp) (cs_break_state state) width_state
    (cs_width_method state) true.

(** One codepoint: break test, handler, accumulation.  [inl] is the early
    [return] of the enclosing function. *)
Definition visit (state : ClusterState) (at_pos : nat) (curr_cp : Z) (cp_width : nat)
  : WrapByWidthResult + ClusterState :=
  let '(is_break, break_state) :=
    isGraphemeBreak (cs_prev_cp state) curr_cp (cs_break_state state)
      (cs_width_method state) in
  let state1 :=
    mkClusterState (cs_columns_used state) (cs_grapheme_count state)
      (cs_cluster_width state) (cs_cluster_start state) (cs_prev_cp state)
      break_state (cs_width_state state) (cs_width_method state)
      (cs_cluster_started state) in
  let '(stop, state2) := handle state1 is_break at_pos in
  if stop then inl (result_of state2)
  else inr (accumulate state2 curr_cp cp_width).

(** A chunk of sixteen ASCII bytes. *)
Fixpoint ascii_chunk_loop (fuel : nat) (text : list byte) (pos i : nat)
    (state : ClusterState) : WrapByWidthResult + ClusterState :=
  match fuel with
  | O => inr state
  | S fuel' =>
      if i <? vector_len then
        let b := byte_at text (pos + i) in
        match visit state (pos + i) b (asciiCharWidth b tab_width) with
        | inl r => inl r
        | inr state' => ascii_chunk_loop fuel' text pos (i + 1) state'
        end
      else inr state
  end.

(** A chunk with a non-ASCII byte; returns the state and [i]. *)
Fixpoint mixed_chunk_loop (fuel : nat) (text : list byte) (pos i : nat)
    (state : ClusterState) : WrapByWidthResult + (ClusterState * nat) :=
  match fuel with
  | O => inr (state, i)
  | S fuel' =>
      if (i <? vector_len) && (pos + i <? length text) then
        let b0 := byte_at text (pos + i) in
        let curr_cp := curr_cp_at text (pos + i) in
        let cp_len := cp_len_at text (pos + i) in
        if length text <? pos + i + cp_len then inr (state, i)
        else
          match visit state (pos + i) curr_cp (charWidth b0 curr_cp tab_width) with
          | inl r => inl r
          | inr state' => mixed_chunk_loop fuel' text pos (i + cp_len) state'
          end
      else inr (state, i)
  end.

Fixpoint scan_vec_loop (fuel : nat) (text : list byte) (pos : nat)
    (state : ClusterState) : WrapByWidthResult + (ClusterState * nat) :=
  match fuel with
  | O => inr (state, pos)
  | S fuel' =>
      if pos + vector_len <=? length text then
        if negb (chunk_any (fun b => (0x80 <=? b)%Z) text pos vector_len) then
          match ascii_chunk_loop vector_len text pos 0 state with
          | inl r => inl r
          | inr state' => scan_vec_loop fuel' text (pos + vector_len) state'
          end
        else
          match mixed_chunk_loop vector_len text pos 0 state with
          | inl r => inl r
          | inr (state', i) => scan_vec_loop fuel' text (pos + i) state'
          end
      else inr (state, pos)
  end.

Fixpoint scan_tail_loop (fuel : nat) (text : list byte) (pos : nat)
    (state : ClusterState) : WrapByWidthResult + ClusterState :=
  match fuel with
  | O => inr state
  | S fuel' =>
      if pos <? length text then
        let b0 := byte_at text pos in
        let curr_cp := curr_cp_at text pos in
        let cp_len := cp_len_at text pos in
        match visit state pos curr_cp (charWidth b0 curr_cp tab_width) with
        | inl r => inl r
        | inr state' => scan_tail_loop fuel' text (pos + cp_len) state'
        end
      else inr state
  end.

(** Both loops in sequence, from the initial state. *)
Definition scan (text : list byte) : WrapByWidthResult + ClusterState :=
  match scan_vec_loop (length text) text 0 (ClusterState_init width_method) with
  | inl r => inl r
  | inr (state, pos) => scan_tail_loop (length text) text pos state
  end.

End ClusterScan.

(** The ASCII-only fast path, the same in all four functions. *)
Definition ascii_fast_path (text : list byte) (max_columns : nat) : WrapByWidthResult :=
  if length text <=? max_columns
  then mkResult (length text) (length text) (length text)
  else mkResult max_columns max_columns max_columns.

(** *** findWrapPosByWidth *)

Definition findWrapPosByWidthUnicode (text : list byte) (max_columns tab_width : nat)
    (isASCIIOnly : bool) (width_method : WidthMethod) : WrapByWidthResult :=
  if (length text =? 0) || (max_columns =? 0) then mkResult 0 0 0
  else if isASCIIOnly then ascii_fast_path text max_columns
  else
    match scan (fun st brk start => handleClusterForWrap st brk start max_columns)
               tab_width width_method text with
    | inl r => r
    | inr state =>
        match cs_prev_cp state with
        | Some _ =>
            if 0 <? cs_cluster_width state then
              if max_columns <? cs_columns_used state + cs_cluster_width state
              then result_of state
              else mkResult (length text) (cs_grapheme_count state + 1)
                     (cs_columns_used state + cs_cluster_width state)
            else mkResult (length text) (cs_grapheme_count state) (cs_columns_used state)
        | None => mkResult (length text) (cs_grapheme_count state) (cs_columns_used state)
        end
    end.

Fixpoint wrap_wcwidth_loop (fuel : nat) (text : list byte) (max_columns tab_width : nat)
    (pos columns codepoint_count : nat) : WrapByWidthResult :=
  match fuel with
  | O => mkResult (length text) codepoint_count columns
  | S fuel' =>
      if pos <? length text then
        let b0 := byte_at text pos in
        let curr_cp := curr_cp_checked text pos in
        let cp_len := cp_len_at text pos in
        if length text <? pos + cp_len then mkResult (length text) codepoint_count columns
        else
          let cp_width := charWidth b0 curr_cp tab_width in
          if max_columns <=? columns then mkResult pos codepoint_count columns
          else if max_columns <? columns + cp_width then mkResult pos codepoint_count columns
          else wrap_wcwidth_loop fuel' text max_columns tab_width
                 (pos + cp_len) (columns + cp_width) (codepoint_count + 1)
      else mkResult (length text) codepoint_count columns
  end.

Definition findWrapPosByWidthWCWidth (text : list byte) (max_columns tab_width : nat)
    (isASCIIOnly : bool) : WrapByWidthResult :=
  if (length text =? 0) || (max_columns =? 0) then mkResult 0 0 0
  else if isASCIIOnly then ascii_fast_path text max_columns
  else wrap_wcwidth_loop (length text) text max_columns tab_width 0 0 0.

Definition findWrapPosByWidth (text : list byte) (max_columns tab_width : nat)
    (isASCIIOnly : bool) (width_method : WidthMethod) : WrapByWidthResult :=
  match width_method with
  | unicode | no_zwj =>
      findWrapPosByWidthUnicode text max_columns tab_width isASCIIOnly width_method
  | wcwidth => findWrapPosByWidthWCWidth text max_columns tab_width isASCIIOnly
  end.

(** *** findPosByWidth *)

Definition findPosByWidthUnicode (text : list byte) (max_columns tab_width : nat)
    (isASCIIOnly include_start_before : bool) (width_method : WidthMethod)
  : PosByWidthResult :=
  if (length text =? 0) || (max_columns =? 0) then mkResult 0 0 0
  else if isASCIIOnly then ascii_fast_path text max_columns
  else
    match scan (fun st brk start =>
                  handleClusterForPos st brk start max_columns include_start_before)
               tab_width width_method text with
    | inl r => r
    | inr state =>
        match cs_prev_cp state with
        | Some _ =>
            if 0 <? cs_cluster_width state then
              if max_columns <=? cs_columns_used state then result_of state
              else mkResult (length text)
                     (if include_start_before then cs_grapheme_count state + 1
                      else cs_grapheme_count state)
                     (cs_columns_used state + cs_cluster_width state)
            else mkResult (length text) (cs_grapheme_count state) (cs_columns_used state)
        | None => mkResult (length text) (cs_grapheme_count state) (cs_columns_used state)
        end
    end.

Fixpoint pos_wcwidth_loop (fuel : nat) (text : list byte) (max_columns tab_width : nat)
    (include_start_before : bool) (pos columns codepoint_count : nat) : PosByWidthResult :=
  match fuel with
  | O => mkResult (length text) codepoint_count columns
  | S fuel' =>
      if pos <? length text then
        let b0 := byte_at text pos in
        let curr_cp := curr_cp_checked text pos in
        let cp_len := cp_len_at text pos in
        if length text <? pos + cp_len then mkResult (length text) codepoint_count columns
        else
          let cp_width := charWidth b0 curr_cp tab_width in
          let cp_start_col := columns in
          let cp_end_col := columns + cp_width in
          if (if include_start_before then max_columns <=? cp_start_col
              else max_columns <? cp_end_col)
          then mkResult pos codepoint_count columns
          else pos_wcwidth_loop fuel' text max_columns tab_width include_start_before
                 (pos + cp_len) cp_end_col (codepoint_count + 1)
      else mkResult (length text) codepoint_count columns
  end.

Definition findPosByWidthWCWidth (text : list byte) (max_columns tab_width : nat)
    (isASCIIOnly include_start_before : bool) : PosByWidthResult :=
  if (length text =? 0) || (max_columns =? 0) then mkResult 0 0 0
  else if isASCIIOnly then ascii_fast_path text max_columns
  else pos_wcwidth_loop (length text) text max_columns tab_width include_start_before 0 0 0.

Definition findPosByWidth (text : list byte) (max_columns tab_width : nat)
    (isASCIIOnly include_start_before : bool) (width_method : WidthMethod)
  : PosByWidthResult :=
  match width_method with
  | unicode | no_zwj =>
      findPosByWidthUnicode text max_columns tab_width isASCIIOnly
        include_start_before width_method
  | wcwidth =>
      findPosByWidthWCWidth text max_columns tab_width isASCIIOnly include_start_before
  end.

(** *** getWidthAt *)

Fixpoint getWidthAt_loop (fuel : nat) (text : list byte) (tab_width : nat)
    (width_method : WidthMethod) (pos : nat) (prev_cp : option Z)
    (break_state : BreakState) (state : GraphemeWidthState) : nat :=
  match fuel with
  | O => width state
  | S fuel' =>
      if pos <? length text then
        let b := byte_at text pos in
        let curr_cp := curr_cp_at text pos in
        let cp_len := cp_len_at text pos in
        if length text <? pos + cp_len then width state
        else
          let '(is_break, break_state') :=
            isGraphemeBreak prev_cp curr_cp break_state width_method in
          if is_break then width state
          else
            getWidthAt_loop fuel' text tab_width width_method (pos + cp_len)
              (Some curr_cp) break_state'
              (GraphemeWidthState_addCodepoint state curr_cp
                 (charWidth b curr_cp tab_width))
      else width state
  end.

Definition getWidthAtUnicode (text : list byte) (byte_offset tab_width : nat)
    (width_method : WidthMethod) : nat :=
  if length text <=? byte_offset then 0
  else
    let b0 := byte_at text byte_offset in
    if (0x80 <=? b0)%Z
       && (length text <? byte_offset + dec_len (decodeUtf8Unchecked text byte_offset))
    then 1
    else
      let first_cp := curr_cp_at text byte_offset in
      let first_len := cp_len_at text byte_offset in
      let first_width := charWidth b0 first_cp tab_width in
      getWidthAt_loop (length text) text tab_width width_method
        (byte_offset + first_len) (Some first_cp) break_default
        (GraphemeWidthState_init first_cp first_width width_method).

Definition getWidthAtWCWidth (text : list byte) (byte_offset tab_width : nat) : nat :=
  if length text <=? byte_offset then 0
  else
    let b0 := byte_at text byte_offset in
    if (0x80 <=? b0)%Z
       && (length text <? byte_offset + dec_len (decodeUtf8Unchecked text byte_offset))
    then 1
    else charWidth b0 (curr_cp_at text byte_offset) tab_width.

Definition getWidthAt (text : list byte) (byte_offset tab_width : nat)
    (width_method : WidthMethod) : nat :=
  match width_method with
  | unicode | no_zwj => getWidthAtUnicode text byte_offset tab_width width_method
  | wcwidth => getWidthAtWCWidth text byte_offset tab_width
  end.

(** *** calculateTextWidth *)

Fixpoint textWidth_unicode_loop (fuel : nat) (text : list byte) (tab_width : nat)
    (width_method : WidthMethod) (pos total_width : nat) (prev_cp : option Z)
    (break_state : BreakState) (state : GraphemeWidthState) : nat :=
  match fuel with
  | O => total_width
  | S fuel' =>
      if pos <? length text then
        let b0 := byte_at text pos in
        let curr_cp := curr_cp_checked text pos in
        let cp_len := cp_len_at text pos in
        let '(is_break, break_state') :=
          isGraphemeBreak prev_cp curr_cp break_state width_method in
        let cp_width := charWidth b0 curr_cp tab_width in
        if is_break then
          textWidth_unicode_loop fuel' text tab_width width_method (pos + cp_len)
            (match prev_cp with
             | Some _ => total_width + width state
             | None => total_width
             end)
            (Some curr_cp) break_state'
            (GraphemeWidthState_init curr_cp cp_width width_method)
        else
          textWidth_unicode_loop fuel' text tab_width width_method (pos + cp_len)
            total_width (Some curr_cp) break_state'
            (GraphemeWidthState_addCodepoint state curr_cp cp_width)
      else
        match prev_cp with
        | Some _ => total_width + width state
        | None => total_width
        end
  end.

Definition calculateTextWidthUnicode (text : list byte) (tab_width : nat)
    (isASCIIOnly : bool) (width_method : WidthMethod) : nat :=
  if length text =? 0 then 0
  else if isASCIIOnly then length text
  else
    textWidth_unicode_loop (S (length text)) text tab_width width_method 0 0 None
      break_default (GraphemeWidthState_init 0 0 width_method).

Fixpoint textWidth_wcwidth_loop (fuel : nat) (text : list byte) (tab_width : nat)
    (pos total_width : nat) : nat :=
  match fuel with
  | O => total_width
  | S fuel' =>
      if pos <? length text then
        let b0 := byte_at text pos in
        let curr_cp := curr_cp_checked text pos in
        let cp_len := cp_len_at text pos in
        textWidth_wcwidth_loop fuel' text tab_width (pos + cp_len)
          (total_width + charWidth b0 curr_cp tab_width)
      else total_width
  end.

Definition calculateTextWidthWCWidth (text : list byte) (tab_width : nat)
    (isASCIIOnly : bool) : nat :=
  if length text =? 0 then 0
  else if isASCIIOnly then length text
  else textWidth_wcwidth_loop (length text) text tab_width 0 0.

Definition calculateTextWidth (text : list byte) (tab_width : nat)
    (isASCIIOnly : bool) (width_method : WidthMethod) : nat :=
  match width_method with
  | unicode | no_zwj => calculateTextWidthUnicode text tab_width isASCIIOnly width_method
  | wcwidth => calculateTextWidthWCWidth text tab_width isASCIIOnly
  end.

End WidthEngine.

(** ** A model of the Unicode tables *)

Module UucodeModel.

Local Open Scope Z_scope.

(** Grapheme_Cluster_Break classes of UAX #29 used by the model. *)
Inductive GraphemeBreakProperty :=
  | gb_cr | gb_lf | gb_control | gb_extend | gb_zwj | gb_regional_indicator
  | gb_prepend | gb_spacing_mark | gb_extended_pictographic | gb_other.

Definition nonspacing_marks : list (Z * Z) :=
  [ (0x0300, 0x036F); (0x0483, 0x0487); (0x0591, 0x05BD); (0x093C, 0x093C);
    (0x0941, 0x0948); (0x094D, 0x094D); (0x20D0, 0x20DC); (0xFE00, 0xFE0F);
    (0xFE20, 0xFE2F); (0xE0100, 0xE01EF) ].

Definition enclosing_marks : list (Z * Z) :=
  [ (0x0488, 0x0489); (0x20DD, 0x20E0) ].

Definition spacing_marks : list (Z * Z) :=
  [ (0x0903, 0x0903); (0x093E, 0x0940); (0x0949, 0x094C) ].

Definition control_ranges : list (Z * Z) :=
  [ (0x00, 0x09); (0x0B, 0x0C); (0x0E, 0x1F); (0x7F, 0x9F); (0xAD, 0xAD);
    (0x200B, 0x200B); (0x2028, 0x2029); (0x2060, 0x206F); (0xFEFF, 0xFEFF) ].

Definition other_extend : list (Z * Z) :=
  [ (0x200C, 0x200C); (0x1F3FB, 0x1F3FF); (0xE0020, 0xE007F) ].

Definition pictographic_ranges : list (Z * Z) :=
  [ (0x00A9, 0x00A9); (0x00AE, 0x00AE); (0x203C, 0x203C); (0x2049, 0x2049);
    (0x2122, 0x2122); (0x2139, 0x2139); (0x231A, 0x231B); (0x23E9, 0x23F3);
    (0x2600, 0x27BF); (0x2B05, 0x2B07); (0x2B1B, 0x2B1C); (0x2B50, 0x2B50);
    (0x2B55, 0x2B55); (0x1F000, 0x1F0FF); (0x1F300, 0x1F3FA);
    (0x1F400, 0x1F64F); (0x1F680, 0x1F6FF); (0x1F900, 0x1FAFF) ].

Definition wide_blocks : list (Z * Z) :=
  [ (0x1100, 0x115F); (0x2E80, 0x303E); (0x3041, 0x33FF); (0x3400, 0x4DBF);
    (0x4E00, 0x9FFF); (0xA000, 0xA4CF); (0xAC00, 0xD7A3); (0xF900, 0xFAFF);
    (0xFE30, 0xFE4F); (0x20000, 0x3FFFD) ].

Definition fullwidth_blocks : list (Z * Z) :=
  [ (0xFF01, 0xFF60); (0xFFE0, 0xFFE6) ].

(** Indic_Conjunct_Break for Devanagari: consonants and the virama. *)
Definition indic_consonant (cp : Z) : bool :=
  in_range 0x0915 0x0939 cp || in_range 0x0958 0x095F cp.

Definition indic_linker (cp : Z) : bool := cp =? 0x094D.

(** Modelled from the spec: the table [general_category] of the package
    [uucode] is missing; section 4.1 names the mark categories (Mn, Mc, Me)
    as the ones of width 0.  The model lists the marks of the combining
    diacritical, Cyrillic, Hebrew, Devanagari and variation-selector
    blocks; every other codepoint is in no mark category. *)
Definition model_general_category (cp : Z) : GeneralCategory :=
  if in_ranges nonspacing_marks cp then mark_nonspacing
  else if in_ranges enclosing_marks cp then mark_enclosing
  else if in_ranges spacing_marks cp then mark_spacing_combining
  else other_category.

(** Modelled from the spec: the table [east_asian_width] of the package
    [uucode] is missing; section 4.1 lists unified CJK, kana, Hangul
    syllables and the fullwidth forms as wide.  Emoji are left to the
    ranges [eawToWidth] enumerates itself. *)
Definition model_east_asian_width (cp : Z) : EastAsianWidth :=
  if in_ranges wide_blocks cp then wide
  else if in_ranges fullwidth_blocks cp then fullwidth
  else if in_range 0x20 0x7E cp then narrow
  else if cp =? 0xFFFD then ambiguous
  else neutral.

Definition grapheme_break_property (cp : Z) : GraphemeBreakProperty :=
  if cp =? 0x0D then gb_cr
  else if cp =? 0x0A then gb_lf
  else if in_ranges control_ranges cp then gb_control
  else if cp =? 0x200D then gb_zwj
  else if in_ranges nonspacing_marks cp || in_ranges enclosing_marks cp
          || in_ranges other_extend cp then gb_extend
  else if in_ranges spacing_marks cp then gb_spacing_mark
  else if in_range 0x0600 0x0605 cp then gb_prepend
  else if in_range 0x1F1E6 0x1F1FF cp then gb_regional_indicator
  else if in_ranges pictographic_ranges cp then gb_extended_pictographic
  else gb_other.

(** The per-stream state of [uucode.grapheme.isBreak]. *)
Inductive ModelBreakState :=
  | bs_default | bs_regional_indicator | bs_extended_pictographic
  | bs_indic_consonant | bs_indic_linker.

Definition is_joiner (g : GraphemeBreakProperty) : bool :=
  match g with gb_extend | gb_zwj => true | _ => false end.

(** The state is dropped when the pair at hand cannot continue the
    sequence the state stands for. *)
Definition settle (st : ModelBreakState) (p c : Z) : ModelBreakState :=
  let g1 := grapheme_break_property p in
  let g2 := grapheme_break_property c in
  match st with
  | bs_default => bs_default
  | bs_regional_indicator =>
      match g1, g2 with
      | gb_regional_indicator, gb_regional_indicator => st
      | _, _ => bs_default
      end
  | bs_extended_pictographic =>
      if (is_joiner g1 || match g1 with gb_extended_pictographic => true | _ => false end)
         && (is_joiner g2 || match g2 with gb_extended_pictographic => true | _ => false end)
      then st else bs_default
  | bs_indic_consonant | bs_indic_linker =>
      if (is_joiner g1 || indic_consonant p) && (is_joiner g2 || indic_consonant c)
      then st else bs_default
  end.

(** Modelled from the spec: [uucode.grapheme.isBreak] is missing; section
    4.1 describes it as the UAX #29 break test with a per-stream state for
    Regional Indicator pairing, Extended_Pictographic + ZWJ joining and
    Indic virama sequences.  The rules are GB3, GB4, GB5, GB9, GB9a, GB9b,
    GB9c, GB11, GB12/13 and GB999 over the classes above (the Hangul rules
    GB6 to GB8 are left out: the model puts Hangul in [gb_other]). *)
Definition model_isBreak (p c : Z) (st0 : ModelBreakState) : bool * ModelBreakState :=
  let g1 := grapheme_break_property p in
  let g2 := grapheme_break_property c in
  let st := settle st0 p c in
  match g1, g2 with
  | gb_cr, gb_lf => (false, st)
  | (gb_cr | gb_lf | gb_control), _ => (true, bs_default)
  | _, (gb_cr | gb_lf | gb_control) => (true, bs_default)
  | _, (gb_extend | gb_zwj) =>
      (false,
       match st with
       | bs_default =>
           match g1 with
           | gb_extended_pictographic => bs_extended_pictographic
           | _ =>
               if indic_consonant p
               then (if indic_linker c then bs_indic_linker else bs_indic_consonant)
               else st
           end
       | bs_indic_consonant => if indic_linker c then bs_indic_linker else st
       | _ => st
       end)
  | _, gb_spacing_mark => (false, st)
  | gb_prepend, _ => (false, st)
  | gb_zwj, gb_extended_pictographic =>
      match st with
      | bs_extended_pictographic => (false, bs_default)
      | _ => (true, bs_default)
      end
  | gb_regional_indicator, gb_regional_indicator =>
      match st with
      | bs_regional_indicator => (true, bs_default)
      | _ => (false, bs_regional_indicator)
      end
  | _, _ =>
      match st with
      | bs_indic_linker =>
          if indic_consonant c && is_joiner g1 then (false, bs_default)
          else (true, bs_default)
      | _ => (true, bs_default)
      end
  end.

End UucodeModel.

#[global] Instance uucode_model : Uucode := {|
  BreakState := UucodeModel.ModelBreakState;
  break_default := UucodeModel.bs_default;
  general_category := UucodeModel.model_general_category;
  east_asian_width := UucodeModel.model_east_asian_width;
  grapheme_isBreak := UucodeModel.model_isBreak
|}.

(** ** Reference notions used in the statements *)

(** *** Line terminators, position by position

    What the specification says of [\r\n], a lone [\r] and a lone [\n],
    read off the bytes around one position. *)

Definition line_break_at (text : list byte) (p : nat) : option LineBreakKind :=
  let b := byte_at text p in
  if LineBreaks.is_nl b then
    if (0 <? p) && LineBreaks.is_cr (byte_at text (p - 1)) then Some CRLF else Some LF
  else if LineBreaks.is_cr b then
    if (p + 1 <? length text) && LineBreaks.is_nl (byte_at text (p + 1))
    then None else Some CR
  else None.

Definition break_entry (text : list byte) (p : nat) : list LineBreak :=
  match line_break_at text p with
  | Some k => [mkLineBreak p k]
  | None => []
  end.

(** The terminators at the positions [a, a+1, ..., a+n-1], in order. *)
Definition breaks_between (text : list byte) (a n : nat) : list LineBreak :=
  flat_map (break_entry text) (seq a n).

Definition expected_line_breaks (text : list byte) : list LineBreak :=
  breaks_between text 0 (length text).

(** *** Well-formed UTF-8 (Unicode, table 3-7) *)

Definition is_continuation (b : Z) : bool := in_range 0x80 0xBF b.

Definition utf8_valid_at (text : list byte) (pos : nat) : bool :=
  let n := length text in
  let b0 := byte_at text pos in
  let b1 := byte_at text (pos + 1) in
  let b2 := byte_at text (pos + 2) in
  let b3 := byte_at text (pos + 3) in
  if n <=? pos then false
  else if (b0 <? 0x80)%Z then true
  else if in_range 0xC2 0xDF b0 then (pos + 1 <? n) && is_continuation b1
  else if (b0 =? 0xE0)%Z then
    (pos + 2 <? n) && in_range 0xA0 0xBF b1 && is_continuation b2
  else if in_range 0xE1 0xEC b0 || in_range 0xEE 0xEF b0 then
    (pos + 2 <? n) && is_continuation b1 && is_continuation b2
  else if (b0 =? 0xED)%Z then
    (pos + 2 <? n) && in_range 0x80 0x9F b1 && is_continuation b2
  else if (b0 =? 0xF0)%Z then
    (pos + 3 <? n) && in_range 0x90 0xBF b1 && is_continuation b2 && is_continuation b3
  else if in_range 0xF1 0xF3 b0 then
    (pos + 3 <? n) && is_continuation b1 && is_continuation b2 && is_continuation b3
  else if (b0 =? 0xF4)%Z then
    (pos + 3 <? n) && in_range 0x80 0x8F b1 && is_continuation b2 && is_continuation b3
  else false.

(** The sequence length the decoder reads off the first byte. *)
Definition declared_len (b0 : Z) : nat :=
  if (b0 <? 0x80)%Z then 1
  else if (Z.land b0 0xE0 =? 0xC0)%Z then 2
  else if (Z.land b0 0xF0 =? 0xE0)%Z then 3
  else 4.

(** A multi-byte sequence cut short by the end of the slice. *)
Definition truncated_at (text : list byte) (pos : nat) : Prop :=
  pos < length text /\ (0x80 <= byte_at text pos)%Z
  /\ length text < pos + declared_len (byte_at text pos).

(** The payload bits of a multi-byte sequence read as a number: the low
    five, four or three bits of the first byte, followed by the low six
    bits of each of the one, two or three bytes after it. *)
Definition payload_bits (text : list byte) (pos : nat) : Z :=
  let b0 := byte_at text pos in
  let b1 := byte_at text (pos + 1) in
  let b2 := byte_at text (pos + 2) in
  let b3 := byte_at text (pos + 3) in
  match declared_len b0 with
  | 2 => ((b0 mod 32) * 64 + b1 mod 64)%Z
  | 3 => ((b0 mod 16) * 4096 + (b1 mod 64) * 64 + b2 mod 64)%Z
  | _ => ((b0 mod 8) * 262144 + (b1 mod 64) * 4096 + (b2 mod 64) * 64 + b3 mod 64)%Z
  end.

(** *** Codepoints and grapheme clusters of a text *)

(** One decoded codepoint: where it starts, its first byte, its value and
    the number of bytes it takes. *)
Record Codepoint := mkCodepoint {
  cp_pos : nat;
  cp_byte : Z;
  cp_value : Z;
  cp_size : nat
}.

Fixpoint codepoints_from (fuel : nat) (text : list byte) (pos : nat) : list Codepoint :=
  match fuel with
  | O => []
  | S fuel' =>
      if pos <? length text then
        mkCodepoint pos (byte_at text pos) (curr_cp_at text pos) (cp_len_at text pos)
          :: codepoints_from fuel' text (pos + cp_len_at text pos)
      else []
  end.

(** The codepoints of [text] from byte [pos] on. *)
Definition codepoints_at (text : list byte) (pos : nat) : list Codepoint :=
  codepoints_from (length text - pos) text pos.

Definition codepoints (text : list byte) : list Codepoint := codepoints_at text 0.

(** A grapheme cluster: the bytes [cl_start, cl_end), its codepoints and
    its display width. *)
Record Cluster := mkCluster {
  cl_start : nat;
  cl_end : nat;
  cl_width : nat;
  cl_codepoints : list Codepoint
}.

Section Segmentation.

Context {U : Uucode}.

Variable width_method : WidthMethod.
Variable tab_width : nat.

Definition codepoint_width (c : Codepoint) : nat :=
  charWidth (cp_byte c) (cp_value c) tab_width.

(** The cluster being read: its start, width state and codepoints. *)
Definition OpenCluster : Type := nat * GraphemeWidthState * list Codepoint.

Definition close_cluster (cur : option OpenCluster) (end_pos : nat) : list Cluster :=
  match cur with
  | Some (start, ws, cps) => [mkCluster start end_pos (width ws) cps]
  | None => []
  end.

(** Cut a codepoint sequence where [isGraphemeBreak] says so, and give each
    piece the width [GraphemeWidthState] computes for it. *)
Fixpoint segment (cps : list Codepoint) (prev : option Z) (bs : BreakState)
    (cur : option OpenCluster) (end_pos : nat) : list Cluster :=
  match cps with
  | [] => close_cluster cur end_pos
  | c :: rest =>
      let '(is_break, bs') := isGraphemeBreak prev (cp_value c) bs width_method in
      let w := codepoint_width c in
      let fresh := (cp_pos c, GraphemeWidthState_init (cp_value c) w width_method, [c]) in
      if is_break then
        close_cluster cur (cp_pos c)
          ++ segment rest (Some (cp_value c)) bs' (Some fresh) end_pos
      else
        segment rest (Some (cp_value c)) bs'
          (Some match cur with
                | Some (start, ws, cs) =>
                    (start, GraphemeWidthState_addCodepoint ws (cp_value c) w, cs ++ [c])
                | None => fresh
                end) end_pos
  end.

(** The clusters of [text] read from byte [pos] with a fresh break state. *)
Definition clusters_at (text : list byte) (pos : nat) : list Cluster :=
  segment (codepoints_at text pos) None break_default None (length text).

Definition clusters (text : list byte) : list Cluster := clusters_at text 0.

End Segmentation.

Definition total_width (cls : list Cluster) : nat :=
  fold_right (fun c acc => cl_width c + acc) 0 cls.

(** The offset at which a run of clusters that starts at byte [a] ends. *)
Definition end_after (a : nat) (cls : list Cluster) : nat :=
  match rev cls with
  | c :: _ => cl_end c
  | [] => a
  end.

(** The offset at which a sequence of clusters that starts the text ends. *)
Definition prefix_end (cls : list Cluster) : nat := end_after 0 cls.

(** The clusters taken from the front while the column sum stays within
    [max_columns]. *)
Fixpoint fitting (max_columns columns : nat) (cls : list Cluster) : list Cluster :=
  match cls with
  | [] => []
  | c :: rest =>
      if max_columns <? columns + cl_width c then []
      else c :: fitting max_columns (columns + cl_width c) rest
  end.

(** The same for the codepoint-by-codepoint scan of the wcwidth paths,
    which also stops as soon as the sum has reached [max_columns]. *)
Fixpoint fitting_codepoints (w : Codepoint -> nat) (max_columns columns : nat)
    (cps : list Codepoint) : list Codepoint :=
  match cps with
  | [] => []
  | c :: rest =>
      if (max_columns <=? columns) || (max_columns <? columns + w c) then []
      else c :: fitting_codepoints w max_columns (columns + w c) rest
  end.

Definition sum_widths (w : Codepoint -> nat) (cps : list Codepoint) : nat :=
  fold_right (fun c acc => w c + acc) 0 cps.

(** The offset at which a run of codepoints that starts at byte [a] ends. *)
Definition codepoints_end_from (a : nat) (cps : list Codepoint) : nat :=
  match rev cps with
  | c :: _ => cp_pos c + cp_size c
  | [] => a
  end.

Definition codepoints_end (cps : list Codepoint) : nat := codepoints_end_from 0 cps.

Definition printable (b : byte) : Prop := (32 <= u8 b <= 126)%Z.

(** ** TextBufferView (text-buffer-view.ts)

    The class wraps a pointer to a native view.  The native library and the
    text buffer are outside the class: a call to them is recorded in a
    trace, and what it returns is given by [respond], a function of the
    calls made so far.  JavaScript numbers are only passed through and are
    modelled as [Z]; a string is the list of its code points. *)

Module TextBufferView.

Definition Pointer := nat.
Definition RGBA : Type := Z * Z * Z * Z.

Inductive WrapMode := wrap_none | wrap_char | wrap_word.

(** The native entry points the class calls, with their arguments. *)
Inductive NativeCall :=
  | textBufferViewSetSelection (view : Pointer) (start end_ : Z) (bg fg : option RGBA)
  | textBufferViewUpdateSelection (view : Pointer) (end_ : Z) (bg fg : option RGBA)
  | textBufferViewResetSelection (view : Pointer)
  | textBufferViewGetSelection (view : Pointer)
  | textBufferViewSetLocalSelection (view : Pointer) (anchorX anchorY focusX focusY : Z)
      (bg fg : option RGBA)
  | textBufferViewUpdateLocalSelection (view : Pointer) (anchorX anchorY focusX focusY : Z)
      (bg fg : option RGBA)
  | textBufferViewResetLocalSelection (view : Pointer)
  | textBufferViewSetWrapWidth (view : Pointer) (width : Z)
  | textBufferViewSetWrapMode (view : Pointer) (mode : WrapMode)
  | textBufferViewSetViewportSize (view : Pointer) (width height : Z)
  | textBufferViewSetViewport (view : Pointer) (x y width height : Z)
  | textBufferViewGetLineInfo (view : Pointer)
  | textBufferViewGetLogicalLineInfo (view : Pointer)
  | textBufferViewGetSelectedTextBytes (view : Pointer) (maxLength : Z)
  | textBufferViewGetPlainTextBytes (view : Pointer) (maxLength : Z)
  | textBufferViewSetTabIndicator (view : Pointer) (codePoint : Z)
  | textBufferViewSetTabIndicatorColor (view : Pointer) (color : RGBA)
  | textBufferViewSetTruncate (view : Pointer) (truncate : bool)
  | textBufferViewMeasureForDimensions (view : Pointer) (width height : Z)
  | textBufferViewGetVirtualLineCount (view : Pointer)
  | destroyTextBufferView (view : Pointer)
  | textBuffer_byteSize
  | decoder_decode (bytes : list byte).

(** Values that cross the boundary. *)
Inductive Value :=
  | VUndefined
  | VNull
  | VNumber (n : Z)
  | VBool (b : bool)
  | VPointer (p : Pointer)
  | VString (s : list Z)
  | VBytes (bytes : list byte)
  | VObject (fields : list Z).

(** The object and what it has done to the outside. *)
Record World := mkWorld {
  viewPtr : Pointer;
  _destroyed : bool;
  trace : list NativeCall
}.

Inductive Outcome (A : Type) :=
  | Returned (a : A)
  | Thrown (message : list byte).

Arguments Returned {A} a.
Arguments Thrown {A} message.

(** "TextBufferView is destroyed" *)
Definition destroyed_message : list byte :=
  [x54;x65;x78;x74;x42;x75;x66;x66;x65;x72;x56;x69;x65;x77;x20;x69;x73;x20;
   x64;x65;x73;x74;x72;x6f;x79;x65;x64].

(** Methods are state transformers that return or throw. *)
Definition M (A : Type) : Type := World -> Outcome A * World.

Definition ret {A} (a : A) : M A := fun w => (Returned a, w).

Definition bind {A B} (m : M A) (k : A -> M B) : M B :=
  fun w =>
    match m w with
    | (Returned a, w') => k a w'
    | (Thrown msg, w') => (Thrown msg, w')
    end.

Notation "x <- m ;; k" := (bind m (fun x => k))
  (at level 61, m at next level, right associativity).
Notation "m ;;; k" := (bind m (fun _ => k))
  (at level 61, right associativity).

Definition throw {A} (msg : list byte) : M A := fun w => (Thrown msg, w).

Section Methods.

(** What the native side answers to a call, given the calls before it. *)
Variable respond : list NativeCall -> NativeCall -> Value.

Definition native (c : NativeCall) : M Value :=
  fun w => (Returned (respond (trace w) c),
            mkWorld (viewPtr w) (_destroyed w) (trace w ++ [c])).

Definition this_viewPtr : M Pointer := fun w => (Returned (viewPtr w), w).

(** [private guard(): void] *)
Definition guard : M unit :=
  fun w => if _destroyed w then (Thrown destroyed_message, w) else (Returned tt, w).

Definition get_ptr : M Value :=
  guard ;;; p <- this_viewPtr ;; ret (VPointer p).

Definition setSelection (start end_ : Z) (bgColor fgColor : option RGBA) : M Value :=
  guard ;;; p <- this_viewPtr ;;
  native (textBufferViewSetSelection p start end_ bgColor fgColor) ;;; ret VUndefined.

Definition updateSelection (end_ : Z) (bgColor fgColor : option RGBA) : M Value :=
  guard ;;; p <- this_viewPtr ;;
  native (textBufferViewUpdateSelection p end_ bgColor fgColor) ;;; ret VUndefined.

Definition resetSelection : M Value :=
  guard ;;; p <- this_viewPtr ;;
  native (textBufferViewResetSelection p) ;;; ret VUndefined.

Definition getSelection : M Value :=
  guard ;;; p <- this_viewPtr ;; native (textBufferViewGetSelection p).

Definition hasSelection : M Value :=
  guard ;;; s <- getSelection ;;
  ret (VBool match s with VNull => false | _ => true end).

Definition setLocalSelection (anchorX anchorY focusX focusY : Z)
    (bgColor fgColor : option RGBA) : M Value :=
  guard ;;; p <- this_viewPtr ;;
  native (textBufferViewSetLocalSelection p anchorX anchorY focusX focusY bgColor fgColor).

Definition updateLocalSelection (anchorX anchorY focusX focusY : Z)
    (bgColor fgColor : option RGBA) : M Value :=
  guard ;;; p <- this_viewPtr ;;
  native (textBufferViewUpdateLocalSelection p anchorX anchorY focusX focusY bgColor fgColor).

Definition resetLocalSelection : M Value :=
  guard ;;; p <- this_viewPtr ;;
  native (textBufferViewResetLocalSelection p) ;;; ret VUndefined.

(** [width ?? 0] *)
Definition setWrapWidth (width : option Z) : M Value :=
  guard ;;; p <- this_viewPtr ;;
  native (textBufferViewSetWrapWidth p match width with Some n => n | None => 0%Z end)
  ;;; ret VUndefined.

Definition setWrapMode (mode : WrapMode) : M Value :=
  guard ;;; p <- this_viewPtr ;;
  native (textBufferViewSetWrapMode p mode) ;;; ret VUndefined.

Definition setViewportSize (width height : Z) : M Value :=
  guard ;;; p <- this_viewPtr ;;
  native (textBufferViewSetViewportSize p width height) ;;; ret VUndefined.

Definition setViewport (x y width height : Z) : M Value :=
  guard ;;; p <- this_viewPtr ;;
  native (textBufferViewSetViewport p x y width height) ;;; ret VUndefined.

Definition get_lineInfo : M Value :=
  guard ;;; p <- this_viewPtr ;; native (textBufferViewGetLineInfo p).

Definition get_logicalLineInfo : M Value :=
  guard ;;; p <- this_viewPtr ;; native (textBufferViewGetLogicalLineInfo p).

(** The common body of [getSelectedText] and [getPlainText]. *)
Definition text_through (fetch : Pointer -> Z -> NativeCall) : M Value :=
  guard ;;;
  byteSize <- native textBuffer_byteSize ;;
  match byteSize with
  | VNumber 0 => ret (VString [])
  | VNumber n =>
      p <- this_viewPtr ;;
      bytes <- native (fetch p n) ;;
      match bytes with
      | VBytes bs => native (decoder_decode bs)
      | _ => ret (VString [])
      end
  | _ => ret (VString [])
  end.

Definition getSelectedText : M Value := text_through textBufferViewGetSelectedTextBytes.

Definition getPlainText : M Value := text_through textBufferViewGetPlainTextBytes.

(** [indicator: string | number]; [indicator.codePointAt(0) ?? 0] *)
Definition setTabIndicator (indicator : list Z + Z) : M Value :=
  guard ;;; p <- this_viewPtr ;;
  native (textBufferViewSetTabIndicator p
            match indicator with inl s => hd 0%Z s | inr n => n end)
  ;;; ret VUndefined.

Definition setTabIndicatorColor (color : RGBA) : M Value :=
  guard ;;; p <- this_viewPtr ;;
  native (textBufferViewSetTabIndicatorColor p color) ;;; ret VUndefined.

Definition setTruncate (truncate : bool) : M Value :=
  guard ;;; p <- this_viewPtr ;;
  native (textBufferViewSetTruncate p truncate) ;;; ret VUndefined.

Definition measureForDimensions (width height : Z) : M Value :=
  guard ;;; p <- this_viewPtr ;;
  native (textBufferViewMeasureForDimensions p width height).

Definition getVirtualLineCount : M Value :=
  guard ;;; p <- this_viewPtr ;; native (textBufferViewGetVirtualLineCount p).

(** [destroy]: no guard; an early return on a destroyed view. *)
Definition destroy : M Value :=
  fun w =>
    if _destroyed w then (Returned VUndefined, w)
    else
      (Returned VUndefined,
       mkWorld (viewPtr w) true (trace w ++ [destroyTextBufferView (viewPtr w)])).

(** The public operations other than [destroy], with their arguments. *)
Inductive Operation :=
  | op_ptr
  | op_setSelection (start end_ : Z) (bg fg : option RGBA)
  | op_updateSelection (end_ : Z) (bg fg : option RGBA)
  | op_resetSelection
  | op_getSelection
  | op_hasSelection
  | op_setLocalSelection (anchorX anchorY focusX focusY : Z) (bg fg : option RGBA)
  | op_updateLocalSelection (anchorX anchorY focusX focusY : Z) (bg fg : option RGBA)
  | op_resetLocalSelection
  | op_setWrapWidth (width : option Z)
  | op_setWrapMode (mode : WrapMode)
  | op_setViewportSize (width height : Z)
  | op_setViewport (x y width height : Z)
  | op_lineInfo
  | op_logicalLineInfo
  | op_getSelectedText
  | op_getPlainText
  | op_setTabIndicator (indicator : list Z + Z)
  | op_setTabIndicatorColor (color : RGBA)
  | op_setTruncate (truncate : bool)
  | op_measureForDimensions (width height : Z)
  | op_getVirtualLineCount.

Definition perform (op : Operation) : M Value :=
  match op with
  | op_ptr => get_ptr
  | op_setSelection s e bg fg => setSelection s e bg fg
  | op_updateSelection e bg fg => updateSelection e bg fg
  | op_resetSelection => resetSelection
  | op_getSelection => getSelection
  | op_hasSelection => hasSelection
  | op_setLocalSelection ax ay fx fy bg fg => setLocalSelection ax ay fx fy bg fg
  | op_updateLocalSelection ax ay fx fy bg fg => updateLocalSelection ax ay fx fy bg fg
  | op_resetLocalSelection => resetLocalSelection
  | op_setWrapWidth w => setWrapWidth w
  | op_setWrapMode m => setWrapMode m
  | op_setViewportSize w h => setViewportSize w h
  | op_setViewport x y w h => setViewport x y w h
  | op_lineInfo => get_lineInfo
  | op_logicalLineInfo => get_logicalLineInfo
  | op_getSelectedText => getSelectedText
  | op_getPlainText => getPlainText
  | op_setTabIndicator i => setTabIndicator i
  | op_setTabIndicatorColor c => setTabIndicatorColor c
  | op_setTruncate t => setTruncate t
  | op_measureForDimensions w h => measureForDimensions w h
  | op_getVirtualLineCount => getVirtualLineCount
  end.

(** A program over one view: operations and [destroy] calls in sequence.
    A thrown error is caught by the caller, who goes on. *)
Inductive Call := call_op (op : Operation) | call_destroy.

Definition step (c : Call) : M Value :=
  match c with
  | call_op op => perform op
  | call_destroy => destroy
  end.

Fixpoint run (cs : list Call) (w : World) : list (Outcome Value) * World :=
  match cs with
  | [] => ([], w)
  | c :: rest =>
      let '(o, w') := step c w in
      let '(os, w'') := run rest w' in
      (o :: os, w'')
  end.

End Methods.

(** How often the native view of [w] has been released. *)
Definition releases (w : World) : nat :=
  length (filter (fun c => match c with destroyTextBufferView _ => true | _ => false end)
            (trace w)).

End TextBufferView.

(** ** Loop invariants

    The states in which the loops of the scanner are entered and left;
    the proofs below are inductions over the loops with these. *)

Module AsciiOnlyInv.

Definition ok (text : list byte) (i : nat) : Prop := (32 <= byte_at text i <= 126)%Z.

End AsciiOnlyInv.

Module LineBreakInv.

Import LineBreaks.

Section Text.

Variable text : list byte.

(** Position [q] holds the [\n] of a [\r\n] pair. *)
Definition crlf_second (q : nat) : bool :=
  (0 <? q) && is_cr (byte_at text (q - 1)) && (q <? length text)
  && is_nl (byte_at text q).

(** The state in which a chunk or the scalar loop is entered. *)
Definition entry_state (q : nat) (prev_was_cr : bool) (acc : list LineBreak) : Prop :=
  (prev_was_cr = true -> 0 < q /\ is_cr (byte_at text (q - 1)) = true)
  /\ (crlf_second q = true -> prev_was_cr = true /\ acc = breaks_between text 0 (q + 1))
  /\ (crlf_second q = false -> acc = breaks_between text 0 q).

(** The state between two bytes once the first byte has been seen. *)
Definition inner_state (q : nat) (acc : list LineBreak) : Prop :=
  acc = breaks_between text 0 q /\ crlf_second q = false.

(** What the inner loop has recorded when it is left: everything up to the
    end of the chunk, and the [\r\n] that straddles the boundary if there
    is one. *)
Definition chunk_done (pos : nat) (acc : list LineBreak) : Prop :=
  acc = breaks_between text 0 (pos + vector_len + (if crlf_second (pos + vector_len) then 1 else 0)).

End Text.

End LineBreakInv.

(** *** List views of the width scans *)

Section ScanViews.

Context {U : Uucode}.

Variable handle : ClusterState -> bool -> nat -> bool * ClusterState.
Variable tab_width : nat.
Variable width_method : WidthMethod.

(** The scalar loop of the scan run to the end of the text. *)
Definition tail_run (text : list byte) (pos : nat) (state : ClusterState)
  : WrapByWidthResult + ClusterState :=
  scan_tail_loop handle tab_width width_method (length text - pos) text pos state.

(** The same scan as a recursion over the decoded codepoints. *)
Fixpoint scan_list (cps : list Codepoint) (state : ClusterState)
  : WrapByWidthResult + ClusterState :=
  match cps with
  | [] => inr state
  | c :: rest =>
      match visit handle width_method state (cp_pos c) (cp_value c)
              (charWidth (cp_byte c) (cp_value c) tab_width) with
      | inl r => inl r
      | inr state' => scan_list rest state'
      end
  end.

(** The scan state stands for the segmentation state [(prev, bs, cur)]. *)
Definition agrees (state : ClusterState) (prev : option Z) (bs : BreakState)
    (cur : option OpenCluster) : Prop :=
  cs_prev_cp state = prev
  /\ cs_break_state state = bs
  /\ cs_width_method state = width_method
  /\ match cur with
     | Some (start, ws, _) =>
         prev <> None
         /\ cs_cluster_started state = true
         /\ cs_cluster_start state = start
         /\ cs_width_state state = ws
         /\ cs_cluster_width state = width ws
     | None => prev = None /\ cs_cluster_started state = false
     end.

End ScanViews.

(** What [findWrapPosByWidthUnicode] does after its loops. *)
Definition wrap_finish {U : Uucode} (max_columns text_len : nat)
    (out : WrapByWidthResult + ClusterState) : WrapByWidthResult :=
  match out with
  | inl r => r
  | inr state =>
      match cs_prev_cp state with
      | Some _ =>
          if 0 <? cs_cluster_width state then
            if max_columns <? cs_columns_used state + cs_cluster_width state
            then result_of state
            else mkResult text_len (cs_grapheme_count state + 1)
                   (cs_columns_used state + cs_cluster_width state)
          else mkResult text_len (cs_grapheme_count state) (cs_columns_used state)
      | None => mkResult text_len (cs_grapheme_count state) (cs_columns_used state)
      end
  end.

(** The wrap scan read off the list of clusters: a cluster that does not
    fit stops the scan at its start; the last cluster is counted only when
    its width is not zero. *)
Fixpoint wrap_clusters (max_columns columns graphemes : nat) (cls : list Cluster)
    (text_len : nat) : WrapByWidthResult :=
  match cls with
  | [] => mkResult text_len graphemes columns
  | c :: rest =>
      match rest with
      | [] =>
          if 0 <? cl_width c then
            if max_columns <? columns + cl_width c
            then mkResult (cl_start c) graphemes columns
            else mkResult text_len (graphemes + 1) (columns + cl_width c)
          else mkResult text_len graphemes columns
      | _ :: _ =>
          if max_columns <? columns + cl_width c
          then mkResult (cl_start c) graphemes columns
          else wrap_clusters max_columns (columns + cl_width c) (graphemes + 1)
                 rest text_len
      end
  end.

(** Clusters that follow one another from byte [a] to byte [b]. *)
Fixpoint chain (a : nat) (cls : list Cluster) (b : nat) : Prop :=
  match cls with
  | [] => a = b
  | c :: rest => cl_start c = a /\ chain (cl_end c) rest b
  end.

Definition head_width (cls : list Cluster) : nat :=
  match cls with
  | c :: _ => cl_width c
  | [] => 0
  end.

Definition last_width (cls : list Cluster) : nat :=
  match rev cls with
  | c :: _ => cl_width c
  | [] => 0
  end.

(** "The greatest prefix that ends on a cluster boundary and whose column
    sum is at most [max_columns]" is the first [k] clusters; [r] gives its
    end and its column sum. *)
Definition greatest_prefix (cls : list Cluster) (max_columns : nat)
    (r : WrapByWidthResult) (k : nat) : Prop :=
  k <= length cls
  /\ byte_offset r = prefix_end (firstn k cls)
  /\ columns_used r = total_width (firstn k cls)
  /\ columns_used r <= max_columns
  /\ forall j, j <= length cls -> total_width (firstn j cls) <= max_columns -> j <= k.

(** The table facts of Unicode the ASCII results rest on: printable ASCII
    characters never join each other, are not marks and are not wide. *)
Definition ascii_always_breaks {U : Uucode} : Prop :=
  forall (p c : Z) (st : BreakState),
    (32 <= p <= 126)%Z -> (32 <= c <= 126)%Z -> fst (grapheme_isBreak p c st) = true.

Definition ascii_is_narrow {U : Uucode} : Prop :=
  forall c : Z,
    (32 <= c <= 126)%Z ->
    general_category c = other_category
    /\ east_asian_width c <> wide /\ east_asian_width c <> fullwidth.

(** There is always a break before a TAB (rule GB5 of UAX #29). *)
Definition breaks_before_tab {U : Uucode} : Prop :=
  forall (p : Z) (st : BreakState), fst (grapheme_isBreak p 9 st) = true.

(** ** Texts used in the examples *)

(** "Hello 🌍 World" in UTF-8 (the emoji is F0 9F 8C 8D). *)
Definition hello_world : list byte :=
  [x48; x65; x6c; x6c; x6f; x20; xf0; x9f; x8c; x8d; x20; x57; x6f; x72; x6c; x64].

(** "e" followed by U+0301 COMBINING ACUTE ACCENT (CC 81): one cluster. *)
Definition e_acute : list byte := [x65; xcc; x81].

(** "abc" followed by C3, the first byte of a two-byte sequence. *)
Definition abc_truncated : list byte := [x61; x62; x63; xc3].

(** "a" followed by U+4E16 (E4 B8 96), a wide CJK character. *)
Definition a_cjk : list byte := [x61; xe4; xb8; x96].

(** "Hello, World!" *)
Definition hello_ascii : list byte :=
  [x48; x65; x6c; x6c; x6f; x2c; x20; x57; x6f; x72; x6c; x64; x21].

(** U+1F44B WAVING HAND followed by U+1F3FF, a skin tone modifier: one cluster. *)
Definition waving_hand_dark : list byte :=
  [xf0; x9f; x91; x8b; xf0; x9f; x8f; xbf].

(** The clusters of a printable ASCII text: one per byte, one column each. *)
Definition unit_cluster (text : list byte) (i : nat) : Cluster :=
  mkCluster i (i + 1) 1 [mkCodepoint i (byte_at text i) (byte_at text i) 1].

Definition unit_clusters (text : list byte) (a n : nat) : list Cluster :=
  map (unit_cluster text) (seq a n).

(** The bytes and codepoints of a cluster, without its width. *)
Definition cluster_span (c : Cluster) : nat * nat * list Codepoint :=
  (cl_start c, cl_end c, cl_codepoints c).

(** A cluster whose width is the sum of the widths of its codepoints. *)
Definition cluster_sums {U : Uucode} (tab_width : nat) (c : Cluster) : Prop :=
  cl_width c = sum_widths (codepoint_width tab_width) (cl_codepoints c).

(** A decoded codepoint: a byte, and for an ASCII byte the byte itself. *)
Definition codepoint_ok (c : Codepoint) : Prop :=
  (0 <= cp_byte c < 256)%Z /\ ((cp_byte c < 0x80)%Z -> cp_value c = cp_byte c).


(** ** Further functions of utf8.zig *)

(** *** findTabStops *)

Module TabStops.

Definition is_tab (b : Z) : bool := (b =? 9)%Z.

(** The inner [while (i < vector_len) : (i += 1)] of a chunk with a tab. *)
Fixpoint chunk_loop (fuel : nat) (text : list byte) (pos i : nat)
    (positions : list nat) : list nat :=
  match fuel with
  | O => positions
  | S fuel' =>
      if i <? vector_len then
        if is_tab (byte_at text (pos + i))
        then chunk_loop fuel' text pos (i + 1) (positions ++ [pos + i])
        else chunk_loop fuel' text pos (i + 1) positions
      else positions
  end.

Fixpoint vec_loop (fuel : nat) (text : list byte) (pos : nat)
    (positions : list nat) : nat * list nat :=
  match fuel with
  | O => (pos, positions)
  | S fuel' =>
      if pos + vector_len <=? length text then
        if chunk_any is_tab text pos vector_len
        then vec_loop fuel' text (pos + vector_len)
               (chunk_loop (S vector_len) text pos 0 positions)
        else vec_loop fuel' text (pos + vector_len) positions
      else (pos, positions)
  end.

Fixpoint tail_loop (fuel : nat) (text : list byte) (pos : nat)
    (positions : list nat) : list nat :=
  match fuel with
  | O => positions
  | S fuel' =>
      if pos <? length text then
        if is_tab (byte_at text pos)
        then tail_loop fuel' text (pos + 1) (positions ++ [pos])
        else tail_loop fuel' text (pos + 1) positions
      else positions
  end.

(** The indexes of the tabs among the bytes [a, a+1, ..., a+n-1]. *)
Definition tabs_between (text : list byte) (a n : nat) : list nat :=
  filter (fun i => is_tab (byte_at text i)) (seq a n).

End TabStops.

(** [result.reset()] first: the list starts empty. *)
Definition findTabStops (text : list byte) : list nat :=
  let '(pos, positions) := TabStops.vec_loop (length text) text 0 [] in
  TabStops.tail_loop (length text) text pos positions.

(** *** UTF-8 encoding (Unicode, table 3-6), the inverse the decoder is
    measured against *)

Definition byte_of (z : Z) : byte :=
  match Byte.of_N (Z.to_N z) with
  | Some b => b
  | None => x00
  end.

Definition utf8_encode (cp : Z) : list byte :=
  if (cp <? 0x80)%Z then [byte_of cp]
  else if (cp <? 0x800)%Z then
    [byte_of (Z.lor 0xC0 (Z.shiftr cp 6));
     byte_of (Z.lor 0x80 (Z.land cp 0x3F))]
  else if (cp <? 0x10000)%Z then
    [byte_of (Z.lor 0xE0 (Z.shiftr cp 12));
     byte_of (Z.lor 0x80 (Z.land (Z.shiftr cp 6) 0x3F));
     byte_of (Z.lor 0x80 (Z.land cp 0x3F))]
  else
    [byte_of (Z.lor 0xF0 (Z.shiftr cp 18));
     byte_of (Z.lor 0x80 (Z.land (Z.shiftr cp 12) 0x3F));
     byte_of (Z.lor 0x80 (Z.land (Z.shiftr cp 6) 0x3F));
     byte_of (Z.lor 0x80 (Z.land cp 0x3F))].

(** *** List views of findPosByWidth *)

(** What [findPosByWidthUnicode] does after its loops. *)
Definition pos_finish {U : Uucode} (max_columns text_len : nat)
    (include_start_before : bool) (out : WrapByWidthResult + ClusterState)
  : PosByWidthResult :=
  match out with
  | inl r => r
  | inr state =>
      match cs_prev_cp state with
      | Some _ =>
          if 0 <? cs_cluster_width state then
            if max_columns <=? cs_columns_used state then result_of state
            else mkResult text_len
                   (if include_start_before then cs_grapheme_count state + 1
                    else cs_grapheme_count state)
                   (cs_columns_used state + cs_cluster_width state)
          else mkResult text_len (cs_grapheme_count state) (cs_columns_used state)
      | None => mkResult text_len (cs_grapheme_count state) (cs_columns_used state)
      end
  end.

(** The position scan read off the list of clusters.  A cluster before
    the last one is tested by [handleClusterForPos]; the last cluster is
    tested by its start column in both modes, and only when its width is
    not zero. *)
Fixpoint pos_clusters (max_columns : nat) (include_start_before : bool)
    (columns graphemes : nat) (cls : list Cluster) (text_len : nat) : PosByWidthResult :=
  match cls with
  | [] => mkResult text_len graphemes columns
  | c :: rest =>
      match rest with
      | [] =>
          if 0 <? cl_width c then
            if max_columns <=? columns then mkResult (cl_start c) graphemes columns
            else mkResult text_len
                   (if include_start_before then graphemes + 1 else graphemes)
                   (columns + cl_width c)
          else mkResult text_len graphemes columns
      | _ :: _ =>
          if include_start_before then
            if max_columns <=? columns then mkResult (cl_start c) graphemes columns
            else pos_clusters max_columns include_start_before
                   (columns + cl_width c) (graphemes + 1) rest text_len
          else
            if max_columns <? columns + cl_width c
            then mkResult (cl_start c) graphemes columns
            else pos_clusters max_columns include_start_before
                   (columns + cl_width c) graphemes rest text_len
      end
  end.

(** The codepoints the wcwidth path of [findPosByWidth] takes from the
    front: those that end within [max_columns], or those that start before
    it. *)
Fixpoint pos_codepoints (w : Codepoint -> nat) (include_start_before : bool)
    (max_columns columns : nat) (cps : list Codepoint) : list Codepoint :=
  match cps with
  | [] => []
  | c :: rest =>
      if (if include_start_before then max_columns <=? columns
          else max_columns <? columns + w c)
      then []
      else c :: pos_codepoints w include_start_before max_columns (columns + w c) rest
  end.

(** *** getPrevGraphemeStart *)

(** [PrevGraphemeResult]; the field [width] of the source is [prev_width]
    here, [width] being the field of [GraphemeWidthState]. *)
Record PrevGraphemeResult := mkPrevGrapheme {
  start_offset : nat;
  prev_width : nat
}.

Section PrevGrapheme.

Context {U : Uucode}.

Fixpoint prev_wcwidth_loop (fuel : nat) (text : list byte) (byte_offset tab_width : nat)
    (pos : nat) (last_result : option PrevGraphemeResult) : option PrevGraphemeResult :=
  match fuel with
  | O => last_result
  | S fuel' =>
      if pos <? byte_offset then
        let b := byte_at text pos in
        let curr_cp := curr_cp_checked text pos in
        let cp_len := cp_len_at text pos in
        let cp_width := charWidth b curr_cp tab_width in
        prev_wcwidth_loop fuel' text byte_offset tab_width (pos + cp_len)
          (if 0 <? cp_width then Some (mkPrevGrapheme pos cp_width) else last_result)
      else last_result
  end.

Definition getPrevGraphemeStartWCWidth (text : list byte) (byte_offset tab_width : nat)
  : option PrevGraphemeResult :=
  if (byte_offset =? 0) || (length text =? 0) then None
  else if length text <? byte_offset then None
  else prev_wcwidth_loop (length text) text byte_offset tab_width 0 None.

(** The loop of [getPrevGraphemeStartUnicode]; it returns
    [prev_grapheme_start] and [second_to_last_grapheme_start]. *)
Fixpoint prev_unicode_loop (fuel : nat) (text : list byte) (byte_offset : nat)
    (pos : nat) (prev_cp : option Z) (break_state : BreakState)
    (prev_grapheme_start second_to_last_grapheme_start : nat) : nat * nat :=
  match fuel with
  | O => (prev_grapheme_start, second_to_last_grapheme_start)
  | S fuel' =>
      if pos <? byte_offset then
        let curr_cp := curr_cp_checked text pos in
        let cp_len := cp_len_at text pos in
        if isValidCodepoint curr_cp then
          let '(is_break, break_state') :=
            match prev_cp with
            | Some p =>
                if negb (isValidCodepoint p) then (true, break_state)
                else grapheme_isBreak p curr_cp break_state
            | None => (true, break_state)
            end in
          if is_break then
            prev_unicode_loop fuel' text byte_offset (pos + cp_len) (Some curr_cp)
              break_state' pos prev_grapheme_start
          else
            prev_unicode_loop fuel' text byte_offset (pos + cp_len) (Some curr_cp)
              break_state' prev_grapheme_start second_to_last_grapheme_start
        else
          prev_unicode_loop fuel' text byte_offset (pos + cp_len) prev_cp break_state
            prev_grapheme_start second_to_last_grapheme_start
      else (prev_grapheme_start, second_to_last_grapheme_start)
  end.

Definition getPrevGraphemeStartUnicode (text : list byte) (byte_offset tab_width : nat)
    (width_method : WidthMethod) : option PrevGraphemeResult :=
  if (byte_offset =? 0) || (length text =? 0) then None
  else if length text <? byte_offset then None
  else
    let '(prev_grapheme_start, second_to_last_grapheme_start) :=
      prev_unicode_loop (length text) text byte_offset 0 None break_default 0 0 in
    if (prev_grapheme_start =? 0) && (byte_offset =? 0) then None
    else
      let start := if prev_grapheme_start <? byte_offset then prev_grapheme_start
                   else second_to_last_grapheme_start in
      Some (mkPrevGrapheme start (getWidthAt text start tab_width width_method)).

Definition getPrevGraphemeStart (text : list byte) (byte_offset tab_width : nat)
    (width_method : WidthMethod) : option PrevGraphemeResult :=
  match width_method with
  | unicode | no_zwj => getPrevGraphemeStartUnicode text byte_offset tab_width width_method
  | wcwidth => getPrevGraphemeStartWCWidth text byte_offset tab_width
  end.

End PrevGrapheme.

(** "ab" followed by "e" + U+0301 and "c". *)
Definition ab_e_acute_c : list byte := [x61; x62; x65; xcc; x81; x63].

(** Byte [pos] is where a codepoint of the text starts, or the end of the
    text: the codepoints before it are those that start before it. *)
Definition reached (text : list byte) (pos : nat) : Prop :=
  exists before,
    codepoints text = before ++ codepoints_at text pos
    /\ Forall (fun c => cp_pos c < pos) before.

(** What [last_result] of the wcwidth loop says once the codepoints that
    start before [bound] have been seen. *)
Definition last_wide {U : Uucode} (text : list byte) (tab_width bound : nat)
    (last_result : option PrevGraphemeResult) : Prop :=
  match last_result with
  | Some r =>
      start_offset r < bound /\ 0 < prev_width r
      /\ (exists c, In c (codepoints text) /\ cp_pos c = start_offset r
                    /\ codepoint_width tab_width c = prev_width r)
      /\ (forall c, In c (codepoints text) -> start_offset r < cp_pos c < bound ->
                    codepoint_width tab_width c = 0)
  | None =>
      forall c, In c (codepoints text) -> cp_pos c < bound ->
                codepoint_width tab_width c = 0
  end.

(** ** The life cycle of a TextBufferView *)

Module TextBufferViewInv.

Import TextBufferView.

Definition is_release (c : NativeCall) : bool :=
  match c with
  | destroyTextBufferView _ => true
  | _ => false
  end.

(** The view a native call works on, if it works on one. *)
Definition call_view (c : NativeCall) : option Pointer :=
  match c with
  | textBufferViewSetSelection v _ _ _ _
  | textBufferViewUpdateSelection v _ _ _
  | textBufferViewResetSelection v
  | textBufferViewGetSelection v
  | textBufferViewSetLocalSelection v _ _ _ _ _ _
  | textBufferViewUpdateLocalSelection v _ _ _ _ _ _
  | textBufferViewResetLocalSelection v
  | textBufferViewSetWrapWidth v _
  | textBufferViewSetWrapMode v _
  | textBufferViewSetViewportSize v _ _
  | textBufferViewSetViewport v _ _ _ _
  | textBufferViewGetLineInfo v
  | textBufferViewGetLogicalLineInfo v
  | textBufferViewGetSelectedTextBytes v _
  | textBufferViewGetPlainTextBytes v _
  | textBufferViewSetTabIndicator v _
  | textBufferViewSetTabIndicatorColor v _
  | textBufferViewSetTruncate v _
  | textBufferViewMeasureForDimensions v _ _
  | textBufferViewGetVirtualLineCount v
  | destroyTextBufferView v => Some v
  | textBuffer_byteSize | decoder_decode _ => None
  end.

(** Calls on the view [p] (or on no view), none of them the release. *)
Definition live_calls (p : Pointer) (calls : list NativeCall) : Prop :=
  Forall (fun c => is_release c = false
                   /\ (call_view c = None \/ call_view c = Some p)) calls.

(** The state of a view that has been used properly: while it is alive its
    native view has seen live calls only; once it is destroyed the release
    is the last native call made. *)
Definition well_used (w : World) : Prop :=
  if _destroyed w
  then exists calls,
         trace w = calls ++ [destroyTextBufferView (viewPtr w)]
         /\ live_calls (viewPtr w) calls
  else live_calls (viewPtr w) (trace w).

End TextBufferViewInv.

(** *** findGraphemeInfo *)

(** [GraphemeInfo]; the fields [byte_offset] and [width] of the source are
    [info_byte_offset] and [info_width] here.  [byte_len] and [info_width]
    are [u8] in the source: every value the scan stores in them has gone
    through [intCast_u8] and is at most 255. *)
Record GraphemeInfo := mkGraphemeInfo {
  info_byte_offset : nat;
  byte_len : nat;
  info_width : nat;
  col_offset : nat
}.

(** [@intCast] to [u8]: the value when it fits, and nothing when it does
    not (the cast is then illegal and the program panics). *)
Definition intCast_u8 (n : nat) : option nat :=
  if n <=? 255 then Some n else None.

(** [try result.append(allocator, GraphemeInfo{ ... })], the entry being
    built with the casts: [None] for the list is a scan that has panicked,
    and stays so. *)
Definition append_info (result : option (list GraphemeInfo))
    (entry : option GraphemeInfo) : option (list GraphemeInfo) :=
  match result, entry with
  | Some l, Some g => Some (l ++ [g])
  | _, _ => None
  end.

(** The local variables of the two scanning functions. *)
Record InfoState {U : Uucode} := mkInfoState {
  gi_col : nat;
  gi_prev_cp : option Z;
  gi_break_state : BreakState;
  gi_cluster_start : nat;
  gi_cluster_start_col : nat;
  gi_cluster_width_state : GraphemeWidthState;
  gi_cluster_is_multibyte : bool;
  gi_cluster_is_tab : bool;
  gi_result : option (list GraphemeInfo)
}.

Arguments InfoState {U}.
Arguments mkInfoState {U}.

Section GraphemeInfoScan.

Context {U : Uucode}.

Definition is_wcwidth (width_method : WidthMethod) : bool :=
  match width_method with
  | wcwidth => true
  | _ => false
  end.

(** The entry built for the cluster that ends at [end_pos]:
    [.byte_len = @intCast(cluster_byte_len)] and
    [.width = @intCast(cluster_width_state.width)]. *)
Definition cluster_info (state : InfoState) (end_pos : nat) : option GraphemeInfo :=
  match intCast_u8 (end_pos - gi_cluster_start state),
        intCast_u8 (width (gi_cluster_width_state state)) with
  | Some len, Some w =>
      Some (mkGraphemeInfo (gi_cluster_start state) len w (gi_cluster_start_col state))
  | _, _ => None
  end.

Section Unicode.

Variable tab_width : nat.
Variable width_method : WidthMethod.

(** What the three loops of [findGraphemeInfoUnicode] do with one
    codepoint.  [multibyte] is [cp_len != 1]; the loop over an ASCII chunk
    sets [cluster_is_multibyte] to [false] at a boundary and leaves it as
    it is otherwise, which is the case [multibyte = false]. *)
Definition info_visit (state : InfoState) (at_pos : nat) (b curr_cp : Z)
    (multibyte : bool) (cp_width : nat) : InfoState :=
  let '(is_break, break_state) :=
    isGraphemeBreak (gi_prev_cp state) curr_cp (gi_break_state state) width_method in
  if is_break then
    let result :=
      match gi_prev_cp state with
      | Some _ =>
          if (gi_cluster_is_multibyte state || gi_cluster_is_tab state)
             && ((0 <? width (gi_cluster_width_state state)) || is_wcwidth width_method)
          then append_info (gi_result state) (cluster_info state at_pos)
          else gi_result state
      | None => gi_result state
      end in
    let col :=
      match gi_prev_cp state with
      | Some _ => gi_col state + width (gi_cluster_width_state state)
      | None => gi_col state
      end in
    mkInfoState col (Some curr_cp) break_state at_pos col
      (GraphemeWidthState_init curr_cp cp_width width_method)
      multibyte (b =? 9)%Z result
  else
    mkInfoState (gi_col state) (Some curr_cp) break_state (gi_cluster_start state)
      (gi_cluster_start_col state)
      (GraphemeWidthState_addCodepoint (gi_cluster_width_state state) curr_cp cp_width)
      (gi_cluster_is_multibyte state || multibyte) (gi_cluster_is_tab state)
      (gi_result state).

Fixpoint info_ascii_chunk_loop (fuel : nat) (text : list byte) (pos i : nat)
    (state : InfoState) : InfoState :=
  match fuel with
  | O => state
  | S fuel' =>
      if i <? vector_len then
        let b := byte_at text (pos + i) in
        info_ascii_chunk_loop fuel' text pos (i + 1)
          (info_visit state (pos + i) b b false (asciiCharWidth b tab_width))
      else state
  end.

(** A chunk with a non-ASCII byte; returns the state and [i]. *)
Fixpoint info_mixed_chunk_loop (fuel : nat) (text : list byte) (pos i : nat)
    (state : InfoState) : InfoState * nat :=
  match fuel with
  | O => (state, i)
  | S fuel' =>
      if (i <? vector_len) && (pos + i <? length text) then
        let b0 := byte_at text (pos + i) in
        let curr_cp := curr_cp_at text (pos + i) in
        let cp_len := cp_len_at text (pos + i) in
        if length text <? pos + i + cp_len then (state, i)
        else
          info_mixed_chunk_loop fuel' text pos (i + cp_len)
            (info_visit state (pos + i) b0 curr_cp (negb (cp_len =? 1))
               (charWidth b0 curr_cp tab_width))
      else (state, i)
  end.

Fixpoint info_vec_loop (fuel : nat) (text : list byte) (pos : nat)
    (state : InfoState) : InfoState * nat :=
  match fuel with
  | O => (state, pos)
  | S fuel' =>
      if pos + vector_len <=? length text then
        if negb (chunk_any (fun b => (0x80 <=? b)%Z) text pos vector_len) then
          info_vec_loop fuel' text (pos + vector_len)
            (info_ascii_chunk_loop vector_len text pos 0 state)
        else
          let '(state', i) := info_mixed_chunk_loop vector_len text pos 0 state in
          info_vec_loop fuel' text (pos + i) state'
      else (state, pos)
  end.

Fixpoint info_tail_loop (fuel : nat) (text : list byte) (pos : nat)
    (state : InfoState) : InfoState :=
  match fuel with
  | O => state
  | S fuel' =>
      if pos <? length text then
        let b0 := byte_at text pos in
        let curr_cp := curr_cp_at text pos in
        let cp_len := cp_len_at text pos in
        if length text <? pos + cp_len then state
        else
          info_tail_loop fuel' text (pos + cp_len)
            (info_visit state pos b0 curr_cp (negb (cp_len =? 1))
               (charWidth b0 curr_cp tab_width))
      else state
  end.

(** The statements after the loops: the last cluster. *)
Definition info_finish (state : InfoState) (text_len : nat)
  : option (list GraphemeInfo) :=
  match gi_prev_cp state with
  | Some _ =>
      if (gi_cluster_is_multibyte state || gi_cluster_is_tab state)
         && ((0 <? width (gi_cluster_width_state state)) || is_wcwidth width_method)
      then append_info (gi_result state) (cluster_info state text_len)
      else gi_result state
  | None => gi_result state
  end.

End Unicode.

(** [result] is the list the caller passes; the function appends to it.
    The value is the list after the call, or [None] when a cast to [u8]
    has failed. *)
Definition findGraphemeInfoUnicode (text : list byte) (tab_width : nat)
    (isASCIIOnly : bool) (width_method : WidthMethod) (result : list GraphemeInfo)
  : option (list GraphemeInfo) :=
  if isASCIIOnly && negb (is_wcwidth width_method) then Some result
  else if length text =? 0 then Some result
  else
    let init :=
      mkInfoState 0 None break_default 0 0 (GraphemeWidthState_init 0 0 width_method)
        false false (Some result) in
    let '(state, pos) := info_vec_loop tab_width width_method (length text) text 0 init in
    info_finish width_method
      (info_tail_loop tab_width width_method (length text) text pos state)
      (length text).

(** The loop of [findGraphemeInfoWCWidth]; [cluster_started] is carried
    beside the state. *)
Fixpoint info_wcwidth_loop (fuel : nat) (text : list byte) (tab_width : nat)
    (pos : nat) (state : InfoState) (cluster_started : bool) : InfoState * bool :=
  match fuel with
  | O => (state, cluster_started)
  | S fuel' =>
      if pos <? length text then
        let b0 := byte_at text pos in
        let curr_cp := curr_cp_checked text pos in
        let cp_len := cp_len_at text pos in
        if length text <? pos + cp_len then (state, cluster_started)
        else
          let '(is_break, break_state) :=
            isGraphemeBreak (gi_prev_cp state) curr_cp (gi_break_state state) wcwidth in
          let cp_width := charWidth b0 curr_cp tab_width in
          if is_break then
            let result :=
              if cluster_started
                 && (gi_cluster_is_multibyte state || gi_cluster_is_tab state)
              then append_info (gi_result state) (cluster_info state pos)
              else gi_result state in
            let col :=
              if cluster_started
              then gi_col state + width (gi_cluster_width_state state)
              else gi_col state in
            info_wcwidth_loop fuel' text tab_width (pos + cp_len)
              (mkInfoState col (Some curr_cp) break_state pos col
                 (GraphemeWidthState_init curr_cp cp_width wcwidth)
                 (negb (cp_len =? 1)) (b0 =? 9)%Z result)
              true
          else
            info_wcwidth_loop fuel' text tab_width (pos + cp_len)
              (mkInfoState (gi_col state) (Some curr_cp) break_state
                 (gi_cluster_start state) (gi_cluster_start_col state)
                 (GraphemeWidthState_addCodepoint (gi_cluster_width_state state)
                    curr_cp cp_width)
                 (gi_cluster_is_multibyte state || negb (cp_len =? 1))
                 (gi_cluster_is_tab state) (gi_result state))
              cluster_started
      else (state, cluster_started)
  end.

Definition findGraphemeInfoWCWidth (text : list byte) (tab_width : nat)
    (isASCIIOnly : bool) (result : list GraphemeInfo) : option (list GraphemeInfo) :=
  if isASCIIOnly then Some result
  else if length text =? 0 then Some result
  else
    let init :=
      mkInfoState 0 None break_default 0 0 (GraphemeWidthState_init 0 0 wcwidth)
        false false (Some result) in
    let '(state, cluster_started) :=
      info_wcwidth_loop (length text) text tab_width 0 init false in
    if cluster_started
       && (gi_cluster_is_multibyte state || gi_cluster_is_tab state)
    then append_info (gi_result state) (cluster_info state (length text))
    else gi_result state.

Definition findGraphemeInfo (text : list byte) (tab_width : nat) (isASCIIOnly : bool)
    (width_method : WidthMethod) (result : list GraphemeInfo)
  : option (list GraphemeInfo) :=
  match width_method with
  | unicode | no_zwj =>
      findGraphemeInfoUnicode text tab_width isASCIIOnly width_method result
  | wcwidth => findGraphemeInfoWCWidth text tab_width isASCIIOnly result
  end.

End GraphemeInfoScan.

(** *** The entries of findGraphemeInfo, read off the clusters *)

Definition cluster_is_multibyte (c : Cluster) : bool :=
  existsb (fun cp => negb (cp_size cp =? 1)) (cl_codepoints c).

Definition cluster_is_tab (c : Cluster) : bool :=
  match cl_codepoints c with
  | cp :: _ => (cp_byte cp =? 9)%Z
  | [] => false
  end.

(** An entry fits the [u8] fields of [GraphemeInfo]. *)
Definition fits_u8 (g : GraphemeInfo) : bool :=
  (byte_len g <=? 255) && (info_width g <=? 255).

(** The list after the entries have been appended one by one, each through
    the casts. *)
Definition append_checked (result : option (list GraphemeInfo))
    (entries : list GraphemeInfo) : option (list GraphemeInfo) :=
  match result with
  | Some l => if forallb fits_u8 entries then Some (l ++ entries) else None
  | None => None
  end.

(** A cluster is listed when it has a multi-byte codepoint or starts with
    a tab, and, except under the wcwidth policy, takes at least one
    column; [col] is the column at which the cluster starts. *)
Definition listed (width_method : WidthMethod) (c : Cluster) : bool :=
  (cluster_is_multibyte c || cluster_is_tab c)
  && ((0 <? cl_width c) || is_wcwidth width_method).

(** The entries of the listed clusters, with the byte length and the width
    as they are before the casts to [u8]. *)
Fixpoint infos_of (width_method : WidthMethod) (col : nat) (cls : list Cluster)
  : list GraphemeInfo :=
  match cls with
  | [] => []
  | c :: rest =>
      (if listed width_method c
       then [mkGraphemeInfo (cl_start c) (cl_end c - cl_start c) (cl_width c) col]
       else [])
      ++ infos_of width_method (col + cl_width c) rest
  end.

(** "a" + TAB + U+4E16 + "e" + U+0301 *)
Definition a_tab_cjk_e_acute : list byte :=
  [x61; x09; xe4; xb8; x96; x65; xcc; x81].

(** "e" followed by 128 times U+0301: one cluster of 257 bytes. *)
Definition e_many_acutes : list byte :=
  x65 :: concat (repeat [xcc; x81] 128).

Section InfoViews.

Context {U : Uucode}.

Variable tab_width : nat.
Variable width_method : WidthMethod.

(** The scalar loop of [findGraphemeInfoUnicode] run to the end of the text. *)
Definition info_run (text : list byte) (pos : nat) (state : InfoState) : InfoState :=
  info_tail_loop tab_width width_method (length text - pos) text pos state.

(** The same scan as a recursion over the decoded codepoints. *)
Fixpoint info_list (cps : list Codepoint) (state : InfoState) : InfoState :=
  match cps with
  | [] => state
  | c :: rest =>
      info_list rest
        (info_visit width_method state (cp_pos c) (cp_byte c) (cp_value c)
           (negb (cp_size c =? 1)) (charWidth (cp_byte c) (cp_value c) tab_width))
  end.

(** The scan state stands for the segmentation state [(prev, bs, cur)]. *)
Definition info_agrees (state : InfoState) (prev : option Z) (bs : BreakState)
    (cur : option OpenCluster) : Prop :=
  gi_prev_cp state = prev
  /\ gi_break_state state = bs
  /\ match cur with
     | Some (start, ws, cs) =>
         prev <> None
         /\ gi_cluster_start state = start
         /\ gi_cluster_start_col state = gi_col state
         /\ gi_cluster_width_state state = ws
         /\ cs <> []
         /\ gi_cluster_is_multibyte state
            = existsb (fun cp => negb (cp_size cp =? 1)) cs
         /\ gi_cluster_is_tab state
            = match cs with
              | cp :: _ => (cp_byte cp =? 9)%Z
              | [] => false
              end
     | None => prev = None
     end.

End InfoViews.

(** *** findWrapBreaks *)

(** [WrapBreak]; the field [byte_offset] of the source is [wb_byte_offset]
    here. *)
Record WrapBreak := mkWrapBreak {
  wb_byte_offset : nat;
  char_offset : nat
}.

Definition isAsciiWrapBreak (b : Z) : bool :=
  match b with
  | 32%Z | 9%Z => true
  | 45%Z => true
  | 47%Z | 92%Z => true
  | 46%Z | 44%Z | 59%Z | 58%Z | 33%Z | 63%Z => true
  | 40%Z | 41%Z | 91%Z | 93%Z | 123%Z | 125%Z => true
  | _ => false
  end.

Definition isUnicodeWrapBreak (cp : Z) : bool :=
  ((cp =? 0x00A0) || (cp =? 0x1680) || in_range 0x2000 0x200A cp || (cp =? 0x202F)
   || (cp =? 0x205F) || (cp =? 0x3000) || (cp =? 0x200B) || (cp =? 0x00AD)
   || (cp =? 0x2010))%Z.

Module WrapBreaks.

(** The characters the chunk is compared with, in the order of the source. *)
Definition splats : list Z :=
  [32; 9; 45; 47; 92; 46; 44; 59; 58; 33; 63; 40; 41; 91; 93; 123; 125]%Z.

(** One lane of [match_mask]: [false], then or-ed with each comparison. *)
Definition match_mask (b : Z) : bool :=
  fold_left (fun mask c => mask || (b =? c)%Z) splats false.

(** [inline for (0..vector_len) |i|]: the mask as a 16-bit integer. *)
Fixpoint to_bitmask (n : nat) (text : list byte) (pos i : nat) (bitmask : Z) : Z :=
  match n with
  | O => bitmask
  | S n' =>
      to_bitmask n' text pos (i + 1)
        (if match_mask (byte_at text (pos + i))
         then Z.lor bitmask (Z.shiftl 1 (Z.of_nat i))
         else bitmask)
  end.

(** [@ctz] on a 16-bit integer. *)
Fixpoint ctz_pos (p : positive) : nat :=
  match p with
  | xO p' => S (ctz_pos p')
  | _ => 0
  end.

Definition ctz (bitmask : Z) : nat :=
  match bitmask with
  | Zpos p => ctz_pos p
  | _ => 16
  end.

(** [while (bitmask != 0)]: one break per bit, lowest bit first. *)
Fixpoint bits_loop (fuel : nat) (bitmask : Z) (pos char_offset : nat)
    (breaks : list WrapBreak) : list WrapBreak :=
  match fuel with
  | O => breaks
  | S fuel' =>
      if (bitmask =? 0)%Z then breaks
      else
        let bit_pos := ctz bitmask in
        bits_loop fuel' (Z.land bitmask (bitmask - 1)) pos char_offset
          (breaks ++ [mkWrapBreak (pos + bit_pos) (char_offset + bit_pos)])
  end.

End WrapBreaks.

(** The variables of [findWrapBreaks] that live across the loops. *)
Record WrapScan {U : Uucode} := mkWrapScan {
  wsc_char_offset : nat;
  wsc_prev_cp : option Z;
  wsc_break_state : BreakState;
  wsc_breaks : list WrapBreak
}.

Arguments WrapScan {U}.
Arguments mkWrapScan {U}.

Section WrapBreakScan.

Context {U : Uucode}.

Definition out_of_table (cp : Z) : bool := ((cp =? 0xFFFD) || (0x10FFFF <? cp))%Z.

(** [is_break]; [check_curr] is false in the ASCII branch of the last
    loop, which does not look at the current codepoint. *)
Definition wrap_is_break (check_curr : bool) (prev_cp : option Z) (curr_cp : Z)
    (break_state : BreakState) : bool * BreakState :=
  if check_curr && out_of_table curr_cp then (true, break_state)
  else
    match prev_cp with
    | Some p =>
        if out_of_table p then (true, break_state)
        else grapheme_isBreak p curr_cp break_state
    | None => (true, break_state)
    end.

(** One codepoint of the slow path or of the last loop. *)
Definition wrap_visit (state : WrapScan) (at_pos : nat) (curr_cp : Z)
    (check_curr is_wrap_break : bool) : WrapScan :=
  let '(is_break, break_state) :=
    wrap_is_break check_curr (wsc_prev_cp state) curr_cp (wsc_break_state state) in
  mkWrapScan
    (if is_break then wsc_char_offset state + 1 else wsc_char_offset state)
    (Some curr_cp) break_state
    (if is_wrap_break
     then wsc_breaks state ++ [mkWrapBreak at_pos (wsc_char_offset state)]
     else wsc_breaks state).

(** The slow path of a chunk: [while (i < vector_len)]. *)
Fixpoint wrap_mixed_chunk_loop (fuel : nat) (text : list byte) (pos i : nat)
    (state : WrapScan) : WrapScan :=
  match fuel with
  | O => state
  | S fuel' =>
      if i <? vector_len then
        let b0 := byte_at text (pos + i) in
        if (b0 <? 0x80)%Z then
          wrap_mixed_chunk_loop fuel' text pos (i + 1)
            (wrap_visit state (pos + i) b0 true (isAsciiWrapBreak b0))
        else
          let dec := decodeUtf8Unchecked text (pos + i) in
          if length text <? pos + i + dec_len dec then state
          else
            wrap_mixed_chunk_loop fuel' text pos (i + dec_len dec)
              (wrap_visit state (pos + i) (dec_cp dec) true
                 (isUnicodeWrapBreak (dec_cp dec)))
      else state
  end.

(** The loop over full chunks; the position moves on by [vector_len]
    after either path. *)
Fixpoint wrap_vec_loop (fuel : nat) (text : list byte) (pos : nat)
    (state : WrapScan) : WrapScan * nat :=
  match fuel with
  | O => (state, pos)
  | S fuel' =>
      if pos + vector_len <=? length text then
        if negb (chunk_any (fun b => (0x80 <=? b)%Z) text pos vector_len) then
          let bitmask := WrapBreaks.to_bitmask vector_len text pos 0 0 in
          let breaks :=
            WrapBreaks.bits_loop (S vector_len) bitmask pos (wsc_char_offset state)
              (wsc_breaks state) in
          wrap_vec_loop fuel' text (pos + vector_len)
            (mkWrapScan (wsc_char_offset state + vector_len)
               (Some (byte_at text (pos + vector_len - 1)))
               (wsc_break_state state) breaks)
        else
          wrap_vec_loop fuel' text (pos + vector_len)
            (wrap_mixed_chunk_loop vector_len text pos 0 state)
      else (state, pos)
  end.

Fixpoint wrap_tail_loop (fuel : nat) (text : list byte) (i : nat)
    (state : WrapScan) : WrapScan :=
  match fuel with
  | O => state
  | S fuel' =>
      if i <? length text then
        let b0 := byte_at text i in
        if (b0 <? 0x80)%Z then
          wrap_tail_loop fuel' text (i + 1)
            (wrap_visit state i b0 false (isAsciiWrapBreak b0))
        else
          let dec := decodeUtf8Unchecked text i in
          if length text <? i + dec_len dec then state
          else
            wrap_tail_loop fuel' text (i + dec_len dec)
              (wrap_visit state i (dec_cp dec) true (isUnicodeWrapBreak (dec_cp dec)))
      else state
  end.

(** [width_method] is not used by the source. *)
Definition findWrapBreaks (text : list byte) (width_method : WidthMethod)
  : list WrapBreak :=
  let '(state, pos) :=
    wrap_vec_loop (length text) text 0 (mkWrapScan 0 None break_default []) in
  wsc_breaks (wrap_tail_loop (length text) text pos state).

End WrapBreakScan.

(** "hello world, this is-a test/of\text" *)
Definition wrap_sample : list byte :=
  [x68; x65; x6c; x6c; x6f; x20; x77; x6f; x72; x6c; x64; x2c; x20; x74; x68; x69;
   x73; x20; x69; x73; x2d; x61; x20; x74; x65; x73; x74; x2f; x6f; x66; x09; x65].

(** Fifteen times "a", then U+00E9 (C3 A9) across the chunk boundary, then
    a space. *)
Definition straddling_e_acute : list byte :=
  [x61; x61; x61; x61; x61; x61; x61; x61; x61; x61; x61; x61; x61; x61; x61;
   xc3; xa9; x20].

(** Fourteen times "a", then U+00E9 inside the chunk, then a space. *)
Definition inside_e_acute : list byte :=
  [x61; x61; x61; x61; x61; x61; x61; x61; x61; x61; x61; x61; x61; x61;
   xc3; xa9; x20].

(** The bit positions the loop over the bitmask visits. *)
Fixpoint bit_positions (fuel : nat) (bitmask : Z) : list nat :=
  match fuel with
  | O => []
  | S fuel' =>
      if (bitmask =? 0)%Z then []
      else WrapBreaks.ctz bitmask
           :: bit_positions fuel' (Z.land bitmask (bitmask - 1))
  end.

(** The lanes of a chunk: 0, 1, ..., 15. *)
Definition lanes : list nat := seq 0 vector_len.

(** [f] holds of [lo, lo+1, ..., lo+n-1]. *)
Fixpoint holds_from (f : Z -> bool) (lo : Z) (n : nat) : bool :=
  match n with
  | O => true
  | S n' => if f lo then holds_from f (lo + 1) n' else false
  end.

(** Equality of two lists of positions, as a boolean. *)
Fixpoint same_positions (l1 l2 : list nat) : bool :=
  match l1, l2 with
  | [], [] => true
  | x :: r1, y :: r2 => (x =? y) && same_positions r1 r2
  | _, _ => false
  end.

(** The positions among [a, a+1, ..., a+n-1] that hold one of the
    seventeen ASCII break characters. *)
Definition ascii_breaks_between (text : list byte) (a n : nat) : list nat :=
  filter (fun i => isAsciiWrapBreak (byte_at text i)) (seq a n).

(** A break whose character offset is its byte offset. *)
Definition plain_break (i : nat) : WrapBreak := mkWrapBreak i i.

(** The state of [findWrapBreaks] at byte [q] of an ASCII text; when the
    characters never join ([plain]) the character count is the byte
    count. *)
Definition wrap_ascii_state {U : Uucode} (text : list byte) (plain : Prop) (q : nat)
    (state : WrapScan) : Prop :=
  map wb_byte_offset (wsc_breaks state) = ascii_breaks_between text 0 q
  /\ (plain ->
      wsc_char_offset state = q
      /\ wsc_breaks state = map plain_break (ascii_breaks_between text 0 q)
      /\ wsc_prev_cp state
         = match q with
           | O => None
           | S q' => Some (byte_at text q')
           end).

(** Byte [i] starts a break character: an ASCII break character, or a
    sequence the decoder reads as one of the Unicode break codepoints. *)
Definition wrap_break_at (text : list byte) (i : nat) : Prop :=
  i < length text
  /\ (if (byte_at text i <? 0x80)%Z then isAsciiWrapBreak (byte_at text i)
      else isUnicodeWrapBreak (dec_cp (decodeUtf8Unchecked text i))) = true.

(** Strictly ascending positions. *)
Fixpoint ascending (l : list nat) : Prop :=
  match l with
  | [] => True
  | x :: rest => Forall (fun y => x < y) rest /\ ascending rest
  end.

(** What holds of the state of [findWrapBreaks] when everything before
    byte [bound] has been read. *)
Definition wrap_sound_state {U : Uucode} (text : list byte) (bound : nat)
    (state : WrapScan) : Prop :=
  Forall (fun br => wrap_break_at text (wb_byte_offset br)
                    /\ char_offset br <= wb_byte_offset br
                    /\ wb_byte_offset br < bound) (wsc_breaks state)
  /\ ascending (map wb_byte_offset (wsc_breaks state))
  /\ wsc_char_offset state <= bound.

(** Entries that follow one another without overlap, in bytes and in
    columns. *)
Fixpoint laid_out (l : list GraphemeInfo) : Prop :=
  match l with
  | [] => True
  | g :: rest =>
      Forall (fun h => info_byte_offset g + byte_len g <= info_byte_offset h
                       /\ col_offset g + info_width g <= col_offset h) rest
      /\ laid_out rest
  end.

(** Clusters that follow one another from byte [a] to byte [b], none of
    them empty. *)
Fixpoint solid_chain (a : nat) (cls : list Cluster) (b : nat) : Prop :=
  match cls with
  | [] => a <= b
  | c :: rest => cl_start c = a /\ a < cl_end c /\ solid_chain (cl_end c) rest b
  end.

(** *** The no_zwj policy *)

(** No codepoint of the sequence is U+200D ZERO WIDTH JOINER. *)
Definition zwj_free (cps : list Codepoint) : Prop :=
  Forall (fun c => cp_value c <> 0x200D%Z) cps.

(** Two width states of the cluster policies that differ in the policy
    they remember at most. *)
Definition same_width_state (ws1 ws2 : GraphemeWidthState) : Prop :=
  width ws1 = width ws2
  /\ has_width ws1 = has_width ws2
  /\ is_regional_indicator_pair ws1 = is_regional_indicator_pair ws2
  /\ has_vs16 ws1 = has_vs16 ws2
  /\ has_indic_virama ws1 = has_indic_virama ws2
  /\ gw_width_method ws1 <> wcwidth
  /\ gw_width_method ws2 <> wcwidth.

(** U+1F469 WOMAN, U+200D, U+1F680 ROCKET: one cluster under the unicode
    policy, two under no_zwj. *)
Definition woman_astronaut : list byte :=
  [xf0; x9f; x91; xa9; xe2; x80; x8d; xf0; x9f; x9a; x80].

(** In the codepoints of a cluster U+200D is followed by nothing. *)
Fixpoint zwj_only_last (cs : list Codepoint) : Prop :=
  match cs with
  | x :: (_ :: _) as rest => cp_value x <> 0x200D%Z /\ zwj_only_last rest
  | _ => True
  end.

(** The value of the last codepoint. *)
Definition last_value (cs : list Codepoint) : option Z :=
  match rev cs with
  | c :: _ => Some (cp_value c)
  | [] => None
  end.

(** The number of U+FE0F VARIATION SELECTOR-16 among the codepoints. *)
Definition vs16_count (cps : list Codepoint) : nat :=
  length (filter (fun c => (cp_value c =? 0xFE0F)%Z) cps).
(** * Properties *)

(** ** Bytes and chunks *)

Lemma u8_range (b : byte) : (0 <= u8 b < 256)%Z.
Proof.
  unfold u8. pose proof (Byte.to_N_bounded b). lia.
Qed.

Lemma byte_at_range (text : list byte) (i : nat) : (0 <= byte_at text i < 256)%Z.
Proof. apply u8_range. Qed.

Lemma chunk_any_false (p : Z -> bool) (text : list byte) (n : nat) :
  forall pos,
    chunk_any p text pos n = false <->
    (forall i, pos <= i < pos + n -> p (byte_at text i) = false).
Proof.
  induction n as [|n IH]; intros pos; cbn [chunk_any].
  - split; [intros _ i Hi; lia | reflexivity].
  - rewrite orb_false_iff, IH. split.
    + intros [H0 Hr] i Hi. destruct (Nat.eq_dec i pos) as [->|Hne]; [assumption|].
      apply Hr. lia.
    + intros H. split; [apply H; lia | intros i Hi; apply H; lia].
Qed.

Lemma chunk_any_true (p : Z -> bool) (text : list byte) (n : nat) :
  forall pos,
    chunk_any p text pos n = true ->
    exists i, pos <= i < pos + n /\ p (byte_at text i) = true.
Proof.
  induction n as [|n IH]; intros pos; cbn [chunk_any]; [discriminate|].
  intros H. apply orb_true_iff in H. destruct H as [H|H].
  - exists pos. split; [lia | assumption].
  - destruct (IH _ H) as (i & Hi & Hp). exists i. split; [lia | assumption].
Qed.

Arguments chunk_any : simpl never.

Lemma Forall_byte_at (P : Z -> Prop) (text : list byte) :
  Forall (fun b => P (u8 b)) text <->
  (forall i, i < length text -> P (byte_at text i)).
Proof.
  unfold byte_at. rewrite Forall_forall. split.
  - intros H i Hi. apply H. apply nth_In. assumption.
  - intros H b Hb. destruct (In_nth _ _ x00 Hb) as (i & Hi & <-). apply H. assumption.
Qed.

(** ** isAsciiOnly (C8) *)

Module AsciiOnlyFacts.

Import AsciiOnlyInv.

Lemma vec_loop_some (text : list byte) :
  forall fuel pos q,
    AsciiOnly.vec_loop fuel text pos = Some q ->
    pos <= q /\ forall i, pos <= i < q -> ok text i.
Proof.
  induction fuel as [|fuel IH]; intros pos q; simpl.
  - intros [= <-]. split; [lia | intros i Hi; lia].
  - destruct (pos + vector_len <=? length text) eqn:Hle.
    + destruct (chunk_any (fun b => (b <? 32)%Z) text pos vector_len) eqn:Hlo;
        [cbn [orb]; discriminate|].
      destruct (chunk_any (fun b => (b >? 126)%Z) text pos vector_len) eqn:Hhi;
        [cbn [orb]; discriminate|]. cbn [orb].
      intros H. apply IH in H. destruct H as [Hq Hall]. split; [lia|].
      intros i Hi. destruct (Nat.lt_ge_cases i (pos + vector_len)) as [Hlt|Hge].
      * pose proof (proj1 (chunk_any_false _ _ _ _) Hlo i (conj (proj1 Hi) Hlt)) as A.
        pose proof (proj1 (chunk_any_false _ _ _ _) Hhi i (conj (proj1 Hi) Hlt)) as B.
        simpl in A, B. unfold ok. lia.
      * apply Hall. lia.
    + intros [= <-]. split; [lia | intros i Hi; lia].
Qed.

Lemma vec_loop_none (text : list byte) :
  forall fuel pos,
    AsciiOnly.vec_loop fuel text pos = None ->
    exists i, i < length text /\ ~ ok text i.
Proof.
  induction fuel as [|fuel IH]; intros pos; simpl; [discriminate|].
  destruct (pos + vector_len <=? length text) eqn:Hle; [|discriminate].
  apply Nat.leb_le in Hle.
  destruct (chunk_any (fun b => (b <? 32)%Z) text pos vector_len) eqn:Hlo.
  - intros _. destruct (chunk_any_true _ _ _ _ Hlo) as (i & Hi & Hp).
    exists i. split; [lia|]. unfold ok. simpl in Hp. lia.
  - destruct (chunk_any (fun b => (b >? 126)%Z) text pos vector_len) eqn:Hhi; cbn [orb].
    + intros _. destruct (chunk_any_true _ _ _ _ Hhi) as (i & Hi & Hp).
      exists i. split; [lia|]. unfold ok. simpl in Hp. lia.
    + apply IH.
Qed.

Lemma tail_loop_true (text : list byte) :
  forall fuel pos,
    length text - pos <= fuel ->
    (AsciiOnly.tail_loop fuel text pos = true <->
     forall i, pos <= i < length text -> ok text i).
Proof.
  induction fuel as [|fuel IH]; intros pos Hf; simpl.
  - split; [intros _ i Hi; lia | reflexivity].
  - destruct (pos <? length text) eqn:Hlt.
    + apply Nat.ltb_lt in Hlt.
      destruct ((byte_at text pos <? 32)%Z || (byte_at text pos >? 126)%Z) eqn:Hbad.
      * split; [discriminate|]. intros H. specialize (H pos (conj (le_n _) Hlt)).
        unfold ok in H. apply orb_true_iff in Hbad. lia.
      * rewrite IH by lia. apply orb_false_iff in Hbad. split.
        -- intros H i Hi. destruct (Nat.eq_dec i pos) as [->|Hne].
           ++ unfold ok. lia.
           ++ apply H. lia.
        -- intros H i Hi. apply H. lia.
    + apply Nat.ltb_ge in Hlt. split; [intros _ i Hi; lia | reflexivity].
Qed.

End AsciiOnlyFacts.

(** C8. [is_ascii_only(bytes)] is true if and only if the input is not
    empty and every byte lies in [0x20, 0x7E]; for the empty input it is
    false. *)
Theorem isAsciiOnly_spec (text : list byte) :
  (isAsciiOnly text = true <-> text <> [] /\ Forall printable text)
  /\ isAsciiOnly [] = false.
Proof.
  split; [|reflexivity].
  unfold isAsciiOnly, printable.
  rewrite (Forall_byte_at (fun z => (32 <= z <= 126)%Z)).
  destruct (length text =? 0) eqn:Hlen.
  - apply Nat.eqb_eq in Hlen. apply length_zero_iff_nil in Hlen. subst.
    split; [discriminate | intros [H _]; congruence].
  - apply Nat.eqb_neq in Hlen.
    assert (Hne : text <> []) by (intros ->; apply Hlen; reflexivity).
    destruct (AsciiOnly.vec_loop (length text) text 0) as [q|] eqn:Hvec.
    + destruct (AsciiOnlyFacts.vec_loop_some _ _ _ Hvec) as [_ Hpre].
      rewrite AsciiOnlyFacts.tail_loop_true by lia. split.
      * intros H. split; [assumption|]. intros i Hi.
        destruct (Nat.lt_ge_cases i q); [apply Hpre | apply H]; lia.
      * intros [_ H] i Hi. apply H. lia.
    + destruct (AsciiOnlyFacts.vec_loop_none _ _ _ Hvec) as (i & Hi & Hbad).
      split; [discriminate|]. intros [_ H]. exfalso. apply Hbad. apply H. assumption.
Qed.

(** ** TextBufferView: use after destroy (C9, C10) *)

Module TextBufferViewFacts.

Import TextBufferView.

Lemma guard_destroyed (A : Type) (k : M A) (w : World) :
  _destroyed w = true ->
  bind guard (fun _ => k) w = (Thrown destroyed_message, w).
Proof.
  intros H. unfold bind, guard. rewrite H. reflexivity.
Qed.

Lemma destroy_marks (w : World) : _destroyed (snd (destroy w)) = true.
Proof.
  unfold destroy. destruct (_destroyed w) eqn:H; simpl; [assumption | reflexivity].
Qed.

Lemma releases_app (w : World) (c : NativeCall) :
  releases (mkWorld (viewPtr w) true (trace w ++ [c])) =
  releases w + (match c with destroyTextBufferView _ => 1 | _ => 0 end).
Proof.
  unfold releases. simpl. rewrite filter_app, length_app. simpl.
  destruct c; reflexivity.
Qed.

End TextBufferViewFacts.

(** C9. After [destroy()] every public operation of the view (the [ptr]
    getter, the selection calls, wrap mode and width, the viewport, the
    line-info getters, [getSelectedText], [getPlainText], the tab
    indicator, [measureForDimensions], [getVirtualLineCount], ...) throws
    the destroyed-view error; it reaches no native call and leaves the
    object as it was. *)
Theorem destroyed_view_fails_loudly
    (respond : list TextBufferView.NativeCall -> TextBufferView.NativeCall -> TextBufferView.Value)
    (w : TextBufferView.World) (op : TextBufferView.Operation) :
  TextBufferView._destroyed w = true ->
  TextBufferView.perform respond op w
  = (TextBufferView.Thrown TextBufferView.destroyed_message, w).
Proof.
  intros H.
  destruct op; cbn [TextBufferView.perform];
    unfold TextBufferView.get_ptr, TextBufferView.setSelection,
      TextBufferView.updateSelection, TextBufferView.resetSelection,
      TextBufferView.getSelection, TextBufferView.hasSelection,
      TextBufferView.setLocalSelection, TextBufferView.updateLocalSelection,
      TextBufferView.resetLocalSelection, TextBufferView.setWrapWidth,
      TextBufferView.setWrapMode, TextBufferView.setViewportSize,
      TextBufferView.setViewport, TextBufferView.get_lineInfo,
      TextBufferView.get_logicalLineInfo, TextBufferView.getSelectedText,
      TextBufferView.getPlainText, TextBufferView.text_through,
      TextBufferView.setTabIndicator, TextBufferView.setTabIndicatorColor,
      TextBufferView.setTruncate, TextBufferView.measureForDimensions,
      TextBufferView.getVirtualLineCount;
    apply TextBufferViewFacts.guard_destroyed; assumption.
Qed.

Lemma destroyed_view_fails_loudly_witness :
  let w := snd (TextBufferView.destroy (TextBufferView.mkWorld 7 false [])) in
  TextBufferView._destroyed w = true
  /\ TextBufferView.perform (fun _ _ => TextBufferView.VNull)
       TextBufferView.op_getPlainText w
     = (TextBufferView.Thrown TextBufferView.destroyed_message, w).
Proof.
  split; [reflexivity|].
  apply (destroyed_view_fails_loudly (fun _ _ => TextBufferView.VNull)
           (snd (TextBufferView.destroy (TextBufferView.mkWorld 7 false [])))
           TextBufferView.op_getPlainText).
  reflexivity.
Defined.

(** C10. [destroy()] never throws.  The first call marks the view
    destroyed and releases the native view once; every later call returns
    at once, changes nothing and does not reach the native [destroy]
    again. *)
Theorem destroy_idempotent
    (respond : list TextBufferView.NativeCall -> TextBufferView.NativeCall -> TextBufferView.Value)
    (w : TextBufferView.World) (n : nat) :
  let w1 := snd (TextBufferView.destroy w) in
  fst (TextBufferView.destroy w) = TextBufferView.Returned TextBufferView.VUndefined
  /\ TextBufferView._destroyed w1 = true
  /\ TextBufferView.trace w1
     = TextBufferView.trace w
       ++ (if TextBufferView._destroyed w then []
           else [TextBufferView.destroyTextBufferView (TextBufferView.viewPtr w)])
  /\ TextBufferView.releases w1
     = TextBufferView.releases w + (if TextBufferView._destroyed w then 0 else 1)
  /\ TextBufferView.run respond (repeat TextBufferView.call_destroy n) w1
     = (repeat (TextBufferView.Returned TextBufferView.VUndefined) n, w1).
Proof.
  cbv zeta. repeat split.
  - unfold TextBufferView.destroy. destruct (TextBufferView._destroyed w); reflexivity.
  - apply TextBufferViewFacts.destroy_marks.
  - unfold TextBufferView.destroy.
    destruct (TextBufferView._destroyed w); simpl; [rewrite app_nil_r|]; reflexivity.
  - unfold TextBufferView.destroy.
    destruct (TextBufferView._destroyed w) eqn:E; cbn [snd].
    + lia.
    + rewrite TextBufferViewFacts.releases_app. reflexivity.
  - pose proof (TextBufferViewFacts.destroy_marks w) as Hd.
    generalize dependent (snd (TextBufferView.destroy w)). intros w1 Hd.
    induction n as [|n IH]; [reflexivity|].
    cbn [repeat TextBufferView.run TextBufferView.step].
    unfold TextBufferView.destroy at 1. rewrite Hd. rewrite IH. reflexivity.
Qed.


(** ** decodeUtf8Unchecked (C5) *)

Module DecodeFacts.

Lemma lor_bound (n a b : Z) :
  (0 <= n -> 0 <= a < 2 ^ n -> 0 <= b < 2 ^ n -> 0 <= Z.lor a b < 2 ^ n)%Z.
Proof.
  intros Hn Ha Hb. split; [apply Z.lor_nonneg; lia|].
  destruct (Z.eq_dec (Z.lor a b) 0) as [E|E]; [rewrite E; lia|].
  assert (Hpos : (0 < Z.lor a b)%Z).
  { pose proof (proj2 (Z.lor_nonneg a b) (conj (proj1 Ha) (proj1 Hb))). lia. }
  apply Z.log2_lt_pow2; [assumption|].
  rewrite Z.log2_lor by lia.
  assert (Hone : forall x, (0 <= x < 2 ^ n -> Z.lor a b <> 0 -> Z.log2 x < n)%Z).
  { intros x Hx _. destruct (Z.eq_dec x 0) as [->|Hx0].
    - simpl. destruct (Z.eq_dec n 0) as [->|]; [|lia].
      simpl in Ha, Hb. assert (a = 0 /\ b = 0)%Z as [-> ->] by lia. simpl in E. lia.
    - apply Z.log2_lt_pow2; lia. }
  apply Z.max_lub_lt; apply Hone; assumption.
Qed.

Lemma payload_bounds (b : byte) :
  (0 <= Z.land (u8 b) 0x3F < 2 ^ 21
   /\ 0 <= Z.shiftl (Z.land (u8 b) 0x3F) 6 < 2 ^ 21
   /\ 0 <= Z.shiftl (Z.land (u8 b) 0x3F) 12 < 2 ^ 21
   /\ 0 <= Z.shiftl (Z.land (u8 b) 0x1F) 6 < 2 ^ 21
   /\ 0 <= Z.shiftl (Z.land (u8 b) 0x0F) 12 < 2 ^ 21
   /\ 0 <= Z.shiftl (Z.land (u8 b) 0x07) 18 < 2 ^ 21)%Z.
Proof.
  destruct b; vm_compute; repeat split; congruence.
Qed.

Lemma decoded_fits (text : list byte) (pos : nat) :
  (0 <= dec_cp (decodeUtf8Unchecked text pos) < 2 ^ 21)%Z.
Proof.
  unfold decodeUtf8Unchecked, byte_at.
  destruct (payload_bounds (nth pos text x00)) as (A0 & A1 & A2 & A3 & A4 & A5).
  destruct (payload_bounds (nth (pos + 1) text x00)) as (B0 & B1 & B2 & B3 & B4 & B5).
  destruct (payload_bounds (nth (pos + 2) text x00)) as (C0 & C1 & C2 & C3 & C4 & C5).
  destruct (payload_bounds (nth (pos + 3) text x00)) as (D0 & D1 & D2 & D3 & D4 & D5).
  pose proof (u8_range (nth pos text x00)) as R0.
  assert (F : (0 <= 65533 < 2 ^ 21)%Z) by (vm_compute; split; congruence).
  assert (P : (256 < 2 ^ 21)%Z) by reflexivity.
  assert (N : (0 <= 21)%Z) by discriminate.
  repeat match goal with
         | |- context [if ?c then _ else _] => destruct c
         end; cbn [dec_cp]; try exact F;
    repeat (apply lor_bound; [exact N | | ]); try assumption.
  split; [tauto|]. apply Z.lt_trans with 256%Z; tauto.
Qed.

Lemma decode_len_le (text : list byte) (pos : nat) :
  pos < length text ->
  pos + dec_len (decodeUtf8Unchecked text pos) <= length text.
Proof.
  intros H. unfold decodeUtf8Unchecked.
  repeat match goal with
         | |- context [if ?c then _ else _] => destruct c eqn:?
         end; cbn [dec_len];
    repeat match goal with
           | E : (_ <=? _) = false |- _ => apply Nat.leb_gt in E
           end; lia.
Qed.

Lemma decode_len_pos (text : list byte) (pos : nat) :
  1 <= dec_len (decodeUtf8Unchecked text pos).
Proof.
  unfold decodeUtf8Unchecked.
  repeat match goal with
         | |- context [if ?c then _ else _] => destruct c
         end; cbn [dec_len]; lia.
Qed.

Lemma truncated_replacement (text : list byte) (pos : nat) :
  truncated_at text pos ->
  dec_cp (decodeUtf8Unchecked text pos) = 0xFFFD%Z
  /\ dec_len (decodeUtf8Unchecked text pos) = 1.
Proof.
  intros (_ & Hb & Ht). unfold decodeUtf8Unchecked, declared_len in *.
  destruct (byte_at text pos <? 128)%Z eqn:E0; [apply Z.ltb_lt in E0; lia|].
  destruct (length text <=? pos + 1) eqn:E1; [split; reflexivity|].
  apply Nat.leb_gt in E1.
  destruct (Z.land (byte_at text pos) 224 =? 192)%Z; [lia|].
  destruct (length text <=? pos + 2) eqn:E2; [split; reflexivity|].
  apply Nat.leb_gt in E2.
  destruct (Z.land (byte_at text pos) 240 =? 224)%Z; [lia|].
  destruct (length text <=? pos + 3) eqn:E3; [split; reflexivity|].
  apply Nat.leb_gt in E3. lia.
Qed.

(** Bits put above the low [k] bits add up. *)
Lemma lor_shiftl_add (hi lo k : Z) :
  (0 <= k -> 0 <= lo < 2 ^ k -> Z.lor (Z.shiftl hi k) lo = hi * 2 ^ k + lo)%Z.
Proof.
  intros Hk Hlo.
  assert (Hland : Z.land (Z.shiftl hi k) lo = 0%Z).
  { apply Z.bits_inj'. intros n Hn. rewrite Z.land_spec, Z.bits_0.
    destruct (Z.lt_ge_cases n k) as [Hlt|Hge].
    - rewrite Z.shiftl_spec_low by assumption. reflexivity.
    - rewrite <- (Z.mod_small lo (2 ^ k)) by assumption.
      rewrite Z.mod_pow2_bits_high by lia. apply andb_false_r. }
  rewrite <- Z.shiftl_mul_pow2 by assumption.
  rewrite Z.add_nocarry_lxor by assumption.
  symmetry. apply Z.lxor_lor. exact Hland.
Qed.

Lemma low_bits (x k : Z) :
  (0 <= k -> Z.land x (Z.ones k) = x mod 2 ^ k /\ 0 <= x mod 2 ^ k < 2 ^ k)%Z.
Proof.
  intros Hk. split; [apply Z.land_ones; assumption|].
  apply Z.mod_pos_bound. apply Z.pow_pos_nonneg; lia.
Qed.

(** The codepoints the decoder assembles, as numbers. *)
Lemma assembled_2 (b0 b1 : Z) :
  Z.lor (Z.shiftl (Z.land b0 0x1F) 6) (Z.land b1 0x3F)
  = ((b0 mod 32) * 64 + b1 mod 64)%Z.
Proof.
  destruct (@low_bits b0 5 ltac:(lia)) as [E0 _].
  destruct (@low_bits b1 6 ltac:(lia)) as [E1 R1].
  change (Z.ones 5) with 0x1F%Z in E0. change (Z.ones 6) with 0x3F%Z in E1.
  change (2 ^ 5)%Z with 32%Z in *. change (2 ^ 6)%Z with 64%Z in *.
  rewrite E0, E1. rewrite (@lor_shiftl_add _ _ 6) by (change (2 ^ 6)%Z with 64%Z; lia).
  reflexivity.
Qed.

Lemma assembled_3 (b0 b1 b2 : Z) :
  Z.lor (Z.lor (Z.shiftl (Z.land b0 0x0F) 12) (Z.shiftl (Z.land b1 0x3F) 6))
    (Z.land b2 0x3F)
  = ((b0 mod 16) * 4096 + (b1 mod 64) * 64 + b2 mod 64)%Z.
Proof.
  destruct (@low_bits b0 4 ltac:(lia)) as [E0 _].
  destruct (@low_bits b1 6 ltac:(lia)) as [E1 R1].
  destruct (@low_bits b2 6 ltac:(lia)) as [E2 R2].
  change (Z.ones 4) with 0x0F%Z in E0. change (Z.ones 6) with 0x3F%Z in E1, E2.
  change (2 ^ 4)%Z with 16%Z in *. change (2 ^ 6)%Z with 64%Z in *.
  rewrite E0, E1, E2.
  replace (Z.shiftl (b0 mod 16) 12) with (Z.shiftl (Z.shiftl (b0 mod 16) 6) 6)
    by (rewrite Z.shiftl_shiftl by lia; reflexivity).
  rewrite <- Z.shiftl_lor.
  rewrite (@lor_shiftl_add _ _ 6) by (change (2 ^ 6)%Z with 64%Z; lia).
  rewrite (@lor_shiftl_add _ _ 6) by (change (2 ^ 6)%Z with 64%Z; lia).
  change (2 ^ 6)%Z with 64%Z. lia.
Qed.

Lemma assembled_4 (b0 b1 b2 b3 : Z) :
  Z.lor (Z.lor (Z.lor (Z.shiftl (Z.land b0 0x07) 18) (Z.shiftl (Z.land b1 0x3F) 12))
           (Z.shiftl (Z.land b2 0x3F) 6))
    (Z.land b3 0x3F)
  = ((b0 mod 8) * 262144 + (b1 mod 64) * 4096 + (b2 mod 64) * 64 + b3 mod 64)%Z.
Proof.
  destruct (@low_bits b0 3 ltac:(lia)) as [E0 _].
  destruct (@low_bits b1 6 ltac:(lia)) as [E1 R1].
  destruct (@low_bits b2 6 ltac:(lia)) as [E2 R2].
  destruct (@low_bits b3 6 ltac:(lia)) as [E3 R3].
  change (Z.ones 3) with 0x07%Z in E0. change (Z.ones 6) with 0x3F%Z in E1, E2, E3.
  change (2 ^ 3)%Z with 8%Z in *. change (2 ^ 6)%Z with 64%Z in *.
  rewrite E0, E1, E2, E3.
  replace (Z.shiftl (b0 mod 8) 18) with (Z.shiftl (Z.shiftl (Z.shiftl (b0 mod 8) 6) 6) 6)
    by (rewrite !Z.shiftl_shiftl by lia; reflexivity).
  replace (Z.shiftl (b1 mod 64) 12) with (Z.shiftl (Z.shiftl (b1 mod 64) 6) 6)
    by (rewrite Z.shiftl_shiftl by lia; reflexivity).
  rewrite <- !Z.shiftl_lor.
  rewrite !(@lor_shiftl_add _ _ 6) by (change (2 ^ 6)%Z with 64%Z; lia).
  change (2 ^ 6)%Z with 64%Z. lia.
Qed.

End DecodeFacts.

(** C5 as stated fails: the bytes C3 28 are not well-formed UTF-8 (the
    second byte is no continuation byte), and the decoder returns U+00E8
    with length 2. *)
Lemma decode_invalid_not_replaced :
  ~ (forall (text : list byte) (pos : nat),
        pos < length text ->
        utf8_valid_at text pos = false ->
        dec_cp (decodeUtf8Unchecked text pos) = 0xFFFD%Z).
Proof.
  intros H. specialize (H [xc3; x28] 0).
  assert (E : dec_cp (decodeUtf8Unchecked [xc3; x28] 0) = 0xE8%Z) by reflexivity.
  rewrite E in H. cbn [length] in H.
  specialize (H (Nat.lt_0_succ 1) eq_refl). discriminate H.
Qed.

(** C5, amended.  The decoder does not validate.  An ASCII byte decodes to
    itself with length 1.  A sequence cut short by the end of the slice
    (its first byte is 0x80 or more and the length read off that byte, 2
    for 110xxxxx, 3 for 1110xxxx and 4 otherwise, runs past the end)
    decodes to (U+FFFD, 1).  In every other case the result has the length
    read off the first byte, stays inside the slice, and its codepoint is
    the number whose binary digits are the payload bits of the bytes (the
    low 5, 4 or 3 bits of the first byte, then the low 6 bits of each
    following byte), whatever the bytes are; every codepoint returned is a
    21-bit value. *)
Theorem decodeUtf8Unchecked_spec (text : list byte) (pos : nat) :
  pos < length text ->
  let d := decodeUtf8Unchecked text pos in
  let b0 := byte_at text pos in
  ((b0 < 0x80)%Z -> d = mkDecoded b0 1)
  /\ (truncated_at text pos -> d = mkDecoded 0xFFFD%Z 1)
  /\ ((0x80 <= b0)%Z -> ~ truncated_at text pos ->
      dec_len d = declared_len b0 /\ pos + dec_len d <= length text
      /\ dec_cp d = payload_bits text pos)
  /\ (0 <= dec_cp d < 2 ^ 21)%Z.
Proof.
  intros Hpos d b0. subst d b0.
  split; [|split; [|split]].
  - intros Hb. unfold decodeUtf8Unchecked.
    apply Z.ltb_lt in Hb. rewrite Hb. reflexivity.
  - intros (_ & Hb & Ht). unfold decodeUtf8Unchecked, declared_len in *.
    destruct (byte_at text pos <? 128)%Z eqn:E0; [apply Z.ltb_lt in E0; lia|].
    destruct (length text <=? pos + 1) eqn:E1; [reflexivity|].
    apply Nat.leb_gt in E1.
    destruct (Z.land (byte_at text pos) 224 =? 192)%Z; [lia|].
    destruct (length text <=? pos + 2) eqn:E2; [reflexivity|].
    apply Nat.leb_gt in E2.
    destruct (Z.land (byte_at text pos) 240 =? 224)%Z; [lia|].
    destruct (length text <=? pos + 3) eqn:E3; [reflexivity|].
    apply Nat.leb_gt in E3. lia.
  - intros Hb Hnt.
    assert (Hfit : pos + declared_len (byte_at text pos) <= length text).
    { destruct (Nat.le_gt_cases (pos + declared_len (byte_at text pos)) (length text));
        [assumption|].
      exfalso. apply Hnt. unfold truncated_at. auto. }
    split; [|split; [apply DecodeFacts.decode_len_le; assumption|]].
    + unfold decodeUtf8Unchecked, declared_len in *.
      destruct (byte_at text pos <? 128)%Z eqn:E0; [apply Z.ltb_lt in E0; lia|].
      destruct (Z.land (byte_at text pos) 224 =? 192)%Z.
      { destruct (length text <=? pos + 1) eqn:E1; [apply Nat.leb_le in E1; lia|].
        reflexivity. }
      destruct (Z.land (byte_at text pos) 240 =? 224)%Z.
      { destruct (length text <=? pos + 1) eqn:E1; [apply Nat.leb_le in E1; lia|].
        destruct (length text <=? pos + 2) eqn:E2; [apply Nat.leb_le in E2; lia|].
        reflexivity. }
      destruct (length text <=? pos + 1) eqn:E1; [apply Nat.leb_le in E1; lia|].
      destruct (length text <=? pos + 2) eqn:E2; [apply Nat.leb_le in E2; lia|].
      destruct (length text <=? pos + 3) eqn:E3; [apply Nat.leb_le in E3; lia|].
      reflexivity.
    + unfold decodeUtf8Unchecked, payload_bits, declared_len in *.
      destruct (byte_at text pos <? 128)%Z eqn:E0; [apply Z.ltb_lt in E0; lia|].
      destruct (Z.land (byte_at text pos) 224 =? 192)%Z.
      { destruct (length text <=? pos + 1) eqn:E1; [apply Nat.leb_le in E1; lia|].
        cbn [dec_cp]. apply DecodeFacts.assembled_2. }
      destruct (Z.land (byte_at text pos) 240 =? 224)%Z.
      { destruct (length text <=? pos + 1) eqn:E1; [apply Nat.leb_le in E1; lia|].
        destruct (length text <=? pos + 2) eqn:E2; [apply Nat.leb_le in E2; lia|].
        cbn [dec_cp]. apply DecodeFacts.assembled_3. }
      destruct (length text <=? pos + 1) eqn:E1; [apply Nat.leb_le in E1; lia|].
      destruct (length text <=? pos + 2) eqn:E2; [apply Nat.leb_le in E2; lia|].
      destruct (length text <=? pos + 3) eqn:E3; [apply Nat.leb_le in E3; lia|].
      cbn [dec_cp]. apply DecodeFacts.assembled_4.
  - apply DecodeFacts.decoded_fits.
Qed.

(** E4 B8 is the start of a three-byte sequence with its last byte missing. *)
Lemma decodeUtf8Unchecked_spec_witness :
  0 < length [xe4; xb8]
  /\ truncated_at [xe4; xb8] 0
  /\ decodeUtf8Unchecked [xe4; xb8] 0 = mkDecoded 0xFFFD%Z 1.
Proof.
  assert (T : truncated_at [xe4; xb8] 0).
  { unfold truncated_at. cbn. split; [lia|]. split; [vm_compute; congruence | lia]. }
  split; [cbn; lia|]. split; [exact T|].
  exact (proj1 (proj2 (@decodeUtf8Unchecked_spec [xe4; xb8] 0 (Nat.lt_0_succ 1))) T).
Defined.

(** ** findLineBreaks (C4) *)

Module LineBreakFacts.

Import LineBreaks LineBreakInv.

Section Text.

Variable text : list byte.

Local Abbreviation B := (breaks_between text 0).

Lemma breaks_between_app (a n m : nat) :
  breaks_between text a (n + m)
  = breaks_between text a n ++ breaks_between text (a + n) m.
Proof.
  unfold breaks_between. rewrite seq_app, flat_map_app. reflexivity.
Qed.

Lemma B_succ (q : nat) : B (q + 1) = B q ++ break_entry text q.
Proof.
  rewrite breaks_between_app. unfold breaks_between at 2. simpl.
  rewrite app_nil_r. reflexivity.
Qed.

Lemma nl_not_cr (b : Z) : is_nl b = true -> is_cr b = false.
Proof. unfold is_nl, is_cr. lia. Qed.

Lemma crlf_second_after (q : nat) :
  is_cr (byte_at text q) = false -> crlf_second text (q + 1) = false.
Proof.
  intros H. unfold crlf_second. replace (q + 1 - 1) with q by lia.
  rewrite H. rewrite andb_false_r. reflexivity.
Qed.

Lemma inner_entry (q : nat) (acc : list LineBreak) :
  inner_state text q acc -> entry_state text q false acc.
Proof.
  intros [-> Hc]. unfold entry_state. rewrite Hc.
  repeat split; try discriminate; reflexivity.
Qed.

(** One byte in the inner state: the three cases of the loop body. *)
Lemma step_nl (q : nat) (acc : list LineBreak) :
  q < length text -> inner_state text q acc -> is_nl (byte_at text q) = true ->
  (0 <? q) && is_cr (byte_at text (q - 1)) = false
  /\ inner_state text (q + 1) (acc ++ [mkLineBreak q LF]).
Proof.
  intros Hq [-> Hc] Hnl.
  assert (Hp : (0 <? q) && is_cr (byte_at text (q - 1)) = false).
  { unfold crlf_second in Hc. rewrite Hnl, andb_true_r in Hc.
    apply Nat.ltb_lt in Hq. rewrite Hq, andb_true_r in Hc. exact Hc. }
  split; [exact Hp|]. split.
  - rewrite B_succ. unfold break_entry, line_break_at. rewrite Hnl, Hp. reflexivity.
  - apply crlf_second_after. apply nl_not_cr. assumption.
Qed.

Lemma step_crlf (q : nat) (acc : list LineBreak) :
  inner_state text q acc -> is_cr (byte_at text q) = true ->
  (q + 1 <? length text) && is_nl (byte_at text (q + 1)) = true ->
  inner_state text (q + 1 + 1) (acc ++ [mkLineBreak (q + 1) CRLF])
  /\ crlf_second text (q + 1) = true.
Proof.
  intros [-> Hc] Hcr Hnext.
  apply andb_true_iff in Hnext. destruct Hnext as [Hlt Hnl].
  assert (Hnn : is_nl (byte_at text q) = false).
  { destruct (is_nl (byte_at text q)) eqn:E; [|reflexivity].
    apply nl_not_cr in E. congruence. }
  assert (Hs : crlf_second text (q + 1) = true).
  { unfold crlf_second. replace (q + 1 - 1) with q by lia.
    rewrite Hcr, Hlt, Hnl. replace (0 <? q + 1) with true; [reflexivity|].
    symmetry. apply Nat.ltb_lt. lia. }
  split; [|exact Hs]. split.
  - rewrite !B_succ. unfold break_entry at 1 2, line_break_at.
    rewrite Hnn, Hcr, Hlt, Hnl. cbn [andb].
    replace (q + 1 - 1) with q by lia. rewrite Hcr.
    replace (0 <? q + 1) with true by (symmetry; apply Nat.ltb_lt; lia).
    cbn [andb]. rewrite app_nil_r. reflexivity.
  - apply crlf_second_after. apply nl_not_cr. assumption.
Qed.

Lemma step_cr (q : nat) (acc : list LineBreak) :
  inner_state text q acc -> is_nl (byte_at text q) = false ->
  is_cr (byte_at text q) = true ->
  (q + 1 <? length text) && is_nl (byte_at text (q + 1)) = false ->
  inner_state text (q + 1) (acc ++ [mkLineBreak q CR]).
Proof.
  intros [-> Hc] Hnn Hcr Hnext. split.
  - rewrite B_succ. unfold break_entry, line_break_at. rewrite Hnn, Hcr, Hnext.
    reflexivity.
  - unfold crlf_second. replace (q + 1 - 1) with q by lia.
    rewrite Hcr. replace (0 <? q + 1) with true by (symmetry; apply Nat.ltb_lt; lia).
    cbn [andb]. exact Hnext.
Qed.

Lemma step_other (q : nat) (acc : list LineBreak) :
  inner_state text q acc -> is_nl (byte_at text q) = false ->
  is_cr (byte_at text q) = false ->
  inner_state text (q + 1) acc.
Proof.
  intros [-> Hc] Hnn Hnc. split.
  - rewrite B_succ. unfold break_entry, line_break_at. rewrite Hnn, Hnc.
    rewrite app_nil_r. reflexivity.
  - apply crlf_second_after. assumption.
Qed.

(** The first byte seen from an entry state. *)
Lemma entry_skip (q : nat) (prev : bool) (acc : list LineBreak) :
  entry_state text q prev acc -> q < length text ->
  is_nl (byte_at text q) = true ->
  (0 <? q) && is_cr (byte_at text (q - 1)) && prev = true ->
  inner_state text (q + 1) acc.
Proof.
  intros (Hp & Ht & Hf) Hq Hnl Hcond.
  apply andb_true_iff in Hcond. destruct Hcond as [Hcond Hprev].
  assert (Hs : crlf_second text q = true).
  { unfold crlf_second. rewrite Hcond, Hnl.
    apply Nat.ltb_lt in Hq. rewrite Hq. reflexivity. }
  destruct (Ht Hs) as [_ ->]. split; [reflexivity|].
  apply crlf_second_after. apply nl_not_cr. assumption.
Qed.

Lemma entry_inner (q : nat) (prev : bool) (acc : list LineBreak) :
  entry_state text q prev acc -> q < length text ->
  (is_nl (byte_at text q) = true ->
   (0 <? q) && is_cr (byte_at text (q - 1)) && prev = false) ->
  inner_state text q acc.
Proof.
  intros (Hp & Ht & Hf) Hq Hcond.
  destruct (crlf_second text q) eqn:Hs.
  - exfalso. destruct (Ht eq_refl) as [Hprev _].
    unfold crlf_second in Hs.
    apply andb_true_iff in Hs. destruct Hs as [Hs Hnl].
    apply andb_true_iff in Hs. destruct Hs as [Hs _].
    specialize (Hcond Hnl). rewrite Hs, Hprev in Hcond. discriminate.
  - split; [apply Hf; reflexivity | exact Hs].
Qed.

(** *** The scalar loop *)

Lemma tail_loop_inner :
  forall fuel q acc,
    length text - q <= fuel -> q <= length text -> inner_state text q acc ->
    tail_loop fuel text q false acc = B (length text).
Proof.
  induction fuel as [|fuel IH]; intros q acc Hf Hq Hin.
  - simpl. destruct Hin as [-> _]. replace q with (length text) by lia. reflexivity.
  - cbn [tail_loop]. destruct (q <? length text) eqn:Hlt.
    + apply Nat.ltb_lt in Hlt. rewrite andb_false_r.
      destruct (is_nl (byte_at text q)) eqn:Hnl.
      * destruct (step_nl Hlt Hin Hnl) as [Hp Hnext]. rewrite Hp.
        apply IH; [lia | lia | assumption].
      * destruct (is_cr (byte_at text q)) eqn:Hcr.
        -- destruct ((q + 1 <? length text) && is_nl (byte_at text (q + 1))) eqn:Hn.
           ++ pose proof Hn as Hn'. apply andb_true_iff in Hn'. destruct Hn' as [Hl _].
              apply Nat.ltb_lt in Hl.
              apply IH; [lia | lia | apply (step_crlf Hin Hcr Hn)].
           ++ apply IH; [lia | lia | apply (step_cr Hin Hnl Hcr Hn)].
        -- apply IH; [lia | lia | apply (step_other Hin Hnl Hcr)].
    + apply Nat.ltb_ge in Hlt. destruct Hin as [-> _].
      replace q with (length text) by lia. reflexivity.
Qed.

Lemma tail_loop_entry (fuel q : nat) (prev : bool) (acc : list LineBreak) :
  length text - q <= fuel -> q <= length text -> entry_state text q prev acc ->
  tail_loop fuel text q prev acc = B (length text).
Proof.
  intros Hfuel Hq He.
  destruct (Nat.eq_dec q (length text)) as [->|Hne].
  - destruct He as (_ & _ & Hf).
    assert (Hs : crlf_second text (length text) = false).
    { unfold crlf_second. rewrite Nat.ltb_irrefl, andb_false_r. reflexivity. }
    rewrite (Hf Hs).
    destruct fuel; cbn [tail_loop]; [reflexivity | rewrite Nat.ltb_irrefl; reflexivity].
  - assert (Hlt : q < length text) by lia.
    destruct fuel as [|fuel]; [lia|].
    cbn [tail_loop]. apply Nat.ltb_lt in Hlt. rewrite Hlt. apply Nat.ltb_lt in Hlt.
    destruct (is_nl (byte_at text q)) eqn:Hnl.
    + destruct ((0 <? q) && is_cr (byte_at text (q - 1)) && prev) eqn:Hc.
      * apply tail_loop_inner; [lia | lia | apply (entry_skip He Hlt Hnl Hc)].
      * assert (Hin : inner_state text q acc) by (apply (entry_inner He Hlt); intros _; exact Hc).
        destruct (step_nl Hlt Hin Hnl) as [Hp Hnext]. rewrite Hp.
        apply tail_loop_inner; [lia | lia | assumption].
    + assert (Hin : inner_state text q acc)
        by (apply (entry_inner He Hlt); intros E; congruence).
      destruct (is_cr (byte_at text q)) eqn:Hcr.
      * destruct ((q + 1 <? length text) && is_nl (byte_at text (q + 1))) eqn:Hn.
        -- pose proof Hn as Hn'. apply andb_true_iff in Hn'. destruct Hn' as [Hl _].
           apply Nat.ltb_lt in Hl.
           apply tail_loop_inner; [lia | lia | apply (step_crlf Hin Hcr Hn)].
        -- apply tail_loop_inner; [lia | lia | apply (step_cr Hin Hnl Hcr Hn)].
      * apply tail_loop_inner; [lia | lia | apply (step_other Hin Hnl Hcr)].
Qed.

(** *** One chunk *)

Lemma chunk_loop_inner (pos : nat) :
  pos + vector_len <= length text ->
  forall fuel i prev acc,
    vector_len - i <= fuel ->
    (i <= vector_len /\ inner_state text (pos + i) acc
     \/ i = vector_len + 1 /\ acc = B (pos + i) /\ crlf_second text (pos + vector_len) = true) ->
    0 < i ->
    chunk_done text pos (snd (chunk_loop fuel text pos i prev acc)).
Proof.
  intros Hchunk. unfold vector_len in *.
  assert (Hexit : forall i acc,
             (i <= 16 /\ inner_state text (pos + i) acc
              \/ i = 16 + 1 /\ acc = B (pos + i) /\ crlf_second text (pos + 16) = true) ->
             16 <= i -> chunk_done text pos acc).
  { intros i acc [[Hi [-> Hc]]|(-> & -> & Hc)] H16; unfold chunk_done, vector_len.
    - replace i with 16 in * by lia. rewrite Hc. f_equal. lia.
    - rewrite Hc. f_equal. lia. }
  induction fuel as [|fuel IH]; intros i prev acc Hf Hst Hi.
  - simpl. apply (Hexit i); [assumption | lia].
  - cbn [chunk_loop]. unfold vector_len. destruct (i <? 16) eqn:Hlt.
    + apply Nat.ltb_lt in Hlt.
      destruct Hst as [[_ Hin]|[-> _]]; [|lia].
      assert (Hq : pos + i < length text) by lia.
      replace (i =? 0) with false by (symmetry; apply Nat.eqb_neq; lia). cbn [andb].
      destruct (is_nl (byte_at text (pos + i))) eqn:Hnl.
      * destruct (step_nl Hq Hin Hnl) as [Hp Hnext]. rewrite Hp.
        apply IH; [lia | left; split; [lia|] | lia].
        replace (pos + (i + 1)) with (pos + i + 1) by lia. assumption.
      * destruct (is_cr (byte_at text (pos + i))) eqn:Hcr.
        -- destruct ((pos + i + 1 <? length text)
                     && is_nl (byte_at text (pos + i + 1))) eqn:Hn.
           ++ destruct (step_crlf Hin Hcr Hn) as [Hnext Hs].
              apply IH; [lia | | lia].
              destruct (Nat.eq_dec i 15) as [->|Hne].
              ** right. split; [reflexivity|]. split.
                 --- destruct Hnext as [-> _]. f_equal. lia.
                 --- replace (pos + 16) with (pos + 15 + 1) by lia. assumption.
              ** left. split; [lia|].
                 replace (pos + (i + 1 + 1)) with (pos + i + 1 + 1) by lia. assumption.
           ++ apply IH; [lia | left; split; [lia|] | lia].
              replace (pos + (i + 1)) with (pos + i + 1) by lia.
              apply (step_cr Hin Hnl Hcr Hn).
        -- apply IH; [lia | left; split; [lia|] | lia].
           replace (pos + (i + 1)) with (pos + i + 1) by lia.
           apply (step_other Hin Hnl Hcr).
    + apply Nat.ltb_ge in Hlt. cbn [snd]. apply (Hexit i); assumption.
Qed.

Lemma chunk_loop_entry (fuel pos : nat) (prev : bool) (acc : list LineBreak) :
  vector_len <= fuel ->
  pos + vector_len <= length text -> entry_state text pos prev acc ->
  chunk_done text pos (snd (chunk_loop (S fuel) text pos 0 prev acc)).
Proof.
  intros Hfuel Hchunk He.
  assert (Hq : pos < length text) by (unfold vector_len in *; lia).
  cbn [chunk_loop]. replace (0 <? vector_len) with true by reflexivity.
  replace (pos + 0) with pos by lia. cbn [Nat.eqb andb].
  destruct (is_nl (byte_at text pos)) eqn:Hnl.
  - destruct prev eqn:Hprev.
    + destruct ((0 <? pos) && is_cr (byte_at text (pos - 1))) eqn:Hc.
      * apply chunk_loop_inner; [assumption | unfold vector_len in *; lia | | lia].
        left. split; [unfold vector_len; lia|].
        apply (entry_skip He Hq Hnl). rewrite Hc. reflexivity.
      * exfalso. destruct He as (Hp & _ & _). destruct (Hp eq_refl) as [H0 Hcr].
        apply Nat.ltb_lt in H0. rewrite H0, Hcr in Hc. discriminate.
    + assert (Hin : inner_state text pos acc).
      { apply (entry_inner He Hq). intros _. apply andb_false_r. }
      destruct (step_nl Hq Hin Hnl) as [Hp Hnext]. rewrite Hp.
      apply chunk_loop_inner; [assumption | unfold vector_len in *; lia | | lia].
      left. split; [unfold vector_len; lia | assumption].
  - assert (Hin : inner_state text pos acc)
      by (apply (entry_inner He Hq); intros E; congruence).
    destruct (is_cr (byte_at text pos)) eqn:Hcr.
    + destruct ((pos + 1 <? length text) && is_nl (byte_at text (pos + 1))) eqn:Hn.
      * apply chunk_loop_inner; [assumption | unfold vector_len in *; lia | | lia].
        left. split; [unfold vector_len; lia|].
        replace (pos + (0 + 1 + 1)) with (pos + 1 + 1) by lia.
        apply (step_crlf Hin Hcr Hn).
      * apply chunk_loop_inner; [assumption | unfold vector_len in *; lia | | lia].
        left. split; [unfold vector_len; lia|].
        apply (step_cr Hin Hnl Hcr Hn).
    + apply chunk_loop_inner; [assumption | unfold vector_len in *; lia | | lia].
      left. split; [unfold vector_len; lia|].
      apply (step_other Hin Hnl Hcr).
Qed.

Lemma chunk_done_entry (pos : nat) (acc : list LineBreak) :
  chunk_done text pos acc ->
  entry_state text (pos + vector_len) (is_cr (byte_at text (pos + vector_len - 1))) acc.
Proof.
  unfold chunk_done. intros ->. unfold entry_state. split; [|split].
  - intros H. split; [unfold vector_len; lia | assumption].
  - intros Hs. rewrite Hs. split; [|f_equal].
    unfold crlf_second in Hs.
    apply andb_true_iff in Hs. destruct Hs as [Hs _].
    apply andb_true_iff in Hs. destruct Hs as [Hs _].
    apply andb_true_iff in Hs. destruct Hs as [_ Hs]. exact Hs.
  - intros Hs. rewrite Hs. f_equal. lia.
Qed.

(** A chunk without [\n] and [\r] adds nothing. *)
Lemma quiet_chunk (pos : nat) (prev : bool) (acc : list LineBreak) :
  chunk_any is_nl text pos vector_len = false ->
  chunk_any is_cr text pos vector_len = false ->
  entry_state text pos prev acc ->
  entry_state text (pos + vector_len) false acc.
Proof.
  intros Hnl Hcr (Hp & Ht & Hf).
  pose proof (proj1 (chunk_any_false _ _ _ _) Hnl) as Anl.
  pose proof (proj1 (chunk_any_false _ _ _ _) Hcr) as Acr.
  assert (Hs : crlf_second text pos = false).
  { unfold crlf_second. rewrite (Anl pos) by (unfold vector_len; lia).
    apply andb_false_r. }
  assert (Hall : forall n, n <= vector_len -> B (pos + n) = B pos).
  { induction n as [|n IH]; intros Hn; [f_equal; lia|].
    replace (pos + S n) with (pos + n + 1) by lia. rewrite B_succ, IH by lia.
    unfold break_entry, line_break_at.
    rewrite (Anl (pos + n)), (Acr (pos + n)) by (unfold vector_len in *; lia).
    apply app_nil_r. }
  apply inner_entry. split.
  - rewrite Hall by lia. apply Hf. assumption.
  - unfold crlf_second.
    rewrite (Acr (pos + vector_len - 1)) by (unfold vector_len; lia).
    rewrite andb_false_r. reflexivity.
Qed.

(** *** The loop over chunks *)

Lemma vec_loop_entry :
  forall fuel pos prev acc,
    pos <= length text -> entry_state text pos prev acc ->
    let '(pos', prev', acc') := vec_loop fuel text pos prev acc in
    pos' <= length text /\ entry_state text pos' prev' acc'.
Proof.
  induction fuel as [|fuel IH]; intros pos prev acc Hpos He; cbn [vec_loop].
  - split; assumption.
  - destruct (pos + vector_len <=? length text) eqn:Hle; [|split; assumption].
    apply Nat.leb_le in Hle.
    destruct (chunk_any is_nl text pos vector_len) eqn:Hnl; cbn [orb].
    + apply IH; [assumption|]. apply chunk_done_entry.
      apply chunk_loop_entry; [apply Nat.le_refl | assumption | assumption].
    + destruct (chunk_any is_cr text pos vector_len) eqn:Hcr.
      * apply IH; [assumption|]. apply chunk_done_entry.
        apply chunk_loop_entry; [apply Nat.le_refl | assumption | assumption].
      * apply IH; [assumption|]. apply (quiet_chunk Hnl Hcr He).
Qed.

Lemma entry_state_start : entry_state text 0 false [].
Proof.
  unfold entry_state. repeat split; try discriminate.
Qed.

Lemma findLineBreaks_expected : findLineBreaks text = expected_line_breaks text.
Proof.
  unfold findLineBreaks, expected_line_breaks.
  pose proof (@vec_loop_entry (length text) 0 false [] (Nat.le_0_l _) entry_state_start) as H.
  destruct (vec_loop (length text) text 0 false []) as [[pos prev] acc].
  destruct H as [Hpos He]. apply tail_loop_entry; [lia | assumption | assumption].
Qed.

(** *** The expected list *)

Lemma in_breaks_between (a n p : nat) (k : LineBreakKind) :
  In (mkLineBreak p k) (breaks_between text a n) <->
  a <= p < a + n /\ line_break_at text p = Some k.
Proof.
  unfold breaks_between. rewrite in_flat_map. split.
  - intros (q & Hq & Hin). apply in_seq in Hq. unfold break_entry in Hin.
    destruct (line_break_at text q) eqn:E; [|destruct Hin].
    destruct Hin as [Hin|[]]. injection Hin as <- <-. auto.
  - intros [Hp E]. exists p. split; [apply in_seq; assumption|].
    unfold break_entry. rewrite E. left. reflexivity.
Qed.

Lemma positions_between (a n : nat) :
  NoDup (map lb_pos (breaks_between text a n))
  /\ forall q, In q (map lb_pos (breaks_between text a n)) -> a <= q < a + n.
Proof.
  revert a. induction n as [|n IH]; intros a.
  - split; [constructor | intros q []].
  - destruct (IH (S a)) as [Hnd Hin].
    unfold breaks_between in *. cbn [seq flat_map]. rewrite map_app.
    unfold break_entry at 1 3. destruct (line_break_at text a); cbn [map app lb_pos].
    + split.
      * constructor; [|assumption]. intros H. apply Hin in H. lia.
      * intros q [<-|H]; [lia|]. apply Hin in H. lia.
    + split; [assumption|]. intros q H. apply Hin in H. lia.
Qed.

End Text.

End LineBreakFacts.

(** C4. [find_line_breaks] reports every [\r\n] pair once, at the index of
    its [\n], with kind CRLF, wherever the pair lies with respect to the
    16-byte chunks; every [\r] not followed by [\n] as CR at its own
    index; every [\n] not preceded by [\r] as LF at its own index; no
    position twice.  The result is the list of the terminators in the
    order of their positions. *)
Theorem findLineBreaks_spec (text : list byte) :
  findLineBreaks text = expected_line_breaks text
  /\ (forall p, In (mkLineBreak p CRLF) (findLineBreaks text) <->
                0 < p < length text
                /\ byte_at text (p - 1) = 13%Z /\ byte_at text p = 10%Z)
  /\ (forall p, In (mkLineBreak p CR) (findLineBreaks text) <->
                p < length text /\ byte_at text p = 13%Z
                /\ ~ (p + 1 < length text /\ byte_at text (p + 1) = 10%Z))
  /\ (forall p, In (mkLineBreak p LF) (findLineBreaks text) <->
                p < length text /\ byte_at text p = 10%Z
                /\ ~ (0 < p /\ byte_at text (p - 1) = 13%Z))
  /\ NoDup (map lb_pos (findLineBreaks text)).
Proof.
  rewrite LineBreakFacts.findLineBreaks_expected. unfold expected_line_breaks.
  split; [reflexivity|].
  assert (Hcase : forall p k,
             In (mkLineBreak p k) (breaks_between text 0 (length text)) <->
             p < length text /\ line_break_at text p = Some k).
  { intros p k. rewrite LineBreakFacts.in_breaks_between. intuition lia. }
  unfold line_break_at, LineBreaks.is_nl, LineBreaks.is_cr in Hcase.
  split; [|split; [|split]];
    [intros p; rewrite Hcase; clear Hcase ..
    |apply LineBreakFacts.positions_between];
    (destruct (byte_at text p =? 10)%Z eqn:Enl;
     [destruct ((0 <? p) && (byte_at text (p - 1) =? 13)%Z) eqn:Ecr
     |destruct (byte_at text p =? 13)%Z eqn:Ec;
      [destruct ((p + 1 <? length text) && (byte_at text (p + 1) =? 10)%Z) eqn:En|]]);
    repeat match goal with
           | E : (_ && _) = true |- _ => apply andb_true_iff in E; destruct E
           | E : (_ && _) = false |- _ => apply andb_false_iff in E; destruct E
           | E : (_ <? _) = true |- _ => apply Nat.ltb_lt in E
           | E : (_ <? _) = false |- _ => apply Nat.ltb_ge in E
           | E : (_ =? _)%Z = true |- _ => apply Z.eqb_eq in E
           | E : (_ =? _)%Z = false |- _ => apply Z.eqb_neq in E
           end;
    (split;
     [intros [Hp Hk]; try discriminate Hk; repeat split; try assumption; try lia;
      intros [? ?]; lia
     |intros Hyp; split; [lia|]; try reflexivity; exfalso;
      destruct Hyp as (Hy1 & Hy2 & Hy3); try lia; apply Hy3; split; lia]).
Qed.

(** The pair on a chunk boundary: [\r] is byte 15, [\n] is byte 16. *)
Example findLineBreaks_chunk_boundary :
  findLineBreaks (repeat x61 15 ++ [x0d; x0a] ++ repeat x62 15)
  = [mkLineBreak 16 CRLF].
Proof. vm_compute. reflexivity. Qed.

(** ** The width engine *)

(** *** Decoding never leaves the slice *)

Lemma cp_len_at_pos (text : list byte) (pos : nat) : 1 <= cp_len_at text pos.
Proof.
  unfold cp_len_at. destruct (byte_at text pos <? 128)%Z; [lia|].
  apply DecodeFacts.decode_len_pos.
Qed.

Lemma cp_len_at_le (text : list byte) (pos : nat) :
  pos < length text -> pos + cp_len_at text pos <= length text.
Proof.
  intros H. unfold cp_len_at. destruct (byte_at text pos <? 128)%Z; [lia|].
  apply DecodeFacts.decode_len_le. assumption.
Qed.

Lemma curr_cp_checked_eq (text : list byte) (pos : nat) :
  pos < length text -> curr_cp_checked text pos = curr_cp_at text pos.
Proof.
  intros H. unfold curr_cp_checked, curr_cp_at.
  destruct (byte_at text pos <? 128)%Z; [reflexivity|].
  pose proof (DecodeFacts.decode_len_le text H) as Hle.
  destruct (length text <? pos + dec_len (decodeUtf8Unchecked text pos)) eqn:E;
    [apply Nat.ltb_lt in E; lia | reflexivity].
Qed.

Lemma ascii_byte_cp (text : list byte) (pos : nat) :
  (byte_at text pos < 0x80)%Z ->
  curr_cp_at text pos = byte_at text pos /\ cp_len_at text pos = 1.
Proof.
  intros H. unfold curr_cp_at, cp_len_at. apply Z.ltb_lt in H. rewrite H. auto.
Qed.

(** *** The codepoints of a text *)

Lemma codepoints_from_fuel2 (text : list byte) :
  forall f1 f2 pos,
    length text - pos <= f1 -> length text - pos <= f2 ->
    codepoints_from f1 text pos = codepoints_from f2 text pos.
Proof.
  induction f1 as [|f1 IH]; intros f2 pos H1 H2.
  - destruct f2; [reflexivity|]. cbn [codepoints_from].
    replace (pos <? length text) with false; [reflexivity|].
    symmetry. apply Nat.ltb_ge. lia.
  - destruct f2 as [|f2]; cbn [codepoints_from].
    + replace (pos <? length text) with false; [reflexivity|].
      symmetry. apply Nat.ltb_ge. lia.
    + destruct (pos <? length text) eqn:Hlt; [|reflexivity].
      apply Nat.ltb_lt in Hlt. pose proof (cp_len_at_pos text pos).
      f_equal. apply IH; lia.
Qed.

Lemma codepoints_from_fuel (text : list byte) (fuel pos : nat) :
  length text - pos <= fuel ->
  codepoints_from fuel text pos = codepoints_at text pos.
Proof.
  intros H. apply codepoints_from_fuel2; [assumption | apply Nat.le_refl].
Qed.

Lemma codepoints_at_end (text : list byte) (pos : nat) :
  length text <= pos -> codepoints_at text pos = [].
Proof.
  intros H. unfold codepoints_at. replace (length text - pos) with 0 by lia.
  reflexivity.
Qed.

Lemma codepoints_at_step (text : list byte) (pos : nat) :
  pos < length text ->
  codepoints_at text pos
  = mkCodepoint pos (byte_at text pos) (curr_cp_at text pos) (cp_len_at text pos)
      :: codepoints_at text (pos + cp_len_at text pos).
Proof.
  intros H. unfold codepoints_at at 1.
  destruct (length text - pos) as [|n] eqn:En; [lia|].
  cbn [codepoints_from]. apply Nat.ltb_lt in H. rewrite H. apply Nat.ltb_lt in H.
  f_equal. apply codepoints_from_fuel. pose proof (cp_len_at_pos text pos). lia.
Qed.

(** Induction over the positions at which codepoints start. *)
Lemma position_induction (text : list byte) (P : nat -> Prop) :
  (forall pos, length text <= pos -> P pos) ->
  (forall pos, pos < length text -> P (pos + cp_len_at text pos) -> P pos) ->
  forall pos, P pos.
Proof.
  intros Hend Hstep.
  assert (G : forall n pos, length text - pos <= n -> P pos).
  { induction n as [|n IH]; intros pos Hn.
    - apply Hend. lia.
    - destruct (Nat.lt_ge_cases pos (length text)) as [Hlt|Hge]; [|apply Hend; lia].
      apply Hstep; [assumption|]. apply IH.
      pose proof (cp_len_at_pos text pos). lia. }
  intros pos. apply (G (length text - pos)). apply Nat.le_refl.
Qed.

(** *** The scan: chunks and scalar loop agree *)

Section ScanFacts.

Context {U : Uucode}.

Variable handle : ClusterState -> bool -> nat -> bool * ClusterState.
Variable tab_width : nat.
Variable width_method : WidthMethod.
Variable text : list byte.

Local Abbreviation tail := (scan_tail_loop handle tab_width width_method).
Local Abbreviation run := (tail_run handle tab_width width_method text).
Local Abbreviation see := (visit handle width_method).

Lemma tail_fuel :
  forall f1 f2 pos st,
    length text - pos <= f1 -> length text - pos <= f2 ->
    tail f1 text pos st = tail f2 text pos st.
Proof.
  induction f1 as [|f1 IH]; intros f2 pos st H1 H2.
  - destruct f2; [reflexivity|]. cbn [scan_tail_loop].
    replace (pos <? length text) with false; [reflexivity|].
    symmetry. apply Nat.ltb_ge. lia.
  - destruct f2 as [|f2]; cbn [scan_tail_loop].
    + replace (pos <? length text) with false; [reflexivity|].
      symmetry. apply Nat.ltb_ge. lia.
    + destruct (pos <? length text) eqn:Hlt; [|reflexivity].
      apply Nat.ltb_lt in Hlt. pose proof (cp_len_at_pos text pos).
      destruct (see st pos (curr_cp_at text pos)
                  (charWidth (byte_at text pos) (curr_cp_at text pos) tab_width));
        [reflexivity|].
      apply IH; lia.
Qed.

Lemma run_end (pos : nat) (st : ClusterState) :
  length text <= pos -> run pos st = inr st.
Proof.
  intros H. unfold tail_run. replace (length text - pos) with 0 by lia. reflexivity.
Qed.

Lemma run_step (pos : nat) (st : ClusterState) :
  pos < length text ->
  run pos st
  = match see st pos (curr_cp_at text pos)
            (charWidth (byte_at text pos) (curr_cp_at text pos) tab_width) with
    | inl r => inl r
    | inr st' => run (pos + cp_len_at text pos) st'
    end.
Proof.
  intros H. unfold tail_run at 1.
  destruct (length text - pos) as [|n] eqn:En; [lia|].
  cbn [scan_tail_loop]. apply Nat.ltb_lt in H. rewrite H. apply Nat.ltb_lt in H.
  destruct (see st pos (curr_cp_at text pos)
              (charWidth (byte_at text pos) (curr_cp_at text pos) tab_width));
    [reflexivity|].
  apply tail_fuel; pose proof (cp_len_at_pos text pos); lia.
Qed.

Lemma ascii_width (b : Z) :
  (b < 0x80)%Z -> charWidth b b tab_width = asciiCharWidth b tab_width.
Proof.
  intros H. unfold charWidth, asciiCharWidth.
  destruct (b =? 9)%Z; [reflexivity|].
  apply Z.ltb_lt in H. rewrite H. cbn [andb].
  destruct ((32 <=? b)%Z && (b <=? 126)%Z); [reflexivity|].
  apply Z.ltb_lt in H.
  replace (128 <=? b)%Z with false; [reflexivity|]. symmetry. apply Z.leb_gt. lia.
Qed.

Lemma ascii_chunk_run (pos : nat) :
  pos + vector_len <= length text ->
  (forall j, pos <= j < pos + vector_len -> (byte_at text j < 0x80)%Z) ->
  forall fuel i st,
    i <= vector_len -> vector_len - i <= fuel ->
    match ascii_chunk_loop handle tab_width width_method fuel text pos i st with
    | inl r => inl r
    | inr st' => run (pos + vector_len) st'
    end = run (pos + i) st.
Proof.
  intros Hchunk Hascii.
  induction fuel as [|fuel IH]; intros i st Hi Hf.
  - cbn [ascii_chunk_loop]. replace i with vector_len by lia. reflexivity.
  - cbn [ascii_chunk_loop]. destruct (i <? vector_len) eqn:Hlt.
    + apply Nat.ltb_lt in Hlt.
      assert (Hb : (byte_at text (pos + i) < 0x80)%Z) by (apply Hascii; lia).
      destruct (ascii_byte_cp text (pos + i) Hb) as [Hcp Hlen].
      rewrite (run_step (pos := pos + i)) by lia.
      rewrite Hcp, Hlen, ascii_width by assumption.
      destruct (see st (pos + i) (byte_at text (pos + i))
                  (asciiCharWidth (byte_at text (pos + i)) tab_width));
        [reflexivity|].
      rewrite IH by lia. f_equal. lia.
    + apply Nat.ltb_ge in Hlt. replace i with vector_len by lia. reflexivity.
Qed.

Lemma mixed_chunk_run (pos : nat) :
  forall fuel i st,
    match mixed_chunk_loop handle tab_width width_method fuel text pos i st with
    | inl r => inl r
    | inr (st', i') => run (pos + i') st'
    end = run (pos + i) st.
Proof.
  induction fuel as [|fuel IH]; intros i st; cbn [mixed_chunk_loop]; [reflexivity|].
  destruct ((i <? vector_len) && (pos + i <? length text)) eqn:Hc; [|reflexivity].
  apply andb_true_iff in Hc. destruct Hc as [_ Hlt]. apply Nat.ltb_lt in Hlt.
  destruct (length text <? pos + i + cp_len_at text (pos + i)); [reflexivity|].
  rewrite (run_step (pos := pos + i)) by assumption.
  destruct (see st (pos + i) (curr_cp_at text (pos + i))
              (charWidth (byte_at text (pos + i)) (curr_cp_at text (pos + i)) tab_width));
    [reflexivity|].
  rewrite IH. f_equal. lia.
Qed.

Lemma vec_loop_run :
  forall fuel pos st,
    match scan_vec_loop handle tab_width width_method fuel text pos st with
    | inl r => inl r
    | inr (st', pos') => run pos' st'
    end = run pos st.
Proof.
  induction fuel as [|fuel IH]; intros pos st; cbn [scan_vec_loop]; [reflexivity|].
  destruct (pos + vector_len <=? length text) eqn:Hle; [|reflexivity].
  apply Nat.leb_le in Hle.
  destruct (chunk_any (fun b => (128 <=? b)%Z) text pos vector_len) eqn:Hany;
    cbn [negb].
  - pose proof (mixed_chunk_run pos vector_len 0 st) as H.
    replace (pos + 0) with pos in H by lia.
    destruct (mixed_chunk_loop handle tab_width width_method vector_len text pos 0 st)
      as [r|[st' i']]; [exact H|]. rewrite IH. exact H.
  - pose proof (proj1 (chunk_any_false _ _ _ _) Hany) as Hascii.
    assert (Hall : forall j, pos <= j < pos + vector_len -> (byte_at text j < 0x80)%Z).
    { intros j Hj. specialize (Hascii j Hj). cbn beta in Hascii. lia. }
    pose proof (@ascii_chunk_run pos Hle Hall vector_len 0 st (Nat.le_0_l _)
                  (Nat.le_sub_l _ _)) as H.
    replace (pos + 0) with pos in H by lia.
    destruct (ascii_chunk_loop handle tab_width width_method vector_len text pos 0 st)
      as [r|st']; [exact H|]. rewrite IH. exact H.
Qed.

Lemma scan_run :
  scan handle tab_width width_method text = run 0 (ClusterState_init width_method).
Proof.
  unfold scan. rewrite <- vec_loop_run with (fuel := length text).
  destruct (scan_vec_loop handle tab_width width_method (length text) text 0
              (ClusterState_init width_method)) as [r|[st pos]]; [reflexivity|].
  apply tail_fuel; lia.
Qed.

Lemma run_list :
  forall pos st,
    run pos st = scan_list handle tab_width width_method (codepoints_at text pos) st.
Proof.
  intros pos. pattern pos. apply (position_induction text); clear pos.
  - intros pos Hend st. rewrite run_end, codepoints_at_end by assumption. reflexivity.
  - intros pos Hlt IH st. rewrite run_step, codepoints_at_step by assumption.
    cbn [scan_list cp_pos cp_value cp_byte].
    destruct (see st pos (curr_cp_at text pos)
                (charWidth (byte_at text pos) (curr_cp_at text pos) tab_width));
      [reflexivity|]. apply IH.
Qed.

(** The three loops of the source are one pass over the codepoints. *)
Lemma scan_codepoints :
  scan handle tab_width width_method text
  = scan_list handle tab_width width_method (codepoints text)
      (ClusterState_init width_method).
Proof.
  rewrite scan_run. apply run_list.
Qed.

End ScanFacts.

(** *** The wrap scan and the clusters of the text *)

Section WrapFacts.

Context {U : Uucode}.

Variable max_columns : nat.
Variable tab_width : nat.
Variable width_method : WidthMethod.
Variable text_len : nat.

Let wrap_handle : ClusterState -> bool -> nat -> bool * ClusterState :=
  fun st brk start => handleClusterForWrap st brk start max_columns.

Lemma wrap_clusters_cons (cols cnt : nat) (c : Cluster) (rest : list Cluster) :
  rest <> [] ->
  wrap_clusters max_columns cols cnt (c :: rest) text_len
  = if max_columns <? cols + cl_width c then mkResult (cl_start c) cnt cols
    else wrap_clusters max_columns (cols + cl_width c) (cnt + 1) rest text_len.
Proof.
  intros H. destruct rest; [congruence | reflexivity].
Qed.

Lemma isGraphemeBreak_first (cp : Z) (bs : BreakState) (m : WidthMethod) :
  isGraphemeBreak None cp bs m = (true, bs).
Proof.
  unfold isGraphemeBreak. destruct m; [reflexivity | |];
    destruct (negb (isValidCodepoint cp)); reflexivity.
Qed.

Lemma segment_nonempty :
  forall cps prev bs o,
    segment width_method tab_width cps prev bs (Some o) text_len <> [].
Proof.
  induction cps as [|c rest IH]; intros prev bs [[start ws] cs].
  - cbn. discriminate.
  - cbn [segment].
    destruct (isGraphemeBreak prev (cp_value c) bs width_method) as [brk bs1].
    destruct brk.
    + cbn. discriminate.
    + apply IH.
Qed.

Lemma wrap_scan_clusters :
  forall cps st prev bs cur,
    agrees width_method st prev bs cur ->
    wrap_finish max_columns text_len
      (scan_list wrap_handle tab_width width_method cps st)
    = wrap_clusters max_columns (cs_columns_used st) (cs_grapheme_count st)
        (segment width_method tab_width cps prev bs cur text_len) text_len.
Proof.
  induction cps as [|c rest IH]; intros st prev bs cur Hag.
  - destruct st as [cols cnt cw cstart prev' bs' ws wm started].
    destruct Hag as (Hp & Hb & Hm & Hcur). cbn in Hp, Hb, Hm, Hcur. subst prev' bs' wm.
    cbn [scan_list segment wrap_finish cs_prev_cp cs_cluster_width cs_columns_used
           cs_grapheme_count].
    destruct cur as [[[start ws0] cs]|].
    + destruct Hcur as (Hne & -> & -> & -> & ->).
      destruct prev as [p|]; [|congruence]. reflexivity.
    + destruct Hcur as [-> ->]. reflexivity.
  - destruct st as [cols cnt cw cstart prev' bs' ws wm started].
    destruct Hag as (Hp & Hb & Hm & Hcur). cbn in Hp, Hb, Hm, Hcur. subst prev' bs' wm.
    cbn [scan_list segment]. unfold visit.
    cbn [cs_prev_cp cs_break_state cs_width_method cs_columns_used cs_grapheme_count
           cs_cluster_width cs_cluster_start cs_width_state cs_cluster_started].
    destruct (isGraphemeBreak prev (cp_value c) bs width_method) as [brk bs1] eqn:E.
    destruct brk.
    + (* a boundary before [c] *)
      change (wrap_handle ?a ?b ?c) with (handleClusterForWrap a b c max_columns).
      unfold handleClusterForWrap.
      cbn [cs_prev_cp cs_columns_used cs_cluster_width cs_grapheme_count].
      destruct cur as [[[start ws0] cs]|].
      * destruct Hcur as (Hne & -> & -> & -> & ->).
        destruct prev as [p|]; [|congruence].
        cbn [close_cluster app].
        rewrite wrap_clusters_cons by apply segment_nonempty.
        cbn [cl_width cl_start].
        destruct (max_columns <? cols + width ws0) eqn:Hfit.
        -- reflexivity.
        -- unfold open_cluster, accumulate.
           cbn [cs_cluster_started negb cs_columns_used cs_grapheme_count
                  cs_cluster_start cs_break_state cs_width_method cs_width_state
                  cs_prev_cp].
           rewrite (IH _ (Some (cp_value c)) bs1
                      (Some (cp_pos c,
                             GraphemeWidthState_init (cp_value c)
                               (codepoint_width tab_width c) width_method, [c]))).
           ++ reflexivity.
           ++ unfold agrees, codepoint_width. cbn. repeat split; congruence.
      * destruct Hcur as [-> ->]. cbn [close_cluster app].
        unfold open_cluster, accumulate.
        cbn [cs_cluster_started negb cs_columns_used cs_grapheme_count
               cs_cluster_start cs_break_state cs_width_method cs_width_state
               cs_prev_cp].
        rewrite (IH _ (Some (cp_value c)) bs1
                   (Some (cp_pos c,
                          GraphemeWidthState_init (cp_value c)
                            (codepoint_width tab_width c) width_method, [c]))).
        -- reflexivity.
        -- unfold agrees, codepoint_width. cbn. repeat split; congruence.
    + (* [c] continues the cluster *)
      change (wrap_handle ?a ?b ?c) with (handleClusterForWrap a b c max_columns).
      unfold handleClusterForWrap.
      destruct cur as [[[start ws0] cs]|].
      * destruct Hcur as (Hne & -> & -> & -> & ->).
        unfold accumulate.
        cbn [cs_cluster_started negb cs_columns_used cs_grapheme_count
               cs_cluster_start cs_break_state cs_width_method cs_width_state
               cs_prev_cp].
        rewrite (IH _ (Some (cp_value c)) bs1
                   (Some (start,
                          GraphemeWidthState_addCodepoint ws0 (cp_value c)
                            (codepoint_width tab_width c), cs ++ [c]))).
        -- reflexivity.
        -- unfold agrees, codepoint_width. cbn. repeat split; congruence.
      * destruct Hcur as [-> _]. rewrite isGraphemeBreak_first in E. discriminate.
Qed.

Lemma agrees_init : agrees width_method (ClusterState_init width_method) None break_default None.
Proof.
  unfold agrees, ClusterState_init. cbn. repeat split.
Qed.

End WrapFacts.

(** [findWrapPosByWidthUnicode] on the general path is [wrap_clusters] over
    the clusters of the text. *)
Lemma findWrapPosByWidthUnicode_clusters {U : Uucode}
    (text : list byte) (max_columns tab_width : nat) (width_method : WidthMethod) :
  text <> [] -> 0 < max_columns ->
  findWrapPosByWidthUnicode text max_columns tab_width false width_method
  = wrap_clusters max_columns 0 0 (clusters width_method tab_width text) (length text).
Proof.
  intros Hne Hmax. unfold findWrapPosByWidthUnicode.
  replace (length text =? 0) with false
    by (symmetry; apply Nat.eqb_neq; destruct text; [congruence | discriminate]).
  replace (max_columns =? 0) with false by (symmetry; apply Nat.eqb_neq; lia).
  cbn [orb]. rewrite scan_codepoints.
  change (wrap_finish max_columns (length text)
            (scan_list (fun st brk start => handleClusterForWrap st brk start max_columns)
               tab_width width_method (codepoints text)
               (ClusterState_init width_method))
          = wrap_clusters max_columns 0 0 (clusters width_method tab_width text)
              (length text)).
  apply (@wrap_scan_clusters U max_columns tab_width width_method (length text)
           (codepoints text) _ None break_default None (agrees_init width_method)).
Qed.

(** *** Clusters follow one another *)

Lemma end_after_cons (a : nat) (c : Cluster) (l : list Cluster) :
  end_after a (c :: l) = end_after (cl_end c) l.
Proof.
  unfold end_after. cbn [rev]. destruct (rev l) as [|x xs]; reflexivity.
Qed.

Lemma last_width_cons (c : Cluster) (l : list Cluster) :
  l <> [] -> last_width (c :: l) = last_width l.
Proof.
  intros H. unfold last_width. cbn [rev]. destruct (rev l) as [|x xs] eqn:E.
  - exfalso. apply H. apply (f_equal (@rev Cluster)) in E.
    rewrite rev_involutive in E. exact E.
  - reflexivity.
Qed.

Lemma codepoints_end_from_cons (a : nat) (c : Codepoint) (l : list Codepoint) :
  codepoints_end_from a (c :: l) = codepoints_end_from (cp_pos c + cp_size c) l.
Proof.
  unfold codepoints_end_from. cbn [rev]. destruct (rev l) as [|x xs]; reflexivity.
Qed.

Section ChainFacts.

Context {U : Uucode}.

Variable width_method : WidthMethod.
Variable tab_width : nat.
Variable end_pos : nat.

Lemma segment_chain_open :
  forall cps prev bs start ws cs,
    chain start
      (segment width_method tab_width cps prev bs (Some (start, ws, cs)) end_pos)
      end_pos.
Proof.
  induction cps as [|c rest IH]; intros prev bs start ws cs.
  - cbn. auto.
  - cbn [segment].
    destruct (isGraphemeBreak prev (cp_value c) bs width_method) as [brk bs1].
    destruct brk.
    + cbn [close_cluster app chain cl_start cl_end]. split; [reflexivity | apply IH].
    + apply IH.
Qed.

End ChainFacts.

Lemma clusters_at_chain {U : Uucode} (width_method : WidthMethod) (tab_width : nat)
    (text : list byte) (pos : nat) :
  pos <= length text ->
  chain pos (clusters_at width_method tab_width text pos) (length text).
Proof.
  intros Hpos. unfold clusters_at.
  destruct (Nat.eq_dec pos (length text)) as [->|Hne].
  - rewrite codepoints_at_end by apply Nat.le_refl. reflexivity.
  - rewrite codepoints_at_step by lia. cbn [segment cp_value cp_pos].
    rewrite isGraphemeBreak_first. cbn [close_cluster app].
    apply segment_chain_open.
Qed.

(** *** What the wrap scan returns, in terms of the clusters *)

Lemma total_width_firstn_S (c : Cluster) (l : list Cluster) (j : nat) :
  total_width (firstn (S j) (c :: l)) = cl_width c + total_width (firstn j l).
Proof. reflexivity. Qed.

Lemma wrap_clusters_spec (max_columns text_len : nat) :
  forall cls a cols cnt,
    chain a cls text_len -> cols <= max_columns ->
    let r := wrap_clusters max_columns cols cnt cls text_len in
    exists k,
      k <= length cls
      /\ byte_offset r = end_after a (firstn k cls)
      /\ columns_used r = cols + total_width (firstn k cls)
      /\ columns_used r <= max_columns
      /\ (forall j, j <= length cls ->
                    cols + total_width (firstn j cls) <= max_columns -> j <= k)
      /\ (k < length cls \/ 0 < last_width cls -> grapheme_count r = cnt + k).
Proof.
  induction cls as [|c rest IH]; intros a cols cnt Hch Hcols r; subst r.
  - cbn in Hch. subst a. exists 0. cbn. repeat split; try lia.
  - destruct Hch as [Hstart Hch].
    destruct rest as [|c2 rest2].
    + cbn in Hch. cbn [wrap_clusters].
      destruct (0 <? cl_width c) eqn:Hw.
      * apply Nat.ltb_lt in Hw.
        destruct (max_columns <? cols + cl_width c) eqn:Hfit.
        -- apply Nat.ltb_lt in Hfit. exists 0. cbn. repeat split; try lia.
           intros j Hj Hsum. destruct j as [|j]; [lia|].
           destruct j; cbn in Hsum; lia.
        -- apply Nat.ltb_ge in Hfit. exists 1. cbn. unfold end_after. cbn.
           repeat split; try lia.
      * apply Nat.ltb_ge in Hw. exists 1. cbn. unfold end_after, last_width. cbn.
        repeat split; try lia.
    + rewrite wrap_clusters_cons by discriminate.
      destruct (max_columns <? cols + cl_width c) eqn:Hfit.
      * apply Nat.ltb_lt in Hfit. exists 0. cbn. repeat split; try lia.
        intros j Hj Hsum. destruct j as [|j]; [lia|].
        rewrite total_width_firstn_S in Hsum. lia.
      * apply Nat.ltb_ge in Hfit.
        destruct (IH (cl_end c) (cols + cl_width c) (cnt + 1) Hch Hfit)
          as (k & Hk & Hoff & Hsum & Hle & Hmaxi & Hcnt).
        exists (S k). cbn [length] in *. split; [lia|].
        cbn [firstn]. rewrite end_after_cons.
        split; [exact Hoff|].
        split; [rewrite Hsum; unfold total_width; cbn [fold_right]; lia|].
        split; [exact Hle|].
        split.
        -- intros j Hj Hs. destruct j as [|j]; [lia|].
           rewrite total_width_firstn_S in Hs.
           assert (j <= k); [|lia]. apply Hmaxi; [cbn [length] in *; lia | lia].
        -- intros Hcase. rewrite last_width_cons in Hcase by discriminate.
           rewrite Hcnt; [lia|]. cbn [length] in *. destruct Hcase; [left; lia | right; assumption].
Qed.

(** *** The wcwidth scan, codepoint by codepoint *)

Lemma wrap_wcwidth_loop_spec {U : Uucode} (text : list byte) (max_columns tab_width : nat) :
  forall pos,
    pos <= length text ->
    forall fuel cols cnt,
      length text - pos <= fuel ->
      let taken :=
        fitting_codepoints (codepoint_width tab_width) max_columns cols
          (codepoints_at text pos) in
      wrap_wcwidth_loop fuel text max_columns tab_width pos cols cnt
      = mkResult (codepoints_end_from pos taken) (cnt + length taken)
          (cols + sum_widths (codepoint_width tab_width) taken).
Proof.
  intros pos. pattern pos. apply (position_induction text); clear pos.
  - intros pos Hend Hpos fuel cols cnt Hf taken. subst taken.
    rewrite codepoints_at_end by assumption.
    unfold codepoints_end_from, sum_widths. cbn.
    assert (pos = length text) by lia. subst pos.
    destruct fuel; cbn [wrap_wcwidth_loop];
      [|rewrite Nat.ltb_irrefl]; f_equal; lia.
  - intros pos Hlt IH Hpos fuel cols cnt Hf.
    rewrite codepoints_at_step by assumption.
    destruct fuel as [|fuel]; [lia|]. cbn [wrap_wcwidth_loop].
    apply Nat.ltb_lt in Hlt. rewrite Hlt. apply Nat.ltb_lt in Hlt.
    pose proof (cp_len_at_le text Hlt) as Hle.
    pose proof (cp_len_at_pos text pos) as Hge.
    replace (length text <? pos + cp_len_at text pos) with false
      by (symmetry; apply Nat.ltb_ge; lia).
    rewrite curr_cp_checked_eq by assumption.
    cbn [fitting_codepoints].
    change (codepoint_width tab_width
              (mkCodepoint pos (byte_at text pos) (curr_cp_at text pos)
                 (cp_len_at text pos)))
      with (charWidth (byte_at text pos) (curr_cp_at text pos) tab_width).
    destruct (max_columns <=? cols) eqn:H1; cbn [orb].
    + unfold codepoints_end_from, sum_widths. cbn. rewrite !Nat.add_0_r. reflexivity.
    + destruct (max_columns <?
                cols + charWidth (byte_at text pos) (curr_cp_at text pos) tab_width)
        eqn:H2.
      * unfold codepoints_end_from, sum_widths. cbn. rewrite !Nat.add_0_r. reflexivity.
      * cbv zeta. rewrite IH by lia. rewrite codepoints_end_from_cons.
        cbn [cp_pos cp_size length sum_widths fold_right].
        change (codepoint_width tab_width
                  (mkCodepoint pos (byte_at text pos) (curr_cp_at text pos)
                     (cp_len_at text pos)))
          with (charWidth (byte_at text pos) (curr_cp_at text pos) tab_width).
        clear IH. unfold sum_widths. f_equal; lia.
Qed.

(** *** findWrapPosByWidth (C1) *)

(** C1 as stated fails under the wcwidth policy: for "e" + U+0301 and one
    column the function returns byte offset 1, which lies inside the only
    cluster of the text (bytes 0 to 3, width 1); the greatest prefix that
    fits ends at byte 3. *)
Lemma findWrapPosByWidth_wcwidth_splits_cluster :
  ~ (forall (text : list byte) (max_columns tab_width : nat) (m : WidthMethod),
        let r := findWrapPosByWidth (U := uucode_model) text max_columns tab_width false m in
        exists k,
          greatest_prefix (clusters (U := uucode_model) m tab_width text) max_columns r k
          /\ grapheme_count r = k).
Proof.
  intros H. specialize (H e_acute 1 4 wcwidth).
  destruct H as (k & (Hk & Hoff & _) & _).
  assert (Ecl : clusters (U := uucode_model) wcwidth 4 e_acute
                = [mkCluster 0 3 1
                     [mkCodepoint 0 0x65 0x65 1; mkCodepoint 1 0xCC 0x301 2]])
    by (vm_compute; reflexivity).
  assert (Er : findWrapPosByWidth (U := uucode_model) e_acute 1 4 false wcwidth
               = mkResult 1 1 1) by (vm_compute; reflexivity).
  rewrite Ecl, Er in Hoff. rewrite Ecl in Hk. cbn [byte_offset length] in *.
  destruct k as [|[|k]]; [discriminate Hoff | discriminate Hoff | lia].
Qed.

(** C1, amended.
    - For empty input or [max_columns = 0] the three fields are zero.
    - Under the unicode and no_zwj policies the byte offset is the end of
      the greatest prefix that ends on a grapheme-cluster boundary and
      whose column sum is at most [max_columns], and [columns_used] is
      that sum; [grapheme_count] is the number of clusters of the prefix
      whenever the prefix stops before the end of the text or the last
      cluster of the text has a width other than zero.
    - Under the wcwidth policy the scan goes codepoint by codepoint: the
      prefix is the longest run of codepoints whose widths sum to at most
      [max_columns], cut as soon as the sum has reached [max_columns];
      [grapheme_count] counts codepoints.
    - "Hello 🌍 World" under the unicode policy: offset 6 and 6 columns
      for 7 columns, offset 10 and 8 columns for 8 columns. *)
Theorem findWrapPosByWidth_spec {U : Uucode}
    (text : list byte) (max_columns tab_width : nat) (m : WidthMethod) :
  (forall ascii, text = [] \/ max_columns = 0 ->
                 findWrapPosByWidth text max_columns tab_width ascii m = mkResult 0 0 0)
  /\ (text <> [] -> 0 < max_columns -> m <> wcwidth ->
      let r := findWrapPosByWidth text max_columns tab_width false m in
      let cls := clusters m tab_width text in
      exists k,
        greatest_prefix cls max_columns r k
        /\ (k < length cls \/ 0 < last_width cls -> grapheme_count r = k))
  /\ (text <> [] -> 0 < max_columns ->
      let taken :=
        fitting_codepoints (codepoint_width tab_width) max_columns 0 (codepoints text) in
      findWrapPosByWidth text max_columns tab_width false wcwidth
      = mkResult (codepoints_end taken) (length taken)
          (sum_widths (codepoint_width tab_width) taken))
  /\ (findWrapPosByWidth (U := uucode_model) hello_world 7 4 false unicode
      = mkResult 6 6 6
      /\ findWrapPosByWidth (U := uucode_model) hello_world 8 4 false unicode
         = mkResult 10 7 8).
Proof.
  split; [|split; [|split]].
  - intros ascii Hz.
    assert (E : (length text =? 0) || (max_columns =? 0) = true).
    { destruct Hz as [-> | ->]; [reflexivity|]. apply orb_true_r. }
    destruct m; cbn [findWrapPosByWidth];
      unfold findWrapPosByWidthUnicode, findWrapPosByWidthWCWidth;
      rewrite E; reflexivity.
  - intros Hne Hmax Hm r cls. subst r cls.
    assert (E : findWrapPosByWidth text max_columns tab_width false m
                = wrap_clusters max_columns 0 0 (clusters m tab_width text) (length text)).
    { destruct m; [congruence | |]; cbn [findWrapPosByWidth];
        apply findWrapPosByWidthUnicode_clusters; assumption. }
    rewrite E.
    destruct (@wrap_clusters_spec max_columns (length text)
                (clusters m tab_width text) 0 0 0
                (clusters_at_chain m tab_width text (Nat.le_0_l _))
                (Nat.le_0_l _))
      as (k & Hk & Hoff & Hsum & Hle & Hgreat & Hcnt).
    exists k. split; [|exact Hcnt].
    unfold greatest_prefix, prefix_end.
    repeat split; try assumption.
  - intros Hne Hmax taken. subst taken. cbn [findWrapPosByWidth].
    unfold findWrapPosByWidthWCWidth.
    replace (length text =? 0) with false
      by (symmetry; apply Nat.eqb_neq; destruct text; [congruence | discriminate]).
    replace (max_columns =? 0) with false by (symmetry; apply Nat.eqb_neq; lia).
    cbn [orb].
    apply (@wrap_wcwidth_loop_spec U text max_columns tab_width 0 (Nat.le_0_l _)
             (length text) 0 0).
    lia.
  - split; vm_compute; reflexivity.
Qed.

Lemma findWrapPosByWidth_spec_witness :
  hello_world <> [] /\ 0 < 7 /\ unicode <> wcwidth
  /\ exists k,
       greatest_prefix (clusters (U := uucode_model) unicode 4 hello_world) 7
         (findWrapPosByWidth (U := uucode_model) hello_world 7 4 false unicode) k.
Proof.
  assert (Hne : hello_world <> []) by discriminate.
  assert (Hm : unicode <> wcwidth) by discriminate.
  assert (Hmax : 0 < 7) by lia.
  split; [exact Hne|]. split; [exact Hmax|]. split; [exact Hm|].
  destruct (proj1 (proj2 (@findWrapPosByWidth_spec uucode_model hello_world 7 4 unicode))
              Hne Hmax Hm) as (k & Hk & _).
  exists k. exact Hk.
Defined.

(** *** Width consistency: the text width is the sum of the cluster widths *)

Lemma total_width_app (l1 l2 : list Cluster) :
  total_width (l1 ++ l2) = total_width l1 + total_width l2.
Proof.
  unfold total_width. induction l1 as [|c l IH]; cbn [app fold_right]; [reflexivity|].
  rewrite IH. lia.
Qed.

Lemma textWidth_unicode_loop_clusters {U : Uucode} (text : list byte) (tab_width : nat)
    (m : WidthMethod) :
  forall pos,
    pos <= length text ->
    forall fuel total prev bs ws cur,
      length text - pos < fuel ->
      match cur with
      | Some (_, ws', _) => prev <> None /\ ws' = ws
      | None => prev = None
      end ->
      textWidth_unicode_loop fuel text tab_width m pos total prev bs ws
      = total + total_width (segment m tab_width (codepoints_at text pos) prev bs cur
                               (length text)).
Proof.
  intros pos. pattern pos. apply (position_induction text); clear pos.
  - intros pos Hend Hpos fuel total prev bs ws cur Hf Hcur.
    rewrite codepoints_at_end by assumption. cbn [segment].
    destruct fuel as [|fuel]; [lia|]. cbn [textWidth_unicode_loop].
    replace (pos <? length text) with false by (symmetry; apply Nat.ltb_ge; lia).
    destruct cur as [[[start ws'] cs]|].
    + destruct Hcur as [Hne ->]. destruct prev; [|congruence].
      unfold total_width. cbn. lia.
    + subst prev. unfold total_width. cbn. lia.
  - intros pos Hlt IH Hpos fuel total prev bs ws cur Hf Hcur.
    rewrite codepoints_at_step by assumption.
    destruct fuel as [|fuel]; [lia|]. cbn [textWidth_unicode_loop segment].
    apply Nat.ltb_lt in Hlt. rewrite Hlt. apply Nat.ltb_lt in Hlt.
    pose proof (cp_len_at_le text Hlt) as Hle.
    pose proof (cp_len_at_pos text pos) as Hge.
    rewrite curr_cp_checked_eq by assumption. cbn [cp_value cp_pos].
    change (codepoint_width tab_width
              (mkCodepoint pos (byte_at text pos) (curr_cp_at text pos)
                 (cp_len_at text pos)))
      with (charWidth (byte_at text pos) (curr_cp_at text pos) tab_width).
    destruct (isGraphemeBreak prev (curr_cp_at text pos) bs m) as [brk bs1] eqn:E.
    destruct brk.
    + rewrite total_width_app.
      rewrite (IH Hle fuel _ (Some (curr_cp_at text pos)) bs1 _
                 (Some (pos,
                        GraphemeWidthState_init (curr_cp_at text pos)
                          (charWidth (byte_at text pos) (curr_cp_at text pos) tab_width) m,
                        [mkCodepoint pos (byte_at text pos) (curr_cp_at text pos)
                           (cp_len_at text pos)])));
        [|lia|split; [discriminate | reflexivity]].
      destruct cur as [[[start ws'] cs]|].
      * destruct Hcur as [Hne ->]. destruct prev; [|congruence].
        unfold total_width at 2. cbn. lia.
      * subst prev. unfold total_width at 2. cbn. lia.
    + destruct cur as [[[start ws'] cs]|].
      * destruct Hcur as [Hne ->].
        apply IH; [assumption | lia | split; [discriminate | reflexivity]].
      * subst prev. rewrite isGraphemeBreak_first in E. discriminate.
Qed.

(** On the general path the width of a text is the sum of the widths of
    its clusters. *)
Lemma calculateTextWidthUnicode_clusters {U : Uucode} (text : list byte)
    (tab_width : nat) (m : WidthMethod) :
  calculateTextWidthUnicode text tab_width false m
  = total_width (clusters m tab_width text).
Proof.
  unfold calculateTextWidthUnicode.
  destruct (length text =? 0) eqn:E.
  - apply Nat.eqb_eq in E. apply length_zero_iff_nil in E. subst. reflexivity.
  - rewrite (@textWidth_unicode_loop_clusters U text tab_width m 0 (Nat.le_0_l _)
               (S (length text)) 0 None break_default
               (GraphemeWidthState_init 0 0 m) None); [reflexivity | lia | reflexivity].
Qed.

(** *** Printable ASCII: every byte is a cluster of one column (C7) *)

Section AsciiFacts.

Context {U : Uucode}.

Hypothesis ascii_breaks : ascii_always_breaks.

Variable text : list byte.
Variable tab_width : nat.

Hypothesis text_printable : Forall printable text.

Lemma printable_at (i : nat) : i < length text -> (32 <= byte_at text i <= 126)%Z.
Proof.
  apply (proj1 (Forall_byte_at (fun z => (32 <= z <= 126)%Z) text)).
  exact text_printable.
Qed.

Lemma printable_width (b : Z) :
  (32 <= b <= 126)%Z -> charWidth b b tab_width = 1.
Proof.
  intros H. unfold charWidth.
  replace (b =? 9)%Z with false by (symmetry; apply Z.eqb_neq; lia).
  replace (b <? 128)%Z with true by (symmetry; apply Z.ltb_lt; lia).
  replace (32 <=? b)%Z with true by (symmetry; apply Z.leb_le; lia).
  replace (b <=? 126)%Z with true by (symmetry; apply Z.leb_le; lia).
  reflexivity.
Qed.

Lemma printable_valid (b : Z) : (32 <= b <= 126)%Z -> isValidCodepoint b = true.
Proof.
  intros H. unfold isValidCodepoint.
  replace (b =? 65533)%Z with false by (symmetry; apply Z.eqb_neq; lia).
  replace (b <=? 1114111)%Z with true by (symmetry; apply Z.leb_le; lia).
  reflexivity.
Qed.

Lemma printable_break (p c : Z) (bs : BreakState) (m : WidthMethod) :
  (32 <= p <= 126)%Z -> (32 <= c <= 126)%Z ->
  fst (isGraphemeBreak (Some p) c bs m) = true.
Proof.
  intros Hp Hc. unfold isGraphemeBreak.
  rewrite (printable_valid Hp), (printable_valid Hc). cbn [negb].
  pose proof (ascii_breaks bs Hp Hc) as H.
  destruct m; [exact H | exact H |].
  replace (p =? 8205)%Z with false by (symmetry; apply Z.eqb_neq; lia).
  exact H.
Qed.

Lemma printable_step (pos : nat) :
  pos < length text ->
  codepoints_at text pos
  = mkCodepoint pos (byte_at text pos) (byte_at text pos) 1
      :: codepoints_at text (pos + 1).
Proof.
  intros H. rewrite codepoints_at_step by assumption.
  pose proof (printable_at H) as Hb.
  assert (Hlow : (byte_at text pos < 0x80)%Z) by lia.
  destruct (ascii_byte_cp text pos Hlow) as [-> ->]. reflexivity.
Qed.

Lemma segment_printable (m : WidthMethod) :
  forall n pos p bs start ws cs,
    pos + n = length text -> (32 <= p <= 126)%Z ->
    segment m tab_width (codepoints_at text pos) (Some p) bs (Some (start, ws, cs))
      (length text)
    = mkCluster start pos (width ws) cs :: unit_clusters text pos n.
Proof.
  induction n as [|n IH]; intros pos p bs start ws cs Hn Hp.
  - rewrite codepoints_at_end by lia. cbn. f_equal. f_equal. lia.
  - rewrite printable_step by lia. cbn [segment cp_value cp_pos].
    pose proof (@printable_at pos ltac:(lia)) as Hb.
    pose proof (printable_break bs m Hp Hb) as Hbrk.
    destruct (isGraphemeBreak (Some p) (byte_at text pos) bs m) as [brk bs1].
    cbn [fst] in Hbrk. subst brk. cbn [close_cluster app]. f_equal.
    rewrite (IH (pos + 1) (byte_at text pos) bs1) by (try lia; assumption).
    unfold unit_clusters. cbn [seq map]. replace (S pos) with (pos + 1) by lia.
    f_equal. unfold unit_cluster, codepoint_width, GraphemeWidthState_init.
    cbn [width cp_byte cp_value]. rewrite (printable_width Hb). reflexivity.
Qed.

Lemma clusters_printable (m : WidthMethod) :
  clusters m tab_width text = unit_clusters text 0 (length text).
Proof.
  unfold clusters, clusters_at.
  destruct (length text) as [|n] eqn:En.
  - rewrite codepoints_at_end by lia. reflexivity.
  - rewrite printable_step by lia. cbn [segment cp_value cp_pos].
    rewrite isGraphemeBreak_first. cbn [close_cluster app].
    pose proof (@printable_at 0 ltac:(lia)) as Hb.
    rewrite <- En.
    rewrite (@segment_printable m n (0 + 1) (byte_at text 0)) by (try lia; assumption).
    unfold unit_clusters. rewrite En. cbn [seq map]. f_equal.
    unfold unit_cluster, codepoint_width, GraphemeWidthState_init.
    cbn [width cp_byte cp_value]. rewrite (printable_width Hb). reflexivity.
Qed.

Lemma total_width_units (a n : nat) : total_width (unit_clusters text a n) = n.
Proof.
  revert a. unfold total_width, unit_clusters.
  induction n as [|n IH]; intros a; cbn [seq map fold_right]; [reflexivity|].
  rewrite IH. reflexivity.
Qed.

Lemma wrap_clusters_units (max_columns : nat) :
  forall n a cols cnt,
    a + n = length text -> cols <= max_columns ->
    wrap_clusters max_columns cols cnt (unit_clusters text a n) (length text)
    = if cols + n <=? max_columns
      then mkResult (length text) (cnt + n) (cols + n)
      else mkResult (a + (max_columns - cols)) (cnt + (max_columns - cols)) max_columns.
Proof.
  induction n as [|n IH]; intros a cols cnt Han Hcols.
  - unfold unit_clusters. cbn [seq map wrap_clusters].
    replace (cols + 0 <=? max_columns) with true
      by (symmetry; apply Nat.leb_le; lia).
    f_equal; lia.
  - unfold unit_clusters. cbn [seq map]. fold (unit_clusters text (S a) n).
    destruct n as [|n].
    + cbn [unit_clusters seq map wrap_clusters unit_cluster cl_width cl_start].
      change (0 <? 1) with true. cbn iota.
      destruct (max_columns <? cols + 1) eqn:Hfit.
      * apply Nat.ltb_lt in Hfit.
        replace (cols + 1 <=? max_columns) with false
          by (symmetry; apply Nat.leb_gt; lia).
        f_equal; lia.
      * apply Nat.ltb_ge in Hfit.
        replace (cols + 1 <=? max_columns) with true
          by (symmetry; apply Nat.leb_le; lia).
        reflexivity.
    + rewrite wrap_clusters_cons by (unfold unit_clusters; cbn; discriminate).
      cbn [unit_cluster cl_width cl_start].
      destruct (max_columns <? cols + 1) eqn:Hfit.
      * apply Nat.ltb_lt in Hfit.
        replace (cols + S (S n) <=? max_columns) with false
          by (symmetry; apply Nat.leb_gt; lia).
        f_equal; lia.
      * apply Nat.ltb_ge in Hfit. rewrite IH by lia.
        destruct (cols + 1 + S n <=? max_columns) eqn:H1.
        -- apply Nat.leb_le in H1.
           replace (cols + S (S n) <=? max_columns) with true
             by (symmetry; apply Nat.leb_le; lia).
           f_equal; lia.
        -- apply Nat.leb_gt in H1.
           replace (cols + S (S n) <=? max_columns) with false
             by (symmetry; apply Nat.leb_gt; lia).
           f_equal; lia.
Qed.

(** The wcwidth loops on printable ASCII. *)
Lemma textWidth_wcwidth_printable :
  forall fuel pos total,
    pos <= length text -> length text - pos <= fuel ->
    textWidth_wcwidth_loop fuel text tab_width pos total = total + (length text - pos).
Proof.
  induction fuel as [|fuel IH]; intros pos total Hpos Hf; cbn [textWidth_wcwidth_loop].
  - lia.
  - destruct (pos <? length text) eqn:Hlt.
    + apply Nat.ltb_lt in Hlt. pose proof (printable_at Hlt) as Hb.
      assert (Hlow : (byte_at text pos < 0x80)%Z) by lia.
      rewrite curr_cp_checked_eq by assumption.
      destruct (ascii_byte_cp text pos Hlow) as [-> ->].
      rewrite (printable_width Hb). rewrite IH by lia. lia.
    + apply Nat.ltb_ge in Hlt. lia.
Qed.

Lemma wrap_wcwidth_printable (max_columns : nat) :
  forall fuel pos cols cnt,
    pos <= length text -> length text - pos <= fuel -> cols <= max_columns ->
    wrap_wcwidth_loop fuel text max_columns tab_width pos cols cnt
    = if cols + (length text - pos) <=? max_columns
      then mkResult (length text) (cnt + (length text - pos)) (cols + (length text - pos))
      else mkResult (pos + (max_columns - cols)) (cnt + (max_columns - cols)) max_columns.
Proof.
  induction fuel as [|fuel IH]; intros pos cols cnt Hpos Hf Hcols;
    cbn [wrap_wcwidth_loop].
  - replace (length text - pos) with 0 by lia.
    replace (cols + 0 <=? max_columns) with true by (symmetry; apply Nat.leb_le; lia).
    f_equal; lia.
  - destruct (pos <? length text) eqn:Hlt.
    + apply Nat.ltb_lt in Hlt. pose proof (printable_at Hlt) as Hb.
      assert (Hlow : (byte_at text pos < 0x80)%Z) by lia.
      rewrite curr_cp_checked_eq by assumption.
      destruct (ascii_byte_cp text pos Hlow) as [-> ->].
      rewrite (printable_width Hb).
      replace (length text <? pos + 1) with false by (symmetry; apply Nat.ltb_ge; lia).
      destruct (max_columns <=? cols) eqn:H1.
      * apply Nat.leb_le in H1.
        replace (cols + (length text - pos) <=? max_columns) with false
          by (symmetry; apply Nat.leb_gt; lia).
        f_equal; lia.
      * apply Nat.leb_gt in H1.
        replace (max_columns <? cols + 1) with false
          by (symmetry; apply Nat.ltb_ge; lia).
        rewrite IH by lia.
        destruct (cols + 1 + (length text - (pos + 1)) <=? max_columns) eqn:H2.
        -- apply Nat.leb_le in H2.
           replace (cols + (length text - pos) <=? max_columns) with true
             by (symmetry; apply Nat.leb_le; lia).
           f_equal; lia.
        -- apply Nat.leb_gt in H2.
           replace (cols + (length text - pos) <=? max_columns) with false
             by (symmetry; apply Nat.leb_gt; lia).
           f_equal; lia.
    + apply Nat.ltb_ge in Hlt. replace (length text - pos) with 0 by lia.
      replace (cols + 0 <=? max_columns) with true by (symmetry; apply Nat.leb_le; lia).
      f_equal; lia.
Qed.

End AsciiFacts.

(** *** The model tables have the ASCII facts *)

Lemma Z_range_check (f : Z -> bool) (lo n : nat) :
  forallb f (map Z.of_nat (seq lo n)) = true ->
  forall z, (Z.of_nat lo <= z < Z.of_nat (lo + n))%Z -> f z = true.
Proof.
  intros H z Hz. rewrite forallb_forall in H. apply H.
  apply in_map_iff. exists (Z.to_nat z). split; [lia | apply in_seq; lia].
Qed.

Module UucodeModelFacts.

Import UucodeModel.

Lemma printable_other (c : Z) :
  (32 <= c <= 126)%Z -> grapheme_break_property c = gb_other.
Proof.
  intros H.
  pose proof (@Z_range_check
                (fun z => match grapheme_break_property z with
                          | gb_other => true
                          | _ => false
                          end) 32 95 ltac:(vm_compute; reflexivity) c ltac:(lia)) as E.
  cbn beta in E. destruct (grapheme_break_property c); congruence.
Qed.

Lemma printable_narrow (c : Z) :
  (32 <= c <= 126)%Z ->
  model_general_category c = other_category /\ model_east_asian_width c = narrow.
Proof.
  intros H.
  pose proof (@Z_range_check
                (fun z => match model_general_category z, model_east_asian_width z with
                          | other_category, narrow => true
                          | _, _ => false
                          end) 32 95 ltac:(vm_compute; reflexivity) c ltac:(lia)) as E.
  cbn beta in E.
  destruct (model_general_category c), (model_east_asian_width c);
    try discriminate E; auto.
Qed.

Lemma model_ascii_breaks : ascii_always_breaks (U := uucode_model).
Proof.
  intros p c st Hp Hc. cbn [grapheme_isBreak uucode_model]. unfold model_isBreak.
  rewrite (printable_other Hp), (printable_other Hc). cbn [is_joiner].
  rewrite andb_false_r. destruct (settle st p c); reflexivity.
Qed.

Lemma model_ascii_narrow : ascii_is_narrow (U := uucode_model).
Proof.
  intros c Hc. cbn [general_category east_asian_width uucode_model].
  destruct (printable_narrow Hc) as [-> ->]. repeat split; discriminate.
Qed.

Lemma model_breaks_before_tab : breaks_before_tab (U := uucode_model).
Proof.
  intros p st. cbn [grapheme_isBreak uucode_model]. unfold model_isBreak.
  change (grapheme_break_property 9) with gb_control.
  destruct (grapheme_break_property p); reflexivity.
Qed.

End UucodeModelFacts.

(** *** ASCII fast path (C7) *)

Lemma ascii_flag_width {U : Uucode} (text : list byte) (tab_width : nat) (m : WidthMethod) :
  calculateTextWidth text tab_width true m = length text.
Proof.
  destruct m; cbn [calculateTextWidth];
    unfold calculateTextWidthUnicode, calculateTextWidthWCWidth;
    destruct (length text); reflexivity.
Qed.

Lemma ascii_flag_wrap {U : Uucode} (text : list byte) (max_columns tab_width : nat)
    (m : WidthMethod) :
  findWrapPosByWidth text max_columns tab_width true m
  = mkResult (Nat.min max_columns (length text)) (Nat.min max_columns (length text))
      (Nat.min max_columns (length text)).
Proof.
  assert (E : (if (length text =? 0) || (max_columns =? 0) then mkResult 0 0 0
               else ascii_fast_path text max_columns)
              = mkResult (Nat.min max_columns (length text))
                  (Nat.min max_columns (length text))
                  (Nat.min max_columns (length text))).
  { unfold ascii_fast_path.
    destruct (length text =? 0) eqn:E1; cbn [orb].
    - apply Nat.eqb_eq in E1. rewrite E1, Nat.min_0_r. reflexivity.
    - destruct (max_columns =? 0) eqn:E2.
      + apply Nat.eqb_eq in E2. rewrite E2. reflexivity.
      + destruct (length text <=? max_columns) eqn:E3.
        * apply Nat.leb_le in E3. rewrite Nat.min_r by assumption. reflexivity.
        * apply Nat.leb_gt in E3. rewrite Nat.min_l by lia. reflexivity. }
  destruct m; cbn [findWrapPosByWidth]; exact E.
Qed.

Lemma findWrapPosByWidth_zero {U : Uucode} (text : list byte)
    (max_columns tab_width : nat) (ascii : bool) (m : WidthMethod) :
  text = [] \/ max_columns = 0 ->
  findWrapPosByWidth text max_columns tab_width ascii m = mkResult 0 0 0.
Proof.
  intros Hz.
  assert (E : (length text =? 0) || (max_columns =? 0) = true).
  { destruct Hz as [-> | ->]; [reflexivity|]. apply orb_true_r. }
  destruct m; cbn [findWrapPosByWidth];
    unfold findWrapPosByWidthUnicode, findWrapPosByWidthWCWidth;
    rewrite E; reflexivity.
Qed.

(** C7. For a text of printable ASCII bytes the general paths (flag
    [is_ascii] false) of [calculate_text_width] and
    [find_wrap_pos_by_width] return what the ASCII-only fast paths (flag
    true) return: the width is the byte length, and the wrap position is
    [min(max_columns, length)] for the byte offset, the cluster count and
    the column count alike.  The Unicode tables enter through one fact:
    two printable ASCII characters never form a cluster. *)
Theorem ascii_fast_path_equivalence {U : Uucode}
    (text : list byte) (max_columns tab_width : nat) (m : WidthMethod) :
  ascii_always_breaks ->
  Forall printable text ->
  calculateTextWidth text tab_width false m = calculateTextWidth text tab_width true m
  /\ calculateTextWidth text tab_width false m = length text
  /\ findWrapPosByWidth text max_columns tab_width false m
     = findWrapPosByWidth text max_columns tab_width true m
  /\ findWrapPosByWidth text max_columns tab_width false m
     = mkResult (Nat.min max_columns (length text)) (Nat.min max_columns (length text))
         (Nat.min max_columns (length text)).
Proof.
  intros Hbrk Hpr.
  assert (Hw : calculateTextWidth text tab_width false m = length text).
  { destruct m; cbn [calculateTextWidth].
    - unfold calculateTextWidthWCWidth.
      destruct (length text =? 0) eqn:E; [apply Nat.eqb_eq in E; lia|].
      rewrite (textWidth_wcwidth_printable tab_width Hpr) by lia. lia.
    - rewrite calculateTextWidthUnicode_clusters.
      rewrite (clusters_printable Hbrk tab_width Hpr). apply total_width_units.
    - rewrite calculateTextWidthUnicode_clusters.
      rewrite (clusters_printable Hbrk tab_width Hpr). apply total_width_units. }
  assert (Hp : findWrapPosByWidth text max_columns tab_width false m
               = mkResult (Nat.min max_columns (length text))
                   (Nat.min max_columns (length text))
                   (Nat.min max_columns (length text))).
  { destruct (list_eq_dec Byte.byte_eq_dec text []) as [->|Hne].
    { rewrite Nat.min_0_r.
      apply findWrapPosByWidth_zero. auto. }
    destruct (Nat.eq_dec max_columns 0) as [->|Hmax].
    { apply findWrapPosByWidth_zero. auto. }
    assert (Hlen : length text <> 0) by (destruct text; [congruence | discriminate]).
    assert (Hunits :
              wrap_clusters max_columns 0 0 (unit_clusters text 0 (length text))
                (length text)
              = mkResult (Nat.min max_columns (length text))
                  (Nat.min max_columns (length text))
                  (Nat.min max_columns (length text))).
    { rewrite wrap_clusters_units by lia. cbn [Nat.add].
      destruct (length text <=? max_columns) eqn:E.
      - apply Nat.leb_le in E. rewrite Nat.min_r by assumption. reflexivity.
      - apply Nat.leb_gt in E. rewrite Nat.min_l by lia. rewrite Nat.sub_0_r.
        reflexivity. }
    destruct m; cbn [findWrapPosByWidth].
    - unfold findWrapPosByWidthWCWidth.
      replace (length text =? 0) with false by (symmetry; apply Nat.eqb_neq; lia).
      replace (max_columns =? 0) with false by (symmetry; apply Nat.eqb_neq; lia).
      cbn [orb]. rewrite (wrap_wcwidth_printable tab_width Hpr) by lia.
      cbn [Nat.add]. rewrite !Nat.sub_0_r.
      destruct (length text <=? max_columns) eqn:E.
      + apply Nat.leb_le in E. rewrite Nat.min_r by assumption. reflexivity.
      + apply Nat.leb_gt in E. rewrite Nat.min_l by lia. reflexivity.
    - rewrite findWrapPosByWidthUnicode_clusters by (assumption || lia).
      rewrite (clusters_printable Hbrk tab_width Hpr). exact Hunits.
    - rewrite findWrapPosByWidthUnicode_clusters by (assumption || lia).
      rewrite (clusters_printable Hbrk tab_width Hpr). exact Hunits. }
  rewrite ascii_flag_width, ascii_flag_wrap. auto.
Qed.

Lemma ascii_fast_path_equivalence_witness :
  ascii_always_breaks (U := uucode_model)
  /\ Forall printable hello_ascii
  /\ calculateTextWidth (U := uucode_model) hello_ascii 4 false unicode = 13
  /\ findWrapPosByWidth (U := uucode_model) hello_ascii 5 4 false unicode
     = mkResult 5 5 5.
Proof.
  assert (Hpr : Forall printable hello_ascii).
  { unfold hello_ascii, printable. repeat constructor; vm_compute; congruence. }
  split; [exact UucodeModelFacts.model_ascii_breaks|]. split; [exact Hpr|].
  destruct (@ascii_fast_path_equivalence uucode_model hello_ascii 5 4 unicode
              UucodeModelFacts.model_ascii_breaks Hpr) as (_ & Hw & _ & Hp).
  split; [exact Hw | exact Hp].
Defined.

(** *** The wcwidth policy (C6) *)

Lemma isGraphemeBreak_wcwidth {U : Uucode} (prev : option Z) (curr : Z) (bs : BreakState) :
  isGraphemeBreak prev curr bs wcwidth = isGraphemeBreak prev curr bs unicode.
Proof.
  unfold isGraphemeBreak. destruct prev as [p|].
  - destruct (negb (isValidCodepoint curr)); reflexivity.
  - destruct (negb (isValidCodepoint curr)); reflexivity.
Qed.

Lemma sum_widths_app (w : Codepoint -> nat) (l1 l2 : list Codepoint) :
  sum_widths w (l1 ++ l2) = sum_widths w l1 + sum_widths w l2.
Proof.
  unfold sum_widths. induction l1 as [|c l IH]; cbn [app fold_right]; [reflexivity|].
  rewrite IH. lia.
Qed.

Lemma codepoints_at_ok (text : list byte) :
  forall pos, Forall codepoint_ok (codepoints_at text pos).
Proof.
  intros pos. pattern pos. apply (position_induction text); clear pos.
  - intros pos Hend. rewrite codepoints_at_end by assumption. constructor.
  - intros pos Hlt IH. rewrite codepoints_at_step by assumption.
    constructor; [|exact IH]. split; cbn [cp_byte cp_value].
    + apply byte_at_range.
    + intros H. apply (ascii_byte_cp text pos H).
Qed.

Section WcwidthFacts.

Context {U : Uucode}.

Variable tab_width : nat.
Variable end_pos : nat.

(** Both policies cut the text at the same places. *)
Lemma segment_same_spans :
  forall cps prev bs cur1 cur2,
    match cur1, cur2 with
    | Some (s1, _, cs1), Some (s2, _, cs2) => s1 = s2 /\ cs1 = cs2
    | None, None => True
    | _, _ => False
    end ->
    map cluster_span (segment wcwidth tab_width cps prev bs cur1 end_pos)
    = map cluster_span (segment unicode tab_width cps prev bs cur2 end_pos).
Proof.
  induction cps as [|c rest IH]; intros prev bs cur1 cur2 Hcur.
  - cbn [segment].
    destruct cur1 as [[[s1 w1] cs1]|], cur2 as [[[s2 w2] cs2]|]; try contradiction.
    + destruct Hcur as [-> ->]. reflexivity.
    + reflexivity.
  - cbn [segment]. rewrite isGraphemeBreak_wcwidth.
    destruct (isGraphemeBreak prev (cp_value c) bs unicode) as [brk bs1].
    destruct brk.
    + rewrite !map_app. f_equal.
      * destruct cur1 as [[[s1 w1] cs1]|], cur2 as [[[s2 w2] cs2]|]; try contradiction.
        -- destruct Hcur as [-> ->]. reflexivity.
        -- reflexivity.
      * apply IH. split; reflexivity.
    + apply IH.
      destruct cur1 as [[[s1 w1] cs1]|], cur2 as [[[s2 w2] cs2]|]; try contradiction.
      * destruct Hcur as [-> ->]. split; reflexivity.
      * split; reflexivity.
Qed.

(** The clusters of a segmentation hold all the codepoints, in order. *)
Lemma segment_concat (m : WidthMethod) :
  forall cps prev bs cur,
    concat (map (@cl_codepoints) (segment m tab_width cps prev bs cur end_pos))
    = match cur with Some (_, _, cs) => cs | None => [] end ++ cps.
Proof.
  induction cps as [|c rest IH]; intros prev bs cur.
  - cbn [segment]. destruct cur as [[[s w] cs]|]; cbn; [rewrite !app_nil_r|]; reflexivity.
  - cbn [segment].
    destruct (isGraphemeBreak prev (cp_value c) bs m) as [brk bs1].
    destruct brk.
    + rewrite map_app, concat_app, IH.
      destruct cur as [[[s w] cs]|]; cbn; [rewrite app_nil_r|]; reflexivity.
    + rewrite IH. destruct cur as [[[s w] cs]|]; [rewrite <- app_assoc|]; reflexivity.
Qed.

Hypothesis ascii_narrow : ascii_is_narrow.
Hypothesis tab_breaks : breaks_before_tab.

Lemma ascii_eaw_width (b : Z) :
  (32 <= b <= 126)%Z -> eawToWidth b (east_asian_width b) = 1%Z.
Proof.
  intros H. unfold eawToWidth.
  replace (b =? 0)%Z with false by (symmetry; apply Z.eqb_neq; lia).
  replace (b <? 32)%Z with false by (symmetry; apply Z.ltb_ge; lia).
  replace (b <? 160)%Z with true by (symmetry; apply Z.ltb_lt; lia).
  replace (127 <=? b)%Z with false by (symmetry; apply Z.leb_gt; lia).
  cbn [orb andb].
  destruct (ascii_narrow H) as (-> & Hw & Hf).
  assert (Hz : in_ranges zero_width_ranges b = false).
  { pose proof (@Z_range_check (fun z => negb (in_ranges zero_width_ranges z)) 32 95
                  ltac:(vm_compute; reflexivity) b ltac:(lia)) as E.
    cbn beta in E. apply negb_true_iff in E. exact E. }
  assert (Hr : in_ranges wide_ranges b = false).
  { pose proof (@Z_range_check (fun z => negb (in_ranges wide_ranges z)) 32 95
                  ltac:(vm_compute; reflexivity) b ltac:(lia)) as E.
    cbn beta in E. apply negb_true_iff in E. exact E. }
  rewrite Hz, Hr. destruct (east_asian_width b); congruence.
Qed.

(** Extending a cluster under wcwidth adds the width of the codepoint. *)
Lemma addCodepoint_wcwidth (ws : GraphemeWidthState) (c : Codepoint) :
  gw_width_method ws = wcwidth -> codepoint_ok c -> cp_value c <> 9%Z ->
  let ws' := GraphemeWidthState_addCodepoint ws (cp_value c) (codepoint_width tab_width c) in
  gw_width_method ws' = wcwidth
  /\ width ws' = width ws + codepoint_width tab_width c.
Proof.
  intros Hm [Hrange Hascii] Htab ws'. subst ws'.
  unfold GraphemeWidthState_addCodepoint. rewrite Hm.
  unfold codepoint_width, charWidth.
  destruct (cp_byte c <? 128)%Z eqn:Elow.
  - apply Z.ltb_lt in Elow. rewrite (Hascii Elow) in *.
    replace (cp_byte c =? 9)%Z with false by (symmetry; apply Z.eqb_neq; lia).
    replace (128 <=? cp_byte c)%Z with false by (symmetry; apply Z.leb_gt; lia).
    cbn [andb].
    destruct ((32 <=? cp_byte c)%Z && (cp_byte c <=? 126)%Z) eqn:Epr.
    + apply andb_true_iff in Epr. destruct Epr as [E1 E2].
      apply Z.leb_le in E1. apply Z.leb_le in E2.
      rewrite (@ascii_eaw_width (cp_byte c)) by lia.
      cbn. split; [reflexivity || assumption | reflexivity].
    + assert (Hw : (eawToWidth (cp_byte c) (east_asian_width (cp_byte c)) <= 0)%Z).
      { unfold eawToWidth.
        destruct (cp_byte c =? 0)%Z; [lia|].
        apply andb_false_iff in Epr.
        replace ((cp_byte c <? 32)%Z || (127 <=? cp_byte c)%Z && (cp_byte c <? 160)%Z)
          with true; [lia|].
        symmetry. apply orb_true_iff.
        destruct Epr as [E|E].
        - left. apply Z.ltb_lt. apply Z.leb_gt in E. lia.
        - right. apply Z.leb_gt in E. apply andb_true_iff.
          split; [apply Z.leb_le | apply Z.ltb_lt]; lia. }
      replace (0 <? eawToWidth (cp_byte c) (east_asian_width (cp_byte c)))%Z
        with false by (symmetry; apply Z.ltb_ge; assumption).
      split; [assumption | lia].
  - apply Z.ltb_ge in Elow.
    replace (cp_byte c =? 9)%Z with false by (symmetry; apply Z.eqb_neq; lia).
    replace (128 <=? cp_byte c)%Z with true by (symmetry; apply Z.leb_le; lia).
    cbn [andb].
    destruct (0 <? eawToWidth (cp_value c) (east_asian_width (cp_value c)))%Z;
      cbn; split; (reflexivity || assumption || lia).
Qed.

Lemma tab_always_breaks (prev : option Z) (bs : BreakState) :
  fst (isGraphemeBreak prev 9 bs wcwidth) = true.
Proof.
  unfold isGraphemeBreak. destruct prev as [p|]; [|reflexivity].
  change (negb (isValidCodepoint 9)) with false. cbn iota.
  destruct (negb (isValidCodepoint p)); [reflexivity | apply tab_breaks].
Qed.

Lemma segment_wcwidth_sums :
  forall cps prev bs cur,
    Forall codepoint_ok cps ->
    match cur with
    | Some (_, ws, cs) =>
        gw_width_method ws = wcwidth
        /\ width ws = sum_widths (codepoint_width tab_width) cs
    | None => prev = None
    end ->
    Forall (cluster_sums tab_width) (segment wcwidth tab_width cps prev bs cur end_pos).
Proof.
  induction cps as [|c rest IH]; intros prev bs cur Hok Hcur.
  - cbn [segment]. destruct cur as [[[s ws] cs]|]; cbn; [|constructor].
    constructor; [|constructor]. unfold cluster_sums. cbn. apply Hcur.
  - inversion Hok as [|c' rest' Hc Hrest]; subst.
    cbn [segment].
    destruct (isGraphemeBreak prev (cp_value c) bs wcwidth) as [brk bs1] eqn:E.
    assert (Hfresh :
              gw_width_method
                (GraphemeWidthState_init (cp_value c) (codepoint_width tab_width c) wcwidth)
              = wcwidth
              /\ width (GraphemeWidthState_init (cp_value c)
                          (codepoint_width tab_width c) wcwidth)
                 = sum_widths (codepoint_width tab_width) [c]).
    { unfold GraphemeWidthState_init, sum_widths. cbn. split; [reflexivity | lia]. }
    destruct brk.
    + apply Forall_app. split.
      * destruct cur as [[[s ws] cs]|]; cbn; [|constructor].
        constructor; [|constructor]. unfold cluster_sums. cbn. apply Hcur.
      * apply IH; assumption.
    + destruct cur as [[[s ws] cs]|].
      * destruct Hcur as [Hm Hw].
        assert (Hnt : cp_value c <> 9%Z).
        { intros E9. rewrite E9 in E.
          pose proof (tab_always_breaks prev bs) as T. rewrite E in T. discriminate T. }
        destruct (addCodepoint_wcwidth ws Hm Hc Hnt) as [Hm' Hw'].
        apply IH; [assumption|]. split; [exact Hm'|].
        rewrite Hw', Hw, sum_widths_app. unfold sum_widths at 3. cbn. lia.
      * subst prev. rewrite isGraphemeBreak_first in E. discriminate.
Qed.

End WcwidthFacts.

Lemma textWidth_wcwidth_codepoints {U : Uucode} (text : list byte) (tab_width : nat) :
  forall pos fuel total,
    length text - pos <= fuel ->
    textWidth_wcwidth_loop fuel text tab_width pos total
    = total + sum_widths (codepoint_width tab_width) (codepoints_at text pos).
Proof.
  intros pos. pattern pos. apply (position_induction text); clear pos.
  - intros pos Hend fuel total Hf. rewrite codepoints_at_end by assumption.
    unfold sum_widths. cbn [fold_right].
    destruct fuel; cbn [textWidth_wcwidth_loop]; [lia|].
    replace (pos <? length text) with false by (symmetry; apply Nat.ltb_ge; lia). lia.
  - intros pos Hlt IH fuel total Hf. rewrite codepoints_at_step by assumption.
    destruct fuel as [|fuel]; [lia|]. cbn [textWidth_wcwidth_loop].
    apply Nat.ltb_lt in Hlt. rewrite Hlt. apply Nat.ltb_lt in Hlt.
    pose proof (cp_len_at_pos text pos).
    rewrite curr_cp_checked_eq by assumption. rewrite IH by lia.
    unfold sum_widths. cbn [fold_right]. unfold codepoint_width at 2.
    cbn [cp_byte cp_value]. lia.
Qed.

Lemma total_width_sums {U : Uucode} (tab_width : nat) (cls : list Cluster) :
  Forall (cluster_sums tab_width) cls ->
  total_width cls
  = sum_widths (codepoint_width tab_width) (concat (map (@cl_codepoints) cls)).
Proof.
  induction 1 as [|c l Hc Hl IH]; [reflexivity|].
  cbn [map concat]. rewrite sum_widths_app, <- IH, <- Hc. reflexivity.
Qed.

(** C6. Under the wcwidth policy the text is cut into the same clusters as
    under the unicode policy (the break test is the same function of the
    same arguments), the width of a cluster is the sum of the widths of
    its codepoints (a tab counting [tab_width]), and so is the width of
    the whole text.  The cluster widths rest on three facts of the Unicode
    tables: a tab always starts a cluster, and printable ASCII characters
    are neither marks nor wide. *)
Theorem wcwidth_policy {U : Uucode} (text : list byte) (tab_width : nat) :
  (forall prev curr bs,
      isGraphemeBreak prev curr bs wcwidth = isGraphemeBreak prev curr bs unicode)
  /\ map cluster_span (clusters wcwidth tab_width text)
     = map cluster_span (clusters unicode tab_width text)
  /\ calculateTextWidth text tab_width false wcwidth
     = sum_widths (codepoint_width tab_width) (codepoints text)
  /\ (ascii_is_narrow -> breaks_before_tab ->
      Forall (cluster_sums tab_width) (clusters wcwidth tab_width text)
      /\ calculateTextWidth text tab_width false wcwidth
         = total_width (clusters wcwidth tab_width text)).
Proof.
  assert (Hsum : calculateTextWidth text tab_width false wcwidth
                 = sum_widths (codepoint_width tab_width) (codepoints text)).
  { cbn [calculateTextWidth]. unfold calculateTextWidthWCWidth.
    destruct (length text =? 0) eqn:E.
    - apply Nat.eqb_eq in E. apply length_zero_iff_nil in E. subst. reflexivity.
    - rewrite textWidth_wcwidth_codepoints by lia. reflexivity. }
  split; [apply isGraphemeBreak_wcwidth|].
  split; [apply segment_same_spans; exact I|].
  split; [exact Hsum|].
  intros Hnarrow Htab.
  assert (Hcl : Forall (cluster_sums tab_width) (clusters wcwidth tab_width text)).
  { apply segment_wcwidth_sums; [assumption | assumption | | reflexivity].
    apply codepoints_at_ok. }
  split; [exact Hcl|].
  rewrite (total_width_sums Hcl). unfold clusters, clusters_at.
  rewrite segment_concat. exact Hsum.
Qed.

(** The waving hand with a skin tone modifier: one cluster of width 2 + 2. *)
Lemma wcwidth_policy_witness :
  ascii_is_narrow (U := uucode_model) /\ breaks_before_tab (U := uucode_model)
  /\ Forall (cluster_sums (U := uucode_model) 4)
       (clusters (U := uucode_model) wcwidth 4 waving_hand_dark)
  /\ calculateTextWidth (U := uucode_model) waving_hand_dark 4 false wcwidth
     = total_width (clusters (U := uucode_model) wcwidth 4 waving_hand_dark).
Proof.
  split; [exact UucodeModelFacts.model_ascii_narrow|].
  split; [exact UucodeModelFacts.model_breaks_before_tab|].
  exact (proj2 (proj2 (proj2 (@wcwidth_policy uucode_model waving_hand_dark 4)))
           UucodeModelFacts.model_ascii_narrow UucodeModelFacts.model_breaks_before_tab).
Defined.

Example wcwidth_waving_hand :
  map (@cl_width) (clusters (U := uucode_model) wcwidth 4 waving_hand_dark) = [4]
  /\ map (@cl_width) (clusters (U := uucode_model) unicode 4 waving_hand_dark) = [2].
Proof. split; vm_compute; reflexivity. Qed.

(** *** getWidthAt (C3) *)

Lemma getWidthAt_loop_head {U : Uucode} (text : list byte) (tab_width : nat)
    (m : WidthMethod) :
  forall pos,
    pos <= length text ->
    forall fuel p bs ws start cs,
      length text - pos <= fuel ->
      getWidthAt_loop fuel text tab_width m pos (Some p) bs ws
      = head_width (segment m tab_width (codepoints_at text pos) (Some p) bs
                      (Some (start, ws, cs)) (length text)).
Proof.
  intros pos. pattern pos. apply (position_induction text); clear pos.
  - intros pos Hend Hpos fuel p bs ws start cs Hf.
    rewrite codepoints_at_end by assumption. cbn [segment close_cluster head_width cl_width].
    destruct fuel; cbn [getWidthAt_loop]; [reflexivity|].
    replace (pos <? length text) with false by (symmetry; apply Nat.ltb_ge; lia).
    reflexivity.
  - intros pos Hlt IH Hpos fuel p bs ws start cs Hf.
    rewrite codepoints_at_step by assumption.
    destruct fuel as [|fuel]; [lia|]. cbn [getWidthAt_loop segment].
    apply Nat.ltb_lt in Hlt. rewrite Hlt. apply Nat.ltb_lt in Hlt.
    pose proof (cp_len_at_le text Hlt) as Hle.
    pose proof (cp_len_at_pos text pos) as Hge.
    replace (length text <? pos + cp_len_at text pos) with false
      by (symmetry; apply Nat.ltb_ge; lia).
    cbn [cp_value cp_pos].
    destruct (isGraphemeBreak (Some p) (curr_cp_at text pos) bs m) as [brk bs1].
    destruct brk.
    + reflexivity.
    + apply IH; [assumption | lia].
Qed.

Lemma getWidthAtUnicode_head {U : Uucode} (text : list byte) (byte_offset tab_width : nat)
    (m : WidthMethod) :
  getWidthAtUnicode text byte_offset tab_width m
  = head_width (clusters_at m tab_width text byte_offset).
Proof.
  unfold getWidthAtUnicode, clusters_at.
  destruct (length text <=? byte_offset) eqn:Hend.
  - apply Nat.leb_le in Hend. rewrite codepoints_at_end by assumption. reflexivity.
  - apply Nat.leb_gt in Hend.
    pose proof (DecodeFacts.decode_len_le text Hend) as Hdec.
    replace (length text <? byte_offset + dec_len (decodeUtf8Unchecked text byte_offset))
      with false by (symmetry; apply Nat.ltb_ge; lia).
    rewrite andb_false_r.
    rewrite codepoints_at_step by assumption. cbn [segment cp_value cp_pos].
    rewrite isGraphemeBreak_first. cbn [close_cluster app].
    pose proof (cp_len_at_le text Hend). pose proof (cp_len_at_pos text byte_offset).
    apply getWidthAt_loop_head; lia.
Qed.

Lemma getWidthAtWCWidth_first {U : Uucode} (text : list byte) (byte_offset tab_width : nat) :
  getWidthAtWCWidth text byte_offset tab_width
  = match codepoints_at text byte_offset with
    | c :: _ => codepoint_width tab_width c
    | [] => 0
    end.
Proof.
  unfold getWidthAtWCWidth.
  destruct (length text <=? byte_offset) eqn:Hend.
  - apply Nat.leb_le in Hend. rewrite codepoints_at_end by assumption. reflexivity.
  - apply Nat.leb_gt in Hend.
    pose proof (DecodeFacts.decode_len_le text Hend) as Hdec.
    replace (length text <? byte_offset + dec_len (decodeUtf8Unchecked text byte_offset))
      with false by (symmetry; apply Nat.ltb_ge; lia).
    rewrite andb_false_r. rewrite codepoints_at_step by assumption. reflexivity.
Qed.

(** After U+FFFD there is always a break. *)
Lemma break_after_replacement {U : Uucode} (c : Z) (bs : BreakState) (m : WidthMethod) :
  fst (isGraphemeBreak (Some 0xFFFD%Z) c bs m) = true.
Proof.
  unfold isGraphemeBreak. change (isValidCodepoint 65533) with false.
  destruct m; destruct (negb (isValidCodepoint c)); reflexivity.
Qed.

Lemma truncated_decodes_replacement (text : list byte) (pos : nat) :
  truncated_at text pos ->
  curr_cp_at text pos = 0xFFFD%Z /\ cp_len_at text pos = 1.
Proof.
  intros T. pose proof T as (Hlt & Hb & _).
  unfold curr_cp_at, cp_len_at.
  replace (byte_at text pos <? 128)%Z with false by (symmetry; apply Z.ltb_ge; lia).
  destruct (DecodeFacts.truncated_replacement T) as [-> ->]. auto.
Qed.

Lemma getWidthAt_loop_after_replacement {U : Uucode} (text : list byte)
    (tab_width : nat) (m : WidthMethod) (fuel pos : nat) (bs : BreakState)
    (ws : GraphemeWidthState) :
  getWidthAt_loop fuel text tab_width m pos (Some 0xFFFD%Z) bs ws = width ws.
Proof.
  destruct fuel as [|fuel]; cbn [getWidthAt_loop]; [reflexivity|].
  destruct (pos <? length text); [|reflexivity].
  destruct (length text <? pos + cp_len_at text pos); [reflexivity|].
  pose proof (break_after_replacement (curr_cp_at text pos) bs m) as Hbrk.
  destruct (isGraphemeBreak (Some 65533%Z) (curr_cp_at text pos) bs m) as [brk bs1].
  cbn [fst] in Hbrk. subst brk. reflexivity.
Qed.

Lemma getWidthAt_truncated {U : Uucode} (text : list byte) (byte_offset tab_width : nat)
    (m : WidthMethod) :
  truncated_at text byte_offset ->
  getWidthAt text byte_offset tab_width m
  = charWidth (byte_at text byte_offset) 0xFFFD%Z tab_width.
Proof.
  intros T. pose proof T as (Hlt & Hb & _).
  destruct (truncated_decodes_replacement T) as [Hcp Hlen].
  pose proof (DecodeFacts.decode_len_le text Hlt) as Hdec.
  assert (Hhead : getWidthAtUnicode text byte_offset tab_width m
                  = charWidth (byte_at text byte_offset) 0xFFFD%Z tab_width).
  { unfold getWidthAtUnicode.
    replace (length text <=? byte_offset) with false by (symmetry; apply Nat.leb_gt; lia).
    replace (length text <? byte_offset + dec_len (decodeUtf8Unchecked text byte_offset))
      with false by (symmetry; apply Nat.ltb_ge; lia).
    rewrite andb_false_r, Hcp, Hlen.
    rewrite getWidthAt_loop_after_replacement. reflexivity. }
  destruct m; cbn [getWidthAt]; try exact Hhead.
  unfold getWidthAtWCWidth.
  replace (length text <=? byte_offset) with false by (symmetry; apply Nat.leb_gt; lia).
  replace (length text <? byte_offset + dec_len (decodeUtf8Unchecked text byte_offset))
    with false by (symmetry; apply Nat.ltb_ge; lia).
  rewrite andb_false_r, Hcp. reflexivity.
Qed.

(** C3 as stated fails: in "abc" + C3 the last byte is a two-byte sequence
    cut short by the end of the text, and the width returned at offset 3 is
    1, not 0 (the repository's test "getWidthAt: incomplete UTF-8 at end"
    expects this 1). *)
Lemma getWidthAt_truncated_not_zero :
  ~ (forall (text : list byte) (byte_offset tab_width : nat) (m : WidthMethod),
        truncated_at text byte_offset ->
        getWidthAt (U := uucode_model) text byte_offset tab_width m = 0).
Proof.
  intros H. specialize (H abc_truncated 3 8 unicode).
  assert (T : truncated_at abc_truncated 3).
  { unfold truncated_at, abc_truncated. cbn [length].
    split; [lia|]. split; [vm_compute; congruence | vm_compute; lia]. }
  specialize (H T). vm_compute in H. discriminate H.
Qed.

(** C3, amended.  [get_width_at] returns 0 at or past the end of the text.
    Otherwise it reads the text from [byte_offset] on with a fresh break
    state, whether or not a cluster starts there: under the unicode and
    no_zwj policies it returns the width of the first cluster of that
    reading (the codepoint at [byte_offset] and what joins it), under the
    wcwidth policy the width of the codepoint at [byte_offset] alone.  A
    multi-byte sequence cut short by the end of the text is read as U+FFFD
    and has the width of U+FFFD, which is 1 with the Unicode tables. *)
Theorem getWidthAt_spec {U : Uucode}
    (text : list byte) (byte_offset tab_width : nat) (m : WidthMethod) :
  (length text <= byte_offset -> getWidthAt text byte_offset tab_width m = 0)
  /\ (m <> wcwidth ->
      getWidthAt text byte_offset tab_width m
      = head_width (clusters_at m tab_width text byte_offset))
  /\ getWidthAt text byte_offset tab_width wcwidth
     = match codepoints_at text byte_offset with
       | c :: _ => codepoint_width tab_width c
       | [] => 0
       end
  /\ (truncated_at text byte_offset ->
      getWidthAt text byte_offset tab_width m
      = charWidth (byte_at text byte_offset) 0xFFFD%Z tab_width)
  /\ charWidth (U := uucode_model) 0xC3 0xFFFD%Z tab_width = 1.
Proof.
  split; [|split; [|split; [|split]]].
  - intros Hend.
    destruct m; cbn [getWidthAt]; unfold getWidthAtUnicode, getWidthAtWCWidth;
      replace (length text <=? byte_offset) with true
        by (symmetry; apply Nat.leb_le; assumption); reflexivity.
  - intros Hm. destruct m; [congruence | |]; cbn [getWidthAt];
      apply getWidthAtUnicode_head.
  - cbn [getWidthAt]. apply getWidthAtWCWidth_first.
  - apply getWidthAt_truncated.
  - reflexivity.
Qed.

Lemma getWidthAt_spec_witness :
  truncated_at abc_truncated 3
  /\ getWidthAt (U := uucode_model) abc_truncated 3 8 unicode
     = charWidth (U := uucode_model) (byte_at abc_truncated 3) 0xFFFD%Z 8
  /\ unicode <> wcwidth
  /\ getWidthAt (U := uucode_model) abc_truncated 0 8 unicode
     = head_width (clusters_at (U := uucode_model) unicode 8 abc_truncated 0).
Proof.
  assert (T : truncated_at abc_truncated 3).
  { unfold truncated_at, abc_truncated. cbn [length].
    split; [lia|]. split; [vm_compute; congruence | vm_compute; lia]. }
  assert (Hm : unicode <> wcwidth) by discriminate.
  split; [exact T|].
  split; [exact (proj1 (proj2 (proj2 (proj2
                   (@getWidthAt_spec uucode_model abc_truncated 3 8 unicode)))) T)|].
  split; [exact Hm|].
  exact (proj1 (proj2 (@getWidthAt_spec uucode_model abc_truncated 0 8 unicode)) Hm).
Defined.

(** An offset inside a cluster is not detected: byte 4 of the waving hand
    with a skin tone modifier is where the modifier starts. *)
Example getWidthAt_inside_cluster :
  map cluster_span (clusters (U := uucode_model) unicode 8 waving_hand_dark)
  = [(0, 8, [mkCodepoint 0 0xF0 0x1F44B 4; mkCodepoint 4 0xF0 0x1F3FF 4])]
  /\ getWidthAt (U := uucode_model) waving_hand_dark 4 8 unicode = 2.
Proof. split; vm_compute; reflexivity. Qed.

(** *** findPosByWidth with [include_start_before = false] (C2) *)

(** C2 fails at the final cluster.  [handleClusterForPos] leaves out a
    cluster whose end column exceeds [max_columns]; the code after the
    loops takes the last cluster of the text whenever it starts before
    [max_columns].  A lone tab of width 4 with one column allowed comes
    back with 4 columns used, and "a" + U+4E16 with two columns allowed
    with 3; on the second text the wcwidth path, which tests the end
    column of every codepoint, stops after "a" with 1 column. *)
Theorem findPosByWidth_final_cluster_overshoot :
  (forall U : Uucode,
      findPosByWidth (U := U) [x09] 1 4 false false unicode = mkResult 1 0 4)
  /\ findPosByWidth (U := uucode_model) a_cjk 2 8 false false unicode = mkResult 4 0 3
  /\ findPosByWidth (U := uucode_model) a_cjk 2 8 false false wcwidth = mkResult 1 1 1.
Proof.
  split; [intros U; reflexivity|]. split; vm_compute; reflexivity.
Qed.

(** ** findTabStops *)

Module TabStopFacts.

Import TabStops.

Lemma tabs_between_app (text : list byte) (a n m : nat) :
  tabs_between text a (n + m) = tabs_between text a n ++ tabs_between text (a + n) m.
Proof.
  unfold tabs_between. rewrite seq_app, filter_app. reflexivity.
Qed.

Lemma tabs_between_S (text : list byte) (a n : nat) :
  tabs_between text a (S n)
  = (if is_tab (byte_at text a) then [a] else []) ++ tabs_between text (a + 1) n.
Proof.
  unfold tabs_between. cbn [seq filter]. rewrite Nat.add_1_r.
  destruct (is_tab (byte_at text a)); reflexivity.
Qed.

Lemma tabs_between_quiet (text : list byte) (n : nat) :
  forall a, chunk_any is_tab text a n = false -> tabs_between text a n = [].
Proof.
  induction n as [|n IH]; intros a H; [reflexivity|].
  cbn [chunk_any] in H. apply orb_false_iff in H. destruct H as [H0 Hr].
  rewrite tabs_between_S, H0, Nat.add_1_r. apply IH. exact Hr.
Qed.

Lemma chunk_loop_spec (text : list byte) (pos : nat) :
  forall fuel i acc,
    i <= vector_len -> vector_len - i <= fuel ->
    chunk_loop fuel text pos i acc = acc ++ tabs_between text (pos + i) (vector_len - i).
Proof.
  induction fuel as [|fuel IH]; intros i acc Hi Hf.
  - replace (vector_len - i) with 0 by lia. cbn. rewrite app_nil_r. reflexivity.
  - cbn [chunk_loop]. destruct (i <? vector_len) eqn:Hlt.
    + apply Nat.ltb_lt in Hlt.
      replace (vector_len - i) with (S (vector_len - (i + 1))) by lia.
      rewrite tabs_between_S, <- Nat.add_assoc.
      destruct (is_tab (byte_at text (pos + i))).
      * rewrite IH by lia. rewrite <- app_assoc. reflexivity.
      * rewrite IH by lia. reflexivity.
    + apply Nat.ltb_ge in Hlt. replace (vector_len - i) with 0 by lia.
      cbn. rewrite app_nil_r. reflexivity.
Qed.

Lemma vec_loop_spec (text : list byte) :
  forall fuel pos acc q acc',
    pos <= length text ->
    vec_loop fuel text pos acc = (q, acc') ->
    pos <= q <= length text /\ acc' = acc ++ tabs_between text pos (q - pos).
Proof.
  induction fuel as [|fuel IH]; intros pos acc q acc' Hpos; cbn [vec_loop].
  - intros [= <- <-]. rewrite Nat.sub_diag. cbn. rewrite app_nil_r. split; [lia | reflexivity].
  - destruct (pos + vector_len <=? length text) eqn:Hle.
    + apply Nat.leb_le in Hle.
      assert (Hstep : forall acc1,
                 acc1 = acc ++ tabs_between text pos vector_len ->
                 vec_loop fuel text (pos + vector_len) acc1 = (q, acc') ->
                 pos <= q <= length text /\ acc' = acc ++ tabs_between text pos (q - pos)).
      { intros acc1 -> H. apply IH in H; [|assumption]. destruct H as [Hq ->].
        split; [lia|]. rewrite <- app_assoc. f_equal.
        replace (q - pos) with (vector_len + (q - (pos + vector_len))) by lia.
        apply eq_sym, tabs_between_app. }
      destruct (chunk_any is_tab text pos vector_len) eqn:Hany; apply Hstep.
      * rewrite chunk_loop_spec by (unfold vector_len; lia).
        rewrite Nat.add_0_r, Nat.sub_0_r. reflexivity.
      * rewrite (tabs_between_quiet _ _ _ Hany), app_nil_r. reflexivity.
    + intros [= <- <-]. rewrite Nat.sub_diag. cbn. rewrite app_nil_r.
      split; [lia | reflexivity].
Qed.

Lemma tail_loop_spec (text : list byte) :
  forall fuel pos acc,
    length text - pos <= fuel ->
    tail_loop fuel text pos acc = acc ++ tabs_between text pos (length text - pos).
Proof.
  induction fuel as [|fuel IH]; intros pos acc Hf.
  - replace (length text - pos) with 0 by lia. cbn. rewrite app_nil_r. reflexivity.
  - cbn [tail_loop]. destruct (pos <? length text) eqn:Hlt.
    + apply Nat.ltb_lt in Hlt.
      replace (length text - pos) with (S (length text - (pos + 1))) by lia.
      rewrite tabs_between_S.
      destruct (is_tab (byte_at text pos)).
      * rewrite IH by lia. rewrite <- app_assoc. reflexivity.
      * rewrite IH by lia. reflexivity.
    + apply Nat.ltb_ge in Hlt. replace (length text - pos) with 0 by lia.
      cbn. rewrite app_nil_r. reflexivity.
Qed.

End TabStopFacts.

(** [findTabStops] reports the indexes of the tab bytes of the text, each
    once, in ascending order, whether a tab lies in a 16-byte chunk or in
    the remainder. *)
Theorem findTabStops_spec (text : list byte) :
  findTabStops text
  = filter (fun i => (byte_at text i =? 9)%Z) (seq 0 (length text)).
Proof.
  unfold findTabStops.
  destruct (TabStops.vec_loop (length text) text 0 []) as [q acc] eqn:Hvec.
  apply TabStopFacts.vec_loop_spec in Hvec; [|lia]. destruct Hvec as [Hq ->].
  rewrite TabStopFacts.tail_loop_spec by lia. cbn [app].
  rewrite Nat.sub_0_r.
  change (TabStops.tabs_between text q) with (TabStops.tabs_between text (0 + q)).
  rewrite <- TabStopFacts.tabs_between_app.
  replace (q + (length text - q)) with (length text) by lia. reflexivity.
Qed.

Example findTabStops_chunk_and_tail :
  findTabStops
    [x09; x61; x61; x61; x61; x61; x61; x61; x61; x61; x61; x61; x61; x61; x61; x09;
     x61; x09]
  = [0; 15; 17].
Proof. reflexivity. Qed.

(** ** decodeUtf8Unchecked on well-formed input *)

Module RoundTrip.

Lemma u8_byte_of (z : Z) : (0 <= z < 256)%Z -> u8 (byte_of z) = z.
Proof.
  intros H.
  pose proof (@Z_range_check (fun z => (u8 (byte_of z) =? z)%Z) 0 256
                ltac:(vm_compute; reflexivity) z ltac:(lia)) as E.
  cbn beta in E. apply Z.eqb_eq in E. exact E.
Qed.

(** Low six bits and the rest put together again. *)
Lemma split6 (x : Z) :
  (0 <= x)%Z -> Z.lor (Z.shiftl (Z.shiftr x 6) 6) (Z.land x 0x3F) = x.
Proof.
  intros Hx. apply Z.bits_inj'. intros n Hn.
  rewrite Z.lor_spec, Z.land_spec.
  change 0x3F%Z with (Z.ones 6).
  destruct (Z.lt_ge_cases n 6) as [Hlt|Hge].
  - rewrite Z.shiftl_spec_low by assumption.
    rewrite Z.ones_spec_low by lia. cbn [orb]. apply andb_true_r.
  - rewrite Z.shiftl_spec_high by lia.
    rewrite Z.shiftr_spec by lia.
    rewrite Z.ones_spec_high by lia.
    rewrite andb_false_r, orb_false_r. f_equal. lia.
Qed.

Lemma low6_range (x : Z) : (0 <= Z.land x 0x3F < 64)%Z.
Proof.
  change 0x3F%Z with (Z.ones 6). rewrite Z.land_ones by lia.
  apply Z.mod_pos_bound. reflexivity.
Qed.

Lemma shiftr_range (x : Z) (k m : Z) :
  (0 <= k)%Z -> (0 <= x < m * 2 ^ k)%Z -> (0 <= Z.shiftr x k < m)%Z.
Proof.
  intros Hk Hx. rewrite Z.shiftr_div_pow2 by assumption.
  assert (0 < 2 ^ k)%Z by (apply Z.pow_pos_nonneg; lia).
  split; [apply Z.div_pos; lia | apply Z.div_lt_upper_bound; lia].
Qed.

(** What the tag bits of a byte do to its payload. *)
Lemma continuation_byte (y : Z) :
  (0 <= y < 64)%Z ->
  (0 <= Z.lor 0x80 y < 256)%Z /\ Z.land (Z.lor 0x80 y) 0x3F = y.
Proof.
  intros H.
  pose proof (@Z_range_check
                (fun y => (Z.lor 0x80 y <? 256)%Z && (Z.land (Z.lor 0x80 y) 0x3F =? y)%Z)
                0 64 ltac:(vm_compute; reflexivity) y ltac:(lia)) as E.
  cbn beta in E. apply andb_true_iff in E. destruct E as [A B].
  apply Z.ltb_lt in A. apply Z.eqb_eq in B.
  pose proof (Z.lor_nonneg 0x80 y). lia.
Qed.

Lemma lead_byte_2 (x : Z) :
  (0 <= x < 32)%Z ->
  let b := Z.lor 0xC0 x in
  (0x80 <= b < 256)%Z /\ Z.land b 0xE0 = 0xC0%Z /\ Z.land b 0x1F = x.
Proof.
  intros H b. subst b.
  pose proof (@Z_range_check
                (fun x => let b := Z.lor 0xC0 x in
                          (0x80 <=? b)%Z && (b <? 256)%Z && (Z.land b 0xE0 =? 0xC0)%Z
                          && (Z.land b 0x1F =? x)%Z)
                0 32 ltac:(vm_compute; reflexivity) x ltac:(lia)) as E.
  cbn beta zeta in E. rewrite !andb_true_iff in E. destruct E as [[[A B] C] D].
  apply Z.leb_le in A. apply Z.ltb_lt in B. apply Z.eqb_eq in C. apply Z.eqb_eq in D.
  auto.
Qed.

Lemma lead_byte_3 (x : Z) :
  (0 <= x < 16)%Z ->
  let b := Z.lor 0xE0 x in
  (0x80 <= b < 256)%Z /\ Z.land b 0xE0 <> 0xC0%Z /\ Z.land b 0xF0 = 0xE0%Z
  /\ Z.land b 0x0F = x.
Proof.
  intros H b. subst b.
  pose proof (@Z_range_check
                (fun x => let b := Z.lor 0xE0 x in
                          (0x80 <=? b)%Z && (b <? 256)%Z
                          && negb (Z.land b 0xE0 =? 0xC0)%Z
                          && (Z.land b 0xF0 =? 0xE0)%Z && (Z.land b 0x0F =? x)%Z)
                0 16 ltac:(vm_compute; reflexivity) x ltac:(lia)) as E.
  cbn beta zeta in E. rewrite !andb_true_iff in E. destruct E as [[[[A B] C] D] F].
  apply Z.leb_le in A. apply Z.ltb_lt in B. apply negb_true_iff, Z.eqb_neq in C.
  apply Z.eqb_eq in D. apply Z.eqb_eq in F. auto.
Qed.

Lemma lead_byte_4 (x : Z) :
  (0 <= x < 8)%Z ->
  let b := Z.lor 0xF0 x in
  (0x80 <= b < 256)%Z /\ Z.land b 0xE0 <> 0xC0%Z /\ Z.land b 0xF0 <> 0xE0%Z
  /\ Z.land b 0x07 = x.
Proof.
  intros H b. subst b.
  pose proof (@Z_range_check
                (fun x => let b := Z.lor 0xF0 x in
                          (0x80 <=? b)%Z && (b <? 256)%Z
                          && negb (Z.land b 0xE0 =? 0xC0)%Z
                          && negb (Z.land b 0xF0 =? 0xE0)%Z && (Z.land b 0x07 =? x)%Z)
                0 8 ltac:(vm_compute; reflexivity) x ltac:(lia)) as E.
  cbn beta zeta in E. rewrite !andb_true_iff in E. destruct E as [[[[A B] C] D] F].
  apply Z.leb_le in A. apply Z.ltb_lt in B. apply negb_true_iff, Z.eqb_neq in C.
  apply negb_true_iff, Z.eqb_neq in D. apply Z.eqb_eq in F. auto.
Qed.

Lemma byte_at_middle (pre enc post : list byte) (k : nat) :
  k < length enc -> byte_at (pre ++ enc ++ post) (length pre + k) = byte_at enc k.
Proof.
  intros H. unfold byte_at. rewrite app_nth2_plus, app_nth1 by assumption. reflexivity.
Qed.

Lemma join3 (x : Z) :
  (0 <= x)%Z ->
  Z.lor (Z.lor (Z.shiftl (Z.shiftr x 12) 12) (Z.shiftl (Z.land (Z.shiftr x 6) 0x3F) 6))
        (Z.land x 0x3F) = x.
Proof.
  intros Hx.
  replace (Z.shiftr x 12) with (Z.shiftr (Z.shiftr x 6) 6)
    by (rewrite Z.shiftr_shiftr by lia; reflexivity).
  replace (Z.shiftl (Z.shiftr (Z.shiftr x 6) 6) 12)
    with (Z.shiftl (Z.shiftl (Z.shiftr (Z.shiftr x 6) 6) 6) 6)
    by (rewrite Z.shiftl_shiftl by lia; reflexivity).
  rewrite <- Z.shiftl_lor.
  rewrite split6 by (apply Z.shiftr_nonneg; assumption).
  apply split6. assumption.
Qed.

Lemma join4 (x : Z) :
  (0 <= x)%Z ->
  Z.lor (Z.lor (Z.lor (Z.shiftl (Z.shiftr x 18) 18)
                      (Z.shiftl (Z.land (Z.shiftr x 12) 0x3F) 12))
               (Z.shiftl (Z.land (Z.shiftr x 6) 0x3F) 6))
        (Z.land x 0x3F) = x.
Proof.
  intros Hx.
  replace (Z.shiftr x 18) with (Z.shiftr (Z.shiftr x 6) 12)
    by (rewrite Z.shiftr_shiftr by lia; reflexivity).
  replace (Z.shiftr x 12) with (Z.shiftr (Z.shiftr x 6) 6)
    by (rewrite Z.shiftr_shiftr by lia; reflexivity).
  replace (Z.shiftl (Z.shiftr (Z.shiftr x 6) 12) 18)
    with (Z.shiftl (Z.shiftl (Z.shiftr (Z.shiftr x 6) 12) 12) 6)
    by (rewrite Z.shiftl_shiftl by lia; reflexivity).
  replace (Z.shiftl (Z.land (Z.shiftr (Z.shiftr x 6) 6) 0x3F) 12)
    with (Z.shiftl (Z.shiftl (Z.land (Z.shiftr (Z.shiftr x 6) 6) 0x3F) 6) 6)
    by (rewrite Z.shiftl_shiftl by lia; reflexivity).
  rewrite <- !Z.shiftl_lor.
  rewrite join3 by (apply Z.shiftr_nonneg; assumption).
  apply split6. assumption.
Qed.

End RoundTrip.

(** Round trip: where the UTF-8 encoding of a codepoint stands in a text,
    whatever comes before and after it, the decoder returns that codepoint
    and the number of bytes of the encoding. *)
Theorem decode_encode_roundtrip (pre post : list byte) (cp : Z) :
  (0 <= cp <= 0x10FFFF)%Z ->
  decodeUtf8Unchecked (pre ++ utf8_encode cp ++ post) (length pre)
  = mkDecoded cp (length (utf8_encode cp)).
Proof.
  intros Hcp.
  pose proof (RoundTrip.low6_range cp) as L0.
  pose proof (RoundTrip.low6_range (Z.shiftr cp 6)) as L1.
  pose proof (RoundTrip.low6_range (Z.shiftr cp 12)) as L2.
  destruct (RoundTrip.continuation_byte L0) as [R0 P0].
  destruct (RoundTrip.continuation_byte L1) as [R1 P1].
  destruct (RoundTrip.continuation_byte L2) as [R2 P2].
  remember (utf8_encode cp) as enc eqn:Eenc.
  assert (Hlen : length (pre ++ enc ++ post) = length pre + length enc + length post)
    by (rewrite !length_app; lia).
  assert (B : forall k, k < length enc ->
                        byte_at (pre ++ enc ++ post) (length pre + k) = byte_at enc k)
    by (intros k; apply RoundTrip.byte_at_middle).
  unfold decodeUtf8Unchecked. rewrite Hlen.
  unfold utf8_encode in Eenc.
  destruct (cp <? 0x80)%Z eqn:E1.
  { apply Z.ltb_lt in E1. subst enc. cbn [length] in *.
    pose proof (B 0 ltac:(lia)) as B0. rewrite Nat.add_0_r in B0. rewrite B0.
    unfold byte_at. cbn [nth]. rewrite RoundTrip.u8_byte_of by lia.
    replace (cp <? 128)%Z with true by (symmetry; apply Z.ltb_lt; lia). reflexivity. }
  apply Z.ltb_ge in E1.
  destruct (cp <? 0x800)%Z eqn:E2.
  { apply Z.ltb_lt in E2. subst enc. cbn [length] in *.
    pose proof (@RoundTrip.shiftr_range cp 6 32 ltac:(lia) ltac:(lia)) as Hx.
    destruct (RoundTrip.lead_byte_2 Hx) as (Hr & Ht & Hp).
    pose proof (B 0 ltac:(lia)) as B0. rewrite Nat.add_0_r in B0.
    pose proof (B 1 ltac:(lia)) as B1.
    rewrite B0, B1. unfold byte_at. cbn [nth].
    rewrite !RoundTrip.u8_byte_of by lia.
    replace (Z.lor 192 (Z.shiftr cp 6) <? 128)%Z with false
      by (symmetry; apply Z.ltb_ge; lia).
    replace (length pre + 2 + length post <=? length pre + 1) with false
      by (symmetry; apply Nat.leb_gt; lia).
    rewrite Ht, Z.eqb_refl, Hp, P0, RoundTrip.split6 by lia. reflexivity. }
  apply Z.ltb_ge in E2.
  destruct (cp <? 0x10000)%Z eqn:E3.
  { apply Z.ltb_lt in E3. subst enc. cbn [length] in *.
    pose proof (@RoundTrip.shiftr_range cp 12 16 ltac:(lia) ltac:(lia)) as Hx.
    destruct (RoundTrip.lead_byte_3 Hx) as (Hr & Hn & Ht & Hp).
    pose proof (B 0 ltac:(lia)) as B0. rewrite Nat.add_0_r in B0.
    pose proof (B 1 ltac:(lia)) as B1. pose proof (B 2 ltac:(lia)) as B2.
    rewrite B0, B1, B2. unfold byte_at. cbn [nth].
    rewrite !RoundTrip.u8_byte_of by lia.
    replace (Z.lor 224 (Z.shiftr cp 12) <? 128)%Z with false
      by (symmetry; apply Z.ltb_ge; lia).
    replace (length pre + 3 + length post <=? length pre + 1) with false
      by (symmetry; apply Nat.leb_gt; lia).
    replace (length pre + 3 + length post <=? length pre + 2) with false
      by (symmetry; apply Nat.leb_gt; lia).
    apply Z.eqb_neq in Hn. rewrite Hn, Ht, Z.eqb_refl, Hp, P0, P1.
    rewrite RoundTrip.join3 by lia. reflexivity. }
  apply Z.ltb_ge in E3. subst enc. cbn [length] in *.
  pose proof (@RoundTrip.shiftr_range cp 18 8 ltac:(lia) ltac:(lia)) as Hx.
  destruct (RoundTrip.lead_byte_4 Hx) as (Hr & Hn & Hm & Hp).
  pose proof (B 0 ltac:(lia)) as B0. rewrite Nat.add_0_r in B0.
  pose proof (B 1 ltac:(lia)) as B1. pose proof (B 2 ltac:(lia)) as B2.
  pose proof (B 3 ltac:(lia)) as B3.
  rewrite B0, B1, B2, B3. unfold byte_at. cbn [nth].
  rewrite !RoundTrip.u8_byte_of by lia.
  replace (Z.lor 240 (Z.shiftr cp 18) <? 128)%Z with false
    by (symmetry; apply Z.ltb_ge; lia).
  replace (length pre + 4 + length post <=? length pre + 1) with false
    by (symmetry; apply Nat.leb_gt; lia).
  replace (length pre + 4 + length post <=? length pre + 2) with false
    by (symmetry; apply Nat.leb_gt; lia).
  replace (length pre + 4 + length post <=? length pre + 3) with false
    by (symmetry; apply Nat.leb_gt; lia).
  apply Z.eqb_neq in Hn. apply Z.eqb_neq in Hm.
  rewrite Hn, Hm, Hp, P0, P1, P2.
  rewrite RoundTrip.join4 by lia. reflexivity.
Qed.

(** U+4E16 between two ASCII letters. *)
Lemma decode_encode_roundtrip_witness :
  (0 <= 0x4E16 <= 0x10FFFF)%Z
  /\ decodeUtf8Unchecked ([x61] ++ utf8_encode 0x4E16 ++ [x62]) (length [x61])
     = mkDecoded 0x4E16 (length (utf8_encode 0x4E16)).
Proof.
  assert (H : (0 <= 0x4E16 <= 0x10FFFF)%Z) by lia.
  split; [exact H|]. exact (@decode_encode_roundtrip [x61] [x62] 0x4E16 H).
Defined.

(** ** findPosByWidth *)

Section PosFacts.

Context {U : Uucode}.

Variable max_columns : nat.
Variable include_start_before : bool.
Variable tab_width : nat.
Variable width_method : WidthMethod.
Variable text_len : nat.

Let pos_handle : ClusterState -> bool -> nat -> bool * ClusterState :=
  fun st brk start => handleClusterForPos st brk start max_columns include_start_before.

Lemma pos_clusters_cons (cols cnt : nat) (c : Cluster) (rest : list Cluster) :
  rest <> [] ->
  pos_clusters max_columns include_start_before cols cnt (c :: rest) text_len
  = if include_start_before then
      if max_columns <=? cols then mkResult (cl_start c) cnt cols
      else pos_clusters max_columns include_start_before (cols + cl_width c) (cnt + 1)
             rest text_len
    else
      if max_columns <? cols + cl_width c then mkResult (cl_start c) cnt cols
      else pos_clusters max_columns include_start_before (cols + cl_width c) cnt
             rest text_len.
Proof.
  intros H. destruct rest; [congruence | reflexivity].
Qed.

Lemma pos_scan_clusters :
  forall cps st prev bs cur,
    agrees width_method st prev bs cur ->
    pos_finish max_columns text_len include_start_before
      (scan_list pos_handle tab_width width_method cps st)
    = pos_clusters max_columns include_start_before
        (cs_columns_used st) (cs_grapheme_count st)
        (segment width_method tab_width cps prev bs cur text_len) text_len.
Proof.
  induction cps as [|c rest IH]; intros st prev bs cur Hag.
  - destruct st as [cols cnt cw cstart prev' bs' ws wm started].
    destruct Hag as (Hp & Hb & Hm & Hcur). cbn in Hp, Hb, Hm, Hcur. subst prev' bs' wm.
    cbn [scan_list segment pos_finish cs_prev_cp cs_cluster_width cs_columns_used
           cs_grapheme_count].
    destruct cur as [[[start ws0] cs]|].
    + destruct Hcur as (Hne & -> & -> & -> & ->).
      destruct prev as [p|]; [|congruence]. reflexivity.
    + destruct Hcur as [-> ->]. reflexivity.
  - destruct st as [cols cnt cw cstart prev' bs' ws wm started].
    destruct Hag as (Hp & Hb & Hm & Hcur). cbn in Hp, Hb, Hm, Hcur. subst prev' bs' wm.
    cbn [scan_list segment]. unfold visit.
    cbn [cs_prev_cp cs_break_state cs_width_method cs_columns_used cs_grapheme_count
           cs_cluster_width cs_cluster_start cs_width_state cs_cluster_started].
    destruct (isGraphemeBreak prev (cp_value c) bs width_method) as [brk bs1] eqn:E.
    change (pos_handle ?a ?b ?c)
      with (handleClusterForPos a b c max_columns include_start_before).
    unfold handleClusterForPos.
    cbn [cs_prev_cp cs_columns_used cs_cluster_width cs_grapheme_count].
    destruct brk.
    + (* a boundary before [c] *)
      destruct cur as [[[start ws0] cs]|].
      * destruct Hcur as (Hne & -> & -> & -> & ->).
        destruct prev as [p|]; [|congruence].
        cbn [close_cluster app].
        rewrite pos_clusters_cons by apply segment_nonempty.
        cbn [cl_width cl_start].
        destruct include_start_before.
        -- destruct (max_columns <=? cols) eqn:Hfit; [reflexivity|].
           unfold open_cluster, accumulate.
           cbn [cs_cluster_started negb cs_columns_used cs_grapheme_count
                  cs_cluster_start cs_break_state cs_width_method cs_width_state
                  cs_prev_cp].
           rewrite (IH _ (Some (cp_value c)) bs1
                      (Some (cp_pos c,
                             GraphemeWidthState_init (cp_value c)
                               (codepoint_width tab_width c) width_method, [c]))).
           ++ reflexivity.
           ++ unfold agrees, codepoint_width. cbn. repeat split; congruence.
        -- destruct (max_columns <? cols + width ws0) eqn:Hfit; [reflexivity|].
           unfold open_cluster, accumulate.
           cbn [cs_cluster_started negb cs_columns_used cs_grapheme_count
                  cs_cluster_start cs_break_state cs_width_method cs_width_state
                  cs_prev_cp].
           rewrite (IH _ (Some (cp_value c)) bs1
                      (Some (cp_pos c,
                             GraphemeWidthState_init (cp_value c)
                               (codepoint_width tab_width c) width_method, [c]))).
           ++ reflexivity.
           ++ unfold agrees, codepoint_width. cbn. repeat split; congruence.
      * destruct Hcur as [-> ->]. cbn [close_cluster app].
        unfold open_cluster, accumulate.
        cbn [cs_cluster_started negb cs_columns_used cs_grapheme_count
               cs_cluster_start cs_break_state cs_width_method cs_width_state
               cs_prev_cp].
        rewrite (IH _ (Some (cp_value c)) bs1
                   (Some (cp_pos c,
                          GraphemeWidthState_init (cp_value c)
                            (codepoint_width tab_width c) width_method, [c]))).
        -- reflexivity.
        -- unfold agrees, codepoint_width. cbn. repeat split; congruence.
    + (* [c] continues the cluster *)
      destruct cur as [[[start ws0] cs]|].
      * destruct Hcur as (Hne & -> & -> & -> & ->).
        unfold accumulate.
        cbn [cs_cluster_started negb cs_columns_used cs_grapheme_count
               cs_cluster_start cs_break_state cs_width_method cs_width_state
               cs_prev_cp].
        rewrite (IH _ (Some (cp_value c)) bs1
                   (Some (start,
                          GraphemeWidthState_addCodepoint ws0 (cp_value c)
                            (codepoint_width tab_width c), cs ++ [c]))).
        -- reflexivity.
        -- unfold agrees, codepoint_width. cbn. repeat split; congruence.
      * destruct Hcur as [-> _]. rewrite isGraphemeBreak_first in E. discriminate.
Qed.

End PosFacts.

(** [findPosByWidthUnicode] on the general path is [pos_clusters] over the
    clusters of the text. *)
Lemma findPosByWidthUnicode_clusters {U : Uucode}
    (text : list byte) (max_columns tab_width : nat) (include_start_before : bool)
    (width_method : WidthMethod) :
  text <> [] -> 0 < max_columns ->
  findPosByWidthUnicode text max_columns tab_width false include_start_before width_method
  = pos_clusters max_columns include_start_before 0 0
      (clusters width_method tab_width text) (length text).
Proof.
  intros Hne Hmax. unfold findPosByWidthUnicode.
  replace (length text =? 0) with false
    by (symmetry; apply Nat.eqb_neq; destruct text; [congruence | discriminate]).
  replace (max_columns =? 0) with false by (symmetry; apply Nat.eqb_neq; lia).
  cbn [orb]. rewrite scan_codepoints.
  change (pos_finish max_columns (length text) include_start_before
            (scan_list (fun st brk start =>
                          handleClusterForPos st brk start max_columns include_start_before)
               tab_width width_method (codepoints text)
               (ClusterState_init width_method))
          = pos_clusters max_columns include_start_before 0 0
              (clusters width_method tab_width text) (length text)).
  apply (@pos_scan_clusters U max_columns include_start_before tab_width width_method
           (length text) (codepoints text) _ None break_default None
           (agrees_init width_method)).
Qed.

(** *** What the position scan returns, in terms of the clusters *)

Lemma pos_clusters_before_spec (max_columns text_len : nat) :
  forall cls a cols cnt,
    chain a cls text_len -> cols <= max_columns ->
    let r := pos_clusters max_columns false cols cnt cls text_len in
    exists k,
      k <= length cls
      /\ byte_offset r = end_after a (firstn k cls)
      /\ columns_used r = cols + total_width (firstn k cls)
      /\ grapheme_count r = cnt
      /\ cols + total_width (firstn (Nat.min k (length cls - 1)) cls) <= max_columns
      /\ (k < length cls -> max_columns < cols + total_width (firstn (S k) cls))
      /\ (k = length cls -> 0 < last_width cls ->
          cols + total_width (firstn (k - 1) cls) < max_columns)
      /\ (k = length cls <->
          cols + total_width (firstn (length cls - 1) cls) < max_columns
          \/ (last_width cls = 0
              /\ cols + total_width (firstn (length cls - 1) cls) <= max_columns)).
Proof.
  induction cls as [|c rest IH]; intros a cols cnt Hch Hcols r; subst r.
  - cbn in Hch. subst a. exists 0. cbn. repeat split; try lia.
  - destruct Hch as [Hstart Hch].
    destruct rest as [|c2 rest2].
    + cbn in Hch. cbn [pos_clusters].
      destruct (0 <? cl_width c) eqn:Hw.
      * apply Nat.ltb_lt in Hw.
        destruct (max_columns <=? cols) eqn:Hfit.
        -- apply Nat.leb_le in Hfit. exists 0. cbn. unfold last_width. cbn.
           repeat split; try lia.
        -- apply Nat.leb_gt in Hfit. exists 1. cbn. unfold end_after. cbn.
           repeat split; try lia.
      * apply Nat.ltb_ge in Hw. exists 1. cbn. unfold end_after, last_width. cbn.
        repeat split; try lia.
    + rewrite pos_clusters_cons by discriminate.
      destruct (max_columns <? cols + cl_width c) eqn:Hfit.
      * apply Nat.ltb_lt in Hfit. exists 0.
        assert (Hover : max_columns
                        < cols + total_width
                                   (firstn (length (c :: c2 :: rest2) - 1)
                                      (c :: c2 :: rest2))).
        { cbn [length]. replace (S (S (length rest2)) - 1) with (S (length rest2)) by lia.
          rewrite total_width_firstn_S. lia. }
        cbn [firstn total_width fold_right end_after rev length Nat.min Nat.sub] in *.
        cbn. repeat split; try lia.
      * apply Nat.ltb_ge in Hfit.
        destruct (IH (cl_end c) (cols + cl_width c) cnt Hch Hfit)
          as (k & Hk & Hoff & Hsum & Hcnt & Hfits & Hnext & Hlast & Hiff).
        exists (S k). cbn [length] in *. split; [lia|].
        split; [rewrite firstn_cons, end_after_cons; exact Hoff|].
        split; [rewrite total_width_firstn_S; lia|].
        split; [exact Hcnt|].
        split.
        { replace (Nat.min (S k) (S (S (length rest2)) - 1))
            with (S (Nat.min k (S (length rest2) - 1))) by lia.
          rewrite total_width_firstn_S. lia. }
        split.
        { intros Hlt. rewrite total_width_firstn_S.
          assert (k < S (length rest2)) by lia. specialize (Hnext H). lia. }
        split.
        { intros Hall Hlw. rewrite last_width_cons in Hlw by discriminate.
          assert (Hk' : k = S (length rest2)) by lia.
          specialize (Hlast Hk' Hlw).
          replace (S k - 1) with (S (k - 1)) by lia.
          rewrite total_width_firstn_S. lia. }
        rewrite last_width_cons by discriminate.
        replace (S (S (length rest2)) - 1) with (S (S (length rest2) - 1)) by lia.
        rewrite total_width_firstn_S.
        rewrite Nat.add_assoc. rewrite <- Hiff. lia.
Qed.

Lemma pos_clusters_after_spec (max_columns text_len : nat) :
  forall cls a cols cnt,
    chain a cls text_len ->
    let r := pos_clusters max_columns true cols cnt cls text_len in
    exists k,
      k <= length cls
      /\ byte_offset r = end_after a (firstn k cls)
      /\ columns_used r = cols + total_width (firstn k cls)
      /\ (k < length cls \/ 0 < last_width cls -> grapheme_count r = cnt + k)
      /\ (forall j, j < k -> S j < length cls \/ 0 < last_width cls ->
                    cols + total_width (firstn j cls) < max_columns)
      /\ (k < length cls -> max_columns <= cols + total_width (firstn k cls))
      /\ grapheme_count r
         = cnt + (if (k =? length cls) && (last_width cls =? 0) then k - 1 else k)
      /\ (k = length cls <->
          (forall j, S j < length cls ->
                     cols + total_width (firstn j cls) < max_columns)
          /\ (0 < last_width cls ->
              cols + total_width (firstn (length cls - 1) cls) < max_columns)).
Proof.
  induction cls as [|c rest IH]; intros a cols cnt Hch r; subst r.
  - cbn in Hch. subst a. exists 0. cbn. unfold last_width. cbn.
    repeat split; try lia.
  - destruct Hch as [Hstart Hch].
    destruct rest as [|c2 rest2].
    + cbn in Hch. cbn [pos_clusters].
      destruct (0 <? cl_width c) eqn:Hw.
      * apply Nat.ltb_lt in Hw.
        destruct (max_columns <=? cols) eqn:Hfit.
        -- apply Nat.leb_le in Hfit. exists 0. cbn. unfold last_width. cbn.
           repeat split; try lia.
           all: try (intros [_ H]; specialize (H Hw); lia).
        -- apply Nat.leb_gt in Hfit. exists 1. cbn. unfold end_after, last_width. cbn.
           replace (cl_width c =? 0) with false by (symmetry; apply Nat.eqb_neq; lia).
           repeat split; try lia.
           all: try (intros j Hj _; assert (j = 0) by lia; subst j; cbn; lia).
      * apply Nat.ltb_ge in Hw. exists 1. cbn. unfold end_after, last_width. cbn.
        replace (cl_width c =? 0) with true by (symmetry; apply Nat.eqb_eq; lia).
        repeat split; try lia.
    + rewrite pos_clusters_cons by discriminate.
      destruct (max_columns <=? cols) eqn:Hfit.
      * apply Nat.leb_le in Hfit. exists 0. cbn. repeat split; try lia.
        all: try (intros [H _]; specialize (H 0 ltac:(lia)); cbn in H; lia).
      * apply Nat.leb_gt in Hfit.
        destruct (IH (cl_end c) (cols + cl_width c) (cnt + 1) Hch)
          as (k & Hk & Hoff & Hsum & Hcnt & Hin & Hnext & Hexact & Hiff).
        exists (S k). cbn [length] in *. split; [lia|].
        split; [rewrite firstn_cons, end_after_cons; exact Hoff|].
        split; [rewrite total_width_firstn_S; lia|].
        split.
        { intros Hcase. rewrite last_width_cons in Hcase by discriminate.
          rewrite Hcnt; [lia|]. destruct Hcase; [left; lia | right; assumption]. }
        split.
        { intros j Hj Hcase. destruct j as [|j]; [cbn; lia|].
          rewrite total_width_firstn_S.
          rewrite last_width_cons in Hcase by discriminate.
          assert (cols + cl_width c + total_width (firstn j (c2 :: rest2)) < max_columns);
            [|lia].
          apply Hin; [lia|]. destruct Hcase; [left; lia | right; assumption]. }
        split.
        { intros Hlt. rewrite total_width_firstn_S.
          assert (k < S (length rest2)) by lia. specialize (Hnext H). lia. }
        rewrite last_width_cons by discriminate.
        split.
        { rewrite Hexact. cbn [Nat.eqb].
          destruct ((k =? S (length rest2)) && (last_width (c2 :: rest2) =? 0)) eqn:Ec;
            [|lia].
          apply andb_true_iff in Ec. destruct Ec as [Ek _]. apply Nat.eqb_eq in Ek. lia. }
        replace (S (S (length rest2)) - 1) with (S (S (length rest2) - 1)) by lia.
        rewrite total_width_firstn_S.
        split.
        { intros Hall. assert (Hk' : k = S (length rest2)) by lia.
          apply Hiff in Hk'. destruct Hk' as [Hj Hl]. split.
          { intros j Hj'. destruct j as [|j]; [cbn; lia|].
            rewrite total_width_firstn_S. specialize (Hj j ltac:(lia)). lia. }
          intros Hlw. specialize (Hl Hlw). lia. }
        intros [Hj Hl]. f_equal. apply Hiff. split.
        { intros j Hj'. specialize (Hj (S j) ltac:(lia)).
          rewrite total_width_firstn_S in Hj. lia. }
        intros Hlw. specialize (Hl Hlw). lia.
Qed.

(** Under the unicode and no_zwj policies [find_pos_by_width] with
    [include_start_before = false] returns a cluster boundary: the end of
    the first [k] clusters, with their column sum.  Every cluster but the
    last one of the text is taken only if it ends within [max_columns], and
    the scan stops before the first one that does not.  The last cluster
    of the text is tested by its start column: the whole text is taken
    exactly when the clusters before the last one end before column
    [max_columns], whether or not the last cluster fits, or end at column
    [max_columns] at the latest and the last cluster has width zero.
    [grapheme_count] stays 0 in this mode. *)
Theorem findPosByWidth_selection_start {U : Uucode}
    (text : list byte) (max_columns tab_width : nat) (m : WidthMethod) :
  text <> [] -> 0 < max_columns -> m <> wcwidth ->
  let r := findPosByWidth text max_columns tab_width false false m in
  let cls := clusters m tab_width text in
  exists k,
    k <= length cls
    /\ byte_offset r = prefix_end (firstn k cls)
    /\ columns_used r = total_width (firstn k cls)
    /\ grapheme_count r = 0
    /\ total_width (firstn (Nat.min k (length cls - 1)) cls) <= max_columns
    /\ (k < length cls ->
        columns_used r <= max_columns < total_width (firstn (S k) cls))
    /\ (k = length cls <->
        total_width (firstn (length cls - 1) cls) < max_columns
        \/ (last_width cls = 0
            /\ total_width (firstn (length cls - 1) cls) <= max_columns)).
Proof.
  intros Hne Hmax Hm r cls. subst r cls.
  assert (E : findPosByWidth text max_columns tab_width false false m
              = pos_clusters max_columns false 0 0 (clusters m tab_width text)
                  (length text)).
  { destruct m; [congruence | |]; cbn [findPosByWidth];
      apply findPosByWidthUnicode_clusters; assumption. }
  rewrite E.
  destruct (@pos_clusters_before_spec max_columns (length text)
              (clusters m tab_width text) 0 0 0
              (clusters_at_chain m tab_width text (Nat.le_0_l _))
              (Nat.le_0_l _))
    as (k & Hk & Hoff & Hsum & Hcnt & Hfits & Hnext & _ & Hiff).
  exists k. cbn [Nat.add] in *.
  split; [exact Hk|]. split; [exact Hoff|]. split; [exact Hsum|].
  split; [exact Hcnt|]. split; [exact Hfits|].
  split; [|exact Hiff].
  intros Hlt. split; [|exact (Hnext Hlt)].
  rewrite Hsum. replace (Nat.min k (length (clusters m tab_width text) - 1)) with k in Hfits
    by lia.
  exact Hfits.
Qed.

(** "a" and the wide U+4E16 with two columns: the last cluster starts at
    column 1, before the limit, and is taken. *)
Lemma findPosByWidth_selection_start_witness :
  a_cjk <> [] /\ 0 < 2 /\ unicode <> wcwidth
  /\ exists k,
       byte_offset (findPosByWidth (U := uucode_model) a_cjk 2 8 false false unicode)
       = prefix_end (firstn k (clusters (U := uucode_model) unicode 8 a_cjk))
       /\ k = length (clusters (U := uucode_model) unicode 8 a_cjk).
Proof.
  assert (Hne : a_cjk <> []) by discriminate.
  assert (Hm : unicode <> wcwidth) by discriminate.
  assert (Hmax : 0 < 2) by lia.
  split; [exact Hne|]. split; [exact Hmax|]. split; [exact Hm|].
  destruct (@findPosByWidth_selection_start uucode_model a_cjk 2 8 unicode Hne Hmax Hm)
    as (k & _ & Hoff & _ & _ & _ & _ & Hiff).
  exists k. split; [exact Hoff|].
  apply Hiff. left. vm_compute. lia.
Defined.

(** With [include_start_before = true] the same function takes every
    cluster that starts before column [max_columns] and stops at the first
    one that does not, with one exception: the last cluster of the text,
    when its width is zero, is not tested; it is taken as soon as the scan
    reaches it, and it is not counted.  So the whole text is taken exactly
    when every cluster but the last starts before [max_columns] and the
    last one does too or has width zero; [grapheme_count] is the number of
    clusters taken, less one when that zero-width last cluster is among
    them. *)
Theorem findPosByWidth_selection_end {U : Uucode}
    (text : list byte) (max_columns tab_width : nat) (m : WidthMethod) :
  text <> [] -> 0 < max_columns -> m <> wcwidth ->
  let r := findPosByWidth text max_columns tab_width false true m in
  let cls := clusters m tab_width text in
  exists k,
    k <= length cls
    /\ byte_offset r = prefix_end (firstn k cls)
    /\ columns_used r = total_width (firstn k cls)
    /\ grapheme_count r
       = (if (k =? length cls) && (last_width cls =? 0) then k - 1 else k)
    /\ (forall j, j < k -> S j < length cls \/ 0 < last_width cls ->
                  total_width (firstn j cls) < max_columns)
    /\ (k < length cls -> max_columns <= columns_used r)
    /\ (k = length cls <->
        (forall j, S j < length cls -> total_width (firstn j cls) < max_columns)
        /\ (0 < last_width cls ->
            total_width (firstn (length cls - 1) cls) < max_columns)).
Proof.
  intros Hne Hmax Hm r cls. subst r cls.
  assert (E : findPosByWidth text max_columns tab_width false true m
              = pos_clusters max_columns true 0 0 (clusters m tab_width text)
                  (length text)).
  { destruct m; [congruence | |]; cbn [findPosByWidth];
      apply findPosByWidthUnicode_clusters; assumption. }
  rewrite E.
  destruct (@pos_clusters_after_spec max_columns (length text)
              (clusters m tab_width text) 0 0 0
              (clusters_at_chain m tab_width text (Nat.le_0_l _)))
    as (k & Hk & Hoff & Hsum & _ & Hin & Hnext & Hexact & Hiff).
  exists k. cbn [Nat.add] in *.
  split; [exact Hk|]. split; [exact Hoff|]. split; [exact Hsum|].
  split; [exact Hexact|]. split; [exact Hin|].
  split; [|exact Hiff].
  intros Hlt. rewrite Hsum. exact (Hnext Hlt).
Qed.

Lemma findPosByWidth_selection_end_witness :
  a_cjk <> [] /\ 0 < 2 /\ unicode <> wcwidth
  /\ exists k,
       byte_offset (findPosByWidth (U := uucode_model) a_cjk 2 8 false true unicode)
       = prefix_end (firstn k (clusters (U := uucode_model) unicode 8 a_cjk))
       /\ grapheme_count (findPosByWidth (U := uucode_model) a_cjk 2 8 false true unicode)
          = k.
Proof.
  assert (Hne : a_cjk <> []) by discriminate.
  assert (Hm : unicode <> wcwidth) by discriminate.
  assert (Hmax : 0 < 2) by lia.
  split; [exact Hne|]. split; [exact Hmax|]. split; [exact Hm|].
  destruct (@findPosByWidth_selection_end uucode_model a_cjk 2 8 unicode Hne Hmax Hm)
    as (k & _ & Hoff & _ & Hcnt & _).
  exists k. split; [exact Hoff|].
  rewrite Hcnt.
  replace (last_width (clusters (U := uucode_model) unicode 8 a_cjk) =? 0) with false
    by (vm_compute; reflexivity).
  rewrite andb_false_r. reflexivity.
Defined.

(** "a" and the control character U+0001 with one column: the last
    cluster has width zero and starts at column 1; it is taken and not
    counted. *)
Example findPosByWidth_zero_width_last :
  findPosByWidth (U := uucode_model) [x61; x01] 1 4 false true unicode = mkResult 2 1 1.
Proof. vm_compute. reflexivity. Qed.

(** *** The wcwidth scan of findPosByWidth *)

Lemma pos_wcwidth_loop_spec {U : Uucode} (text : list byte)
    (max_columns tab_width : nat) (include_start_before : bool) :
  forall pos,
    pos <= length text ->
    forall fuel cols cnt,
      length text - pos <= fuel ->
      let taken :=
        pos_codepoints (codepoint_width tab_width) include_start_before max_columns cols
          (codepoints_at text pos) in
      pos_wcwidth_loop fuel text max_columns tab_width include_start_before pos cols cnt
      = mkResult (codepoints_end_from pos taken) (cnt + length taken)
          (cols + sum_widths (codepoint_width tab_width) taken).
Proof.
  intros pos. pattern pos. apply (position_induction text); clear pos.
  - intros pos Hend Hpos fuel cols cnt Hf taken. subst taken.
    rewrite codepoints_at_end by assumption.
    unfold codepoints_end_from, sum_widths. cbn.
    assert (pos = length text) by lia. subst pos.
    destruct fuel; cbn [pos_wcwidth_loop];
      [|rewrite Nat.ltb_irrefl]; f_equal; lia.
  - intros pos Hlt IH Hpos fuel cols cnt Hf.
    rewrite codepoints_at_step by assumption.
    destruct fuel as [|fuel]; [lia|]. cbn [pos_wcwidth_loop].
    apply Nat.ltb_lt in Hlt. rewrite Hlt. apply Nat.ltb_lt in Hlt.
    pose proof (cp_len_at_le text Hlt) as Hle.
    pose proof (cp_len_at_pos text pos) as Hge.
    replace (length text <? pos + cp_len_at text pos) with false
      by (symmetry; apply Nat.ltb_ge; lia).
    rewrite curr_cp_checked_eq by assumption.
    cbn [pos_codepoints].
    change (codepoint_width tab_width
              (mkCodepoint pos (byte_at text pos) (curr_cp_at text pos)
                 (cp_len_at text pos)))
      with (charWidth (byte_at text pos) (curr_cp_at text pos) tab_width).
    cbv zeta.
    destruct (if include_start_before then max_columns <=? cols
              else max_columns <?
                   cols + charWidth (byte_at text pos) (curr_cp_at text pos) tab_width)
      eqn:Hstop.
    + unfold codepoints_end_from, sum_widths. cbn. rewrite !Nat.add_0_r. reflexivity.
    + rewrite IH by lia. rewrite codepoints_end_from_cons.
      cbn [cp_pos cp_size length sum_widths fold_right].
      change (codepoint_width tab_width
                (mkCodepoint pos (byte_at text pos) (curr_cp_at text pos)
                   (cp_len_at text pos)))
        with (charWidth (byte_at text pos) (curr_cp_at text pos) tab_width).
      clear IH. unfold sum_widths. f_equal; lia.
Qed.

Lemma pos_codepoints_fit (w : Codepoint -> nat) (max_columns : nat) :
  forall cps cols,
    cols <= max_columns ->
    cols + sum_widths w (pos_codepoints w false max_columns cols cps) <= max_columns.
Proof.
  induction cps as [|c rest IH]; intros cols Hc; cbn [pos_codepoints].
  - cbn. lia.
  - destruct (max_columns <? cols + w c) eqn:E; [cbn; lia|].
    apply Nat.ltb_ge in E. specialize (IH (cols + w c) E).
    unfold sum_widths in *. cbn [fold_right]. lia.
Qed.

Lemma pos_codepoints_start (w : Codepoint -> nat) (max_columns : nat) :
  forall cps cols j,
    j < length (pos_codepoints w true max_columns cols cps) ->
    cols + sum_widths w (firstn j (pos_codepoints w true max_columns cols cps))
    < max_columns.
Proof.
  induction cps as [|c rest IH]; intros cols j; cbn [pos_codepoints].
  - cbn. lia.
  - destruct (max_columns <=? cols) eqn:E; [cbn; lia|].
    apply Nat.leb_gt in E. cbn [length]. intros Hj.
    destruct j as [|j]; [cbn; lia|].
    rewrite firstn_cons. specialize (IH (cols + w c) j ltac:(lia)).
    unfold sum_widths in *. cbn [fold_right]. lia.
Qed.

(** Under the wcwidth policy [find_pos_by_width] goes codepoint by
    codepoint and tests every codepoint, the last one included, the same
    way.  With [include_start_before = false] it takes the codepoints that
    end within [max_columns], so [columns_used] never exceeds
    [max_columns]; with [include_start_before = true] it takes those that
    start before [max_columns].  [grapheme_count] counts codepoints. *)
Theorem findPosByWidth_wcwidth_spec {U : Uucode}
    (text : list byte) (max_columns tab_width : nat) (include_start_before : bool) :
  text <> [] -> 0 < max_columns ->
  let w := codepoint_width tab_width in
  let taken := pos_codepoints w include_start_before max_columns 0 (codepoints text) in
  let r := findPosByWidth text max_columns tab_width false include_start_before wcwidth in
  r = mkResult (codepoints_end taken) (length taken) (sum_widths w taken)
  /\ (include_start_before = false -> columns_used r <= max_columns)
  /\ (include_start_before = true ->
      forall j, j < length taken -> sum_widths w (firstn j taken) < max_columns).
Proof.
  intros Hne Hmax w taken r.
  assert (E : r = mkResult (codepoints_end taken) (length taken) (sum_widths w taken)).
  { subst r taken w. cbn [findPosByWidth]. unfold findPosByWidthWCWidth.
    replace (length text =? 0) with false
      by (symmetry; apply Nat.eqb_neq; destruct text; [congruence | discriminate]).
    replace (max_columns =? 0) with false by (symmetry; apply Nat.eqb_neq; lia).
    cbn [orb].
    apply (@pos_wcwidth_loop_spec U text max_columns tab_width include_start_before 0
             (Nat.le_0_l _) (length text) 0 0).
    lia. }
  split; [exact E|]. split.
  - intros ->. rewrite E. cbn [columns_used]. subst taken.
    apply (@pos_codepoints_fit w max_columns (codepoints text) 0 (Nat.le_0_l _)).
  - intros -> j Hj. subst taken.
    apply (@pos_codepoints_start w max_columns (codepoints text) 0 j Hj).
Qed.

Lemma findPosByWidth_wcwidth_spec_witness :
  a_cjk <> [] /\ 0 < 2
  /\ findPosByWidth (U := uucode_model) a_cjk 2 8 false false wcwidth = mkResult 1 1 1.
Proof.
  assert (Hne : a_cjk <> []) by discriminate.
  assert (Hmax : 0 < 2) by lia.
  split; [exact Hne|]. split; [exact Hmax|].
  exact (proj1 (@findPosByWidth_wcwidth_spec uucode_model a_cjk 2 8 false Hne Hmax)).
Defined.

(** *** findPosByWidth on printable ASCII *)

Lemma unit_clusters_length (text : list byte) (a n : nat) :
  length (unit_clusters text a n) = n.
Proof. unfold unit_clusters. rewrite length_map, length_seq. reflexivity. Qed.

Lemma firstn_seq_min (k : nat) :
  forall a n, firstn k (seq a n) = seq a (Nat.min k n).
Proof.
  induction k as [|k IH]; intros a n; [reflexivity|].
  destruct n as [|n]; [reflexivity|].
  cbn [seq firstn Nat.min]. rewrite IH. reflexivity.
Qed.

Lemma unit_clusters_firstn (text : list byte) (a n k : nat) :
  firstn k (unit_clusters text a n) = unit_clusters text a (Nat.min k n).
Proof. unfold unit_clusters. rewrite firstn_map, firstn_seq_min. reflexivity. Qed.

Lemma unit_clusters_S (text : list byte) (a n : nat) :
  unit_clusters text a (S n) = unit_cluster text a :: unit_clusters text (S a) n.
Proof. reflexivity. Qed.

Lemma unit_clusters_end (text : list byte) :
  forall n a b, end_after b (unit_clusters text a (S n)) = a + S n.
Proof.
  induction n as [|n IH]; intros a b.
  - unfold end_after, unit_clusters. cbn. lia.
  - rewrite unit_clusters_S, end_after_cons, IH. lia.
Qed.

Lemma unit_clusters_prefix_end (text : list byte) (n : nat) :
  prefix_end (unit_clusters text 0 n) = n.
Proof.
  unfold prefix_end. destruct n as [|n]; [reflexivity|]. apply unit_clusters_end.
Qed.

Lemma unit_clusters_last_width (text : list byte) :
  forall n a, last_width (unit_clusters text a (S n)) = 1.
Proof.
  induction n as [|n IH]; intros a.
  - reflexivity.
  - rewrite unit_clusters_S, last_width_cons by (rewrite unit_clusters_S; discriminate).
    apply IH.
Qed.

Lemma findPosByWidth_zero {U : Uucode} (text : list byte)
    (max_columns tab_width : nat) (ascii include_start_before : bool) (m : WidthMethod) :
  text = [] \/ max_columns = 0 ->
  findPosByWidth text max_columns tab_width ascii include_start_before m = mkResult 0 0 0.
Proof.
  intros Hz.
  assert (E : (length text =? 0) || (max_columns =? 0) = true).
  { destruct Hz as [-> | ->]; [reflexivity|]. apply orb_true_r. }
  destruct m; cbn [findPosByWidth];
    unfold findPosByWidthUnicode, findPosByWidthWCWidth;
    rewrite E; reflexivity.
Qed.

Lemma findPosByWidth_flag {U : Uucode} (text : list byte)
    (max_columns tab_width : nat) (include_start_before : bool) (m : WidthMethod) :
  findPosByWidth text max_columns tab_width true include_start_before m
  = mkResult (Nat.min max_columns (length text)) (Nat.min max_columns (length text))
      (Nat.min max_columns (length text)).
Proof.
  assert (E : (if (length text =? 0) || (max_columns =? 0) then mkResult 0 0 0
               else ascii_fast_path text max_columns)
              = mkResult (Nat.min max_columns (length text))
                  (Nat.min max_columns (length text))
                  (Nat.min max_columns (length text))).
  { destruct (length text =? 0) eqn:E1.
    - apply Nat.eqb_eq in E1. rewrite E1, Nat.min_0_r. reflexivity.
    - apply Nat.eqb_neq in E1. cbn [orb]. destruct (max_columns =? 0) eqn:E2.
      + apply Nat.eqb_eq in E2. rewrite E2. reflexivity.
      + unfold ascii_fast_path. destruct (length text <=? max_columns) eqn:E3.
        * apply Nat.leb_le in E3. rewrite Nat.min_r by assumption. reflexivity.
        * apply Nat.leb_gt in E3. rewrite Nat.min_l by lia. reflexivity. }
  destruct m; cbn [findPosByWidth]; exact E.
Qed.

Section PosAsciiFacts.

Context {U : Uucode}.

Hypothesis ascii_breaks : ascii_always_breaks.

Variable text : list byte.
Variable tab_width : nat.
Variable max_columns : nat.

Hypothesis text_printable : Forall printable text.
Hypothesis text_nonempty : text <> [].
Hypothesis max_positive : 0 < max_columns.

Lemma pos_wcwidth_printable (include_start_before : bool) :
  forall fuel pos cols cnt,
    pos <= length text -> length text - pos <= fuel -> cols <= max_columns ->
    pos_wcwidth_loop fuel text max_columns tab_width include_start_before pos cols cnt
    = if cols + (length text - pos) <=? max_columns
      then mkResult (length text) (cnt + (length text - pos)) (cols + (length text - pos))
      else mkResult (pos + (max_columns - cols)) (cnt + (max_columns - cols)) max_columns.
Proof.
  induction fuel as [|fuel IH]; intros pos cols cnt Hpos Hf Hcols;
    cbn [pos_wcwidth_loop].
  - replace (length text - pos) with 0 by lia.
    replace (cols + 0 <=? max_columns) with true by (symmetry; apply Nat.leb_le; lia).
    f_equal; lia.
  - destruct (pos <? length text) eqn:Hlt.
    + apply Nat.ltb_lt in Hlt. pose proof (printable_at text_printable Hlt) as Hb.
      assert (Hlow : (byte_at text pos < 0x80)%Z) by lia.
      rewrite curr_cp_checked_eq by assumption.
      destruct (ascii_byte_cp text pos Hlow) as [-> ->].
      rewrite (printable_width tab_width Hb).
      replace (length text <? pos + 1) with false by (symmetry; apply Nat.ltb_ge; lia).
      cbv zeta.
      destruct (if include_start_before then max_columns <=? cols
                else max_columns <? cols + 1) eqn:Hstop.
      * assert (max_columns <= cols).
        { destruct include_start_before;
            [apply Nat.leb_le in Hstop | apply Nat.ltb_lt in Hstop]; lia. }
        replace (cols + (length text - pos) <=? max_columns) with false
          by (symmetry; apply Nat.leb_gt; lia).
        f_equal; lia.
      * assert (cols < max_columns).
        { destruct include_start_before;
            [apply Nat.leb_gt in Hstop | apply Nat.ltb_ge in Hstop]; lia. }
        rewrite IH by lia.
        destruct (cols + 1 + (length text - (pos + 1)) <=? max_columns) eqn:H2.
        -- apply Nat.leb_le in H2.
           replace (cols + (length text - pos) <=? max_columns) with true
             by (symmetry; apply Nat.leb_le; lia).
           f_equal; lia.
        -- apply Nat.leb_gt in H2.
           replace (cols + (length text - pos) <=? max_columns) with false
             by (symmetry; apply Nat.leb_gt; lia).
           f_equal; lia.
    + apply Nat.ltb_ge in Hlt. replace (length text - pos) with 0 by lia.
      replace (cols + 0 <=? max_columns) with true by (symmetry; apply Nat.leb_le; lia).
      f_equal; lia.
Qed.

Lemma text_length_positive : 0 < length text.
Proof. destruct text; [congruence | cbn; lia]. Qed.

Lemma pos_clusters_units_before :
  pos_clusters max_columns false 0 0 (unit_clusters text 0 (length text)) (length text)
  = mkResult (Nat.min max_columns (length text)) 0 (Nat.min max_columns (length text)).
Proof.
  pose proof text_length_positive as Hlen.
  assert (Hch : chain 0 (unit_clusters text 0 (length text)) (length text)).
  { rewrite <- (clusters_printable ascii_breaks tab_width text_printable unicode).
    apply clusters_at_chain. lia. }
  destruct (@pos_clusters_before_spec max_columns (length text) _ 0 0 0 Hch
              (Nat.le_0_l _))
    as (k & Hk & Hoff & Hsum & Hcnt & Hfits & Hnext & Hlast & _).
  rewrite unit_clusters_length in *.
  rewrite !unit_clusters_firstn in *.
  rewrite !total_width_units in *.
  fold (prefix_end (unit_clusters text 0 (Nat.min k (length text)))) in Hoff.
  rewrite unit_clusters_prefix_end in Hoff.
  destruct (length text) as [|n] eqn:En; [lia|].
  rewrite unit_clusters_last_width in Hlast.
  destruct (pos_clusters max_columns false 0 0 (unit_clusters text 0 (S n)) (S n))
    as [off cnt cols].
  cbn [byte_offset grapheme_count columns_used] in *. f_equal; lia.
Qed.

Lemma pos_clusters_units_after :
  pos_clusters max_columns true 0 0 (unit_clusters text 0 (length text)) (length text)
  = mkResult (Nat.min max_columns (length text)) (Nat.min max_columns (length text))
      (Nat.min max_columns (length text)).
Proof.
  pose proof text_length_positive as Hlen.
  assert (Hch : chain 0 (unit_clusters text 0 (length text)) (length text)).
  { rewrite <- (clusters_printable ascii_breaks tab_width text_printable unicode).
    apply clusters_at_chain. lia. }
  destruct (@pos_clusters_after_spec max_columns (length text) _ 0 0 0 Hch)
    as (k & Hk & Hoff & Hsum & Hcnt & Hin & Hnext & _).
  rewrite unit_clusters_length in *.
  rewrite !unit_clusters_firstn in *.
  rewrite !total_width_units in *.
  fold (prefix_end (unit_clusters text 0 (Nat.min k (length text)))) in Hoff.
  rewrite unit_clusters_prefix_end in Hoff.
  destruct (length text) as [|n] eqn:En; [lia|].
  rewrite unit_clusters_last_width in Hcnt, Hin.
  assert (Hprev : k = 0 \/ k - 1 < max_columns).
  { destruct k as [|k]; [left; reflexivity | right].
    specialize (Hin k ltac:(lia) ltac:(right; lia)).
    rewrite unit_clusters_firstn, total_width_units in Hin. lia. }
  specialize (Hcnt ltac:(right; lia)).
  destruct (pos_clusters max_columns true 0 0 (unit_clusters text 0 (S n)) (S n))
    as [off cnt cols].
  cbn [byte_offset grapheme_count columns_used] in *. f_equal; lia.
Qed.

End PosAsciiFacts.

Lemma findPosByWidth_printable {U : Uucode}
    (text : list byte) (max_columns tab_width : nat) (include_start_before : bool)
    (m : WidthMethod) :
  ascii_always_breaks ->
  Forall printable text ->
  findPosByWidth text max_columns tab_width false include_start_before m
  = mkResult (Nat.min max_columns (length text))
      (if match m with wcwidth => true | _ => include_start_before end
       then Nat.min max_columns (length text) else 0)
      (Nat.min max_columns (length text)).
Proof.
  intros Hbrk Hpr.
  destruct (list_eq_dec Byte.byte_eq_dec text []) as [->|Hne].
  { rewrite Nat.min_0_r, findPosByWidth_zero by auto. destruct m, include_start_before;
      reflexivity. }
  destruct (Nat.eq_dec max_columns 0) as [->|Hmax].
  { rewrite findPosByWidth_zero by auto. destruct m, include_start_before; reflexivity. }
  assert (Hlen : length text <> 0) by (destruct text; [congruence | discriminate]).
  assert (Hpos : 0 < max_columns) by lia.
  assert (Hwc : findPosByWidth text max_columns tab_width false include_start_before wcwidth
                = mkResult (Nat.min max_columns (length text))
                    (Nat.min max_columns (length text))
                    (Nat.min max_columns (length text))).
  { cbn [findPosByWidth]. unfold findPosByWidthWCWidth.
    replace (length text =? 0) with false by (symmetry; apply Nat.eqb_neq; lia).
    replace (max_columns =? 0) with false by (symmetry; apply Nat.eqb_neq; lia).
    cbn [orb]. rewrite (pos_wcwidth_printable tab_width Hpr Hpos include_start_before) by lia.
    cbn [Nat.add]. rewrite !Nat.sub_0_r.
    destruct (length text <=? max_columns) eqn:E.
    + apply Nat.leb_le in E. rewrite Nat.min_r by assumption. reflexivity.
    + apply Nat.leb_gt in E. rewrite Nat.min_l by lia. reflexivity. }
  assert (Hun : forall m', m' <> wcwidth ->
            findPosByWidth text max_columns tab_width false include_start_before m'
            = mkResult (Nat.min max_columns (length text))
                (if include_start_before then Nat.min max_columns (length text) else 0)
                (Nat.min max_columns (length text))).
  { intros m' Hm'.
    assert (E : findPosByWidth text max_columns tab_width false include_start_before m'
                = pos_clusters max_columns include_start_before 0 0
                    (clusters m' tab_width text) (length text)).
    { destruct m'; [congruence | |]; cbn [findPosByWidth];
        apply findPosByWidthUnicode_clusters; (assumption || lia). }
    rewrite E, (clusters_printable Hbrk tab_width Hpr).
    destruct include_start_before.
    - apply (pos_clusters_units_after Hbrk tab_width Hpr Hne Hpos).
    - apply (pos_clusters_units_before Hbrk tab_width Hpr Hne Hpos). }
  destruct m; [exact Hwc | apply Hun; discriminate | apply Hun; discriminate].
Qed.

(** For a text of printable ASCII bytes the general path of
    [find_pos_by_width] (flag [is_ascii] false) returns the byte offset and
    the column count of the ASCII-only fast path, [min(max_columns,
    length)], in both modes and under every policy.  The cluster count is
    the same too, except under the unicode and no_zwj policies with
    [include_start_before = false], where the general path leaves
    [grapheme_count] at 0. *)
Theorem findPosByWidth_ascii_fast_path {U : Uucode}
    (text : list byte) (max_columns tab_width : nat) (include_start_before : bool)
    (m : WidthMethod) :
  ascii_always_breaks ->
  Forall printable text ->
  let n := Nat.min max_columns (length text) in
  let counted :=
    match m with
    | wcwidth => true
    | _ => include_start_before
    end in
  findPosByWidth text max_columns tab_width true include_start_before m = mkResult n n n
  /\ findPosByWidth text max_columns tab_width false include_start_before m
     = mkResult n (if counted then n else 0) n.
Proof.
  intros Hbrk Hpr n counted. subst n counted.
  split; [apply findPosByWidth_flag | apply findPosByWidth_printable; assumption].
Qed.

Lemma findPosByWidth_ascii_fast_path_witness :
  ascii_always_breaks (U := uucode_model)
  /\ Forall printable hello_ascii
  /\ findPosByWidth (U := uucode_model) hello_ascii 5 4 false false unicode
     = mkResult 5 0 5.
Proof.
  assert (Hpr : Forall printable hello_ascii).
  { unfold hello_ascii, printable. repeat constructor; vm_compute; congruence. }
  split; [exact UucodeModelFacts.model_ascii_breaks|].
  split; [exact Hpr|].
  exact (proj2 (@findPosByWidth_ascii_fast_path uucode_model hello_ascii 5 4 false unicode
                  UucodeModelFacts.model_ascii_breaks Hpr)).
Defined.

(** ** calculateTextWidth and the wrap position together *)

Lemma chain_end (b : nat) :
  forall cls a, chain a cls b -> end_after a cls = b.
Proof.
  induction cls as [|c rest IH]; intros a H.
  - exact H.
  - destruct H as [_ H]. rewrite end_after_cons. apply IH. exact H.
Qed.

Lemma total_width_firstn_le (cls : list Cluster) :
  forall k, total_width (firstn k cls) <= total_width cls.
Proof.
  induction cls as [|c rest IH]; intros k.
  - rewrite firstn_nil. apply Nat.le_refl.
  - destruct k as [|k]; [cbn; lia|].
    rewrite total_width_firstn_S. specialize (IH k).
    unfold total_width in *. cbn [fold_right]. lia.
Qed.

(** Width consistency.  Under the unicode and no_zwj policies the width of
    a text is the sum of the widths of its grapheme clusters, the clusters
    being cut where [isGraphemeBreak] says and measured by
    [GraphemeWidthState]; the empty text has width 0. *)
Theorem calculateTextWidth_clusters {U : Uucode}
    (text : list byte) (tab_width : nat) (m : WidthMethod) :
  m <> wcwidth ->
  calculateTextWidth text tab_width false m = total_width (clusters m tab_width text)
  /\ calculateTextWidth [] tab_width false m = 0.
Proof.
  intros Hm. split.
  - destruct m; [congruence | |]; cbn [calculateTextWidth];
      apply calculateTextWidthUnicode_clusters.
  - destruct m; reflexivity.
Qed.

Lemma calculateTextWidth_clusters_witness :
  unicode <> wcwidth
  /\ calculateTextWidth (U := uucode_model) hello_world 4 false unicode = 14.
Proof.
  assert (Hm : unicode <> wcwidth) by discriminate.
  split; [exact Hm|].
  exact (proj1 (@calculateTextWidth_clusters uucode_model hello_world 4 unicode Hm)).
Defined.

(** The wrap position never uses more columns than the text is wide, and
    a text that fits is taken whole: when [calculate_text_width] is at most
    [max_columns], [find_wrap_pos_by_width] returns the length of the text
    and its width (unicode and no_zwj policies). *)
Theorem findWrapPosByWidth_text_fits {U : Uucode}
    (text : list byte) (max_columns tab_width : nat) (m : WidthMethod) :
  text <> [] -> 0 < max_columns -> m <> wcwidth ->
  let r := findWrapPosByWidth text max_columns tab_width false m in
  let w := calculateTextWidth text tab_width false m in
  columns_used r <= w
  /\ (w <= max_columns -> byte_offset r = length text /\ columns_used r = w).
Proof.
  intros Hne Hmax Hm r w. subst r w.
  assert (Ew : calculateTextWidth text tab_width false m
               = total_width (clusters m tab_width text)).
  { destruct m; [congruence | |]; cbn [calculateTextWidth];
      apply calculateTextWidthUnicode_clusters. }
  assert (E : findWrapPosByWidth text max_columns tab_width false m
              = wrap_clusters max_columns 0 0 (clusters m tab_width text) (length text)).
  { destruct m; [congruence | |]; cbn [findWrapPosByWidth];
      apply findWrapPosByWidthUnicode_clusters; assumption. }
  rewrite E, Ew.
  pose proof (clusters_at_chain m tab_width text (Nat.le_0_l _)) as Hch.
  fold (clusters m tab_width text) in Hch.
  destruct (@wrap_clusters_spec max_columns (length text)
              (clusters m tab_width text) 0 0 0 Hch (Nat.le_0_l _))
    as (k & Hk & Hoff & Hsum & Hle & Hgreat & Hcnt).
  cbn [Nat.add] in *.
  split.
  - rewrite Hsum. apply total_width_firstn_le.
  - intros Hfit.
    assert (Hall : length (clusters m tab_width text) <= k).
    { apply Hgreat; [apply Nat.le_refl|]. rewrite firstn_all. exact Hfit. }
    assert (Ek : k = length (clusters m tab_width text)) by lia.
    rewrite Hoff, Hsum, Ek, firstn_all. split; [|reflexivity].
    apply chain_end. exact Hch.
Qed.

Lemma findWrapPosByWidth_text_fits_witness :
  hello_world <> [] /\ 0 < 20 /\ unicode <> wcwidth
  /\ calculateTextWidth (U := uucode_model) hello_world 4 false unicode <= 20
  /\ byte_offset (findWrapPosByWidth (U := uucode_model) hello_world 20 4 false unicode)
     = length hello_world.
Proof.
  assert (Hne : hello_world <> []) by discriminate.
  assert (Hm : unicode <> wcwidth) by discriminate.
  assert (Hmax : 0 < 20) by lia.
  assert (Hfit : calculateTextWidth (U := uucode_model) hello_world 4 false unicode <= 20)
    by (vm_compute; lia).
  split; [exact Hne|]. split; [exact Hmax|]. split; [exact Hm|]. split; [exact Hfit|].
  exact (proj1 (proj2 (@findWrapPosByWidth_text_fits uucode_model hello_world 20 4 unicode
                         Hne Hmax Hm) Hfit)).
Defined.

(** ** Column widths of single characters *)

Lemma eawToWidth_range {U : Uucode} (cp : Z) (eaw : EastAsianWidth) :
  (-1 <= eawToWidth cp eaw <= 2)%Z.
Proof.
  unfold eawToWidth.
  destruct (cp =? 0)%Z; [lia|].
  destruct ((cp <? 32)%Z || ((127 <=? cp)%Z && (cp <? 160)%Z)); [lia|].
  destruct (general_category cp); try lia.
  destruct (in_ranges zero_width_ranges cp); [lia|].
  destruct eaw; try lia; destruct (in_ranges wide_ranges cp); lia.
Qed.

(** Whatever the Unicode tables say, a tab takes [tab_width] columns and
    every other character 0, 1 or 2; on an ASCII byte [charWidth] does not
    look at the codepoint and agrees with [asciiCharWidth]; a control
    character, DEL included, takes no column. *)
Theorem charWidth_bounds {U : Uucode} (byte codepoint : Z) (tab_width : nat) :
  (byte = 9%Z -> charWidth byte codepoint tab_width = tab_width)
  /\ (byte <> 9%Z -> charWidth byte codepoint tab_width <= 2)
  /\ ((byte < 0x80)%Z ->
      charWidth byte codepoint tab_width = asciiCharWidth byte tab_width)
  /\ ((byte < 32)%Z \/ byte = 127%Z -> byte <> 9%Z ->
      charWidth byte codepoint tab_width = 0)
  /\ eastAsianWidth codepoint <= 2.
Proof.
  pose proof (eawToWidth_range codepoint (east_asian_width codepoint)) as R.
  assert (W : (if (0 <? eawToWidth codepoint (east_asian_width codepoint))%Z
               then Z.to_nat (eawToWidth codepoint (east_asian_width codepoint))
               else 0) <= 2).
  { destruct (0 <? eawToWidth codepoint (east_asian_width codepoint))%Z; lia. }
  split; [|split; [|split; [|split]]].
  - intros ->. reflexivity.
  - intros Hne. unfold charWidth.
    replace (byte =? 9)%Z with false by (symmetry; apply Z.eqb_neq; assumption).
    destruct ((byte <? 128)%Z && (32 <=? byte)%Z && (byte <=? 126)%Z); [lia|].
    destruct (128 <=? byte)%Z; [exact W | lia].
  - intros Hlow. unfold charWidth, asciiCharWidth.
    destruct (byte =? 9)%Z; [reflexivity|].
    replace (byte <? 128)%Z with true by (symmetry; apply Z.ltb_lt; lia).
    replace (128 <=? byte)%Z with false by (symmetry; apply Z.leb_gt; lia).
    cbn [andb]. destruct ((32 <=? byte)%Z && (byte <=? 126)%Z); reflexivity.
  - intros Hctl Hne. unfold charWidth.
    replace (byte =? 9)%Z with false by (symmetry; apply Z.eqb_neq; assumption).
    replace (128 <=? byte)%Z with false by (symmetry; apply Z.leb_gt; lia).
    destruct ((byte <? 128)%Z && (32 <=? byte)%Z && (byte <=? 126)%Z) eqn:E;
      [|reflexivity].
    rewrite !andb_true_iff in E. destruct E as [[_ E1] E2].
    apply Z.leb_le in E1. apply Z.leb_le in E2. lia.
  - unfold eastAsianWidth. destruct (1114111 <? codepoint)%Z; [lia | exact W].
Qed.

Lemma charWidth_bounds_witness :
  9%Z = 9%Z /\ charWidth (U := uucode_model) 9 9 4 = 4
  /\ 0xE4%Z <> 9%Z /\ charWidth (U := uucode_model) 0xE4 0x4E16 4 <= 2.
Proof.
  assert (Hne : 0xE4%Z <> 9%Z) by discriminate.
  split; [reflexivity|].
  split; [exact (proj1 (@charWidth_bounds uucode_model 9 9 4) eq_refl)|].
  split; [exact Hne|].
  exact (proj1 (proj2 (@charWidth_bounds uucode_model 0xE4 0x4E16 4)) Hne).
Defined.

(** ** getPrevGraphemeStart *)

Lemma codepoints_at_ge (text : list byte) :
  forall pos c, In c (codepoints_at text pos) -> pos <= cp_pos c.
Proof.
  intros pos. pattern pos. apply (position_induction text); clear pos.
  - intros pos Hend c Hin. rewrite codepoints_at_end in Hin by assumption. destruct Hin.
  - intros pos Hlt IH c Hin. rewrite codepoints_at_step in Hin by assumption.
    destruct Hin as [<- | Hin]; [cbn; lia|].
    specialize (IH c Hin). lia.
Qed.

Lemma reached_start (text : list byte) : reached text 0.
Proof. exists []. split; [reflexivity | constructor]. Qed.

Lemma reached_step (text : list byte) (pos : nat) :
  reached text pos -> pos < length text ->
  reached text (pos + cp_len_at text pos).
Proof.
  intros (before & E & Hb) Hlt. rewrite codepoints_at_step in E by assumption.
  exists (before ++ [mkCodepoint pos (byte_at text pos) (curr_cp_at text pos)
                       (cp_len_at text pos)]).
  pose proof (cp_len_at_pos text pos) as Hlen.
  split.
  - rewrite <- app_assoc. exact E.
  - apply Forall_app. split.
    + eapply Forall_impl; [|exact Hb]. cbn. intros c Hc. lia.
    + constructor; [cbn; lia | constructor].
Qed.

Lemma reached_here (text : list byte) (pos : nat) :
  reached text pos -> pos < length text ->
  In (mkCodepoint pos (byte_at text pos) (curr_cp_at text pos) (cp_len_at text pos))
     (codepoints text).
Proof.
  intros (before & E & _) Hlt. rewrite codepoints_at_step in E by assumption.
  rewrite E. apply in_or_app. right. left. reflexivity.
Qed.

(** A codepoint that starts before [pos + cp_len] starts before [pos] or
    at [pos]. *)
Lemma reached_next (text : list byte) (pos : nat) (c : Codepoint) :
  reached text pos -> pos < length text ->
  In c (codepoints text) -> cp_pos c < pos + cp_len_at text pos ->
  cp_pos c < pos
  \/ c = mkCodepoint pos (byte_at text pos) (curr_cp_at text pos) (cp_len_at text pos).
Proof.
  intros (before & E & Hb) Hlt Hin Hc. rewrite E in Hin.
  apply in_app_or in Hin. destruct Hin as [Hin | Hin].
  - left. rewrite Forall_forall in Hb. apply Hb. exact Hin.
  - rewrite codepoints_at_step in Hin by assumption.
    destruct Hin as [<- | Hin]; [right; reflexivity|].
    apply codepoints_at_ge in Hin. lia.
Qed.

Section PrevGraphemeFacts.

Context {U : Uucode}.

Variable text : list byte.
Variable byte_offset : nat.
Variable tab_width : nat.

Hypothesis offset_in_text : byte_offset <= length text.

Lemma prev_wcwidth_loop_spec :
  forall fuel pos last_result,
    byte_offset - pos <= fuel ->
    reached text pos ->
    last_wide text tab_width (Nat.min pos byte_offset) last_result ->
    last_wide text tab_width byte_offset
      (prev_wcwidth_loop fuel text byte_offset tab_width pos last_result).
Proof.
  induction fuel as [|fuel IH]; intros pos last_result Hf Hr Hlast.
  - cbn [prev_wcwidth_loop]. rewrite Nat.min_r in Hlast by lia. exact Hlast.
  - cbn [prev_wcwidth_loop]. destruct (pos <? byte_offset) eqn:Hlt.
    + apply Nat.ltb_lt in Hlt.
      assert (Hin : pos < length text) by lia.
      rewrite Nat.min_l in Hlast by lia.
      pose proof (cp_len_at_pos text pos) as Hlen.
      rewrite curr_cp_checked_eq by assumption.
      pose proof (reached_here Hr Hin) as Hc.
      pose proof (fun c => @reached_next text pos c Hr Hin) as Hnext.
      set (c0 := mkCodepoint pos (byte_at text pos) (curr_cp_at text pos)
                   (cp_len_at text pos)) in *.
      change (charWidth (byte_at text pos) (curr_cp_at text pos) tab_width)
        with (codepoint_width tab_width c0).
      apply IH; [lia | apply reached_step; assumption |].
      destruct (0 <? codepoint_width tab_width c0) eqn:Hw.
      * apply Nat.ltb_lt in Hw. cbn [last_wide start_offset prev_width].
        split; [lia|]. split; [exact Hw|].
        split; [exists c0; auto|].
        intros c Hcin Hrange.
        destruct (Hnext c Hcin ltac:(lia)) as [Hlow | ->]; [lia | cbn in Hrange; lia].
      * apply Nat.ltb_ge in Hw.
        destruct last_result as [r|]; cbn [last_wide] in *.
        -- destruct Hlast as (Hs & Hpw & Hex & Hzero).
           split; [lia|]. split; [exact Hpw|]. split; [exact Hex|].
           intros c Hcin Hrange.
           destruct (Nat.lt_ge_cases (cp_pos c) pos) as [Hlow | Hhigh].
           ++ apply Hzero; [assumption | lia].
           ++ destruct (Hnext c Hcin ltac:(lia)) as [Hlow | ->]; lia.
        -- intros c Hcin Hrange.
           destruct (Nat.lt_ge_cases (cp_pos c) pos) as [Hlow | Hhigh].
           ++ apply Hlast; assumption.
           ++ destruct (Hnext c Hcin ltac:(lia)) as [Hlow | ->]; lia.
    + apply Nat.ltb_ge in Hlt. rewrite Nat.min_r in Hlast by lia. exact Hlast.
Qed.

Lemma prev_unicode_loop_spec :
  forall fuel pos prev_cp bs ps ss,
    reached text pos ->
    ps < byte_offset -> In ps (map (@cp_pos) (codepoints text)) ->
    let out := prev_unicode_loop fuel text byte_offset pos prev_cp bs ps ss in
    fst out < byte_offset /\ In (fst out) (map (@cp_pos) (codepoints text)).
Proof.
  induction fuel as [|fuel IH]; intros pos prev_cp bs ps ss Hr Hps Hin out; subst out.
  - cbn [prev_unicode_loop fst]. auto.
  - cbn [prev_unicode_loop]. destruct (pos <? byte_offset) eqn:Hlt; [|cbn [fst]; auto].
    apply Nat.ltb_lt in Hlt.
    assert (Hpos : pos < length text) by lia.
    pose proof (reached_step Hr Hpos) as Hr'.
    pose proof (in_map (@cp_pos) _ _ (reached_here Hr Hpos)) as Hhere.
    cbn [cp_pos] in Hhere.
    destruct (isValidCodepoint (curr_cp_checked text pos)); [|apply IH; assumption].
    destruct (match prev_cp with
              | Some p =>
                  if negb (isValidCodepoint p) then (true, bs)
                  else grapheme_isBreak p (curr_cp_checked text pos) bs
              | None => (true, bs)
              end) as [brk bs'].
    destruct brk; apply IH; assumption.
Qed.

End PrevGraphemeFacts.

(** [get_prev_grapheme_start] under the unicode and no_zwj policies.  There
    is no previous cluster at offset 0 and none for an offset past the end
    of the text.  For every other offset the function returns a result: a
    start offset that lies before [byte_offset], at which a codepoint of
    the text starts, and with it what [get_width_at] returns there. *)
Theorem getPrevGraphemeStart_unicode_spec {U : Uucode}
    (text : list byte) (byte_offset tab_width : nat) (m : WidthMethod) :
  m <> wcwidth ->
  (byte_offset = 0 \/ length text < byte_offset ->
   getPrevGraphemeStart text byte_offset tab_width m = None)
  /\ (0 < byte_offset <= length text ->
      exists start,
        getPrevGraphemeStart text byte_offset tab_width m
        = Some (mkPrevGrapheme start (getWidthAt text start tab_width m))
        /\ start < byte_offset
        /\ In start (map (@cp_pos) (codepoints text))).
Proof.
  intros Hm.
  assert (E : getPrevGraphemeStart text byte_offset tab_width m
              = getPrevGraphemeStartUnicode text byte_offset tab_width m)
    by (destruct m; [congruence | reflexivity | reflexivity]).
  rewrite E. unfold getPrevGraphemeStartUnicode. split.
  - intros [-> | Hpast]; [reflexivity|].
    destruct ((byte_offset =? 0) || (length text =? 0)); [reflexivity|].
    apply Nat.ltb_lt in Hpast. rewrite Hpast. reflexivity.
  - intros [Hpos Hle].
    replace (byte_offset =? 0) with false by (symmetry; apply Nat.eqb_neq; lia).
    replace (length text =? 0) with false by (symmetry; apply Nat.eqb_neq; lia).
    replace (length text <? byte_offset) with false by (symmetry; apply Nat.ltb_ge; lia).
    cbn [orb andb].
    assert (Hzero : In 0 (map (@cp_pos) (codepoints text))).
    { unfold codepoints. rewrite codepoints_at_step by lia. left. reflexivity. }
    pose proof (@prev_unicode_loop_spec U text byte_offset Hle (length text) 0 None
                  break_default 0 0 (reached_start text) Hpos Hzero) as Hloop.
    destruct (prev_unicode_loop (length text) text byte_offset 0 None break_default 0 0)
      as [ps ss].
    cbn [fst] in Hloop. destruct Hloop as [Hlt Hin].
    rewrite andb_false_r.
    apply Nat.ltb_lt in Hlt. rewrite Hlt. apply Nat.ltb_lt in Hlt.
    exists ps. auto.
Qed.

Lemma getPrevGraphemeStart_unicode_spec_witness :
  unicode <> wcwidth /\ 0 < 5 <= length ab_e_acute_c
  /\ exists start,
       getPrevGraphemeStart (U := uucode_model) ab_e_acute_c 5 4 unicode
       = Some (mkPrevGrapheme start
                 (getWidthAt (U := uucode_model) ab_e_acute_c start 4 unicode))
       /\ start < 5.
Proof.
  assert (Hm : unicode <> wcwidth) by discriminate.
  assert (Hr : 0 < 5 <= length ab_e_acute_c) by (cbn; lia).
  split; [exact Hm|]. split; [exact Hr|].
  destruct (proj2 (@getPrevGraphemeStart_unicode_spec uucode_model ab_e_acute_c 5 4
                     unicode Hm) Hr) as (start & E & Hlt & _).
  exists start. split; [exact E | exact Hlt].
Defined.

(** Under the wcwidth policy the function looks for the last codepoint
    that starts before [byte_offset] and takes at least one column: it
    returns where that codepoint starts and its width, and it returns
    nothing when every codepoint before [byte_offset] has width zero, when
    [byte_offset] is 0 and when it lies past the end of the text. *)
Theorem getPrevGraphemeStart_wcwidth_spec {U : Uucode}
    (text : list byte) (byte_offset tab_width : nat) :
  (byte_offset = 0 \/ length text < byte_offset ->
   getPrevGraphemeStart text byte_offset tab_width wcwidth = None)
  /\ (0 < byte_offset <= length text ->
      last_wide text tab_width byte_offset
        (getPrevGraphemeStart text byte_offset tab_width wcwidth)).
Proof.
  cbn [getPrevGraphemeStart]. unfold getPrevGraphemeStartWCWidth. split.
  - intros [-> | Hpast]; [reflexivity|].
    destruct ((byte_offset =? 0) || (length text =? 0)); [reflexivity|].
    apply Nat.ltb_lt in Hpast. rewrite Hpast. reflexivity.
  - intros [Hpos Hle].
    replace (byte_offset =? 0) with false by (symmetry; apply Nat.eqb_neq; lia).
    replace (length text =? 0) with false by (symmetry; apply Nat.eqb_neq; lia).
    replace (length text <? byte_offset) with false by (symmetry; apply Nat.ltb_ge; lia).
    cbn [orb].
    apply prev_wcwidth_loop_spec; [assumption | lia | apply reached_start |].
    cbn [Nat.min last_wide]. intros c _ Hc. lia.
Qed.

Lemma getPrevGraphemeStart_wcwidth_spec_witness :
  0 < 5 <= length ab_e_acute_c
  /\ last_wide (U := uucode_model) ab_e_acute_c 4 5 (Some (mkPrevGrapheme 2 1)).
Proof.
  assert (Hr : 0 < 5 <= length ab_e_acute_c) by (cbn; lia).
  split; [exact Hr|].
  exact (proj2 (@getPrevGraphemeStart_wcwidth_spec uucode_model ab_e_acute_c 5 4) Hr).
Defined.

(** ** The life cycle of a TextBufferView *)

Module TextBufferViewLife.

Import TextBufferView TextBufferViewInv.

Section Respond.

Variable respond : list NativeCall -> NativeCall -> Value.

Ltac unfold_methods :=
  unfold get_ptr, setSelection, updateSelection, resetSelection, getSelection,
    hasSelection, setLocalSelection, updateLocalSelection, resetLocalSelection,
    setWrapWidth, setWrapMode, setViewportSize, setViewport, get_lineInfo,
    get_logicalLineInfo, getSelectedText, getPlainText, text_through,
    setTabIndicator, setTabIndicatorColor, setTruncate, measureForDimensions,
    getVirtualLineCount, bind, guard, native, this_viewPtr, ret.

Ltac live_step :=
  repeat match goal with
         | |- context [match respond ?t ?c with _ => _ end] =>
             destruct (respond t c)
         | |- context [match ?n with 0%Z => _ | Z.pos _ => _ | Z.neg _ => _ end] =>
             destruct n
         end.

(** An operation on a live view leaves it alive, keeps its pointer and
    adds live calls on it. *)
Lemma perform_live (op : Operation) (w : World) :
  _destroyed w = false ->
  let w' := snd (perform respond op w) in
  viewPtr w' = viewPtr w /\ _destroyed w' = false
  /\ exists calls, trace w' = trace w ++ calls /\ live_calls (viewPtr w) calls.
Proof.
  intros Hlive. destruct w as [p d t]. cbn in Hlive. subst d.
  destruct op; cbn [perform]; unfold_methods; cbn [_destroyed viewPtr trace];
    live_step; cbn [snd viewPtr _destroyed trace];
    (split; [reflexivity|]; split; [reflexivity|]);
    try rewrite <- !app_assoc; cbn [app];
    first [ exists []; split; [rewrite app_nil_r; reflexivity | constructor]
          | eexists; split; [reflexivity|];
            repeat (constructor; [cbn; auto|]); constructor ].
Qed.

Lemma live_calls_app (p : Pointer) (l1 l2 : list NativeCall) :
  live_calls p l1 -> live_calls p l2 -> live_calls p (l1 ++ l2).
Proof. intros H1 H2. apply Forall_app. auto. Qed.

Lemma step_well_used (c : Call) (w : World) :
  well_used w ->
  let w' := snd (step respond c w) in
  well_used w' /\ viewPtr w' = viewPtr w
  /\ (_destroyed w' = true <-> _destroyed w = true \/ c = call_destroy).
Proof.
  intros Hw. destruct c as [op|]; cbn [step].
  - destruct (_destroyed w) eqn:Hd.
    + assert (E : perform respond op w = (Thrown destroyed_message, w)).
      { destruct op; cbn [perform]; unfold_methods; rewrite Hd; reflexivity. }
      rewrite E. cbn [snd]. split; [exact Hw|]. split; [reflexivity|].
      rewrite Hd. split; [auto | reflexivity].
    + destruct (perform_live op w Hd) as (Hp & Hd' & calls & Ht & Hc).
      cbv zeta. split.
      * unfold well_used in *. rewrite Hd', Hp, Ht. rewrite Hd in Hw.
        apply live_calls_app; assumption.
      * split; [exact Hp|]. rewrite Hd'.
        split; [discriminate | intros [H|H]; discriminate].
  - unfold destroy. destruct (_destroyed w) eqn:Hd; cbn [snd].
    + split; [exact Hw|]. split; [reflexivity|]. rewrite Hd. split; auto.
    + cbn [viewPtr _destroyed]. split.
      * unfold well_used in *. cbn [_destroyed viewPtr trace]. rewrite Hd in Hw.
        exists (trace w). auto.
      * split; [reflexivity|]. split; auto.
Qed.

Lemma run_well_used :
  forall cs w,
    well_used w ->
    let w' := snd (run respond cs w) in
    well_used w' /\ viewPtr w' = viewPtr w
    /\ (_destroyed w' = true <-> _destroyed w = true \/ In call_destroy cs).
Proof.
  induction cs as [|c rest IH]; intros w Hw.
  - cbn. split; [exact Hw|]. split; [reflexivity|].
    split; [auto | intros [H|[]]; exact H].
  - cbn [run].
    destruct (step_well_used c w Hw) as (Hw1 & Hp1 & Hd1).
    destruct (step respond c w) as [o w1]. cbn [snd] in *.
    destruct (IH w1 Hw1) as (Hw2 & Hp2 & Hd2).
    destruct (run respond rest w1) as [os w2]. cbn [snd] in *.
    split; [exact Hw2|]. split; [congruence|].
    rewrite Hd2, Hd1. cbn [In]. split.
    + intros [[H|H]|H]; auto.
    + intros [H|[H|H]]; auto.
Qed.

End Respond.

Lemma live_calls_releases (p : Pointer) (calls : list NativeCall) :
  live_calls p calls -> filter is_release calls = [].
Proof.
  induction 1 as [|c l [Hc _] _ IH]; [reflexivity|].
  cbn [filter]. rewrite Hc. exact IH.
Qed.

End TextBufferViewLife.

(** Whatever sequence of operations and [destroy] calls a program makes on
    a fresh view, and whatever the native side answers: the view keeps its
    pointer; every native call that names a view names this one; the view
    is destroyed exactly when [destroy] was called; its native view is
    released at most once, and the release is the last native call ever
    made, so the native view is never used after it has been freed. *)
Theorem view_never_used_after_release
    (respond : list TextBufferView.NativeCall -> TextBufferView.NativeCall -> TextBufferView.Value)
    (p : TextBufferView.Pointer) (cs : list TextBufferView.Call) :
  let w := snd (TextBufferView.run respond cs (TextBufferView.mkWorld p false [])) in
  TextBufferView.viewPtr w = p
  /\ (TextBufferView._destroyed w = true <-> In TextBufferView.call_destroy cs)
  /\ TextBufferViewInv.well_used w
  /\ TextBufferView.releases w = (if TextBufferView._destroyed w then 1 else 0)
  /\ (forall c q, In c (TextBufferView.trace w) ->
                  TextBufferViewInv.call_view c = Some q -> q = p).
Proof.
  assert (H0 : TextBufferViewInv.well_used (TextBufferView.mkWorld p false []))
    by (unfold TextBufferViewInv.well_used; cbn; constructor).
  destruct (TextBufferViewLife.run_well_used respond cs _ H0) as (Hw & Hp & Hd).
  cbv zeta.
  set (w := snd (TextBufferView.run respond cs (TextBufferView.mkWorld p false []))) in *.
  cbn [TextBufferView.viewPtr TextBufferView._destroyed] in Hp, Hd.
  split; [exact Hp|].
  split; [rewrite Hd; split; [intros [H|H]; [discriminate | exact H] | auto]|].
  split; [exact Hw|].
  unfold TextBufferViewInv.well_used in Hw. rewrite Hp in Hw.
  unfold TextBufferView.releases.
  change (fun c => match c with
                   | TextBufferView.destroyTextBufferView _ => true
                   | _ => false
                   end) with TextBufferViewInv.is_release.
  destruct (TextBufferView._destroyed w).
  - destruct Hw as (calls & Ht & Hc). rewrite Ht. split.
    + rewrite filter_app, (TextBufferViewLife.live_calls_releases Hc). reflexivity.
    + intros c q Hin Hq. apply in_app_or in Hin. destruct Hin as [Hin | [<- | []]].
      * unfold TextBufferViewInv.live_calls in Hc. rewrite Forall_forall in Hc.
        destruct (Hc c Hin) as [_ [H|H]]; congruence.
      * cbn in Hq. congruence.
  - split.
    + rewrite (TextBufferViewLife.live_calls_releases Hw). reflexivity.
    + intros c q Hin Hq.
      unfold TextBufferViewInv.live_calls in Hw. rewrite Forall_forall in Hw.
      destruct (Hw c Hin) as [_ [H|H]]; congruence.
Qed.

Example view_life_cycle :
  let respond := fun (_ : list TextBufferView.NativeCall) (_ : TextBufferView.NativeCall) =>
                   TextBufferView.VNull in
  TextBufferView.run respond
    [TextBufferView.call_op (TextBufferView.op_setWrapWidth None);
     TextBufferView.call_destroy;
     TextBufferView.call_op TextBufferView.op_getVirtualLineCount;
     TextBufferView.call_destroy]
    (TextBufferView.mkWorld 7 false [])
  = ([TextBufferView.Returned TextBufferView.VUndefined;
      TextBufferView.Returned TextBufferView.VUndefined;
      TextBufferView.Thrown TextBufferView.destroyed_message;
      TextBufferView.Returned TextBufferView.VUndefined],
     TextBufferView.mkWorld 7 true
       [TextBufferView.textBufferViewSetWrapWidth 7 0;
        TextBufferView.destroyTextBufferView 7]).
Proof. reflexivity. Qed.

(** ** isAsciiOnly as the gate of the fast paths *)

Lemma isAsciiOnly_printable (text : list byte) :
  isAsciiOnly text = true -> Forall printable text.
Proof.
  unfold isAsciiOnly, printable.
  rewrite (Forall_byte_at (fun z => (32 <= z <= 126)%Z)).
  destruct (length text =? 0); [discriminate|].
  destruct (AsciiOnly.vec_loop (length text) text 0) as [q|] eqn:Hvec; [|discriminate].
  destruct (AsciiOnlyFacts.vec_loop_some _ _ _ Hvec) as [_ Hpre].
  rewrite AsciiOnlyFacts.tail_loop_true by lia.
  intros H i Hi. destruct (Nat.lt_ge_cases i q); [apply Hpre | apply H]; lia.
Qed.

Lemma calculateTextWidth_printable {U : Uucode}
    (text : list byte) (tab_width : nat) (m : WidthMethod) :
  ascii_always_breaks -> Forall printable text ->
  calculateTextWidth text tab_width false m = length text.
Proof.
  intros Hbrk Hpr. destruct m; cbn [calculateTextWidth].
  - unfold calculateTextWidthWCWidth.
    destruct (length text =? 0) eqn:E; [apply Nat.eqb_eq in E; lia|].
    rewrite (textWidth_wcwidth_printable tab_width Hpr) by lia. lia.
  - rewrite calculateTextWidthUnicode_clusters.
    rewrite (clusters_printable Hbrk tab_width Hpr). apply total_width_units.
  - rewrite calculateTextWidthUnicode_clusters.
    rewrite (clusters_printable Hbrk tab_width Hpr). apply total_width_units.
Qed.

Lemma findWrapPosByWidth_printable {U : Uucode}
    (text : list byte) (max_columns tab_width : nat) (m : WidthMethod) :
  ascii_always_breaks -> Forall printable text ->
  findWrapPosByWidth text max_columns tab_width false m
  = mkResult (Nat.min max_columns (length text)) (Nat.min max_columns (length text))
      (Nat.min max_columns (length text)).
Proof.
  intros Hbrk Hpr.
  destruct (list_eq_dec Byte.byte_eq_dec text []) as [->|Hne].
  { rewrite Nat.min_0_r. apply findWrapPosByWidth_zero. auto. }
  destruct (Nat.eq_dec max_columns 0) as [->|Hmax].
  { apply findWrapPosByWidth_zero. auto. }
  assert (Hlen : length text <> 0) by (destruct text; [congruence | discriminate]).
  assert (Hunits :
            wrap_clusters max_columns 0 0 (unit_clusters text 0 (length text))
              (length text)
            = mkResult (Nat.min max_columns (length text))
                (Nat.min max_columns (length text))
                (Nat.min max_columns (length text))).
  { rewrite wrap_clusters_units by lia. cbn [Nat.add].
    destruct (length text <=? max_columns) eqn:E.
    - apply Nat.leb_le in E. rewrite Nat.min_r by assumption. reflexivity.
    - apply Nat.leb_gt in E. rewrite Nat.min_l by lia. rewrite Nat.sub_0_r.
      reflexivity. }
  destruct m; cbn [findWrapPosByWidth].
  - unfold findWrapPosByWidthWCWidth.
    replace (length text =? 0) with false by (symmetry; apply Nat.eqb_neq; lia).
    replace (max_columns =? 0) with false by (symmetry; apply Nat.eqb_neq; lia).
    cbn [orb]. rewrite (wrap_wcwidth_printable tab_width Hpr) by lia.
    cbn [Nat.add]. rewrite !Nat.sub_0_r.
    destruct (length text <=? max_columns) eqn:E.
    + apply Nat.leb_le in E. rewrite Nat.min_r by assumption. reflexivity.
    + apply Nat.leb_gt in E. rewrite Nat.min_l by lia. reflexivity.
  - rewrite findWrapPosByWidthUnicode_clusters by (assumption || lia).
    rewrite (clusters_printable Hbrk tab_width Hpr). exact Hunits.
  - rewrite findWrapPosByWidthUnicode_clusters by (assumption || lia).
    rewrite (clusters_printable Hbrk tab_width Hpr). exact Hunits.
Qed.

(** The answer of [is_ascii_only] is a sound fast-path flag: passing
    [is_ascii_only(text)] instead of [false] changes neither the width of
    the text nor its wrap position, and for [find_pos_by_width] neither
    the byte offset nor the columns used. *)
Theorem isAsciiOnly_sound_gate {U : Uucode}
    (text : list byte) (max_columns tab_width : nat) (include_start_before : bool)
    (m : WidthMethod) :
  ascii_always_breaks ->
  let flag := isAsciiOnly text in
  calculateTextWidth text tab_width flag m = calculateTextWidth text tab_width false m
  /\ findWrapPosByWidth text max_columns tab_width flag m
     = findWrapPosByWidth text max_columns tab_width false m
  /\ byte_offset (findPosByWidth text max_columns tab_width flag include_start_before m)
     = byte_offset (findPosByWidth text max_columns tab_width false include_start_before m)
  /\ columns_used (findPosByWidth text max_columns tab_width flag include_start_before m)
     = columns_used (findPosByWidth text max_columns tab_width false include_start_before m).
Proof.
  intros Hbrk flag. subst flag.
  destruct (isAsciiOnly text) eqn:E; [|auto].
  pose proof (isAsciiOnly_printable text E) as Hpr.
  rewrite ascii_flag_width, ascii_flag_wrap, findPosByWidth_flag.
  rewrite (calculateTextWidth_printable tab_width m Hbrk Hpr).
  rewrite (findWrapPosByWidth_printable max_columns tab_width m Hbrk Hpr).
  rewrite (findPosByWidth_printable max_columns tab_width include_start_before m Hbrk Hpr).
  auto.
Qed.

Lemma isAsciiOnly_sound_gate_witness :
  ascii_always_breaks (U := uucode_model)
  /\ isAsciiOnly hello_ascii = true
  /\ calculateTextWidth (U := uucode_model) hello_ascii 4 true unicode
     = calculateTextWidth (U := uucode_model) hello_ascii 4 false unicode.
Proof.
  split; [exact UucodeModelFacts.model_ascii_breaks|].
  split; [reflexivity|].
  exact (proj1 (@isAsciiOnly_sound_gate uucode_model hello_ascii 5 4 false unicode
                  UucodeModelFacts.model_ascii_breaks)).
Defined.

(** ** findGraphemeInfo *)

Section InfoScanFacts.

Context {U : Uucode}.

Variable tab_width : nat.
Variable width_method : WidthMethod.
Variable text : list byte.

Local Abbreviation itail := (info_tail_loop tab_width width_method).
Local Abbreviation irun := (info_run tab_width width_method text).
Local Abbreviation isee := (info_visit width_method).

Lemma info_tail_fuel :
  forall f1 f2 pos st,
    length text - pos <= f1 -> length text - pos <= f2 ->
    itail f1 text pos st = itail f2 text pos st.
Proof.
  induction f1 as [|f1 IH]; intros f2 pos st H1 H2.
  - destruct f2; [reflexivity|]. cbn [info_tail_loop].
    replace (pos <? length text) with false; [reflexivity|].
    symmetry. apply Nat.ltb_ge. lia.
  - destruct f2 as [|f2]; cbn [info_tail_loop].
    + replace (pos <? length text) with false; [reflexivity|].
      symmetry. apply Nat.ltb_ge. lia.
    + destruct (pos <? length text) eqn:Hlt; [|reflexivity].
      apply Nat.ltb_lt in Hlt. pose proof (cp_len_at_pos text pos).
      destruct (length text <? pos + cp_len_at text pos); [reflexivity|].
      apply IH; lia.
Qed.

Lemma info_run_end (pos : nat) (st : InfoState) :
  length text <= pos -> irun pos st = st.
Proof.
  intros H. unfold info_run. replace (length text - pos) with 0 by lia. reflexivity.
Qed.

Lemma info_run_step (pos : nat) (st : InfoState) :
  pos < length text ->
  irun pos st
  = irun (pos + cp_len_at text pos)
      (isee st pos (byte_at text pos) (curr_cp_at text pos)
         (negb (cp_len_at text pos =? 1))
         (charWidth (byte_at text pos) (curr_cp_at text pos) tab_width)).
Proof.
  intros H. unfold info_run at 1.
  destruct (length text - pos) as [|n] eqn:En; [lia|].
  cbn [info_tail_loop]. apply Nat.ltb_lt in H. rewrite H. apply Nat.ltb_lt in H.
  pose proof (cp_len_at_le text H) as Hle. pose proof (cp_len_at_pos text pos) as Hge.
  replace (length text <? pos + cp_len_at text pos) with false
    by (symmetry; apply Nat.ltb_ge; lia).
  apply info_tail_fuel; lia.
Qed.

Lemma info_ascii_chunk_run (pos : nat) :
  pos + vector_len <= length text ->
  (forall j, pos <= j < pos + vector_len -> (byte_at text j < 0x80)%Z) ->
  forall fuel i st,
    i <= vector_len -> vector_len - i <= fuel ->
    irun (pos + vector_len)
      (info_ascii_chunk_loop tab_width width_method fuel text pos i st)
    = irun (pos + i) st.
Proof.
  intros Hchunk Hascii.
  induction fuel as [|fuel IH]; intros i st Hi Hf.
  - cbn [info_ascii_chunk_loop]. replace i with vector_len by lia. reflexivity.
  - cbn [info_ascii_chunk_loop]. destruct (i <? vector_len) eqn:Hlt.
    + apply Nat.ltb_lt in Hlt.
      assert (Hb : (byte_at text (pos + i) < 0x80)%Z) by (apply Hascii; lia).
      destruct (ascii_byte_cp text (pos + i) Hb) as [Hcp Hlen].
      rewrite (info_run_step (pos := pos + i)) by lia.
      rewrite Hcp, Hlen, (ascii_width tab_width) by assumption.
      rewrite IH by lia. cbn [Nat.eqb negb]. f_equal. lia.
    + apply Nat.ltb_ge in Hlt. replace i with vector_len by lia. reflexivity.
Qed.

Lemma info_mixed_chunk_run (pos : nat) :
  forall fuel i st,
    let out := info_mixed_chunk_loop tab_width width_method fuel text pos i st in
    irun (pos + snd out) (fst out) = irun (pos + i) st.
Proof.
  induction fuel as [|fuel IH]; intros i st out; subst out;
    cbn [info_mixed_chunk_loop]; [reflexivity|].
  destruct ((i <? vector_len) && (pos + i <? length text)) eqn:Hc; [|reflexivity].
  apply andb_true_iff in Hc. destruct Hc as [_ Hlt]. apply Nat.ltb_lt in Hlt.
  destruct (length text <? pos + i + cp_len_at text (pos + i)); [reflexivity|].
  rewrite (info_run_step (pos := pos + i)) by assumption.
  rewrite IH. f_equal. lia.
Qed.

Lemma info_vec_loop_run :
  forall fuel pos st,
    let out := info_vec_loop tab_width width_method fuel text pos st in
    irun (snd out) (fst out) = irun pos st.
Proof.
  induction fuel as [|fuel IH]; intros pos st out; subst out;
    cbn [info_vec_loop]; [reflexivity|].
  destruct (pos + vector_len <=? length text) eqn:Hle; [|reflexivity].
  apply Nat.leb_le in Hle.
  destruct (chunk_any (fun b => (128 <=? b)%Z) text pos vector_len) eqn:Hany;
    cbn [negb].
  - pose proof (info_mixed_chunk_run pos vector_len 0 st) as H. cbv zeta in H.
    replace (pos + 0) with pos in H by lia.
    destruct (info_mixed_chunk_loop tab_width width_method vector_len text pos 0 st)
      as [st' i']. cbn [fst snd] in H.
    rewrite IH. exact H.
  - pose proof (proj1 (chunk_any_false _ _ _ _) Hany) as Hascii.
    assert (Hall : forall j, pos <= j < pos + vector_len -> (byte_at text j < 0x80)%Z).
    { intros j Hj. specialize (Hascii j Hj). cbn beta in Hascii. lia. }
    pose proof (@info_ascii_chunk_run pos Hle Hall vector_len 0 st (Nat.le_0_l _)
                  (Nat.le_sub_l _ _)) as H.
    replace (pos + 0) with pos in H by lia.
    rewrite IH. exact H.
Qed.

Lemma info_run_list :
  forall pos st,
    irun pos st = info_list tab_width width_method (codepoints_at text pos) st.
Proof.
  intros pos. pattern pos. apply (position_induction text); clear pos.
  - intros pos Hend st. rewrite info_run_end, codepoints_at_end by assumption.
    reflexivity.
  - intros pos Hlt IH st. rewrite info_run_step, codepoints_at_step by assumption.
    cbn [info_list cp_pos cp_value cp_byte cp_size]. apply IH.
Qed.

(** The three loops of [findGraphemeInfoUnicode] are one pass over the
    codepoints. *)
Lemma info_loops_codepoints (st : InfoState) :
  let out := info_vec_loop tab_width width_method (length text) text 0 st in
  itail (length text) text (snd out) (fst out)
  = info_list tab_width width_method (codepoints text) st.
Proof.
  cbv zeta. unfold codepoints. rewrite <- info_run_list.
  rewrite <- (info_vec_loop_run (length text) 0 st). cbv zeta.
  unfold info_run. apply info_tail_fuel; lia.
Qed.

End InfoScanFacts.

Section InfoClusterFacts.

Context {U : Uucode}.

Variable tab_width : nat.
Variable text : list byte.

(** The loop of [findGraphemeInfoWCWidth] is the scalar loop of the other
    function under the wcwidth policy: [cluster_started] says that a
    codepoint has been seen. *)
Lemma info_wcwidth_loop_tail :
  forall fuel pos st started,
    started = match gi_prev_cp st with Some _ => true | None => false end ->
    let out := info_wcwidth_loop fuel text tab_width pos st started in
    fst out = info_tail_loop tab_width wcwidth fuel text pos st
    /\ snd out = match gi_prev_cp (fst out) with Some _ => true | None => false end.
Proof.
  induction fuel as [|fuel IH]; intros pos st started Hs out; subst out.
  - cbn [info_wcwidth_loop info_tail_loop fst snd]. auto.
  - cbn [info_wcwidth_loop info_tail_loop].
    destruct (pos <? length text) eqn:Hlt; [|cbn [fst snd]; auto].
    apply Nat.ltb_lt in Hlt. rewrite curr_cp_checked_eq by assumption.
    destruct (length text <? pos + cp_len_at text pos); [cbn [fst snd]; auto|].
    unfold info_visit.
    destruct (isGraphemeBreak (gi_prev_cp st) (curr_cp_at text pos) (gi_break_state st)
                wcwidth) as [brk bs1] eqn:Hbrk.
    destruct brk.
    + cbn [is_wcwidth]. rewrite orb_true_r, andb_true_r.
      match goal with
      | |- context [info_wcwidth_loop fuel text tab_width ?p ?s true] =>
          destruct (IH p s true eq_refl) as [E1 E2]
      end.
      cbv zeta in E1, E2.
      assert (Hsame :
                mkInfoState
                  (if started then gi_col st + width (gi_cluster_width_state st)
                   else gi_col st)
                  (Some (curr_cp_at text pos)) bs1 pos
                  (if started then gi_col st + width (gi_cluster_width_state st)
                   else gi_col st)
                  (GraphemeWidthState_init (curr_cp_at text pos)
                     (charWidth (byte_at text pos) (curr_cp_at text pos) tab_width)
                     wcwidth)
                  (negb (cp_len_at text pos =? 1)) (byte_at text pos =? 9)%Z
                  (if started
                      && (gi_cluster_is_multibyte st || gi_cluster_is_tab st)
                   then append_info (gi_result st) (cluster_info st pos)
                   else gi_result st)
                = mkInfoState
                    match gi_prev_cp st with
                    | Some _ => gi_col st + width (gi_cluster_width_state st)
                    | None => gi_col st
                    end
                    (Some (curr_cp_at text pos)) bs1 pos
                    match gi_prev_cp st with
                    | Some _ => gi_col st + width (gi_cluster_width_state st)
                    | None => gi_col st
                    end
                    (GraphemeWidthState_init (curr_cp_at text pos)
                       (charWidth (byte_at text pos) (curr_cp_at text pos) tab_width)
                       wcwidth)
                    (negb (cp_len_at text pos =? 1)) (byte_at text pos =? 9)%Z
                    match gi_prev_cp st with
                    | Some _ =>
                        if gi_cluster_is_multibyte st || gi_cluster_is_tab st
                        then append_info (gi_result st) (cluster_info st pos)
                        else gi_result st
                    | None => gi_result st
                    end).
      { subst started. destruct (gi_prev_cp st); reflexivity. }
      rewrite <- Hsame. split; assumption.
    + apply IH. cbn [gi_prev_cp]. subst started.
      destruct (gi_prev_cp st); [reflexivity|].
      rewrite isGraphemeBreak_first in Hbrk. discriminate.
Qed.

End InfoClusterFacts.

Section InfoSegmentFacts.

Context {U : Uucode}.

Variable tab_width : nat.
Variable width_method : WidthMethod.
Variable text_len : nat.

Lemma infos_of_cons (col : nat) (c : Cluster) (rest : list Cluster) :
  infos_of width_method col (c :: rest)
  = (if listed width_method c
     then [mkGraphemeInfo (cl_start c) (cl_end c - cl_start c) (cl_width c) col]
     else [])
    ++ infos_of width_method (col + cl_width c) rest.
Proof. reflexivity. Qed.

(** The entry of a cluster goes through the two casts. *)
Lemma cluster_info_checked (st : InfoState) (end_pos : nat) :
  cluster_info st end_pos
  = let g := mkGraphemeInfo (gi_cluster_start st) (end_pos - gi_cluster_start st)
               (width (gi_cluster_width_state st)) (gi_cluster_start_col st) in
    if fits_u8 g then Some g else None.
Proof.
  unfold cluster_info, intCast_u8, fits_u8. cbn [byte_len info_width].
  destruct (end_pos - gi_cluster_start st <=? 255);
    destruct (width (gi_cluster_width_state st) <=? 255); reflexivity.
Qed.

Lemma append_checked_nil (r : option (list GraphemeInfo)) :
  append_checked r [] = r.
Proof. destruct r as [l|]; cbn; [rewrite app_nil_r|]; reflexivity. Qed.

Lemma append_checked_one (r : option (list GraphemeInfo)) (g : GraphemeInfo) :
  append_checked r [g] = append_info r (if fits_u8 g then Some g else None).
Proof.
  destruct r as [l|]; cbn; [|reflexivity]. rewrite andb_true_r.
  destruct (fits_u8 g); reflexivity.
Qed.

Lemma append_checked_app (r : option (list GraphemeInfo)) (l1 l2 : list GraphemeInfo) :
  append_checked r (l1 ++ l2) = append_checked (append_checked r l1) l2.
Proof.
  destruct r as [l|]; cbn [append_checked]; [|reflexivity].
  rewrite forallb_app. destruct (forallb fits_u8 l1); cbn [andb append_checked];
    [|reflexivity].
  rewrite app_assoc. reflexivity.
Qed.

(** The pass over the codepoints lists the clusters of the segmentation. *)
Lemma info_list_segment :
  forall cps st prev bs cur,
    info_agrees st prev bs cur ->
    info_finish width_method (info_list tab_width width_method cps st) text_len
    = append_checked (gi_result st)
        (infos_of width_method (gi_col st)
           (segment width_method tab_width cps prev bs cur text_len)).
Proof.
  induction cps as [|c rest IH]; intros st prev bs cur Hag.
  - destruct st as [col prev' bs' cstart ccol ws mb tab res].
    destruct Hag as (Hp & Hb & Hcur). cbn in Hp, Hb, Hcur. subst prev' bs'.
    cbn [info_list segment]. unfold info_finish. rewrite cluster_info_checked.
    cbv zeta.
    cbn [gi_prev_cp gi_cluster_is_multibyte gi_cluster_is_tab gi_cluster_width_state
           gi_result gi_cluster_start gi_cluster_start_col gi_col].
    destruct cur as [[[start ws0] cs]|].
    + destruct Hcur as (Hne & -> & -> & -> & Hcs & -> & ->).
      destruct prev as [p|]; [|congruence].
      cbn [close_cluster]. rewrite infos_of_cons.
      unfold listed, cluster_is_multibyte, cluster_is_tab.
      cbn [cl_codepoints cl_width cl_start cl_end infos_of].
      rewrite app_nil_r.
      destruct ((existsb (fun cp => negb (cp_size cp =? 1)) cs
                 || match cs with
                    | cp :: _ => (cp_byte cp =? 9)%Z
                    | [] => false
                    end)
                && ((0 <? width ws0) || is_wcwidth width_method));
        [rewrite append_checked_one | rewrite append_checked_nil]; reflexivity.
    + subst prev. cbn [close_cluster infos_of]. rewrite append_checked_nil.
      reflexivity.
  - destruct st as [col prev' bs' cstart ccol ws mb tab res].
    destruct Hag as (Hp & Hb & Hcur). cbn in Hp, Hb, Hcur. subst prev' bs'.
    cbn [info_list segment]. unfold info_visit. rewrite ?cluster_info_checked.
    cbv zeta.
    cbn [gi_prev_cp gi_break_state gi_cluster_is_multibyte gi_cluster_is_tab
           gi_cluster_width_state gi_result gi_cluster_start gi_cluster_start_col gi_col].
    destruct (isGraphemeBreak prev (cp_value c) bs width_method) as [brk bs1] eqn:E.
    destruct brk.
    + (* a boundary before [c] *)
      destruct cur as [[[start ws0] cs]|].
      * destruct Hcur as (Hne & -> & -> & -> & Hcs & -> & ->).
        destruct prev as [p|]; [|congruence].
        cbn [close_cluster app]. rewrite infos_of_cons.
        unfold listed, cluster_is_multibyte, cluster_is_tab.
        cbn [cl_codepoints cl_width cl_start cl_end gi_cluster_start
               gi_cluster_width_state gi_cluster_start_col].
        rewrite (IH _ (Some (cp_value c)) bs1
                   (Some (cp_pos c,
                          GraphemeWidthState_init (cp_value c)
                            (codepoint_width tab_width c) width_method, [c]))).
        -- cbn [gi_result gi_col]. rewrite append_checked_app.
           destruct ((existsb (fun cp => negb (cp_size cp =? 1)) cs
                      || match cs with
                         | cp :: _ => (cp_byte cp =? 9)%Z
                         | [] => false
                         end)
                     && ((0 <? width ws0) || is_wcwidth width_method));
             [rewrite append_checked_one | rewrite append_checked_nil]; reflexivity.
        -- unfold info_agrees, codepoint_width. cbn.
           repeat split; try congruence. rewrite orb_false_r. reflexivity.
      * subst prev. cbn [close_cluster app].
        rewrite (IH _ (Some (cp_value c)) bs1
                   (Some (cp_pos c,
                          GraphemeWidthState_init (cp_value c)
                            (codepoint_width tab_width c) width_method, [c]))).
        -- reflexivity.
        -- unfold info_agrees, codepoint_width. cbn.
           repeat split; try congruence. rewrite orb_false_r. reflexivity.
    + (* [c] continues the cluster *)
      destruct cur as [[[start ws0] cs]|].
      * destruct Hcur as (Hne & -> & -> & -> & Hcs & -> & ->).
        rewrite (IH _ (Some (cp_value c)) bs1
                   (Some (start,
                          GraphemeWidthState_addCodepoint ws0 (cp_value c)
                            (codepoint_width tab_width c), cs ++ [c]))).
        -- reflexivity.
        -- unfold info_agrees, codepoint_width. cbn.
           repeat split; try congruence.
           ++ destruct cs; [congruence | discriminate].
           ++ rewrite existsb_app. cbn [existsb]. rewrite orb_false_r. reflexivity.
           ++ destruct cs; [congruence | reflexivity].
      * subst prev. rewrite isGraphemeBreak_first in E. discriminate.
Qed.

End InfoSegmentFacts.

Lemma clusters_nil {U : Uucode} (m : WidthMethod) (tab_width : nat) :
  clusters m tab_width [] = [].
Proof. reflexivity. Qed.

Lemma findGraphemeInfo_clusters {U : Uucode}
    (text : list byte) (tab_width : nat) (m : WidthMethod) (result : list GraphemeInfo) :
  findGraphemeInfo text tab_width false m result
  = append_checked (Some result) (infos_of m 0 (clusters m tab_width text)).
Proof.
  destruct (length text =? 0) eqn:Hlen.
  { apply Nat.eqb_eq, length_zero_iff_nil in Hlen. subst text.
    rewrite clusters_nil. cbn [infos_of]. rewrite append_checked_nil.
    destruct m; reflexivity. }
  assert (Hinit : forall m' : WidthMethod,
             info_agrees
               (mkInfoState 0 None break_default 0 0 (GraphemeWidthState_init 0 0 m')
                  false false (Some result)) None break_default None)
    by (intros m'; unfold info_agrees; cbn; auto).
  assert (Hun : forall m',
             findGraphemeInfoUnicode text tab_width false m' result
             = append_checked (Some result)
                 (infos_of m' 0 (clusters m' tab_width text))).
  { intros m'. unfold findGraphemeInfoUnicode. cbn [andb]. rewrite Hlen.
    pose proof (info_loops_codepoints tab_width m' text
                  (mkInfoState 0 None break_default 0 0
                     (GraphemeWidthState_init 0 0 m') false false (Some result))) as H.
    cbv zeta in H.
    destruct (info_vec_loop tab_width m' (length text) text 0
                (mkInfoState 0 None break_default 0 0
                   (GraphemeWidthState_init 0 0 m') false false (Some result)))
      as [st pos].
    cbn [fst snd] in H. rewrite H.
    rewrite (@info_list_segment U tab_width m' (length text) (codepoints text) _
               None break_default None (Hinit m')).
    reflexivity. }
  destruct m; cbn [findGraphemeInfo]; [|apply Hun | apply Hun].
  unfold findGraphemeInfoWCWidth. rewrite Hlen.
  pose proof (@info_wcwidth_loop_tail U tab_width text (length text) 0
                (mkInfoState 0 None break_default 0 0
                   (GraphemeWidthState_init 0 0 wcwidth) false false (Some result))
                false eq_refl) as H.
  cbv zeta in H.
  destruct (info_wcwidth_loop (length text) text tab_width 0
              (mkInfoState 0 None break_default 0 0
                 (GraphemeWidthState_init 0 0 wcwidth) false false (Some result)) false)
    as [st started].
  cbn [fst snd] in H. destruct H as [Est Estarted].
  assert (Efin : (if started && (gi_cluster_is_multibyte st || gi_cluster_is_tab st)
                  then append_info (gi_result st) (cluster_info st (length text))
                  else gi_result st)
                 = info_finish wcwidth st (length text)).
  { unfold info_finish. cbn [is_wcwidth]. rewrite orb_true_r, andb_true_r.
    subst started. destruct (gi_prev_cp st); reflexivity. }
  rewrite Efin, Est.
  assert (Erun : forall st0,
             info_tail_loop tab_width wcwidth (length text) text 0 st0
             = info_list tab_width wcwidth (codepoints text) st0).
  { intros st0. unfold codepoints. rewrite <- info_run_list. unfold info_run.
    apply info_tail_fuel; lia. }
  rewrite Erun.
  rewrite (@info_list_segment U tab_width wcwidth (length text) (codepoints text) _
             None break_default None (Hinit wcwidth)).
  reflexivity.
Qed.

(** [find_grapheme_info] on the general path (flag [is_ascii] false).
    The clusters it lists are those that have a multi-byte codepoint or
    start with a tab and, except under the wcwidth policy, take at least
    one column.  When each of them is at most 255 bytes long and at most
    255 columns wide, the function appends to the list it is given, in the
    order of the text, one entry for each: where the cluster starts, its
    length in bytes, its width, and the column at which it starts, which
    is the sum of the widths of the clusters before it.  When one of them
    is longer or wider, a cast to [u8] fails and there is no result.  With
    the flag set, and for the empty text, the list comes back as it
    was. *)
Theorem findGraphemeInfo_spec {U : Uucode}
    (text : list byte) (tab_width : nat) (m : WidthMethod) (result : list GraphemeInfo) :
  let entries := infos_of m 0 (clusters m tab_width text) in
  findGraphemeInfo text tab_width false m result
  = (if forallb fits_u8 entries then Some (result ++ entries) else None)
  /\ findGraphemeInfo text tab_width true m result = Some result
  /\ findGraphemeInfo [] tab_width false m result = Some result.
Proof.
  split; [apply findGraphemeInfo_clusters|].
  split; destruct m; reflexivity.
Qed.

Example findGraphemeInfo_tab_cjk_mark :
  findGraphemeInfo (U := uucode_model) a_tab_cjk_e_acute 4 false unicode []
  = Some [mkGraphemeInfo 1 1 4 1; mkGraphemeInfo 2 3 2 5; mkGraphemeInfo 5 3 1 7].
Proof. vm_compute. reflexivity. Qed.

(** A cluster of 257 bytes does not fit [byte_len]. *)
Example findGraphemeInfo_long_cluster :
  findGraphemeInfo (U := uucode_model) e_many_acutes 4 false unicode [] = None.
Proof. vm_compute. reflexivity. Qed.

(** For a text of printable ASCII bytes the general path lists nothing,
    as the fast path does: the flag changes nothing. *)
Theorem findGraphemeInfo_ascii_fast_path {U : Uucode}
    (text : list byte) (tab_width : nat) (m : WidthMethod) (result : list GraphemeInfo) :
  ascii_always_breaks ->
  Forall printable text ->
  findGraphemeInfo text tab_width false m result = Some result
  /\ findGraphemeInfo text tab_width true m result = Some result.
Proof.
  intros Hbrk Hpr. split; [|destruct m; reflexivity].
  rewrite findGraphemeInfo_clusters, (clusters_printable Hbrk tab_width Hpr).
  assert (Hnone : forall n a col,
             a + n <= length text -> infos_of m col (unit_clusters text a n) = []).
  { induction n as [|n IH]; intros a col Ha; [reflexivity|].
    rewrite unit_clusters_S, infos_of_cons, IH by lia.
    unfold listed, cluster_is_multibyte, cluster_is_tab, unit_cluster.
    cbn [cl_codepoints existsb cp_size cp_byte Nat.eqb negb orb].
    pose proof (@printable_at text Hpr a ltac:(lia)) as Hb.
    replace (byte_at text a =? 9)%Z with false by (symmetry; apply Z.eqb_neq; lia).
    reflexivity. }
  rewrite Hnone by lia. apply append_checked_nil.
Qed.

Lemma findGraphemeInfo_ascii_fast_path_witness :
  ascii_always_breaks (U := uucode_model)
  /\ Forall printable hello_ascii
  /\ findGraphemeInfo (U := uucode_model) hello_ascii 4 false unicode [] = Some [].
Proof.
  assert (Hpr : Forall printable hello_ascii).
  { unfold hello_ascii, printable. repeat constructor; vm_compute; congruence. }
  split; [exact UucodeModelFacts.model_ascii_breaks|].
  split; [exact Hpr|].
  exact (proj1 (@findGraphemeInfo_ascii_fast_path uucode_model hello_ascii 4 unicode []
                  UucodeModelFacts.model_ascii_breaks Hpr)).
Defined.

(** ** findWrapBreaks *)

Module WrapBreakFacts.

Import WrapBreaks.

Lemma holds_from_spec (f : Z -> bool) (n : nat) :
  forall lo,
    holds_from f lo n = true ->
    forall z, (lo <= z < lo + Z.of_nat n)%Z -> f z = true.
Proof.
  induction n as [|n IH]; intros lo H z Hz; [lia|].
  cbn [holds_from] in H. destruct (f lo) eqn:E; [|discriminate].
  destruct (Z.eq_dec z lo) as [->|Hne]; [assumption|].
  apply (IH (lo + 1)%Z H). lia.
Qed.

Lemma same_positions_eq :
  forall l1 l2, same_positions l1 l2 = true -> l1 = l2.
Proof.
  induction l1 as [|x r1 IH]; intros [|y r2] H; cbn [same_positions] in H;
    try discriminate; [reflexivity|].
  apply andb_true_iff in H. destruct H as [Hx Hr]. apply Nat.eqb_eq in Hx.
  f_equal; [assumption | apply IH; assumption].
Qed.

(** The loop with [@ctz] and [bitmask &= bitmask - 1] visits the set bits
    of a 16-bit mask from the lowest to the highest. *)
Lemma bit_positions_spec (bitmask : Z) :
  (0 <= bitmask < 2 ^ 16)%Z ->
  bit_positions (S vector_len) bitmask
  = filter (fun i => Z.testbit bitmask (Z.of_nat i)) lanes.
Proof.
  intros H. apply same_positions_eq.
  apply (@holds_from_spec
           (fun m => same_positions (bit_positions (S vector_len) m)
                       (filter (fun i => Z.testbit m (Z.of_nat i)) lanes))
           (Z.to_nat (2 ^ 16)) 0%Z).
  - vm_compute. reflexivity.
  - lia.
Qed.


Lemma match_mask_switch (b : Z) :
  (0 <= b < 256)%Z -> match_mask b = isAsciiWrapBreak b.
Proof.
  intros H.
  pose proof (@Z_range_check
                (fun b => Bool.eqb (match_mask b) (isAsciiWrapBreak b)) 0 256
                ltac:(vm_compute; reflexivity) b ltac:(lia)) as E.
  cbn beta in E. apply Bool.eqb_prop in E. exact E.
Qed.

Lemma bits_loop_positions (pos char_offset : nat) :
  forall fuel bitmask breaks,
    bits_loop fuel bitmask pos char_offset breaks
    = breaks ++ map (fun i => mkWrapBreak (pos + i) (char_offset + i))
                    (bit_positions fuel bitmask).
Proof.
  induction fuel as [|fuel IH]; intros bitmask breaks; cbn [bits_loop bit_positions].
  - rewrite app_nil_r. reflexivity.
  - destruct (bitmask =? 0)%Z; [rewrite app_nil_r; reflexivity|].
    rewrite IH. cbn [map]. rewrite <- app_assoc. reflexivity.
Qed.

(** The bitmask has bit [j] set exactly when lane [j] matched. *)
Lemma to_bitmask_spec (text : list byte) (pos : nat) :
  forall n i bitmask,
    (0 <= bitmask < 2 ^ Z.of_nat i)%Z ->
    (forall j, j < i ->
               Z.testbit bitmask (Z.of_nat j) = match_mask (byte_at text (pos + j))) ->
    let m := to_bitmask n text pos i bitmask in
    (0 <= m < 2 ^ Z.of_nat (i + n))%Z
    /\ forall j, j < i + n ->
                 Z.testbit m (Z.of_nat j) = match_mask (byte_at text (pos + j)).
Proof.
  induction n as [|n IH]; intros i bitmask Hr Hbits m; subst m; cbn [to_bitmask].
  - rewrite Nat.add_0_r. auto.
  - replace (i + S n) with ((i + 1) + n) by lia.
    assert (Hpow : (2 ^ Z.of_nat (i + 1) = 2 * 2 ^ Z.of_nat i)%Z).
    { replace (Z.of_nat (i + 1)) with (Z.succ (Z.of_nat i)) by lia.
      apply Z.pow_succ_r. lia. }
    assert (Hhigh : Z.testbit bitmask (Z.of_nat i) = false).
    { destruct (Z.eq_dec bitmask 0) as [->|Hnz]; [apply Z.bits_0|].
      apply Z.bits_above_log2; [lia|].
      apply Z.log2_lt_pow2; lia. }
    apply IH.
    + destruct (match_mask (byte_at text (pos + i))); [|lia].
      rewrite Z.shiftl_1_l.
      apply (@DecodeFacts.lor_bound (Z.of_nat (i + 1))); lia.
    + intros j Hj.
      destruct (match_mask (byte_at text (pos + i))) eqn:Hm.
      * rewrite Z.lor_spec, Z.shiftl_1_l, Z.pow2_bits_eqb by lia.
        destruct (Nat.eq_dec j i) as [->|Hne].
        -- rewrite Z.eqb_refl, orb_true_r. symmetry. exact Hm.
        -- replace (Z.of_nat i =? Z.of_nat j)%Z with false
             by (symmetry; apply Z.eqb_neq; lia).
           rewrite orb_false_r. apply Hbits. lia.
      * destruct (Nat.eq_dec j i) as [->|Hne]; [congruence|].
        apply Hbits. lia.
Qed.

Lemma filter_seq_shift (f : nat -> bool) (a : nat) :
  forall n k,
    filter f (seq (a + k) n) = map (Nat.add a) (filter (fun i => f (a + i)) (seq k n)).
Proof.
  induction n as [|n IH]; intros k; [reflexivity|].
  cbn [seq filter]. replace (S (a + k)) with (a + S k) by lia. rewrite IH.
  destruct (f (a + k)); reflexivity.
Qed.

Lemma filter_seq_from (f : nat -> bool) (a n : nat) :
  filter f (seq a n) = map (Nat.add a) (filter (fun i => f (a + i)) (seq 0 n)).
Proof.
  rewrite <- (filter_seq_shift f a n 0), Nat.add_0_r. reflexivity.
Qed.

(** The fast path of a chunk of ASCII bytes: one break for every break
    character of the chunk, in order. *)
Lemma fast_path_breaks (text : list byte) (pos char_offset : nat)
    (breaks : list WrapBreak) :
  bits_loop (S vector_len) (to_bitmask vector_len text pos 0 0) pos char_offset breaks
  = breaks
    ++ map (fun i => mkWrapBreak i (char_offset + (i - pos)))
         (ascii_breaks_between text pos vector_len).
Proof.
  rewrite bits_loop_positions. f_equal.
  destruct (@to_bitmask_spec text pos vector_len 0 0%Z ltac:(cbn; lia)
              ltac:(intros j Hj; lia)) as [Hr Hbits].
  rewrite bit_positions_spec by exact Hr.
  unfold ascii_breaks_between.
  rewrite filter_seq_from, map_map.
  assert (Hf : filter (fun i => Z.testbit (to_bitmask vector_len text pos 0 0)
                                  (Z.of_nat i)) lanes
               = filter (fun i => isAsciiWrapBreak (byte_at text (pos + i)))
                   (seq 0 vector_len)).
  { apply filter_ext_in. intros i Hi. apply in_seq in Hi.
    rewrite Hbits by lia. apply match_mask_switch. apply byte_at_range. }
  rewrite Hf. apply map_ext. intros i. f_equal. lia.
Qed.

End WrapBreakFacts.

Section WrapAsciiFacts.

Context {U : Uucode}.

Variable text : list byte.
Variable plain : Prop.

Hypothesis text_ascii : forall i, i < length text -> (byte_at text i < 0x80)%Z.
Hypothesis plain_breaks : plain -> ascii_always_breaks.
Hypothesis plain_printable : plain -> Forall printable text.

Lemma ascii_breaks_between_app (a n k : nat) :
  ascii_breaks_between text a (n + k)
  = ascii_breaks_between text a n ++ ascii_breaks_between text (a + n) k.
Proof.
  unfold ascii_breaks_between. rewrite seq_app, filter_app. reflexivity.
Qed.

Lemma ascii_breaks_between_one (a : nat) :
  ascii_breaks_between text a 1
  = if isAsciiWrapBreak (byte_at text a) then [a] else [].
Proof. reflexivity. Qed.

Lemma ascii_breaks_between_ge (a n i : nat) :
  In i (ascii_breaks_between text a n) -> a <= i < a + n.
Proof.
  unfold ascii_breaks_between. intros H. apply filter_In in H.
  destruct H as [H _]. apply in_seq in H. exact H.
Qed.

Lemma wrap_ascii_start :
  wrap_ascii_state text plain 0 (mkWrapScan 0 None break_default []).
Proof.
  unfold wrap_ascii_state. cbn. auto.
Qed.

Lemma wrap_ascii_step (q : nat) (st : WrapScan) :
  q < length text ->
  wrap_ascii_state text plain q st ->
  wrap_ascii_state text plain (q + 1)
    (wrap_visit st q (byte_at text q) false (isAsciiWrapBreak (byte_at text q))).
Proof.
  intros Hq [Hoff Hplain]. unfold wrap_visit.
  destruct (wrap_is_break false (wsc_prev_cp st) (byte_at text q) (wsc_break_state st))
    as [brk bs1] eqn:Hbrk.
  unfold wrap_ascii_state.
  cbn [wsc_breaks wsc_char_offset wsc_prev_cp].
  rewrite ascii_breaks_between_app, ascii_breaks_between_one. cbn [Nat.add].
  split.
  - destruct (isAsciiWrapBreak (byte_at text q)).
    + rewrite map_app, Hoff. reflexivity.
    + rewrite app_nil_r. exact Hoff.
  - intros Hp. destruct (Hplain Hp) as (Hco & Hbr & Hprev).
    assert (Hb : (32 <= byte_at text q <= 126)%Z)
      by (apply (printable_at (plain_printable Hp)); assumption).
    assert (Htrue : brk = true).
    { unfold wrap_is_break in Hbrk. cbn [andb] in Hbrk. rewrite Hprev in Hbrk.
      destruct q as [|q']; [congruence|].
      assert (Hp' : (32 <= byte_at text q' <= 126)%Z)
        by (apply (printable_at (plain_printable Hp)); lia).
      unfold out_of_table in Hbrk.
      replace (byte_at text q' =? 65533)%Z with false in Hbrk
        by (symmetry; apply Z.eqb_neq; lia).
      replace (1114111 <? byte_at text q')%Z with false in Hbrk
        by (symmetry; apply Z.ltb_ge; lia).
      cbn [orb] in Hbrk.
      pose proof (plain_breaks Hp (wsc_break_state st) Hp' Hb) as Hbreak.
      rewrite Hbrk in Hbreak. exact Hbreak. }
    subst brk. split; [lia|]. split.
    + destruct (isAsciiWrapBreak (byte_at text q)).
      * rewrite map_app, Hbr, Hco. reflexivity.
      * rewrite app_nil_r. exact Hbr.
    + rewrite Nat.add_1_r. reflexivity.
Qed.

Lemma wrap_tail_loop_ascii :
  forall fuel q st,
    length text - q <= fuel -> q <= length text ->
    wrap_ascii_state text plain q st ->
    wrap_ascii_state text plain (length text) (wrap_tail_loop fuel text q st).
Proof.
  induction fuel as [|fuel IH]; intros q st Hf Hq Hst; cbn [wrap_tail_loop].
  - replace (length text) with q by lia. exact Hst.
  - destruct (q <? length text) eqn:Hlt.
    + apply Nat.ltb_lt in Hlt.
      pose proof (text_ascii Hlt) as Hb. apply Z.ltb_lt in Hb. rewrite Hb.
      apply IH; [lia | lia |]. apply wrap_ascii_step; assumption.
    + apply Nat.ltb_ge in Hlt. replace (length text) with q by lia. exact Hst.
Qed.

Lemma wrap_ascii_chunk (q : nat) (st : WrapScan) :
  q + vector_len <= length text ->
  wrap_ascii_state text plain q st ->
  wrap_ascii_state text plain (q + vector_len)
    (mkWrapScan (wsc_char_offset st + vector_len)
       (Some (byte_at text (q + vector_len - 1))) (wsc_break_state st)
       (WrapBreaks.bits_loop (S vector_len)
          (WrapBreaks.to_bitmask vector_len text q 0 0) q (wsc_char_offset st)
          (wsc_breaks st))).
Proof.
  intros Hq [Hoff Hplain]. unfold wrap_ascii_state.
  cbn [wsc_breaks wsc_char_offset wsc_prev_cp].
  rewrite WrapBreakFacts.fast_path_breaks, ascii_breaks_between_app. cbn [Nat.add].
  split.
  - rewrite map_app, Hoff, map_map. cbn [wb_byte_offset]. rewrite map_id. reflexivity.
  - intros Hp. destruct (Hplain Hp) as (Hco & Hbr & Hprev).
    split; [lia|]. split.
    + rewrite map_app, Hbr. f_equal. apply map_ext_in. intros i Hi.
      apply ascii_breaks_between_ge in Hi. unfold plain_break. f_equal. lia.
    + unfold vector_len. replace (q + 16) with (S (q + 15)) by lia.
      f_equal. f_equal. lia.
Qed.

Lemma wrap_vec_loop_ascii :
  forall fuel q st,
    q <= length text ->
    wrap_ascii_state text plain q st ->
    let out := wrap_vec_loop fuel text q st in
    q <= snd out <= length text /\ wrap_ascii_state text plain (snd out) (fst out).
Proof.
  induction fuel as [|fuel IH]; intros q st Hq Hst out; subst out; cbn [wrap_vec_loop].
  - cbn [fst snd]. split; [lia | exact Hst].
  - destruct (q + vector_len <=? length text) eqn:Hle;
      [|cbn [fst snd]; split; [lia | exact Hst]].
    apply Nat.leb_le in Hle.
    assert (Hany : chunk_any (fun b => (128 <=? b)%Z) text q vector_len = false).
    { apply chunk_any_false. intros i Hi. apply Z.leb_gt. apply text_ascii. lia. }
    rewrite Hany. cbn [negb].
    match goal with
    | |- context [wrap_vec_loop fuel text ?p ?s] =>
        destruct (IH p s Hle (wrap_ascii_chunk Hle Hst)) as [Hr Hs]
    end.
    split; [lia | exact Hs].
Qed.

Lemma findWrapBreaks_ascii_state (m : WidthMethod) :
  exists st,
    findWrapBreaks text m = wsc_breaks st
    /\ wrap_ascii_state text plain (length text) st.
Proof.
  unfold findWrapBreaks.
  pose proof (wrap_vec_loop_ascii (length text) (Nat.le_0_l _) wrap_ascii_start) as H.
  cbv zeta in H.
  destruct (wrap_vec_loop (length text) text 0 (mkWrapScan 0 None break_default []))
    as [st q].
  cbn [fst snd] in H. destruct H as [Hq Hst].
  eexists. split; [reflexivity|].
  apply wrap_tail_loop_ascii; [lia | lia | exact Hst].
Qed.

End WrapAsciiFacts.

(** [find_wrap_breaks] on a text of ASCII bytes (all below 0x80): the byte
    offsets reported are the positions of the seventeen break characters
    (space, tab, [-], [/], [\], [.], [,], [;], [:], [!], [?] and the six
    brackets), each once and in ascending order, whether a position lies
    in a 16-byte chunk, where the bitmask finds it, or in the remainder.
    When the text is printable ASCII and such characters never join into
    a cluster, the character offset of a break is its byte offset. *)
Theorem findWrapBreaks_ascii {U : Uucode} (text : list byte) (m : WidthMethod) :
  (forall i, i < length text -> (byte_at text i < 0x80)%Z) ->
  map wb_byte_offset (findWrapBreaks text m)
  = ascii_breaks_between text 0 (length text)
  /\ (ascii_always_breaks -> Forall printable text ->
      findWrapBreaks text m
      = map plain_break (ascii_breaks_between text 0 (length text))).
Proof.
  intros Hascii.
  destruct (@findWrapBreaks_ascii_state U text
              (ascii_always_breaks /\ Forall printable text) Hascii
              (fun H => proj1 H) (fun H => proj2 H) m) as (st & E & Hoff & Hplain).
  rewrite E. split; [exact Hoff|].
  intros Hbrk Hpr. destruct (Hplain (conj Hbrk Hpr)) as (_ & Hbr & _). exact Hbr.
Qed.

Lemma findWrapBreaks_ascii_witness :
  (forall i, i < length wrap_sample -> (byte_at wrap_sample i < 0x80)%Z)
  /\ map wb_byte_offset (findWrapBreaks (U := uucode_model) wrap_sample unicode)
     = [5; 11; 12; 17; 20; 22; 27; 30].
Proof.
  assert (H : forall i, i < length wrap_sample -> (byte_at wrap_sample i < 0x80)%Z).
  { apply (proj1 (Forall_byte_at (fun z => (z < 0x80)%Z) wrap_sample)).
    unfold wrap_sample. repeat constructor. }
  split; [exact H|].
  exact (proj1 (@findWrapBreaks_ascii uucode_model wrap_sample unicode H)).
Defined.

(** A two-byte character that straddles the boundary of a 16-byte chunk is
    counted twice: the chunk loop moves on by 16 bytes, and the last loop
    reads the second byte of the character again.  The space after it is
    character 16 of the text and is reported as character 17; one byte
    earlier in the text it is reported as expected. *)
Example findWrapBreaks_chunk_straddle :
  findWrapBreaks (U := uucode_model) straddling_e_acute unicode = [mkWrapBreak 17 17]
  /\ findWrapBreaks (U := uucode_model) inside_e_acute unicode = [mkWrapBreak 16 15].
Proof. split; vm_compute; reflexivity. Qed.

Lemma ascending_app_end (l : list nat) (x : nat) :
  ascending l -> Forall (fun y => y < x) l -> ascending (l ++ [x]).
Proof.
  induction l as [|a r IH]; intros Hl Hx; cbn [app ascending].
  - split; [constructor | exact I].
  - destruct Hl as [Ha Hr]. inversion Hx as [|? ? Hax Hrx]; subst.
    split; [apply Forall_app; split; [exact Ha | constructor; [exact Hax | constructor]]|].
    apply IH; assumption.
Qed.

Lemma ascending_app (l1 l2 : list nat) (b : nat) :
  ascending l1 -> ascending l2 ->
  Forall (fun y => y < b) l1 -> Forall (fun y => b <= y) l2 ->
  ascending (l1 ++ l2).
Proof.
  intros H1 H2 Hlow Hhigh. induction l1 as [|a r IH]; cbn [app ascending]; [exact H2|].
  destruct H1 as [Ha Hr]. inversion Hlow as [|? ? Hab Hrb]; subst.
  split; [|apply IH; assumption].
  apply Forall_app. split; [exact Ha|].
  eapply Forall_impl; [|exact Hhigh]. cbn. intros y Hy. lia.
Qed.

Lemma ascending_filter_seq (f : nat -> bool) :
  forall n a, ascending (filter f (seq a n)).
Proof.
  induction n as [|n IH]; intros a; cbn [seq filter]; [exact I|].
  destruct (f a); [|apply IH].
  cbn [ascending]. split; [|apply IH].
  apply Forall_forall. intros y Hy. apply filter_In in Hy. destruct Hy as [Hy _].
  apply in_seq in Hy. lia.
Qed.

Section WrapSoundFacts.

Context {U : Uucode}.

Variable text : list byte.

Lemma wrap_sound_weaken (b b' : nat) (st : WrapScan) :
  b <= b' -> wrap_sound_state text b st -> wrap_sound_state text b' st.
Proof.
  intros Hb (Hall & Hasc & Hco). split; [|split; [exact Hasc | lia]].
  eapply Forall_impl; [|exact Hall]. cbn. intros br (H1 & H2 & H3).
  split; [exact H1|]. split; [exact H2 | lia].
Qed.

(** Reading the codepoint at [p], where nothing at or after [p] has been
    reported yet. *)
Lemma wrap_sound_visit (p : nat) (st : WrapScan) (curr_cp : Z)
    (check_curr is_wrap_break : bool) :
  p < length text ->
  (is_wrap_break = true ->
   (if (byte_at text p <? 0x80)%Z then isAsciiWrapBreak (byte_at text p)
    else isUnicodeWrapBreak (dec_cp (decodeUtf8Unchecked text p))) = true) ->
  wrap_sound_state text p st ->
  wrap_sound_state text (p + 1) (wrap_visit st p curr_cp check_curr is_wrap_break).
Proof.
  intros Hp Hbreak (Hall & Hasc & Hco). unfold wrap_visit.
  destruct (wrap_is_break check_curr (wsc_prev_cp st) curr_cp (wsc_break_state st))
    as [brk bs1].
  unfold wrap_sound_state. cbn [wsc_breaks wsc_char_offset].
  assert (Hall' : Forall (fun br => wrap_break_at text (wb_byte_offset br)
                                    /\ char_offset br <= wb_byte_offset br
                                    /\ wb_byte_offset br < p + 1) (wsc_breaks st)).
  { eapply Forall_impl; [|exact Hall]. cbn. intros br (H1 & H2 & H3).
    split; [exact H1|]. split; [exact H2 | lia]. }
  split; [|split].
  - destruct is_wrap_break; [|exact Hall'].
    apply Forall_app. split; [exact Hall'|].
    constructor; [|constructor]. cbn [wb_byte_offset char_offset].
    split; [split; [exact Hp | apply Hbreak; reflexivity]|]. lia.
  - destruct is_wrap_break; [|exact Hasc].
    rewrite map_app. cbn [map wb_byte_offset]. apply ascending_app_end; [exact Hasc|].
    apply Forall_map. eapply Forall_impl; [|exact Hall]. cbn. intros br (_ & _ & H3).
    exact H3.
  - destruct brk; lia.
Qed.

Lemma wrap_mixed_chunk_sound (pos : nat) :
  pos + vector_len <= length text ->
  forall fuel i st,
    wrap_sound_state text (Nat.min (pos + i) (pos + vector_len)) st ->
    wrap_sound_state text (pos + vector_len)
      (wrap_mixed_chunk_loop fuel text pos i st).
Proof.
  intros Hchunk.
  induction fuel as [|fuel IH]; intros i st Hst; cbn [wrap_mixed_chunk_loop].
  - apply (wrap_sound_weaken (b := Nat.min (pos + i) (pos + vector_len))); [lia | exact Hst].
  - destruct (i <? vector_len) eqn:Hlt.
    + apply Nat.ltb_lt in Hlt. rewrite Nat.min_l in Hst by lia.
      assert (Hp : pos + i < length text) by lia.
      destruct (byte_at text (pos + i) <? 128)%Z eqn:Hb.
      * apply IH.
        apply (wrap_sound_weaken (b := pos + i + 1)); [lia|].
        apply wrap_sound_visit; [exact Hp | | exact Hst].
        intros H. rewrite Hb. exact H.
      * destruct (length text <? pos + i + dec_len (decodeUtf8Unchecked text (pos + i))).
        -- apply (wrap_sound_weaken (b := pos + i)); [lia | exact Hst].
        -- apply IH.
           pose proof (DecodeFacts.decode_len_pos text (pos + i)) as Hlen.
           apply (wrap_sound_weaken (b := pos + i + 1)); [lia|].
           apply wrap_sound_visit; [exact Hp | | exact Hst].
           intros H. rewrite Hb. exact H.
    + apply Nat.ltb_ge in Hlt.
      apply (wrap_sound_weaken (b := Nat.min (pos + i) (pos + vector_len)));
        [lia | exact Hst].
Qed.

Lemma wrap_fast_chunk_sound (pos : nat) (st : WrapScan) :
  pos + vector_len <= length text ->
  chunk_any (fun b => (128 <=? b)%Z) text pos vector_len = false ->
  wrap_sound_state text pos st ->
  wrap_sound_state text (pos + vector_len)
    (mkWrapScan (wsc_char_offset st + vector_len)
       (Some (byte_at text (pos + vector_len - 1))) (wsc_break_state st)
       (WrapBreaks.bits_loop (S vector_len)
          (WrapBreaks.to_bitmask vector_len text pos 0 0) pos (wsc_char_offset st)
          (wsc_breaks st))).
Proof.
  intros Hchunk Hany (Hall & Hasc & Hco).
  pose proof (proj1 (chunk_any_false _ _ _ _) Hany) as Hascii. cbn beta in Hascii.
  unfold wrap_sound_state. cbn [wsc_breaks wsc_char_offset].
  rewrite WrapBreakFacts.fast_path_breaks.
  assert (Hnew : forall i, In i (ascii_breaks_between text pos vector_len) ->
                           pos <= i < pos + vector_len
                           /\ isAsciiWrapBreak (byte_at text i) = true).
  { intros i Hi. unfold ascii_breaks_between in Hi. apply filter_In in Hi.
    destruct Hi as [Hi Hb]. apply in_seq in Hi. auto. }
  split; [|split; [|lia]].
  - apply Forall_app. split.
    + eapply Forall_impl; [|exact Hall]. cbn. intros br (H1 & H2 & H3).
      split; [exact H1|]. split; [exact H2 | lia].
    + apply Forall_map. apply Forall_forall. intros i Hi.
      destruct (Hnew i Hi) as [Hr Hb]. cbn [wb_byte_offset char_offset].
      split; [|lia]. split; [lia|].
      replace (byte_at text i <? 128)%Z with true; [exact Hb|].
      symmetry. apply Z.ltb_lt. specialize (Hascii i Hr). lia.
  - rewrite map_app, map_map. cbn [wb_byte_offset]. rewrite map_id.
    apply (@ascending_app _ _ pos); [exact Hasc | apply ascending_filter_seq | |].
    + apply Forall_map. eapply Forall_impl; [|exact Hall]. cbn. intros br (_ & _ & H3).
      exact H3.
    + apply Forall_forall. intros i Hi. destruct (Hnew i Hi) as [Hr _]. lia.
Qed.

Lemma wrap_vec_loop_sound :
  forall fuel pos st,
    pos <= length text ->
    wrap_sound_state text pos st ->
    let out := wrap_vec_loop fuel text pos st in
    pos <= snd out <= length text /\ wrap_sound_state text (snd out) (fst out).
Proof.
  induction fuel as [|fuel IH]; intros pos st Hpos Hst out; subst out;
    cbn [wrap_vec_loop].
  - cbn [fst snd]. split; [lia | exact Hst].
  - destruct (pos + vector_len <=? length text) eqn:Hle;
      [|cbn [fst snd]; split; [lia | exact Hst]].
    apply Nat.leb_le in Hle.
    destruct (chunk_any (fun b => (128 <=? b)%Z) text pos vector_len) eqn:Hany;
      cbn [negb].
    + assert (Hst0 : wrap_sound_state text (Nat.min (pos + 0) (pos + vector_len)) st)
        by (rewrite Nat.min_l, Nat.add_0_r by lia; exact Hst).
      pose proof (@wrap_mixed_chunk_sound pos Hle vector_len 0 st Hst0) as Hs.
      destruct (IH _ _ Hle Hs) as [Hr Hs']. split; [lia | exact Hs'].
    + pose proof (@wrap_fast_chunk_sound pos st Hle Hany Hst) as Hs.
      destruct (IH _ _ Hle Hs) as [Hr Hs']. split; [lia | exact Hs'].
Qed.

Lemma wrap_tail_loop_sound :
  forall fuel i st,
    wrap_sound_state text (Nat.min i (length text)) st ->
    wrap_sound_state text (length text) (wrap_tail_loop fuel text i st).
Proof.
  induction fuel as [|fuel IH]; intros i st Hst; cbn [wrap_tail_loop].
  - apply (wrap_sound_weaken (b := Nat.min i (length text))); [lia | exact Hst].
  - destruct (i <? length text) eqn:Hlt.
    + apply Nat.ltb_lt in Hlt. rewrite Nat.min_l in Hst by lia.
      destruct (byte_at text i <? 128)%Z eqn:Hb.
      * apply IH.
        apply (wrap_sound_weaken (b := i + 1)); [lia|].
        apply wrap_sound_visit; [exact Hlt | | exact Hst].
        intros H. rewrite Hb. exact H.
      * destruct (length text <? i + dec_len (decodeUtf8Unchecked text i)).
        -- apply (wrap_sound_weaken (b := i)); [lia | exact Hst].
        -- apply IH.
           pose proof (DecodeFacts.decode_len_pos text i) as Hlen.
           apply (wrap_sound_weaken (b := i + 1)); [lia|].
           apply wrap_sound_visit; [exact Hlt | | exact Hst].
           intros H. rewrite Hb. exact H.
    + apply Nat.ltb_ge in Hlt.
      apply (wrap_sound_weaken (b := Nat.min i (length text))); [lia | exact Hst].
Qed.

End WrapSoundFacts.

(** [find_wrap_breaks] on any input, malformed UTF-8 included: every
    break reported lies inside the text, at a byte that holds an ASCII
    break character or starts a sequence the decoder reads as one of the
    Unicode break codepoints; its character offset never exceeds its byte
    offset; and the byte offsets are strictly ascending, so no position
    is reported twice. *)
Theorem findWrapBreaks_sound {U : Uucode} (text : list byte) (m : WidthMethod) :
  Forall (fun br => wrap_break_at text (wb_byte_offset br)
                    /\ char_offset br <= wb_byte_offset br) (findWrapBreaks text m)
  /\ ascending (map wb_byte_offset (findWrapBreaks text m))
  /\ findWrapBreaks [] m = [].
Proof.
  assert (H0 : wrap_sound_state text 0 (mkWrapScan 0 None break_default [])).
  { unfold wrap_sound_state. cbn. auto. }
  pose proof (wrap_vec_loop_sound (length text) (Nat.le_0_l _) H0) as H.
  cbv zeta in H. unfold findWrapBreaks.
  destruct (wrap_vec_loop (length text) text 0 (mkWrapScan 0 None break_default []))
    as [st q].
  cbn [fst snd] in H. destruct H as [Hq Hst].
  assert (Hst' : wrap_sound_state text (Nat.min q (length text)) st)
    by (rewrite Nat.min_l by lia; exact Hst).
  destruct (@wrap_tail_loop_sound U text (length text) q st Hst') as (Hall & Hasc & _).
  split; [|split; [exact Hasc | reflexivity]].
  eapply Forall_impl; [|exact Hall]. cbn. intros br (H1 & H2 & _). auto.
Qed.

(** ** findPosByWidth and findWrapPosByWidth side by side *)

Lemma pos_wrap_clusters (max_columns text_len : nat) :
  forall cls a cols cnt cnt',
    chain a cls text_len ->
    let p := pos_clusters max_columns false cols cnt cls text_len in
    let w := wrap_clusters max_columns cols cnt' cls text_len in
    let before := cols + total_width (firstn (length cls - 1) cls) in
    (before < max_columns < cols + total_width cls ->
     byte_offset p = text_len /\ columns_used p = cols + total_width cls
     /\ byte_offset w = end_after a (firstn (length cls - 1) cls)
     /\ columns_used w = before)
    /\ (~ (before < max_columns < cols + total_width cls) ->
        byte_offset p = byte_offset w /\ columns_used p = columns_used w).
Proof.
  induction cls as [|c rest IH]; intros a cols cnt cnt' Hch p w before;
    subst p w before.
  - cbn. split; [lia | auto].
  - destruct Hch as [Hstart Hch].
    destruct rest as [|c2 rest2].
    + cbn [pos_clusters wrap_clusters length Nat.sub firstn].
      unfold end_after. cbn [rev total_width fold_right].
      destruct (0 <? cl_width c) eqn:Hw.
      * apply Nat.ltb_lt in Hw.
        destruct (max_columns <=? cols) eqn:H1;
          [apply Nat.leb_le in H1 | apply Nat.leb_gt in H1];
          (destruct (max_columns <? cols + cl_width c) eqn:H2;
           [apply Nat.ltb_lt in H2 | apply Nat.ltb_ge in H2]);
          cbn [byte_offset columns_used]; split; intros; try lia;
          repeat split; lia.
      * apply Nat.ltb_ge in Hw. cbn [byte_offset columns_used].
        split; intros; [lia | split; reflexivity].
    + rewrite pos_clusters_cons, wrap_clusters_cons by discriminate.
      cbn [length].
      replace (S (S (length rest2)) - 1) with (S (S (length rest2) - 1)) by lia.
      rewrite total_width_firstn_S, firstn_cons, end_after_cons.
      change (total_width (c :: c2 :: rest2))
        with (cl_width c + total_width (c2 :: rest2)).
      destruct (max_columns <? cols + cl_width c) eqn:Hfit.
      * apply Nat.ltb_lt in Hfit. cbn [byte_offset columns_used].
        split; intros; [lia | split; reflexivity].
      * destruct (IH (cl_end c) (cols + cl_width c) cnt (cnt' + 1) Hch)
          as [Hcross Hsame].
        cbn [length] in Hcross, Hsame.
        split.
        -- intros Hc. assert (Hc' := Hcross ltac:(lia)).
           destruct Hc' as (A & B & C & D).
           repeat split; [exact A | lia | exact C | lia].
        -- intros Hc. apply Hsame. lia.
Qed.

(** The position for a selection start and the wrap position are found
    by the same scan and differ in the last cluster of the text only.
    Under the unicode and no_zwj policies, when the last cluster of the
    text starts before column [max_columns] and ends after it, the wrap
    position stops before that cluster, and [find_pos_by_width] with
    [include_start_before = false] takes it: it returns the end of the
    text and the width of the whole text, more than [max_columns].  In
    every other case the two functions return the same byte offset and
    the same columns. *)
Theorem findPosByWidth_against_wrap {U : Uucode}
    (text : list byte) (max_columns tab_width : nat) (m : WidthMethod) :
  m <> wcwidth ->
  let p := findPosByWidth text max_columns tab_width false false m in
  let w := findWrapPosByWidth text max_columns tab_width false m in
  let cls := clusters m tab_width text in
  let before := total_width (firstn (length cls - 1) cls) in
  (before < max_columns < total_width cls ->
   byte_offset p = length text /\ columns_used p = total_width cls
   /\ byte_offset w = prefix_end (firstn (length cls - 1) cls)
   /\ columns_used w = before)
  /\ (~ (before < max_columns < total_width cls) ->
      byte_offset p = byte_offset w /\ columns_used p = columns_used w).
Proof.
  intros Hm p w cls before. subst p w cls before.
  destruct (list_eq_dec Byte.byte_eq_dec text []) as [->|Hne].
  { rewrite clusters_nil. cbn [length Nat.sub firstn total_width fold_right].
    split; [lia|]. intros _.
    rewrite findPosByWidth_zero, findWrapPosByWidth_zero by auto. auto. }
  destruct (Nat.eq_dec max_columns 0) as [->|Hmax].
  { split; [lia|]. intros _.
    rewrite findPosByWidth_zero, findWrapPosByWidth_zero by auto. auto. }
  assert (Ep : findPosByWidth text max_columns tab_width false false m
               = pos_clusters max_columns false 0 0 (clusters m tab_width text)
                   (length text)).
  { destruct m; [congruence | |]; cbn [findPosByWidth];
      apply findPosByWidthUnicode_clusters; (assumption || lia). }
  assert (Ew : findWrapPosByWidth text max_columns tab_width false m
               = wrap_clusters max_columns 0 0 (clusters m tab_width text) (length text)).
  { destruct m; [congruence | |]; cbn [findWrapPosByWidth];
      apply findWrapPosByWidthUnicode_clusters; (assumption || lia). }
  rewrite Ep, Ew.
  exact (@pos_wrap_clusters max_columns (length text) (clusters m tab_width text)
           0 0 0 0 (clusters_at_chain m tab_width text (Nat.le_0_l _))).
Qed.

(** "a" and the wide U+4E16 with two columns: the last cluster starts at
    column 1 and ends at column 3. *)
Lemma findPosByWidth_against_wrap_witness :
  unicode <> wcwidth
  /\ byte_offset (findPosByWidth (U := uucode_model) a_cjk 2 8 false false unicode)
     = length a_cjk
  /\ byte_offset (findWrapPosByWidth (U := uucode_model) a_cjk 2 8 false unicode)
     = prefix_end
         (firstn (length (clusters (U := uucode_model) unicode 8 a_cjk) - 1)
            (clusters (U := uucode_model) unicode 8 a_cjk)).
Proof.
  assert (Hm : unicode <> wcwidth) by discriminate.
  split; [exact Hm|].
  destruct (proj1 (@findPosByWidth_against_wrap uucode_model a_cjk 2 8 unicode Hm))
    as (Hoff & _ & Hwrap & _).
  - vm_compute. lia.
  - split; [exact Hoff | exact Hwrap].
Defined.

(** ** findGraphemeInfo and the width of the text *)

Section SolidChainFacts.

Context {U : Uucode}.

Variable width_method : WidthMethod.
Variable tab_width : nat.
Variable text : list byte.

Lemma segment_solid_open :
  forall pos,
    pos <= length text ->
    forall prev bs start ws cs,
      start < pos ->
      solid_chain start
        (segment width_method tab_width (codepoints_at text pos) prev bs
           (Some (start, ws, cs)) (length text))
        (length text).
Proof.
  intros pos. pattern pos. apply (position_induction text); clear pos.
  - intros pos Hend Hpos prev bs start ws cs Hs.
    rewrite codepoints_at_end by assumption. cbn. lia.
  - intros pos Hlt IH Hpos prev bs start ws cs Hs.
    rewrite codepoints_at_step by assumption. cbn [segment cp_value cp_pos].
    pose proof (cp_len_at_le text Hlt) as Hle.
    pose proof (cp_len_at_pos text pos) as Hge.
    destruct (isGraphemeBreak prev (curr_cp_at text pos) bs width_method) as [brk bs1].
    destruct brk.
    + cbn [close_cluster app solid_chain cl_start cl_end].
      split; [reflexivity|]. split; [exact Hs|]. apply IH; lia.
    + apply IH; lia.
Qed.

Lemma clusters_solid :
  solid_chain 0 (clusters width_method tab_width text) (length text).
Proof.
  unfold clusters, clusters_at.
  destruct (Nat.eq_dec (length text) 0) as [E|Hne].
  - rewrite codepoints_at_end by lia. cbn. lia.
  - rewrite codepoints_at_step by lia. cbn [segment cp_value cp_pos].
    rewrite isGraphemeBreak_first. cbn [close_cluster app].
    pose proof (cp_len_at_pos text 0) as Hge.
    pose proof (@cp_len_at_le text 0 ltac:(lia)) as Hle.
    apply segment_solid_open; lia.
Qed.

End SolidChainFacts.

Lemma solid_chain_end (b : nat) :
  forall cls a, solid_chain a cls b -> a <= b.
Proof.
  induction cls as [|c rest IH]; intros a H; [exact H|].
  destruct H as (_ & Hlt & Hrest). specialize (IH _ Hrest). lia.
Qed.

Lemma infos_of_inside (m : WidthMethod) (b : nat) :
  forall cls a col,
    solid_chain a cls b ->
    Forall (fun g => a <= info_byte_offset g /\ 1 <= byte_len g
                     /\ info_byte_offset g + byte_len g <= b
                     /\ col <= col_offset g
                     /\ col_offset g + info_width g <= col + total_width cls)
      (infos_of m col cls).
Proof.
  induction cls as [|c rest IH]; intros a col Hch; cbn [infos_of]; [constructor|].
  destruct Hch as (Hstart & Hlt & Hrest).
  pose proof (solid_chain_end _ _ _ Hrest) as Hend.
  assert (Et : total_width (c :: rest) = cl_width c + total_width rest) by reflexivity.
  apply Forall_app. split.
  - destruct (listed m c); [|constructor].
    constructor; [|constructor].
    cbn [info_byte_offset byte_len col_offset info_width]. lia.
  - eapply Forall_impl; [|apply (IH (cl_end c) (col + cl_width c) Hrest)]. cbn beta.
    intros g (H1 & H2 & H3 & H4 & H5). lia.
Qed.

Lemma infos_of_laid_out (m : WidthMethod) (b : nat) :
  forall cls a col, solid_chain a cls b -> laid_out (infos_of m col cls).
Proof.
  induction cls as [|c rest IH]; intros a col Hch; cbn [infos_of]; [exact I|].
  destruct Hch as (Hstart & Hlt & Hrest).
  specialize (IH (cl_end c) (col + cl_width c) Hrest).
  destruct (listed m c); [|exact IH].
  cbn [app laid_out]. split; [|exact IH].
  eapply Forall_impl; [|apply (@infos_of_inside m b rest (cl_end c) (col + cl_width c) Hrest)].
  cbn beta.
  intros g (H1 & H2 & H3 & H4 & H5).
  cbn [info_byte_offset byte_len col_offset info_width]. lia.
Qed.

Lemma infos_of_fits (m : WidthMethod) :
  forall cls col,
    Forall (fun c => cl_end c - cl_start c <= 255 /\ cl_width c <= 255) cls ->
    forallb fits_u8 (infos_of m col cls) = true.
Proof.
  induction cls as [|c rest IH]; intros col Hall; [reflexivity|].
  inversion Hall as [|c' rest' [Hlen Hw] Hrest]; subst.
  cbn [infos_of]. rewrite forallb_app, IH by assumption. rewrite andb_true_r.
  destruct (listed m c); [|reflexivity].
  cbn [forallb]. unfold fits_u8. cbn [byte_len info_width].
  apply Nat.leb_le in Hlen. apply Nat.leb_le in Hw. rewrite Hlen, Hw. reflexivity.
Qed.

(** The entries of [find_grapheme_info] fit the text.  When the function
    returns a list for a text (the list it is given being empty), each
    entry covers at least one byte and ends inside the text, its length
    and its width are at most 255, the entries follow one another without
    overlap in bytes and in columns, and under the unicode and no_zwj
    policies no entry ends to the right of the width
    [calculate_text_width] gives for the text.  And the function does
    return a list when no cluster of the text is longer than 255 bytes or
    wider than 255 columns. *)
Theorem findGraphemeInfo_fits_text {U : Uucode}
    (text : list byte) (tab_width : nat) (m : WidthMethod) :
  (forall entries,
      findGraphemeInfo text tab_width false m [] = Some entries ->
      Forall (fun g => 1 <= byte_len g <= 255 /\ info_width g <= 255
                       /\ info_byte_offset g + byte_len g <= length text) entries
      /\ laid_out entries
      /\ (m <> wcwidth ->
          Forall (fun g => col_offset g + info_width g
                           <= calculateTextWidth text tab_width false m) entries))
  /\ (Forall (fun c => cl_end c - cl_start c <= 255 /\ cl_width c <= 255)
        (clusters m tab_width text) ->
      exists entries, findGraphemeInfo text tab_width false m [] = Some entries).
Proof.
  rewrite findGraphemeInfo_clusters. unfold append_checked. cbn [app].
  split.
  - intros entries Hsome.
    destruct (forallb fits_u8 (infos_of m 0 (clusters m tab_width text))) eqn:Hfit;
      [|discriminate Hsome].
    injection Hsome as <-.
    pose proof (clusters_solid m tab_width text) as Hch.
    pose proof (@infos_of_inside m (length text) _ 0 0 Hch) as Hin.
    pose proof (proj1 (forallb_forall _ _) Hfit) as Hu8.
    split; [|split].
    + apply Forall_forall. intros g Hg.
      pose proof (proj1 (Forall_forall _ _) Hin g Hg) as (H1 & H2 & H3 & _).
      specialize (Hu8 g Hg). unfold fits_u8 in Hu8.
      apply andb_true_iff in Hu8. destruct Hu8 as [Hl Hw].
      apply Nat.leb_le in Hl. apply Nat.leb_le in Hw. lia.
    + apply (@infos_of_laid_out m (length text) _ 0 0 Hch).
    + intros Hm.
      assert (Ew : calculateTextWidth text tab_width false m
                   = total_width (clusters m tab_width text)).
      { destruct m; [congruence | |]; cbn [calculateTextWidth];
          apply calculateTextWidthUnicode_clusters. }
      rewrite Ew. eapply Forall_impl; [|exact Hin]. cbn beta.
      intros g (_ & _ & _ & _ & H5). exact H5.
  - intros Hsmall. rewrite (infos_of_fits m 0 Hsmall). eauto.
Qed.

Lemma findGraphemeInfo_fits_text_witness :
  findGraphemeInfo (U := uucode_model) a_tab_cjk_e_acute 4 false unicode []
  = Some [mkGraphemeInfo 1 1 4 1; mkGraphemeInfo 2 3 2 5; mkGraphemeInfo 5 3 1 7]
  /\ unicode <> wcwidth
  /\ Forall (fun g => col_offset g + info_width g
                      <= calculateTextWidth (U := uucode_model) a_tab_cjk_e_acute 4
                           false unicode)
       [mkGraphemeInfo 1 1 4 1; mkGraphemeInfo 2 3 2 5; mkGraphemeInfo 5 3 1 7].
Proof.
  assert (He : findGraphemeInfo (U := uucode_model) a_tab_cjk_e_acute 4 false unicode []
               = Some [mkGraphemeInfo 1 1 4 1; mkGraphemeInfo 2 3 2 5;
                       mkGraphemeInfo 5 3 1 7])
    by (vm_compute; reflexivity).
  assert (Hm : unicode <> wcwidth) by discriminate.
  split; [exact He|]. split; [exact Hm|].
  exact (proj2 (proj2 (proj1 (@findGraphemeInfo_fits_text uucode_model
                                a_tab_cjk_e_acute 4 unicode) _ He)) Hm).
Defined.

(** ** The wrap position as a function of the column limit *)

Lemma total_width_firstn_mono (cls : list Cluster) :
  forall k k', k <= k' -> total_width (firstn k cls) <= total_width (firstn k' cls).
Proof.
  induction cls as [|c rest IH]; intros k k' Hk.
  - rewrite !firstn_nil. apply Nat.le_refl.
  - destruct k as [|k]; [cbn; lia|].
    destruct k' as [|k']; [lia|].
    rewrite !total_width_firstn_S. specialize (IH k k' ltac:(lia)). lia.
Qed.

Lemma end_after_firstn_ge (b : nat) :
  forall cls a k, solid_chain a cls b -> a <= end_after a (firstn k cls).
Proof.
  induction cls as [|c rest IH]; intros a k H.
  - rewrite firstn_nil. cbn. lia.
  - destruct k as [|k]; [cbn; lia|].
    destruct H as (_ & Hlt & Hrest).
    rewrite firstn_cons, end_after_cons. specialize (IH (cl_end c) k Hrest). lia.
Qed.

Lemma end_after_firstn_mono (b : nat) :
  forall cls a k k',
    solid_chain a cls b -> k <= k' ->
    end_after a (firstn k cls) <= end_after a (firstn k' cls).
Proof.
  induction cls as [|c rest IH]; intros a k k' H Hk.
  - rewrite !firstn_nil. apply Nat.le_refl.
  - destruct H as (Hs & Hlt & Hrest).
    destruct k' as [|k']; [replace k with 0 by lia; apply Nat.le_refl|].
    destruct k as [|k].
    + rewrite firstn_cons, end_after_cons.
      pose proof (@end_after_firstn_ge b rest (cl_end c) k' Hrest).
      cbn [firstn end_after rev]. lia.
    + rewrite !firstn_cons, !end_after_cons. apply IH; [exact Hrest | lia].
Qed.

Lemma clusters_nonempty {U : Uucode} (m : WidthMethod) (tab_width : nat)
    (text : list byte) :
  text <> [] -> clusters m tab_width text <> [].
Proof.
  intros Hne. unfold clusters, clusters_at.
  assert (0 < length text) by (destruct text; [congruence | cbn; lia]).
  rewrite codepoints_at_step by lia. cbn [segment cp_value cp_pos].
  rewrite isGraphemeBreak_first. cbn [close_cluster app]. apply segment_nonempty.
Qed.

(** What [wrap_clusters_spec] says of the wrap position of a text. *)
Lemma findWrapPosByWidth_prefix {U : Uucode}
    (text : list byte) (max_columns tab_width : nat) (m : WidthMethod) :
  text <> [] -> 0 < max_columns -> m <> wcwidth ->
  let r := findWrapPosByWidth text max_columns tab_width false m in
  let cls := clusters m tab_width text in
  exists k,
    k <= length cls
    /\ byte_offset r = end_after 0 (firstn k cls)
    /\ columns_used r = total_width (firstn k cls)
    /\ columns_used r <= max_columns
    /\ (forall j, j <= length cls -> total_width (firstn j cls) <= max_columns -> j <= k).
Proof.
  intros Hne Hmax Hm r cls. subst r cls.
  assert (E : findWrapPosByWidth text max_columns tab_width false m
              = wrap_clusters max_columns 0 0 (clusters m tab_width text) (length text)).
  { destruct m; [congruence | |]; cbn [findWrapPosByWidth];
      apply findWrapPosByWidthUnicode_clusters; assumption. }
  rewrite E.
  destruct (@wrap_clusters_spec max_columns (length text)
              (clusters m tab_width text) 0 0 0
              (clusters_at_chain m tab_width text (Nat.le_0_l _)) (Nat.le_0_l _))
    as (k & Hk & Hoff & Hsum & Hle & Hgreat & _).
  exists k. cbn [Nat.add] in *. auto.
Qed.

(** Widening the limit never moves the wrap position back: with more
    columns [find_wrap_pos_by_width] returns a byte offset and a column
    count that are at least as large (unicode and no_zwj policies). *)
Theorem findWrapPosByWidth_monotone {U : Uucode}
    (text : list byte) (max_columns max_columns' tab_width : nat) (m : WidthMethod) :
  m <> wcwidth -> max_columns <= max_columns' ->
  let r := findWrapPosByWidth text max_columns tab_width false m in
  let r' := findWrapPosByWidth text max_columns' tab_width false m in
  byte_offset r <= byte_offset r' /\ columns_used r <= columns_used r'.
Proof.
  intros Hm Hle r r'. subst r r'.
  destruct (list_eq_dec Byte.byte_eq_dec text []) as [->|Hne].
  { rewrite !findWrapPosByWidth_zero by auto. auto. }
  destruct (Nat.eq_dec max_columns 0) as [->|Hmax].
  { rewrite (@findWrapPosByWidth_zero U text 0) by auto. cbn. lia. }
  destruct (@findWrapPosByWidth_prefix U text max_columns tab_width m Hne
              ltac:(lia) Hm) as (k & Hk & Hoff & Hsum & Hfit & _).
  destruct (@findWrapPosByWidth_prefix U text max_columns' tab_width m Hne
              ltac:(lia) Hm) as (k' & Hk' & Hoff' & Hsum' & _ & Hgreat').
  assert (Hkk : k <= k') by (apply Hgreat'; [exact Hk | lia]).
  rewrite Hoff, Hoff', Hsum, Hsum'. split.
  - apply (@end_after_firstn_mono (length text) _ 0 k k' (clusters_solid m tab_width text) Hkk).
  - apply total_width_firstn_mono. exact Hkk.
Qed.

Lemma findWrapPosByWidth_monotone_witness :
  unicode <> wcwidth /\ 7 <= 8
  /\ byte_offset (findWrapPosByWidth (U := uucode_model) hello_world 7 4 false unicode)
     <= byte_offset (findWrapPosByWidth (U := uucode_model) hello_world 8 4 false unicode).
Proof.
  assert (Hm : unicode <> wcwidth) by discriminate.
  assert (Hle : 7 <= 8) by lia.
  split; [exact Hm|]. split; [exact Hle|].
  exact (proj1 (@findWrapPosByWidth_monotone uucode_model hello_world 7 8 4 unicode Hm Hle)).
Defined.

(** Progress.  For a text that is not empty and at least one column, the
    wrap position is byte 0 exactly when the first grapheme cluster alone
    is wider than [max_columns]; in every other case at least one cluster
    is taken (unicode and no_zwj policies). *)
Theorem findWrapPosByWidth_progress {U : Uucode}
    (text : list byte) (max_columns tab_width : nat) (m : WidthMethod) :
  text <> [] -> 0 < max_columns -> m <> wcwidth ->
  (byte_offset (findWrapPosByWidth text max_columns tab_width false m) = 0
   <-> max_columns < head_width (clusters m tab_width text)).
Proof.
  intros Hne Hmax Hm.
  destruct (@findWrapPosByWidth_prefix U text max_columns tab_width m Hne Hmax Hm)
    as (k & Hk & Hoff & Hsum & Hfit & Hgreat).
  pose proof (clusters_solid m tab_width text) as Hch.
  pose proof (clusters_nonempty m tab_width Hne) as Hcls.
  destruct (clusters m tab_width text) as [|c rest]; [congruence|].
  cbn [head_width]. destruct Hch as (Hs & Hlt & Hrest).
  rewrite Hoff. split.
  - intros Hzero.
    destruct k as [|k].
    + destruct (Nat.lt_ge_cases max_columns (cl_width c)) as [H|H]; [exact H|].
      assert (1 <= 0); [|lia].
      apply Hgreat; [cbn; lia|]. rewrite total_width_firstn_S. cbn. lia.
    + rewrite firstn_cons, end_after_cons in Hzero.
      pose proof (@end_after_firstn_ge (length text) rest (cl_end c) k Hrest). lia.
  - intros Hwide. destruct k as [|k]; [reflexivity|].
    rewrite Hsum, total_width_firstn_S in Hfit. lia.
Qed.

Lemma findWrapPosByWidth_progress_witness :
  a_cjk <> [] /\ 0 < 1 /\ unicode <> wcwidth
  /\ byte_offset (findWrapPosByWidth (U := uucode_model) a_cjk 1 8 false unicode) <> 0.
Proof.
  assert (Hne : a_cjk <> []) by discriminate.
  assert (Hm : unicode <> wcwidth) by discriminate.
  assert (Hmax : 0 < 1) by lia.
  split; [exact Hne|]. split; [exact Hmax|]. split; [exact Hm|].
  intros Hzero.
  apply (proj1 (@findWrapPosByWidth_progress uucode_model a_cjk 1 8 unicode Hne Hmax Hm))
    in Hzero.
  vm_compute in Hzero. lia.
Defined.

(** ** The no_zwj policy *)

Section NoZwjFacts.

Context {U : Uucode}.

Variable tab_width : nat.
Variable end_pos : nat.

Lemma isGraphemeBreak_no_zwj (prev : option Z) (curr : Z) (bs : BreakState) :
  prev <> Some 0x200D%Z ->
  isGraphemeBreak prev curr bs no_zwj = isGraphemeBreak prev curr bs unicode.
Proof.
  intros Hp. unfold isGraphemeBreak.
  destruct (negb (isValidCodepoint curr)); [reflexivity|].
  destruct prev as [p|]; [|reflexivity].
  replace (p =? 8205)%Z with false; [reflexivity|].
  symmetry. apply Z.eqb_neq. congruence.
Qed.

Lemma init_same_width_state (cp : Z) (w : nat) :
  same_width_state (GraphemeWidthState_init cp w no_zwj)
    (GraphemeWidthState_init cp w unicode).
Proof.
  unfold same_width_state, GraphemeWidthState_init. cbn.
  repeat split; discriminate.
Qed.

Lemma addCodepoint_same_width_state (ws1 ws2 : GraphemeWidthState) (cp : Z) (w : nat) :
  same_width_state ws1 ws2 ->
  same_width_state (GraphemeWidthState_addCodepoint ws1 cp w)
    (GraphemeWidthState_addCodepoint ws2 cp w).
Proof.
  intros (Hw & Hh & Hr & Hv & Hi & Hm1 & Hm2).
  destruct ws1 as [w1 h1 r1 v1 i1 m1], ws2 as [w2 h2 r2 v2 i2 m2].
  cbn in Hw, Hh, Hr, Hv, Hi, Hm1, Hm2. subst w2 h2 r2 v2 i2.
  unfold GraphemeWidthState_addCodepoint.
  cbn [gw_width_method width has_width is_regional_indicator_pair has_vs16
         has_indic_virama].
  destruct m1; [congruence | |]; destruct m2; try congruence;
    repeat match goal with
           | |- context [if ?c then _ else _] => destruct c
           end;
    unfold same_width_state; cbn; repeat split; discriminate.
Qed.

Lemma segment_no_zwj :
  forall cps prev bs cur1 cur2,
    zwj_free cps -> prev <> Some 0x200D%Z ->
    match cur1, cur2 with
    | Some (s1, ws1, cs1), Some (s2, ws2, cs2) =>
        s1 = s2 /\ cs1 = cs2 /\ same_width_state ws1 ws2
    | None, None => True
    | _, _ => False
    end ->
    segment no_zwj tab_width cps prev bs cur1 end_pos
    = segment unicode tab_width cps prev bs cur2 end_pos.
Proof.
  induction cps as [|c rest IH]; intros prev bs cur1 cur2 Hfree Hprev Hcur.
  - cbn [segment].
    destruct cur1 as [[[s1 w1] cs1]|], cur2 as [[[s2 w2] cs2]|]; try contradiction.
    + destruct Hcur as (-> & -> & Hw & _). cbn. rewrite Hw. reflexivity.
    + reflexivity.
  - inversion Hfree as [|c' rest' Hc Hrest]; subst.
    cbn [segment]. rewrite isGraphemeBreak_no_zwj by assumption.
    destruct (isGraphemeBreak prev (cp_value c) bs unicode) as [brk bs1].
    assert (Hnext : Some (cp_value c) <> Some 0x200D%Z) by congruence.
    destruct brk.
    + f_equal.
      * destruct cur1 as [[[s1 w1] cs1]|], cur2 as [[[s2 w2] cs2]|]; try contradiction.
        -- destruct Hcur as (-> & -> & Hw & _). cbn. rewrite Hw. reflexivity.
        -- reflexivity.
      * apply IH; [assumption | assumption |].
        split; [reflexivity|]. split; [reflexivity|]. apply init_same_width_state.
    + apply IH; [assumption | assumption |].
      destruct cur1 as [[[s1 w1] cs1]|], cur2 as [[[s2 w2] cs2]|]; try contradiction.
      * destruct Hcur as (-> & -> & Hw).
        split; [reflexivity|]. split; [reflexivity|].
        apply addCodepoint_same_width_state. exact Hw.
      * split; [reflexivity|]. split; [reflexivity|]. apply init_same_width_state.
Qed.

End NoZwjFacts.

Lemma infos_of_cluster_policy :
  forall cls col, infos_of no_zwj col cls = infos_of unicode col cls.
Proof.
  induction cls as [|c rest IH]; intros col; [reflexivity|].
  cbn [infos_of]. rewrite IH. reflexivity.
Qed.

Lemma clusters_no_zwj {U : Uucode} (tab_width : nat) (text : list byte) :
  zwj_free (codepoints text) ->
  clusters no_zwj tab_width text = clusters unicode tab_width text.
Proof.
  intros H. unfold clusters, clusters_at.
  apply segment_no_zwj; [exact H | discriminate | exact I].
Qed.

(** The no_zwj policy matters for texts with a ZERO WIDTH JOINER only: on
    a text in which no codepoint is U+200D it gives the width, the wrap
    position, the position by width and the grapheme entries of the
    unicode policy. *)
Theorem no_zwj_without_zwj {U : Uucode}
    (text : list byte) (max_columns tab_width : nat)
    (is_ascii include_start_before : bool) (result : list GraphemeInfo) :
  zwj_free (codepoints text) ->
  calculateTextWidth text tab_width is_ascii no_zwj
  = calculateTextWidth text tab_width is_ascii unicode
  /\ findWrapPosByWidth text max_columns tab_width is_ascii no_zwj
     = findWrapPosByWidth text max_columns tab_width is_ascii unicode
  /\ findPosByWidth text max_columns tab_width is_ascii include_start_before no_zwj
     = findPosByWidth text max_columns tab_width is_ascii include_start_before unicode
  /\ findGraphemeInfo text tab_width is_ascii no_zwj result
     = findGraphemeInfo text tab_width is_ascii unicode result.
Proof.
  intros Hfree. pose proof (@clusters_no_zwj U tab_width text Hfree) as Hcl.
  destruct is_ascii.
  { rewrite !ascii_flag_width, !ascii_flag_wrap, !findPosByWidth_flag. auto. }
  split; [|split; [|split]].
  - cbn [calculateTextWidth]. rewrite !calculateTextWidthUnicode_clusters, Hcl.
    reflexivity.
  - destruct (list_eq_dec Byte.byte_eq_dec text []) as [->|Hne].
    { rewrite !findWrapPosByWidth_zero by auto. reflexivity. }
    destruct (Nat.eq_dec max_columns 0) as [->|Hmax].
    { rewrite !findWrapPosByWidth_zero by auto. reflexivity. }
    cbn [findWrapPosByWidth].
    rewrite !findWrapPosByWidthUnicode_clusters by (assumption || lia).
    rewrite Hcl. reflexivity.
  - destruct (list_eq_dec Byte.byte_eq_dec text []) as [->|Hne].
    { rewrite !findPosByWidth_zero by auto. reflexivity. }
    destruct (Nat.eq_dec max_columns 0) as [->|Hmax].
    { rewrite !findPosByWidth_zero by auto. reflexivity. }
    cbn [findPosByWidth].
    rewrite !findPosByWidthUnicode_clusters by (assumption || lia).
    rewrite Hcl. reflexivity.
  - rewrite !findGraphemeInfo_clusters, Hcl, infos_of_cluster_policy. reflexivity.
Qed.

Lemma no_zwj_without_zwj_witness :
  zwj_free (codepoints hello_world)
  /\ calculateTextWidth (U := uucode_model) hello_world 4 false no_zwj
     = calculateTextWidth (U := uucode_model) hello_world 4 false unicode.
Proof.
  assert (H : zwj_free (codepoints hello_world)).
  { unfold zwj_free. vm_compute. repeat constructor; discriminate. }
  split; [exact H|].
  exact (proj1 (@no_zwj_without_zwj uucode_model hello_world 7 4 false false [] H)).
Defined.

(** With a joiner the two policies part: the woman astronaut is one
    cluster of width 2 under unicode and two clusters, 2 + 2 columns,
    under no_zwj. *)
Example no_zwj_splits_woman_astronaut :
  calculateTextWidth (U := uucode_model) woman_astronaut 4 false unicode = 2
  /\ calculateTextWidth (U := uucode_model) woman_astronaut 4 false no_zwj = 4.
Proof. split; vm_compute; reflexivity. Qed.

Lemma last_value_app (cs : list Codepoint) (c : Codepoint) :
  last_value (cs ++ [c]) = Some (cp_value c).
Proof. unfold last_value. rewrite rev_app_distr. reflexivity. Qed.

Lemma zwj_only_last_app (c : Codepoint) :
  forall cs,
    zwj_only_last cs -> last_value cs <> Some 0x200D%Z -> zwj_only_last (cs ++ [c]).
Proof.
  induction cs as [|x rest IH]; intros Hcs Hlast; [exact I|].
  destruct rest as [|y rest'].
  - cbn [app zwj_only_last]. split; [|exact I].
    unfold last_value in Hlast. cbn in Hlast. congruence.
  - cbn [app zwj_only_last] in *. destruct Hcs as [Hx Hrest].
    split; [exact Hx|]. apply IH; [exact Hrest|].
    unfold last_value in *. cbn [rev] in *.
    destruct (rev rest' ++ [y]) as [|z zs] eqn:E.
    + destruct (rev rest'); discriminate E.
    + cbn [app] in Hlast. exact Hlast.
Qed.

Lemma isGraphemeBreak_after_zwj {U : Uucode} (curr : Z) (bs : BreakState) :
  fst (isGraphemeBreak (Some 0x200D%Z) curr bs no_zwj) = true.
Proof.
  unfold isGraphemeBreak. destruct (negb (isValidCodepoint curr)); reflexivity.
Qed.

Lemma segment_zwj_last {U : Uucode} (tab_width end_pos : nat) :
  forall cps prev bs cur,
    match cur with
    | Some (_, _, cs) => zwj_only_last cs /\ last_value cs = prev
    | None => True
    end ->
    Forall (fun c => zwj_only_last (cl_codepoints c))
      (segment no_zwj tab_width cps prev bs cur end_pos).
Proof.
  induction cps as [|c rest IH]; intros prev bs cur Hcur.
  - cbn [segment]. destruct cur as [[[s ws] cs]|]; cbn; [|constructor].
    constructor; [apply Hcur | constructor].
  - cbn [segment].
    destruct (isGraphemeBreak prev (cp_value c) bs no_zwj) as [brk bs1] eqn:E.
    destruct brk.
    + apply Forall_app. split.
      * destruct cur as [[[s ws] cs]|]; cbn; [|constructor].
        constructor; [apply Hcur | constructor].
      * apply IH. split; [exact I | reflexivity].
    + apply IH.
      destruct cur as [[[s ws] cs]|]; [|split; [exact I | reflexivity]].
      destruct Hcur as [Hcs Hlast]. split; [|apply last_value_app].
      apply zwj_only_last_app; [exact Hcs|].
      rewrite Hlast. intros ->.
      pose proof (isGraphemeBreak_after_zwj (cp_value c) bs) as Hb.
      rewrite E in Hb. discriminate Hb.
Qed.

(** Under the no_zwj policy [isGraphemeBreak] reports a break after every
    U+200D, whatever follows and whatever the tables say; so in the
    clusters the scanning functions follow a ZERO WIDTH JOINER is never
    followed by another codepoint of the same cluster. *)
Theorem no_zwj_breaks_after_zwj {U : Uucode} (text : list byte) (tab_width : nat) :
  (forall curr bs, fst (isGraphemeBreak (Some 0x200D%Z) curr bs no_zwj) = true)
  /\ Forall (fun c => zwj_only_last (cl_codepoints c)) (clusters no_zwj tab_width text).
Proof.
  split; [apply isGraphemeBreak_after_zwj|].
  unfold clusters, clusters_at. apply segment_zwj_last. exact I.
Qed.

(** ** The cluster policies against wcwidth *)

Lemma vs16_count_app (l1 l2 : list Codepoint) :
  vs16_count (l1 ++ l2) = vs16_count l1 + vs16_count l2.
Proof. unfold vs16_count. rewrite filter_app, length_app. reflexivity. Qed.

(** Adding a codepoint to a cluster adds at most its width, and one column
    more when it is U+FE0F. *)
Lemma addCodepoint_bound {U : Uucode} (ws : GraphemeWidthState) (cp : Z) (w : nat) :
  gw_width_method ws <> wcwidth ->
  let ws' := GraphemeWidthState_addCodepoint ws cp w in
  gw_width_method ws' <> wcwidth
  /\ width ws' <= width ws + w + (if (cp =? 0xFE0F)%Z then 1 else 0).
Proof.
  intros Hm ws'. subst ws'. unfold GraphemeWidthState_addCodepoint.
  destruct ws as [w0 h r v i m]. cbn [gw_width_method width has_width
    is_regional_indicator_pair has_vs16 has_indic_virama] in *.
  destruct m; [congruence | |];
    (destruct (cp =? 65039)%Z;
     [ cbn [gw_width_method width]; split; [discriminate|];
       destruct (h && (w0 =? 1)) eqn:E; [|lia];
       apply andb_true_iff in E; destruct E as [_ E]; apply Nat.eqb_eq in E; lia
     | repeat match goal with
              | |- context [if ?c then _ else _] => destruct c
              | |- context [match ?c with mark_nonspacing => _ | _ => _ end] =>
                  destruct c
              end;
       cbn [gw_width_method width]; split; (discriminate || lia) ]).
Qed.

Lemma segment_width_bound {U : Uucode} (m : WidthMethod) (tab_width end_pos : nat) :
  m <> wcwidth ->
  forall cps prev bs cur,
    match cur with
    | Some (_, ws, cs) =>
        gw_width_method ws <> wcwidth
        /\ width ws <= sum_widths (codepoint_width tab_width) cs + vs16_count cs
    | None => True
    end ->
    Forall (fun c => cl_width c
                     <= sum_widths (codepoint_width tab_width) (cl_codepoints c)
                        + vs16_count (cl_codepoints c))
      (segment m tab_width cps prev bs cur end_pos).
Proof.
  intros Hm.
  assert (Hfresh : forall c,
             gw_width_method
               (GraphemeWidthState_init (cp_value c) (codepoint_width tab_width c) m)
             <> wcwidth
             /\ width (GraphemeWidthState_init (cp_value c)
                         (codepoint_width tab_width c) m)
                <= sum_widths (codepoint_width tab_width) [c] + vs16_count [c]).
  { intros c. unfold GraphemeWidthState_init, sum_widths. cbn. split; [exact Hm | lia]. }
  induction cps as [|c rest IH]; intros prev bs cur Hcur.
  - cbn [segment]. destruct cur as [[[s ws] cs]|]; cbn; [|constructor].
    constructor; [apply Hcur | constructor].
  - cbn [segment].
    destruct (isGraphemeBreak prev (cp_value c) bs m) as [brk bs1].
    destruct brk.
    + apply Forall_app. split.
      * destruct cur as [[[s ws] cs]|]; cbn; [|constructor].
        constructor; [apply Hcur | constructor].
      * apply IH. apply Hfresh.
    + apply IH.
      destruct cur as [[[s ws] cs]|]; [|apply Hfresh].
      destruct Hcur as [Hmw Hw].
      destruct (@addCodepoint_bound U ws (cp_value c) (codepoint_width tab_width c) Hmw)
        as [Hm' Hb].
      split; [exact Hm'|].
      rewrite sum_widths_app, vs16_count_app.
      unfold vs16_count at 2. cbn [filter sum_widths fold_right].
      destruct (cp_value c =? 65039)%Z; cbn [length]; unfold sum_widths in *; lia.
Qed.

Lemma total_width_bound {U : Uucode} (tab_width : nat) (cls : list Cluster) :
  Forall (fun c => cl_width c
                   <= sum_widths (codepoint_width tab_width) (cl_codepoints c)
                      + vs16_count (cl_codepoints c)) cls ->
  total_width cls
  <= sum_widths (codepoint_width tab_width) (concat (map (@cl_codepoints) cls))
     + vs16_count (concat (map (@cl_codepoints) cls)).
Proof.
  induction 1 as [|c l Hc Hl IH]; [cbn; lia|].
  cbn [map concat]. rewrite sum_widths_app, vs16_count_app.
  change (total_width (c :: l)) with (cl_width c + total_width l). lia.
Qed.

(** The cluster policies never make a text wider than the wcwidth policy
    does, apart from U+FE0F: under unicode and no_zwj the width of a text
    is at most its wcwidth width plus the number of its variation
    selectors-16, each of which can widen a narrow character to two
    columns. *)
Theorem width_at_most_wcwidth {U : Uucode}
    (text : list byte) (tab_width : nat) (m : WidthMethod) :
  m <> wcwidth ->
  calculateTextWidth text tab_width false m
  <= calculateTextWidth text tab_width false wcwidth + vs16_count (codepoints text).
Proof.
  intros Hm.
  assert (Ew : calculateTextWidth text tab_width false m
               = total_width (clusters m tab_width text)).
  { destruct m; [congruence | |]; cbn [calculateTextWidth];
      apply calculateTextWidthUnicode_clusters. }
  assert (Ec : calculateTextWidth text tab_width false wcwidth
               = sum_widths (codepoint_width tab_width) (codepoints text)).
  { cbn [calculateTextWidth]. unfold calculateTextWidthWCWidth.
    destruct (length text =? 0) eqn:E.
    - apply Nat.eqb_eq in E. apply length_zero_iff_nil in E. subst. reflexivity.
    - rewrite textWidth_wcwidth_codepoints by lia. reflexivity. }
  rewrite Ew, Ec.
  pose proof (@segment_width_bound U m tab_width (length text) Hm (codepoints text)
                None break_default None I) as Hb.
  pose proof (total_width_bound tab_width Hb) as Ht.
  rewrite segment_concat in Ht. cbn [app] in Ht.
  unfold clusters, clusters_at. exact Ht.
Qed.

Lemma width_at_most_wcwidth_witness :
  unicode <> wcwidth
  /\ calculateTextWidth (U := uucode_model) waving_hand_dark 4 false unicode
     <= calculateTextWidth (U := uucode_model) waving_hand_dark 4 false wcwidth
        + vs16_count (codepoints waving_hand_dark).
Proof.
  assert (Hm : unicode <> wcwidth) by discriminate.
  split; [exact Hm|].
  exact (@width_at_most_wcwidth uucode_model waving_hand_dark 4 unicode Hm).
Defined.
